(** * APBS solvent accessibility ([src/generic/vacc.c]): model and properties

    The C routines of the [Vacc] class are embedded as Rocq functions.

    - A C [double] is a real number of [R]: arithmetic is exact, there is
      no rounding, no NaN and no infinity.  Every statement below is a
      statement about this exact-arithmetic reading of the code.  Where
      the code divides by a quantity that can be zero (a cell size, a
      distance), the quotient of the model is that of the code only when
      it is not zero.
    - A C [int] is an integer of [Z].  The number of cells [nx*ny*nz],
      which the constructors compute in [int] from their arguments, is
      tested against [INT_MAX] by the constructors of the model.
    - [VASSERT] aborts the program; a routine that can reach a failing
      [VASSERT] returns a [result], whose [AssertFail] is that abort.
    - C arrays are lists; a read outside an array returns a fixed default
      and a write outside it is dropped ([zget], [zset]).  The C program
      has no such protection: where a routine does not test an index
      itself, the statements about what the array holds assume that the
      index is inside it.
    - The macros of the MALOC headers ([VSQR], [VMIN2], [VMAX2], [VSQRT],
      [VSIN], [VCOS], [VRINT], [VPI]) are not part of [vacc.c]; they are
      given their mathematical reading.  [VSMALL] and [VLARGE] are taken
      as parameters. *)

From stdpp Require Import base list.
From Stdlib Require Import ZArith Reals Lra Lia Sorted.

Open Scope R_scope.

(** ** Scalars *)

Definition VSQR (x : R) : R := x * x.
Definition VSQRT (x : R) : R := sqrt x.
Definition VSIN (x : R) : R := sin x.
Definition VCOS (x : R) : R := cos x.
Definition Vunit_pi : R := PI.
Definition VPI : R := PI.

(** [VMIN2(x,y) = ((x) <= (y) ? (x) : (y))] and
    [VMAX2(x,y) = ((x) >= (y) ? (x) : (y))], on [int] and on [double]. *)
Definition VMIN2 (x y : Z) : Z := if (x <=? y)%Z then x else y.
Definition VMAX2 (x y : Z) : Z := if (x >=? y)%Z then x else y.
Definition VMAX2R (x y : R) : R := if Rge_dec x y then x else y.

(** The cast [(int)x] of a double: truncation towards zero. *)
Definition int_of_double (x : R) : Z :=
  if Rlt_dec x 0 then Zceil x else Zfloor x.

(** Modelled from the spec: the macro [VRINT] of the MALOC headers, which
    are not under src/; the spec reads it as [round], here the nearest
    integer, halves going up.  (C's [rint] sends a half to its even
    neighbour; the two readings differ at exact halves only.) *)
Definition VRINT (x : R) : Z := Zfloor (x + / 2).

(** ** The result of a routine that may hit a failing [VASSERT] *)

Inductive result (A : Type) : Type :=
  | Ok (a : A)
  | AssertFail.
Arguments Ok {A} a.
Arguments AssertFail {A}.

Definition rbind {A B} (m : result A) (f : A -> result B) : result B :=
  match m with
  | Ok a => f a
  | AssertFail => AssertFail
  end.

Notation "x <-r m ; k" := (rbind m (fun x => k))
  (at level 100, m at next level, right associativity).

(** ** Arrays indexed by a C [int] *)

Definition zget {A} (d : A) (l : list A) (i : Z) : A :=
  if (i <? 0)%Z then d else nth (Z.to_nat i) l d.

Definition zset {A} (l : list A) (i : Z) (x : A) : list A :=
  if (i <? 0)%Z then l else <[Z.to_nat i := x]> l.

(** ** Allocation and the range of [int]

    [Vmem_malloc(vmem, num, size)] is a routine of the MALOC library,
    which is not under src/; every call of it in [vacc.c] is followed by
    [VASSERT(p != VNULL)].  The model puts no bound on memory: a request
    for [num > 0] entries is served.  A request for no entry is not, and
    the program stops there; the constructors themselves skip the
    allocation of an empty bucket ([if ((thee->natoms)[i] > 0)]). *)
Definition Vmem_malloc_ok (num : Z) : bool := (0 <? num)%Z.

(** The largest value of a C [int] (32 bits). *)
Definition INT_MAX : Z := 2147483647.

(** ** Atoms and atom lists ([Vatom], [Valist]) *)

Definition vec3 : Type := R * R * R.

Definition c0 (v : vec3) : R := fst (fst v).
Definition c1 (v : vec3) : R := snd (fst v).
Definition c2 (v : vec3) : R := snd v.

Record Vatom : Type := mkVatom {
  Vatom_getPosition : vec3;
  Vatom_getRadius : R
}.

Definition Valist : Type := list Vatom.

Definition Vatom_null : Vatom := mkVatom (0, 0, 0) 0.

Definition Valist_getNumberAtoms (alist : Valist) : Z :=
  Z.of_nat (length alist).

Definition Valist_getAtom (alist : Valist) (i : Z) : Vatom :=
  zget Vatom_null alist i.

(** ** The accessibility object ([Vacc]) *)

Record Vacc : Type := mkVacc {
  alist : Valist;
  max_radius : R;
  nx : Z;
  ny : Z;
  nz : Z;
  n : Z;
  hx : R;
  hy : R;
  hzed : R;
  grid_lower_corner : vec3;
  natoms : list Z;
  atomIDs : list (list Z);
  atomFlags : list Z;
  area : list R;
  nsphere : Z;
  sphere : list vec3
}.

(** Squared distance, as every routine spells it out:
    [VSQR(a[0]-b[0]) + VSQR(a[1]-b[1]) + VSQR(a[2]-b[2])]. *)
Definition dist2 (a b : vec3) : R :=
  VSQR (c0 a - c0 b) + VSQR (c1 a - c1 b) + VSQR (c2 a - c2 b).

(** ** [Vacc_splineAccAtom] and [Vacc_splineAccGradAtom] *)

Definition Vacc_splineAccAtom (thee : Vacc) (center : vec3) (win infrad : R)
    (atomID : Z) : R :=
  let w2i := 1 / (win * win) in
  let w3i := 1 / (win * win * win) in
  let atom := Valist_getAtom (alist thee) atomID in
  let apos := Vatom_getPosition atom in
  if Rgt_dec (Vatom_getRadius atom) 1 then
    let arad := Vatom_getRadius atom + infrad in
    let stot := arad + win in
    let sctot := VMAX2R 0 (arad - win) in
    let dist := VSQRT (dist2 apos center) in
    if Rle_dec dist sctot then 0
    else if Rge_dec dist stot then 1
    else
      let sm := dist - arad + win in
      let sm2 := VSQR sm in
      0.75 * sm2 * w2i - 0.25 * sm * sm2 * w3i
  else 1.

(** In [Vacc_splineAccGradAtom] the test of [VASSERT(mychi > 0.0)] is
    taken on the exact value of [mychi].  The C program takes it on the
    rounded one, which can be [0.0] just inside the window (where
    [dist - arad + win] cancels), and it divides by [dist], which is
    [0.0] at the atom centre. *)
Definition Vacc_splineAccGradAtom (thee : Vacc) (center : vec3)
    (win infrad : R) (atomID : Z) : result vec3 :=
  let w2i := 1 / (win * win) in
  let w3i := 1 / (win * win * win) in
  let atom := Valist_getAtom (alist thee) atomID in
  let apos := Vatom_getPosition atom in
  if Rgt_dec (Vatom_getRadius atom) 0 then
    let arad := Vatom_getRadius atom + infrad in
    let dist := VSQRT (dist2 apos center) in
    if Rle_dec dist (arad - win) then Ok (0, 0, 0)
    else if Rge_dec dist (arad + win) then Ok (0, 0, 0)
    else
      let sm := dist - arad + win in
      let sm2 := VSQR sm in
      let mychi := 0.75 * sm2 * w2i - 0.25 * sm * sm2 * w3i in
      let mygrad := 1.5 * sm * w2i - 0.75 * sm2 * w3i in
      if Rgt_dec mychi 0 then
        Ok (- (mygrad / mychi) * ((c0 center - c0 apos) / dist),
            - (mygrad / mychi) * ((c1 center - c1 apos) / dist),
            - (mygrad / mychi) * ((c2 center - c2 apos) / dist))
      else AssertFail
  else Ok (0, 0, 0).

(** ** Locating a point on the grid

    Every query starts with the same three casts and the same range test;
    they are written once here. *)

Definition centeri (thee : Vacc) (center : vec3) : Z :=
  int_of_double ((c0 center - c0 (grid_lower_corner thee)) / hx thee).
Definition centerj (thee : Vacc) (center : vec3) : Z :=
  int_of_double ((c1 center - c1 (grid_lower_corner thee)) / hy thee).
Definition centerk (thee : Vacc) (center : vec3) : Z :=
  int_of_double ((c2 center - c2 (grid_lower_corner thee)) / hzed thee).

Definition off_grid (thee : Vacc) (center : vec3) : bool :=
  (centeri thee center <? 0)%Z || (centeri thee center >=? nx thee)%Z ||
  (centerj thee center <? 0)%Z || (centerj thee center >=? ny thee)%Z ||
  (centerk thee center <? 0)%Z || (centerk thee center >=? nz thee)%Z.

(** [ui = nz*ny*centeri + nz*centerj + centerk]. *)
Definition cell_ui (ny nz ii jj kk : Z) : Z :=
  (nz * ny * ii + nz * jj + kk)%Z.

Definition center_ui (thee : Vacc) (center : vec3) : Z :=
  cell_ui (ny thee) (nz thee)
    (centeri thee center) (centerj thee center) (centerk thee center).

(** The atom indices a loop [for (iatom=0; iatom<natoms[ui]; iatom++)]
    reads from [atomIDs[ui][iatom]], in the order it reads them. *)
Definition bucket (thee : Vacc) (ui : Z) : list Z :=
  map (fun iatom => zget 0%Z (zget [] (atomIDs thee) ui) iatom)
      (seqZ 0 (zget 0%Z (natoms thee) ui)).

(** The points a loop [for (ipt=0; ipt<nsphere; ipt++)] reads from
    [sphere[ipt]]. *)
Definition sphere_points (thee : Vacc) : list vec3 :=
  map (fun ipt => zget (0, 0, 0) (sphere thee) ipt) (seqZ 0 (nsphere thee)).

(** ** [Vacc_vdwAcc] *)

Fixpoint vdwAcc_loop (thee : Vacc) (center : vec3) (ids : list Z) : R :=
  match ids with
  | [] => 1
  | id :: ids' =>
      let atom := Valist_getAtom (alist thee) id in
      let apos := Vatom_getPosition atom in
      let dist := dist2 center apos in
      if Rlt_dec dist (VSQR (Vatom_getRadius atom)) then 0
      else vdwAcc_loop thee center ids'
  end.

Definition Vacc_vdwAcc (thee : Vacc) (center : vec3) : R :=
  if off_grid thee center then 1
  else vdwAcc_loop thee center (bucket thee (center_ui thee center)).

(** ** [ivdwAccExclus] and [Vacc_ivdwAcc] *)

Fixpoint ivdwAccExclus_loop (thee : Vacc) (center : vec3) (radius : R)
    (atomID : Z) (ids : list Z) : Z :=
  match ids with
  | [] => 1
  | id :: ids' =>
      if (id =? atomID)%Z then
        ivdwAccExclus_loop thee center radius atomID ids'
      else
        let atom := Valist_getAtom (alist thee) id in
        let apos := Vatom_getPosition atom in
        let dist := dist2 apos center in
        if Rgt_dec (Vatom_getRadius atom) 0 then
          if Rlt_dec dist (VSQR (Vatom_getRadius atom + radius)) then 0%Z
          else ivdwAccExclus_loop thee center radius atomID ids'
        else ivdwAccExclus_loop thee center radius atomID ids'
  end.

Definition ivdwAccExclus (thee : Vacc) (center : vec3) (radius : R)
    (atomID : Z) : result Z :=
  if Rgt_dec radius (max_radius thee) then AssertFail
  else if off_grid thee center then Ok 1%Z
  else Ok (ivdwAccExclus_loop thee center radius atomID
             (bucket thee (center_ui thee center))).

Definition Vacc_ivdwAcc (thee : Vacc) (center : vec3) (radius : R)
    : result R :=
  r <-r ivdwAccExclus thee center radius (-1);
  Ok (IZR r).

(** ** [Vacc_molAcc] and [Vacc_fastMolAcc] *)

Definition probe_point (radius : R) (s center : vec3) : vec3 :=
  (radius * c0 s + c0 center,
   radius * c1 s + c1 center,
   radius * c2 s + c2 center).

Fixpoint molAcc_loop (thee : Vacc) (center : vec3) (radius : R)
    (pts : list vec3) : result R :=
  match pts with
  | [] => Ok 0
  | s :: pts' =>
      let vec := probe_point radius s center in
      a <-r Vacc_ivdwAcc thee vec radius;
      if Req_dec_T a 0 then molAcc_loop thee center radius pts' else Ok 1
  end.

Definition Vacc_molAcc (thee : Vacc) (center : vec3) (radius : R)
    : result R :=
  a <-r Vacc_ivdwAcc thee center radius;
  if Req_dec_T a 1 then Ok 1
  else if Req_dec_T (Vacc_vdwAcc thee center) 0 then Ok 0
  else molAcc_loop thee center radius (sphere_points thee).

Fixpoint fastMolAcc_loop (thee : Vacc) (center : vec3) (radius : R)
    (pts : list vec3) : result R :=
  match pts with
  | [] => Ok 0
  | s :: pts' =>
      let vec := probe_point radius s center in
      a <-r Vacc_ivdwAcc thee vec radius;
      if Req_dec_T a 0 then fastMolAcc_loop thee center radius pts'
      else Ok 1
  end.

Definition Vacc_fastMolAcc (thee : Vacc) (center : vec3) (radius : R)
    : result R :=
  fastMolAcc_loop thee center radius (sphere_points thee).

(** ** [Vacc_splineAcc]

    The routine resets and sets [atomFlags]; it returns the value together
    with the flags it leaves behind.  [VSMALL] is a parameter. *)

Fixpoint splineAcc_loop (VSMALL : R) (thee : Vacc) (center : vec3)
    (win infrad : R) (ids : list Z) (flags : list Z) (value : R)
    : R * list Z :=
  match ids with
  | [] => (value, flags)
  | id :: ids' =>
      if (zget 0%Z flags id =? 0)%Z then
        let flags' := zset flags id 1%Z in
        let value' := value * Vacc_splineAccAtom thee center win infrad id in
        if Rlt_dec value' VSMALL then (value', flags')
        else splineAcc_loop VSMALL thee center win infrad ids' flags' value'
      else splineAcc_loop VSMALL thee center win infrad ids' flags value
  end.

Definition reset_flags (ids : list Z) (flags : list Z) : list Z :=
  fold_left (fun fl id => zset fl id 0%Z) ids flags.

Definition Vacc_splineAcc (VSMALL : R) (thee : Vacc) (center : vec3)
    (win infrad : R) : result (R * list Z) :=
  if Rlt_dec (max_radius thee) (win + infrad) then AssertFail
  else if off_grid thee center then Ok (1, atomFlags thee)
  else
    let ids := bucket thee (center_ui thee center) in
    Ok (splineAcc_loop VSMALL thee center win infrad ids
          (reset_flags ids (atomFlags thee)) 1).

(** ** [Vacc_sphere] *)

Definition sphere_ntheta (npts : Z) : Z :=
  let frac := IZR npts / 4 in
  VRINT (VSQRT (Vunit_pi * frac)).

Definition sphere_dtheta (npts : Z) : R :=
  Vunit_pi / IZR (sphere_ntheta npts).

Definition sphere_nphimax (npts : Z) : Z := (2 * sphere_ntheta npts)%Z.

Definition sphere_theta (npts itheta : Z) : R :=
  sphere_dtheta npts * IZR itheta.

(** [nphi] of the ring [itheta], computed the same way in both passes. *)
Definition sphere_nphi (npts itheta : Z) : Z :=
  let sintheta := VSIN (sphere_theta npts itheta) in
  VRINT (sintheta * IZR (sphere_nphimax npts)).

(** The point written for [(itheta, iphi)]. *)
Definition sphere_point (npts itheta iphi : Z) : vec3 :=
  let theta := sphere_theta npts itheta in
  let sintheta := VSIN theta in
  let costheta := VCOS theta in
  let dphi := 2 * Vunit_pi / IZR (sphere_nphi npts itheta) in
  let phi := dphi * IZR iphi in
  let sinphi := VSIN phi in
  let cosphi := VCOS phi in
  (cosphi * sintheta, sinphi * sintheta, costheta).

(** First pass: [nactual += nphi] over the rings. *)
Definition sphere_count (npts : Z) : Z :=
  fold_left (fun nactual itheta => (nactual + sphere_nphi npts itheta)%Z)
            (seqZ 0 (sphere_ntheta npts)) 0%Z.

(** Second pass: the state is the array [points] and the cursor
    [nactual]. *)
Definition sphere_assign_ring (npts itheta : Z) (st : list vec3 * Z)
    : list vec3 * Z :=
  let nphi := sphere_nphi npts itheta in
  if (nphi =? 0)%Z then st
  else
    fold_left
      (fun '(points, nactual) iphi =>
         (zset points nactual (sphere_point npts itheta iphi),
          (nactual + 1)%Z))
      (seqZ 0 nphi) st.

Definition sphere_assign (npts : Z) (points : list vec3) : list vec3 * Z :=
  fold_left (fun st itheta => sphere_assign_ring npts itheta st)
            (seqZ 0 (sphere_ntheta npts)) (points, 0%Z).

(** The allocation between the two passes,
    [points = Vmem_malloc(thee->vmem, nactual, ...);
     VASSERT(points != VNULL)]: the routine stops there when the first
    pass has counted no point. *)
Definition Vacc_sphere_alloc (npts : Z) : bool :=
  Vmem_malloc_ok (sphere_count npts).

(** [Vacc_sphere(thee, &npts)]: the array returned and the new [*npts],
    when the allocation [Vacc_sphere_alloc] has been served.  The
    constructors test the allocation before they use the result. *)
Definition Vacc_sphere (npts : Z) : list vec3 * Z :=
  let nactual := sphere_count npts in
  let points := replicate (Z.to_nat nactual) ((0, 0, 0) : vec3) in
  sphere_assign npts points.

(** ** [Vacc_ctor2] *)

Record Extent : Type := mkExtent {
  x_min : R; y_min : R; z_min : R;
  x_max : R; y_max : R; z_max : R;
  rmax : R
}.

Definition extent_step (e : Extent) (atom : Vatom) : Extent :=
  let x := c0 (Vatom_getPosition atom) in
  let y := c1 (Vatom_getPosition atom) in
  let z := c2 (Vatom_getPosition atom) in
  mkExtent
    (if Rlt_dec x (x_min e) then x else x_min e)
    (if Rlt_dec y (y_min e) then y else y_min e)
    (if Rlt_dec z (z_min e) then z else z_min e)
    (if Rgt_dec x (x_max e) then x else x_max e)
    (if Rgt_dec y (y_max e) then y else y_max e)
    (if Rgt_dec z (z_max e) then z else z_max e)
    (if Rgt_dec (Vatom_getRadius atom) (rmax e)
     then Vatom_getRadius atom else rmax e).

Definition find_extent (VLARGE : R) (alist : Valist) : Extent :=
  fold_left extent_step alist
    (mkExtent VLARGE VLARGE VLARGE (- VLARGE) (- VLARGE) (- VLARGE) (-1)).

(** The grid geometry fixed before the atoms are binned. *)
Record Grid : Type := mkGrid {
  g_nx : Z; g_ny : Z; g_nz : Z;
  g_hx : R; g_hy : R; g_hzed : R;
  g_lower : vec3;
  g_max_radius : R
}.

(** [i_min..i_max], [j_min..j_max], [k_min..k_max] of one atom.  The
    quotients are those of the code for cell sizes other than zero; for a
    cell size of zero the C program divides by [0.0] and casts the result
    to [int], which no real number describes: the statements that say
    in which cells an atom is filed assume positive cell sizes. *)
Record Span : Type := mkSpan {
  i_min : Z; i_max : Z;
  j_min : Z; j_max : Z;
  k_min : Z; k_max : Z
}.

Definition atom_span (g : Grid) (atom : Vatom) : Span :=
  let x := c0 (Vatom_getPosition atom) - c0 (g_lower g) in
  let y := c1 (Vatom_getPosition atom) - c1 (g_lower g) in
  let z := c2 (Vatom_getPosition atom) - c2 (g_lower g) in
  let rtot := Vatom_getRadius atom + g_max_radius g in
  mkSpan
    (VMAX2 (Zfloor ((x - rtot) / g_hx g)) 0)
    (VMIN2 (Zceil ((x + rtot) / g_hx g)) (g_nx g - 1))
    (VMAX2 (Zfloor ((y - rtot) / g_hy g)) 0)
    (VMIN2 (Zceil ((y + rtot) / g_hy g)) (g_ny g - 1))
    (VMAX2 (Zfloor ((z - rtot) / g_hzed g)) 0)
    (VMIN2 (Zceil ((z + rtot) / g_hzed g)) (g_nz g - 1)).

(** [for (v = lo; v <= hi; v++)]. *)
Definition zrange (lo hi : Z) : list Z := seqZ lo (hi - lo + 1).

(** The [ui] visited by the three nested loops, in the order visited. *)
Definition span_cells (g : Grid) (s : Span) : list Z :=
  flat_map (fun ii =>
    flat_map (fun jj =>
      map (fun kk => cell_ui (g_ny g) (g_nz g) ii jj kk)
          (zrange (k_min s) (k_max s)))
      (zrange (j_min s) (j_max s)))
    (zrange (i_min s) (i_max s)).

(** First pass: [natoms[ui]++] for every cell an atom spans. *)
Definition count_atom (g : Grid) (natoms : list Z) (atom : Vatom) : list Z :=
  fold_left (fun na ui => zset na ui (zget 0 na ui + 1)%Z)
            (span_cells g (atom_span g atom)) natoms.

Definition count_pass (g : Grid) (alist : Valist) (natoms : list Z)
    : list Z :=
  fold_left (count_atom g) alist natoms.

(** Allocation: [atomIDs[i]] gets [natoms[i]] slots when that is positive
    and stays [VNULL] otherwise. *)
Definition alloc_pass (natoms : list Z) : list (list Z) :=
  map (fun c => if (c >? 0)%Z then replicate (Z.to_nat c) 0%Z else [])
      natoms.

(** Second pass: [atomIDs[ui][natoms[ui]] = i; natoms[ui]++]. *)
Definition fill_cell (i : Z) (st : list Z * list (list Z)) (ui : Z)
    : list Z * list (list Z) :=
  let '(na, ids) := st in
  (zset na ui (zget 0 na ui + 1)%Z,
   zset ids ui (zset (zget [] ids ui) (zget 0%Z na ui) i)).

Definition fill_atom (g : Grid) (st : list Z * list (list Z))
    (ia : Z * Vatom) : list Z * list (list Z) :=
  fold_left (fill_cell (fst ia)) (span_cells g (atom_span g (snd ia))) st.

(** The atoms paired with their index [i = 0, 1, ...]. *)
Definition indexed (alist : Valist) : list (Z * Vatom) :=
  zip (seqZ 0 (Z.of_nat (length alist))) alist.

Definition fill_pass (g : Grid) (alist : Valist)
    (st : list Z * list (list Z)) : list Z * list (list Z) :=
  fold_left (fill_atom g) (indexed alist) st.

Definition ctor_grid (VLARGE : R) (alist : Valist) (max_radius : R)
    (nx ny nz : Z) : Grid :=
  let e := find_extent VLARGE alist in
  mkGrid nx ny nz
    ((x_max e - x_min e + 2.84 * (rmax e + max_radius)) / IZR (nx - 1))
    ((y_max e - y_min e + 2.84 * (rmax e + max_radius)) / IZR (ny - 1))
    ((z_max e - z_min e + 2.84 * (rmax e + max_radius)) / IZR (nz - 1))
    (x_min e - 1.42 * (rmax e + max_radius),
     y_min e - 1.42 * (rmax e + max_radius),
     z_min e - 1.42 * (rmax e + max_radius))
    max_radius.

(** [Vacc_ctor2]: [Some thee] is the return value 1 with the object it
    initialised.  [None] is every other outcome: the return value 0 (a
    dimension below 3) and a stop on the [VASSERT] of an allocation of no
    entry (an empty quadrature set, an empty atom list).
    [thee->n = nx*ny*nz] is an [int]; where the product exceeds [INT_MAX]
    the C arithmetic overflows (65536 x 65536 x 3 wraps to 0, and the
    allocation of [natoms] stops the program; in general the arrays
    allocated are not the ones the loops index), and the model
    initialises no object either. *)
Definition Vacc_ctor2 (VLARGE : R) (alist : Valist) (max_radius : R)
    (nx ny nz nsphere : Z) : option Vacc :=
  let n := (nx * ny * nz)%Z in
  if ((nx <? 3) || (ny <? 3) || (nz <? 3))%Z then None
  else if (INT_MAX <? n)%Z then None
  else if negb (Vacc_sphere_alloc nsphere) then None
  else if negb (Vmem_malloc_ok n) then None
  else if negb (Vmem_malloc_ok (Valist_getNumberAtoms alist)) then None
  else
    let '(sphere, nsphere') := Vacc_sphere nsphere in
    let natoms0 := replicate (Z.to_nat n) 0%Z in
    let atomFlags := replicate (Z.to_nat n) 0%Z in
    let area := replicate (length alist) 0 in
    let g := ctor_grid VLARGE alist max_radius nx ny nz in
    let counts := count_pass g alist natoms0 in
    let atomIDs0 := alloc_pass counts in
    let natoms1 := map (fun _ => 0%Z) counts in
    let '(natoms, atomIDs) := fill_pass g alist (natoms1, atomIDs0) in
    Some (mkVacc alist max_radius nx ny nz n
            (g_hx g) (g_hy g) (g_hzed g) (g_lower g)
            natoms atomIDs atomFlags area nsphere' sphere).

(** ** [Vacc_atomSASA] and [Vacc_totalSASA] *)

Fixpoint atomSASA_loop (thee : Vacc) (srad : R) (iatom : Z)
    (pts : list vec3) (area : R) : result R :=
  match pts with
  | [] => Ok area
  | s :: pts' =>
      let thisAtom := Valist_getAtom (alist thee) iatom in
      let tPos := Vatom_getPosition thisAtom in
      let tRad := Vatom_getRadius thisAtom in
      let vec := probe_point (tRad + srad) s tPos in
      r <-r ivdwAccExclus thee vec srad iatom;
      atomSASA_loop thee srad iatom pts'
        (if (r =? 0)%Z then area else area + 1)
  end.

Definition Vacc_atomSASA (thee : Vacc) (srad : R) (iatom : Z) : result R :=
  let thisAtom := Valist_getAtom (alist thee) iatom in
  let tRad := Vatom_getRadius thisAtom in
  area <-r atomSASA_loop thee srad iatom (sphere_points thee) 0;
  Ok (area / IZR (nsphere thee) * 4 * VPI * (tRad + srad) * (tRad + srad)).

(** The state is the array [thee->area] and the running sum. *)
Fixpoint totalSASA_loop (thee : Vacc) (radius : R) (idxs : list Z)
    (areas : list R) (area : R) : result (R * list R) :=
  match idxs with
  | [] => Ok (area, areas)
  | i :: idxs' =>
      a <-r Vacc_atomSASA thee radius i;
      totalSASA_loop thee radius idxs' (zset areas i a) (area + a)
  end.

Definition Vacc_totalSASA (thee : Vacc) (radius : R)
    : result (R * list R) :=
  totalSASA_loop thee radius
    (seqZ 0 (Valist_getNumberAtoms (alist thee))) (area thee) 0.

(** ** Definitions used to state the properties *)

(** The value computed inside the window, as a function of [sm]. *)
Definition smooth (win sm : R) : R :=
  0.75 * VSQR sm * (1 / (win * win))
  - 0.25 * sm * VSQR sm * (1 / (win * win * win)).

(** The routine as a function of the distance it computes. *)
Definition spline_of_dist (win arad dist : R) : R :=
  if Rle_dec dist (Rmax 0 (arad - win)) then 0
  else if Rge_dec dist (arad + win) then 1
  else smooth win (dist - arad + win).


(** The points of one ring and of all rings, in the order
    [Vacc_sphere] writes them. *)
Definition sphere_ring (npts itheta : Z) : list vec3 :=
  map (sphere_point npts itheta) (seqZ 0 (sphere_nphi npts itheta)).

Definition sphere_all (npts : Z) : list vec3 :=
  flat_map (sphere_ring npts) (seqZ 0 (sphere_ntheta npts)).

Definition zsum (l : list Z) : Z := fold_right Z.add 0%Z l.

(** The indices [base, base+1, ...] of the atoms of [atoms] whose span
    visits the cell [ui], in ascending order. *)
Fixpoint covering (g : Grid) (ui base : Z) (atoms : list Vatom) : list Z :=
  match atoms with
  | [] => []
  | a :: rest =>
      (if decide (ui ∈ span_cells g (atom_span g a)) then [base] else [])
      ++ covering g ui (base + 1) rest
  end.

(** A span that stays inside the grid. *)
Definition span_ok (g : Grid) (s : Span) : Prop :=
  (0 <= i_min s /\ i_max s < g_nx g /\
   0 <= j_min s /\ j_max s < g_ny g /\
   0 <= k_min s /\ k_max s < g_nz g)%Z.

(** The number of cells of the grid. *)
Definition g_n (g : Grid) : Z := (g_nx g * g_ny g * g_nz g)%Z.

(** The box of the cell [(ii, jj, kk)]: [in_cell_box] is the half-open
    box, the points a query locates in the cell; [in_cell_box_closed]
    adds the upper faces. *)
Definition in_cell_box (g : Grid) (ii jj kk : Z) (p : vec3) : Prop :=
  c0 (g_lower g) + IZR ii * g_hx g <= c0 p
    < c0 (g_lower g) + (IZR ii + 1) * g_hx g /\
  c1 (g_lower g) + IZR jj * g_hy g <= c1 p
    < c1 (g_lower g) + (IZR jj + 1) * g_hy g /\
  c2 (g_lower g) + IZR kk * g_hzed g <= c2 p
    < c2 (g_lower g) + (IZR kk + 1) * g_hzed g.

Definition in_cell_box_closed (g : Grid) (ii jj kk : Z) (p : vec3) : Prop :=
  c0 (g_lower g) + IZR ii * g_hx g <= c0 p
    <= c0 (g_lower g) + (IZR ii + 1) * g_hx g /\
  c1 (g_lower g) + IZR jj * g_hy g <= c1 p
    <= c1 (g_lower g) + (IZR jj + 1) * g_hy g /\
  c2 (g_lower g) + IZR kk * g_hzed g <= c2 p
    <= c2 (g_lower g) + (IZR kk + 1) * g_hzed g.

(** The closed ball of radius [Vatom_getRadius atom + g_max_radius g]
    around the atom. *)
Definition in_inflated_atom (g : Grid) (atom : Vatom) (p : vec3) : Prop :=
  dist2 p (Vatom_getPosition atom)
  <= VSQR (Vatom_getRadius atom + g_max_radius g).

(** The cell indices lie in the index ranges of the atom. *)
Definition in_span (s : Span) (ii jj kk : Z) : Prop :=
  (i_min s <= ii <= i_max s /\ j_min s <= jj <= j_max s /\
   k_min s <= kk <= k_max s)%Z.

(** The first occurrences of the elements of [l] that are not in [seen],
    in the order of [l]. *)
Fixpoint distinct (seen l : list Z) : list Z :=
  match l with
  | [] => []
  | x :: r =>
      if decide (x ∈ seen) then distinct seen r
      else x :: distinct (x :: seen) r
  end.

Definition Rprod (l : list R) : R := fold_right Rmult 1 l.

(** A running product that stops as soon as it is below [VSMALL]. *)
Fixpoint prod_cut (VSMALL value : R) (fs : list R) : R :=
  match fs with
  | [] => value
  | f :: r =>
      if Rlt_dec (value * f) VSMALL then value * f
      else prod_cut VSMALL (value * f) r
  end.

(** ** [Vacc_ctor2Focus], [Vacc_ctor] and [Vacc_ctorFocus] *)

(** The loop of [Vacc_ctor2Focus] that finds the largest radius. *)
Definition find_rmax (alist : Valist) : R :=
  fold_left
    (fun rmax atom =>
       if Rgt_dec (Vatom_getRadius atom) rmax
       then Vatom_getRadius atom else rmax)
    alist (-1).

Definition focus_grid (alist : Valist) (max_radius : R) (nx ny nz : Z)
    (x_min y_min z_min x_max y_max z_max : R) : Grid :=
  let rmax := find_rmax alist in
  mkGrid nx ny nz
    ((x_max - x_min + 2.84 * (rmax + max_radius)) / IZR (nx - 1))
    ((y_max - y_min + 2.84 * (rmax + max_radius)) / IZR (ny - 1))
    ((z_max - z_min + 2.84 * (rmax + max_radius)) / IZR (nz - 1))
    (x_min - 1.42 * (rmax + max_radius),
     y_min - 1.42 * (rmax + max_radius),
     z_min - 1.42 * (rmax + max_radius))
    max_radius.

(** [Vacc_ctor2Focus]: the outcomes are those of [Vacc_ctor2]. *)
Definition Vacc_ctor2Focus (alist : Valist) (max_radius : R)
    (nx ny nz nsphere : Z) (x_min y_min z_min x_max y_max z_max : R)
    : option Vacc :=
  let n := (nx * ny * nz)%Z in
  if ((nx <? 3) || (ny <? 3) || (nz <? 3))%Z then None
  else if (INT_MAX <? n)%Z then None
  else if negb (Vacc_sphere_alloc nsphere) then None
  else if negb (Vmem_malloc_ok n) then None
  else if negb (Vmem_malloc_ok (Valist_getNumberAtoms alist)) then None
  else
    let '(sphere, nsphere') := Vacc_sphere nsphere in
    let natoms0 := replicate (Z.to_nat n) 0%Z in
    let atomFlags := replicate (Z.to_nat n) 0%Z in
    let area := replicate (length alist) 0 in
    let g := focus_grid alist max_radius nx ny nz
               x_min y_min z_min x_max y_max z_max in
    let counts := count_pass g alist natoms0 in
    let atomIDs0 := alloc_pass counts in
    let natoms1 := map (fun _ => 0%Z) counts in
    let '(natoms, atomIDs) := fill_pass g alist (natoms1, atomIDs0) in
    Some (mkVacc alist max_radius nx ny nz n
            (g_hx g) (g_hy g) (g_hzed g) (g_lower g)
            natoms atomIDs atomFlags area nsphere' sphere).

(** [VASSERT(Vacc_ctor2(...))] and [VASSERT(Vacc_ctor2Focus(...))]: the
    program stops unless the object is initialised. *)
Definition Vacc_ctor (VLARGE : R) (alist : Valist) (max_radius : R)
    (nx ny nz nsphere : Z) : result Vacc :=
  match Vacc_ctor2 VLARGE alist max_radius nx ny nz nsphere with
  | Some thee => Ok thee
  | None => AssertFail
  end.

Definition Vacc_ctorFocus (alist : Valist) (max_radius : R)
    (nx ny nz nsphere : Z) (x_min y_min z_min x_max y_max z_max : R)
    : result Vacc :=
  match Vacc_ctor2Focus alist max_radius nx ny nz nsphere
          x_min y_min z_min x_max y_max z_max with
  | Some thee => Ok thee
  | None => AssertFail
  end.

(** The first pass of both constructors also keeps [totatoms], which is
    printed: [natoms[ui]++; totatoms += natoms[ui]]. *)
Definition count_cell_tot (st : list Z * Z) (ui : Z) : list Z * Z :=
  let '(na, totatoms) := st in
  let na' := zset na ui (zget 0 na ui + 1)%Z in
  (na', (totatoms + zget 0 na' ui)%Z).

Definition count_atom_tot (g : Grid) (st : list Z * Z) (atom : Vatom)
    : list Z * Z :=
  fold_left count_cell_tot (span_cells g (atom_span g atom)) st.

Definition count_pass_tot (g : Grid) (alist : Valist) (natoms : list Z)
    : list Z * Z :=
  fold_left (count_atom_tot g) alist (natoms, 0%Z).

(** ** [Vacc_writeGMV]: the values handed to [Gem_writeGMV]

    [coords] are the vertex coordinates [VV_coord(Gem_VV(gm, ivert), .)];
    the result is [accVals[0]] and [accVals[1]]. *)
Fixpoint writeGMV_loop (thee : Vacc) (radius : R) (meth : Z)
    (coords : list vec3) (acc0 acc1 : list R) (ivert : Z)
    : result (list R * list R) :=
  match coords with
  | [] => Ok (acc0, acc1)
  | coord :: coords' =>
      if (meth =? 0)%Z then
        a <-r Vacc_molAcc thee coord radius;
        b <-r Vacc_molAcc thee coord radius;
        writeGMV_loop thee radius meth coords'
          (zset acc0 ivert a) (zset acc1 ivert b) (ivert + 1)
      else if (meth =? 1)%Z then
        a <-r Vacc_ivdwAcc thee coord radius;
        b <-r Vacc_ivdwAcc thee coord radius;
        writeGMV_loop thee radius meth coords'
          (zset acc0 ivert a) (zset acc1 ivert b) (ivert + 1)
      else if (meth =? 2)%Z then
        writeGMV_loop thee radius meth coords'
          (zset acc0 ivert (Vacc_vdwAcc thee coord))
          (zset acc1 ivert (Vacc_vdwAcc thee coord)) (ivert + 1)
      else AssertFail
  end.

Definition Vacc_writeGMV_values (thee : Vacc) (radius : R) (meth : Z)
    (coords : list vec3) : result (list R * list R) :=
  writeGMV_loop thee radius meth coords
    (replicate (length coords) 0) (replicate (length coords) 0) 0.

(** ** Definitions used to state further properties *)

(** What both constructors establish: the fields of [thee] are those of
    the grid [g], and [natoms], [atomIDs] come from the two passes. *)
Definition binned (g : Grid) (al : Valist) (thee : Vacc) : Prop :=
  (3 <= g_nx g /\ 3 <= g_ny g /\ 3 <= g_nz g)%Z /\
  alist thee = al /\ max_radius thee = g_max_radius g /\
  nx thee = g_nx g /\ ny thee = g_ny g /\ nz thee = g_nz g /\
  hx thee = g_hx g /\ hy thee = g_hy g /\ hzed thee = g_hzed g /\
  grid_lower_corner thee = g_lower g /\
  atomFlags thee = replicate (Z.to_nat (g_n g)) 0%Z /\
  length (area thee) = length al /\
  (natoms thee, atomIDs thee)
  = fill_pass g al
      (map (fun _ => 0%Z)
           (count_pass g al (replicate (Z.to_nat (g_n g)) 0%Z)),
       alloc_pass (count_pass g al (replicate (Z.to_nat (g_n g)) 0%Z))).

(** [thee] is an object that one of the two constructors has
    initialised, for some atom list, maximal probe radius, table
    dimensions and target count of quadrature points. *)
Definition constructed (VLARGE : R) (thee : Vacc) : Prop :=
  (exists al maxr nx0 ny0 nz0 nsph,
     Vacc_ctor2 VLARGE al maxr nx0 ny0 nz0 nsph = Some thee) \/
  (exists al maxr nx0 ny0 nz0 nsph xmin ymin zmin xmax ymax zmax,
     Vacc_ctor2Focus al maxr nx0 ny0 nz0 nsph
       xmin ymin zmin xmax ymax zmax = Some thee).

(** The values a C [int] holds. *)
Definition int_range (z : Z) : Prop := (- INT_MAX - 1 <= z <= INT_MAX)%Z.

(** Some atom other than [skip], of positive radius, has the point [p]
    strictly inside its sphere inflated by [r]: the test of
    [ivdwAccExclus] over the whole atom list. *)
Definition covered_by (al : Valist) (p : vec3) (r : R) (skip : Z) : Prop :=
  exists i,
    (0 <= i < Valist_getNumberAtoms al)%Z /\ i <> skip /\
    Vatom_getRadius (Valist_getAtom al i) > 0 /\
    dist2 (Vatom_getPosition (Valist_getAtom al i)) p
    < VSQR (Vatom_getRadius (Valist_getAtom al i) + r).

(** The test [ivdwAccExclus] makes on the sample [s] of the atom [atom]
    against one other atom: the sample point is kept unless [other] has
    a positive radius and the point is strictly inside the sphere of
    [other] inflated by [srad]. *)
Definition sample_clear (atom other : Vatom) (srad : R) (s : vec3) : bool :=
  let vec := probe_point (Vatom_getRadius atom + srad) s
               (Vatom_getPosition atom) in
  if Rgt_dec (Vatom_getRadius other) 0 then
    if Rlt_dec (dist2 (Vatom_getPosition other) vec)
               (VSQR (Vatom_getRadius other + srad))
    then false else true
  else true.

(** Some atom has the point [p] strictly inside its sphere: the test of
    [Vacc_vdwAcc] over the whole atom list. *)
Definition inside_atom (al : Valist) (p : vec3) : Prop :=
  exists i,
    (0 <= i < Valist_getNumberAtoms al)%Z /\
    dist2 p (Vatom_getPosition (Valist_getAtom al i))
    < VSQR (Vatom_getRadius (Valist_getAtom al i)).

Definition Rsum (l : list R) : R := fold_right Rplus 0 l.

(** The area [Vacc_atomSASA] returns for the atom [i]. *)
Definition atom_area (thee : Vacc) (srad : R) (i : Z) : R :=
  match Vacc_atomSASA thee srad i with
  | Ok a => a
  | AssertFail => 0
  end.


(** The value [Vacc_writeGMV] stores for one vertex: the predicate
    selected by [meth]. *)
Definition writeGMV_value (thee : Vacc) (radius : R) (meth : Z)
    (coord : vec3) : result R :=
  if (meth =? 0)%Z then Vacc_molAcc thee coord radius
  else if (meth =? 1)%Z then Vacc_ivdwAcc thee coord radius
  else if (meth =? 2)%Z then Ok (Vacc_vdwAcc thee coord)
  else AssertFail.

(** The object with its [atomFlags] array replaced, as a call of
    [Vacc_splineAcc] leaves it. *)
Definition with_flags (thee : Vacc) (fl : list Z) : Vacc :=
  mkVacc (alist thee) (max_radius thee) (nx thee) (ny thee) (nz thee)
         (n thee) (hx thee) (hy thee) (hzed thee) (grid_lower_corner thee)
         (natoms thee) (atomIDs thee) fl (area thee)
         (nsphere thee) (sphere thee).

(** The value a call returns, without the flags. *)
Definition value_of (r : result (R * list Z)) : result R :=
  x <-r r; Ok (fst x).

(** * The input-file parser ([src/generic/nosh.c]): model

    - The socket [sock] is the list of the tokens still to be read:
      [Vio_scanf(sock, "%s", tok) == 1] takes the first one, and fails on
      the empty list.  (Splitting the file into tokens at the white and
      comment characters is done by MALOC's [Vio].)
    - A parsing routine returns its return value together with the
      object [*thee] and the socket as it leaves them.
    - [thee] and [sock] are not [VNULL].
    - The header [nosh.h] is not under src/: the bounds [NOSH_MAXCALC],
      [NOSH_MAXPRINT], [NOSH_MAXPOP] and MALOC's [VMAX_ARGLEN] are
      parameters, and so are the types behind the pointers [com],
      [mgparm] and [femparm], the result of [sscanf(tok, "%d", &ti)]
      ([Some ti] when it returns 1), the pointer [FEMparm_ctor()]
      returns, the value of [Vio_accept(sock, 0)], and the routine
      [NOsh_parseMG], which is defined in another file.
    - The members of [NOsh] are those the routines of [nosh.c] use; the
      arrays are lists, read and written like those of [Vacc]. *)

From Stdlib Require String Ascii.
Import String.StringSyntax.
Delimit Scope string_scope with string.

Definition Vio : Type := list String.string.

Definition toupper (c : Ascii.ascii) : Ascii.ascii :=
  let n := Ascii.nat_of_ascii c in
  if ((97 <=? n) && (n <=? 122))%nat then Ascii.ascii_of_nat (n - 32)
  else c.

Fixpoint upper (s : String.string) : String.string :=
  match s with
  | String.EmptyString => String.EmptyString
  | String.String c r => String.String (toupper c) (upper r)
  end.

(** Modelled from its use: MALOC's [Vstring_strcasecmp] is not under
    src/; it compares two strings without regard to case, and the
    routines only test its result against 0. *)
Definition Vstring_strcasecmp (s1 s2 : String.string) : Z :=
  if String.eqb (upper s1) (upper s2) then 0%Z else 1%Z.

(** [strncpy(dst, tok, n)] leaves the first [n] characters of [tok]. *)
Definition strncpy (tok : String.string) (n : Z) : String.string :=
  String.substring 0 (Z.to_nat n) tok.

Section NOsh_model.

Set Implicit Arguments.
Local Open Scope string_scope.

Variables Vcom MGparm FEMparm : Type.
Variables NOSH_MAXCALC NOSH_MAXPRINT NOSH_MAXPOP VMAX_ARGLEN : Z.
Variable sscanf_d : String.string -> option Z.
Variable FEMparm_ctor : option FEMparm.
Variable Vio_accept : Vio -> Z.

Record NOsh_calc : Type := mkNOsh_calc {
  mgparm : option MGparm;
  femparm : option FEMparm;
  calctype : Z
}.

Definition NOsh_calc_null : NOsh_calc := mkNOsh_calc None None 0.

Record NOsh : Type := mkNOsh {
  com : Vcom;
  ispara : Z;
  parsed : Z;
  ncalc : Z;
  nelec : Z;
  nmol : Z;
  ncharge : Z;
  ndiel : Z;
  nkappa : Z;
  nprint : Z;
  calc : list NOsh_calc;
  elec2calc : list Z;
  molfmt : list Z;
  molpath : list String.string;
  dielfmt : list Z;
  dielXpath : list String.string;
  dielYpath : list String.string;
  dielZpath : list String.string;
  kappafmt : list Z;
  kappapath : list String.string;
  chargefmt : list Z;
  chargepath : list String.string;
  printwhat : list Z;
  printnarg : list Z;
  printcalc : list (list Z);
  printop : list (list Z)
}.

(** Assignments to one member of [*thee]. *)
Definition set_com (thee : NOsh) (v : Vcom) : NOsh :=
  mkNOsh v (ispara thee) (parsed thee) (ncalc thee) (nelec thee)
      (nmol thee) (ncharge thee) (ndiel thee) (nkappa thee) (nprint thee)
      (calc thee) (elec2calc thee) (molfmt thee) (molpath thee)
      (dielfmt thee) (dielXpath thee) (dielYpath thee) (dielZpath thee)
      (kappafmt thee) (kappapath thee) (chargefmt thee) (chargepath thee)
      (printwhat thee) (printnarg thee) (printcalc thee) (printop thee).

Definition set_ispara (thee : NOsh) (v : Z) : NOsh :=
  mkNOsh (com thee) v (parsed thee) (ncalc thee) (nelec thee) (nmol thee)
      (ncharge thee) (ndiel thee) (nkappa thee) (nprint thee) (calc thee)
      (elec2calc thee) (molfmt thee) (molpath thee) (dielfmt thee)
      (dielXpath thee) (dielYpath thee) (dielZpath thee) (kappafmt thee)
      (kappapath thee) (chargefmt thee) (chargepath thee) (printwhat thee)
      (printnarg thee) (printcalc thee) (printop thee).

Definition set_parsed (thee : NOsh) (v : Z) : NOsh :=
  mkNOsh (com thee) (ispara thee) v (ncalc thee) (nelec thee) (nmol thee)
      (ncharge thee) (ndiel thee) (nkappa thee) (nprint thee) (calc thee)
      (elec2calc thee) (molfmt thee) (molpath thee) (dielfmt thee)
      (dielXpath thee) (dielYpath thee) (dielZpath thee) (kappafmt thee)
      (kappapath thee) (chargefmt thee) (chargepath thee) (printwhat thee)
      (printnarg thee) (printcalc thee) (printop thee).

Definition set_ncalc (thee : NOsh) (v : Z) : NOsh :=
  mkNOsh (com thee) (ispara thee) (parsed thee) v (nelec thee) (nmol thee)
      (ncharge thee) (ndiel thee) (nkappa thee) (nprint thee) (calc thee)
      (elec2calc thee) (molfmt thee) (molpath thee) (dielfmt thee)
      (dielXpath thee) (dielYpath thee) (dielZpath thee) (kappafmt thee)
      (kappapath thee) (chargefmt thee) (chargepath thee) (printwhat thee)
      (printnarg thee) (printcalc thee) (printop thee).

Definition set_nelec (thee : NOsh) (v : Z) : NOsh :=
  mkNOsh (com thee) (ispara thee) (parsed thee) (ncalc thee) v (nmol thee)
      (ncharge thee) (ndiel thee) (nkappa thee) (nprint thee) (calc thee)
      (elec2calc thee) (molfmt thee) (molpath thee) (dielfmt thee)
      (dielXpath thee) (dielYpath thee) (dielZpath thee) (kappafmt thee)
      (kappapath thee) (chargefmt thee) (chargepath thee) (printwhat thee)
      (printnarg thee) (printcalc thee) (printop thee).

Definition set_nmol (thee : NOsh) (v : Z) : NOsh :=
  mkNOsh (com thee) (ispara thee) (parsed thee) (ncalc thee) (nelec thee)
      v (ncharge thee) (ndiel thee) (nkappa thee) (nprint thee)
      (calc thee) (elec2calc thee) (molfmt thee) (molpath thee)
      (dielfmt thee) (dielXpath thee) (dielYpath thee) (dielZpath thee)
      (kappafmt thee) (kappapath thee) (chargefmt thee) (chargepath thee)
      (printwhat thee) (printnarg thee) (printcalc thee) (printop thee).

Definition set_ncharge (thee : NOsh) (v : Z) : NOsh :=
  mkNOsh (com thee) (ispara thee) (parsed thee) (ncalc thee) (nelec thee)
      (nmol thee) v (ndiel thee) (nkappa thee) (nprint thee) (calc thee)
      (elec2calc thee) (molfmt thee) (molpath thee) (dielfmt thee)
      (dielXpath thee) (dielYpath thee) (dielZpath thee) (kappafmt thee)
      (kappapath thee) (chargefmt thee) (chargepath thee) (printwhat thee)
      (printnarg thee) (printcalc thee) (printop thee).

Definition set_ndiel (thee : NOsh) (v : Z) : NOsh :=
  mkNOsh (com thee) (ispara thee) (parsed thee) (ncalc thee) (nelec thee)
      (nmol thee) (ncharge thee) v (nkappa thee) (nprint thee) (calc thee)
      (elec2calc thee) (molfmt thee) (molpath thee) (dielfmt thee)
      (dielXpath thee) (dielYpath thee) (dielZpath thee) (kappafmt thee)
      (kappapath thee) (chargefmt thee) (chargepath thee) (printwhat thee)
      (printnarg thee) (printcalc thee) (printop thee).

Definition set_nkappa (thee : NOsh) (v : Z) : NOsh :=
  mkNOsh (com thee) (ispara thee) (parsed thee) (ncalc thee) (nelec thee)
      (nmol thee) (ncharge thee) (ndiel thee) v (nprint thee) (calc thee)
      (elec2calc thee) (molfmt thee) (molpath thee) (dielfmt thee)
      (dielXpath thee) (dielYpath thee) (dielZpath thee) (kappafmt thee)
      (kappapath thee) (chargefmt thee) (chargepath thee) (printwhat thee)
      (printnarg thee) (printcalc thee) (printop thee).

Definition set_nprint (thee : NOsh) (v : Z) : NOsh :=
  mkNOsh (com thee) (ispara thee) (parsed thee) (ncalc thee) (nelec thee)
      (nmol thee) (ncharge thee) (ndiel thee) (nkappa thee) v (calc thee)
      (elec2calc thee) (molfmt thee) (molpath thee) (dielfmt thee)
      (dielXpath thee) (dielYpath thee) (dielZpath thee) (kappafmt thee)
      (kappapath thee) (chargefmt thee) (chargepath thee) (printwhat thee)
      (printnarg thee) (printcalc thee) (printop thee).

Definition set_calc (thee : NOsh) (v : list NOsh_calc) : NOsh :=
  mkNOsh (com thee) (ispara thee) (parsed thee) (ncalc thee) (nelec thee)
      (nmol thee) (ncharge thee) (ndiel thee) (nkappa thee) (nprint thee)
      v (elec2calc thee) (molfmt thee) (molpath thee) (dielfmt thee)
      (dielXpath thee) (dielYpath thee) (dielZpath thee) (kappafmt thee)
      (kappapath thee) (chargefmt thee) (chargepath thee) (printwhat thee)
      (printnarg thee) (printcalc thee) (printop thee).

Definition set_elec2calc (thee : NOsh) (v : list Z) : NOsh :=
  mkNOsh (com thee) (ispara thee) (parsed thee) (ncalc thee) (nelec thee)
      (nmol thee) (ncharge thee) (ndiel thee) (nkappa thee) (nprint thee)
      (calc thee) v (molfmt thee) (molpath thee) (dielfmt thee)
      (dielXpath thee) (dielYpath thee) (dielZpath thee) (kappafmt thee)
      (kappapath thee) (chargefmt thee) (chargepath thee) (printwhat thee)
      (printnarg thee) (printcalc thee) (printop thee).

Definition set_molfmt (thee : NOsh) (v : list Z) : NOsh :=
  mkNOsh (com thee) (ispara thee) (parsed thee) (ncalc thee) (nelec thee)
      (nmol thee) (ncharge thee) (ndiel thee) (nkappa thee) (nprint thee)
      (calc thee) (elec2calc thee) v (molpath thee) (dielfmt thee)
      (dielXpath thee) (dielYpath thee) (dielZpath thee) (kappafmt thee)
      (kappapath thee) (chargefmt thee) (chargepath thee) (printwhat thee)
      (printnarg thee) (printcalc thee) (printop thee).

Definition set_molpath (thee : NOsh) (v : list String.string) : NOsh :=
  mkNOsh (com thee) (ispara thee) (parsed thee) (ncalc thee) (nelec thee)
      (nmol thee) (ncharge thee) (ndiel thee) (nkappa thee) (nprint thee)
      (calc thee) (elec2calc thee) (molfmt thee) v (dielfmt thee)
      (dielXpath thee) (dielYpath thee) (dielZpath thee) (kappafmt thee)
      (kappapath thee) (chargefmt thee) (chargepath thee) (printwhat thee)
      (printnarg thee) (printcalc thee) (printop thee).

Definition set_dielfmt (thee : NOsh) (v : list Z) : NOsh :=
  mkNOsh (com thee) (ispara thee) (parsed thee) (ncalc thee) (nelec thee)
      (nmol thee) (ncharge thee) (ndiel thee) (nkappa thee) (nprint thee)
      (calc thee) (elec2calc thee) (molfmt thee) (molpath thee) v
      (dielXpath thee) (dielYpath thee) (dielZpath thee) (kappafmt thee)
      (kappapath thee) (chargefmt thee) (chargepath thee) (printwhat thee)
      (printnarg thee) (printcalc thee) (printop thee).

Definition set_dielXpath (thee : NOsh) (v : list String.string) : NOsh :=
  mkNOsh (com thee) (ispara thee) (parsed thee) (ncalc thee) (nelec thee)
      (nmol thee) (ncharge thee) (ndiel thee) (nkappa thee) (nprint thee)
      (calc thee) (elec2calc thee) (molfmt thee) (molpath thee)
      (dielfmt thee) v (dielYpath thee) (dielZpath thee) (kappafmt thee)
      (kappapath thee) (chargefmt thee) (chargepath thee) (printwhat thee)
      (printnarg thee) (printcalc thee) (printop thee).

Definition set_dielYpath (thee : NOsh) (v : list String.string) : NOsh :=
  mkNOsh (com thee) (ispara thee) (parsed thee) (ncalc thee) (nelec thee)
      (nmol thee) (ncharge thee) (ndiel thee) (nkappa thee) (nprint thee)
      (calc thee) (elec2calc thee) (molfmt thee) (molpath thee)
      (dielfmt thee) (dielXpath thee) v (dielZpath thee) (kappafmt thee)
      (kappapath thee) (chargefmt thee) (chargepath thee) (printwhat thee)
      (printnarg thee) (printcalc thee) (printop thee).

Definition set_dielZpath (thee : NOsh) (v : list String.string) : NOsh :=
  mkNOsh (com thee) (ispara thee) (parsed thee) (ncalc thee) (nelec thee)
      (nmol thee) (ncharge thee) (ndiel thee) (nkappa thee) (nprint thee)
      (calc thee) (elec2calc thee) (molfmt thee) (molpath thee)
      (dielfmt thee) (dielXpath thee) (dielYpath thee) v (kappafmt thee)
      (kappapath thee) (chargefmt thee) (chargepath thee) (printwhat thee)
      (printnarg thee) (printcalc thee) (printop thee).

Definition set_kappafmt (thee : NOsh) (v : list Z) : NOsh :=
  mkNOsh (com thee) (ispara thee) (parsed thee) (ncalc thee) (nelec thee)
      (nmol thee) (ncharge thee) (ndiel thee) (nkappa thee) (nprint thee)
      (calc thee) (elec2calc thee) (molfmt thee) (molpath thee)
      (dielfmt thee) (dielXpath thee) (dielYpath thee) (dielZpath thee) v
      (kappapath thee) (chargefmt thee) (chargepath thee) (printwhat thee)
      (printnarg thee) (printcalc thee) (printop thee).

Definition set_kappapath (thee : NOsh) (v : list String.string) : NOsh :=
  mkNOsh (com thee) (ispara thee) (parsed thee) (ncalc thee) (nelec thee)
      (nmol thee) (ncharge thee) (ndiel thee) (nkappa thee) (nprint thee)
      (calc thee) (elec2calc thee) (molfmt thee) (molpath thee)
      (dielfmt thee) (dielXpath thee) (dielYpath thee) (dielZpath thee)
      (kappafmt thee) v (chargefmt thee) (chargepath thee)
      (printwhat thee) (printnarg thee) (printcalc thee) (printop thee).

Definition set_chargefmt (thee : NOsh) (v : list Z) : NOsh :=
  mkNOsh (com thee) (ispara thee) (parsed thee) (ncalc thee) (nelec thee)
      (nmol thee) (ncharge thee) (ndiel thee) (nkappa thee) (nprint thee)
      (calc thee) (elec2calc thee) (molfmt thee) (molpath thee)
      (dielfmt thee) (dielXpath thee) (dielYpath thee) (dielZpath thee)
      (kappafmt thee) (kappapath thee) v (chargepath thee)
      (printwhat thee) (printnarg thee) (printcalc thee) (printop thee).

Definition set_chargepath (thee : NOsh) (v : list String.string) : NOsh :=
  mkNOsh (com thee) (ispara thee) (parsed thee) (ncalc thee) (nelec thee)
      (nmol thee) (ncharge thee) (ndiel thee) (nkappa thee) (nprint thee)
      (calc thee) (elec2calc thee) (molfmt thee) (molpath thee)
      (dielfmt thee) (dielXpath thee) (dielYpath thee) (dielZpath thee)
      (kappafmt thee) (kappapath thee) (chargefmt thee) v (printwhat thee)
      (printnarg thee) (printcalc thee) (printop thee).

Definition set_printwhat (thee : NOsh) (v : list Z) : NOsh :=
  mkNOsh (com thee) (ispara thee) (parsed thee) (ncalc thee) (nelec thee)
      (nmol thee) (ncharge thee) (ndiel thee) (nkappa thee) (nprint thee)
      (calc thee) (elec2calc thee) (molfmt thee) (molpath thee)
      (dielfmt thee) (dielXpath thee) (dielYpath thee) (dielZpath thee)
      (kappafmt thee) (kappapath thee) (chargefmt thee) (chargepath thee)
      v (printnarg thee) (printcalc thee) (printop thee).

Definition set_printnarg (thee : NOsh) (v : list Z) : NOsh :=
  mkNOsh (com thee) (ispara thee) (parsed thee) (ncalc thee) (nelec thee)
      (nmol thee) (ncharge thee) (ndiel thee) (nkappa thee) (nprint thee)
      (calc thee) (elec2calc thee) (molfmt thee) (molpath thee)
      (dielfmt thee) (dielXpath thee) (dielYpath thee) (dielZpath thee)
      (kappafmt thee) (kappapath thee) (chargefmt thee) (chargepath thee)
      (printwhat thee) v (printcalc thee) (printop thee).

Definition set_printcalc (thee : NOsh) (v : list (list Z)) : NOsh :=
  mkNOsh (com thee) (ispara thee) (parsed thee) (ncalc thee) (nelec thee)
      (nmol thee) (ncharge thee) (ndiel thee) (nkappa thee) (nprint thee)
      (calc thee) (elec2calc thee) (molfmt thee) (molpath thee)
      (dielfmt thee) (dielXpath thee) (dielYpath thee) (dielZpath thee)
      (kappafmt thee) (kappapath thee) (chargefmt thee) (chargepath thee)
      (printwhat thee) (printnarg thee) v (printop thee).

Definition set_printop (thee : NOsh) (v : list (list Z)) : NOsh :=
  mkNOsh (com thee) (ispara thee) (parsed thee) (ncalc thee) (nelec thee)
      (nmol thee) (ncharge thee) (ndiel thee) (nkappa thee) (nprint thee)
      (calc thee) (elec2calc thee) (molfmt thee) (molpath thee)
      (dielfmt thee) (dielXpath thee) (dielYpath thee) (dielZpath thee)
      (kappafmt thee) (kappapath thee) (chargefmt thee) (chargepath thee)
      (printwhat thee) (printnarg thee) (printcalc thee) v.

Variable NOsh_parseMG : NOsh -> Vio -> Z -> Z * NOsh * Vio.

(** ** [NOsh_ctor2] and [NOsh_ctor] *)

Definition NOsh_ctor2 (thee : NOsh) (com0 : Vcom) : Z * NOsh :=
  let thee := set_com thee com0 in
  let thee := set_ispara thee 0 in
  let thee := set_parsed thee 0 in
  let thee := set_ncalc thee 0 in
  let thee := set_nmol thee 0 in
  let thee := set_ncharge thee 0 in
  let thee := set_ndiel thee 0 in
  let thee := set_nkappa thee 0 in
  let thee := set_nprint thee 0 in
  let thee :=
    fold_left
      (fun thee i =>
         set_calc thee (zset (calc thee) i (mkNOsh_calc None None (-1))))
      (seqZ 0 NOSH_MAXCALC) thee in
  (1%Z, thee).

(** [thee0] is the memory [Vmem_malloc] returns. *)
Definition NOsh_ctor (thee0 : NOsh) (com0 : Vcom) : result NOsh :=
  let '(rc, thee) := NOsh_ctor2 thee0 com0 in
  if (rc =? 0)%Z then AssertFail else Ok thee.

(** ** [NOsh_parseREAD]

    The routine writes at the indices [nmol], [ndiel], [nkappa] and
    [ncharge] without comparing them with the sizes of the arrays.  The
    writes of the model are those of the C program as long as these
    indices are inside the arrays; past the arrays the C program
    overwrites the members that follow, which the model does not
    describe.  The statements about what the section stores assume the
    room for it. *)

Fixpoint NOsh_parseREAD_loop (thee : NOsh) (sock : Vio)
    : Z * NOsh * Vio :=
  match sock with
  | [] => (0%Z, thee, [])
  | tok :: sock1 =>
    if (Vstring_strcasecmp tok "end" =? 0)%Z then (1%Z, thee, sock1)
    else if (Vstring_strcasecmp tok "mol" =? 0)%Z then
      match sock1 with
      | [] => (0%Z, thee, [])
      | tok1 :: sock2 =>
        if (Vstring_strcasecmp tok1 "pqr" =? 0)%Z then
          match sock2 with
          | [] => (0%Z, thee, [])
          | tok2 :: sock3 =>
            let thee := set_molfmt thee (zset (molfmt thee) (nmol thee) 0%Z) in
            let thee :=
              set_molpath thee
                (zset (molpath thee) (nmol thee)
                      (strncpy tok2 VMAX_ARGLEN)) in
            let thee := set_nmol thee (nmol thee + 1)%Z in
            NOsh_parseREAD_loop thee sock3
          end
        else NOsh_parseREAD_loop thee sock2
      end
    else if (Vstring_strcasecmp tok "diel" =? 0)%Z then
      match sock1 with
      | [] => (0%Z, thee, [])
      | tok1 :: sock2 =>
        if (Vstring_strcasecmp tok1 "dx" =? 0)%Z then
          match sock2 with
          | [] => (0%Z, thee, [])
          | tokx :: sock3 =>
            let thee :=
              set_dielXpath thee
                (zset (dielXpath thee) (ndiel thee)
                      (strncpy tokx VMAX_ARGLEN)) in
            match sock3 with
            | [] => (0%Z, thee, [])
            | toky :: sock4 =>
              let thee :=
                set_dielYpath thee
                  (zset (dielYpath thee) (ndiel thee)
                        (strncpy toky VMAX_ARGLEN)) in
              match sock4 with
              | [] => (0%Z, thee, [])
              | tokz :: sock5 =>
                let thee :=
                  set_dielZpath thee
                    (zset (dielZpath thee) (ndiel thee)
                          (strncpy tokz VMAX_ARGLEN)) in
                let thee :=
                  set_dielfmt thee (zset (dielfmt thee) (ndiel thee) 0%Z) in
                let thee := set_ndiel thee (ndiel thee + 1)%Z in
                NOsh_parseREAD_loop thee sock5
              end
            end
          end
        else NOsh_parseREAD_loop thee sock2
      end
    else if (Vstring_strcasecmp tok "kappa" =? 0)%Z then
      match sock1 with
      | [] => (0%Z, thee, [])
      | tok1 :: sock2 =>
        if (Vstring_strcasecmp tok1 "dx" =? 0)%Z then
          match sock2 with
          | [] => (0%Z, thee, [])
          | tok2 :: sock3 =>
            let thee :=
              set_kappafmt thee (zset (kappafmt thee) (nkappa thee) 0%Z) in
            let thee :=
              set_kappapath thee
                (zset (kappapath thee) (nkappa thee)
                      (strncpy tok2 VMAX_ARGLEN)) in
            let thee := set_nkappa thee (nkappa thee + 1)%Z in
            NOsh_parseREAD_loop thee sock3
          end
        else NOsh_parseREAD_loop thee sock2
      end
    else if (Vstring_strcasecmp tok "charge" =? 0)%Z then
      match sock1 with
      | [] => (0%Z, thee, [])
      | tok1 :: sock2 =>
        if (Vstring_strcasecmp tok1 "dx" =? 0)%Z then
          match sock2 with
          | [] => (0%Z, thee, [])
          | tok2 :: sock3 =>
            let thee :=
              set_chargefmt thee
                (zset (chargefmt thee) (ncharge thee) 0%Z) in
            let thee :=
              set_chargepath thee
                (zset (chargepath thee) (ncharge thee)
                      (strncpy tok2 VMAX_ARGLEN)) in
            let thee := set_ncharge thee (ncharge thee + 1)%Z in
            NOsh_parseREAD_loop thee sock3
          end
        else NOsh_parseREAD_loop thee sock2
      end
    else NOsh_parseREAD_loop thee sock1
  end.

Definition NOsh_parseREAD (thee : NOsh) (sock : Vio) : Z * NOsh * Vio :=
  if negb (parsed thee =? 0)%Z then (0%Z, thee, sock)
  else NOsh_parseREAD_loop thee sock.

(** ** [NOsh_parsePRINT] *)

(** [printop[idx][printnarg[idx]] = op; printnarg[idx]++]. *)
Definition print_push_op (thee : NOsh) (idx op : Z) : NOsh :=
  let thee :=
    set_printop thee
      (zset (printop thee) idx
            (zset (zget [] (printop thee) idx)
                  (zget 0%Z (printnarg thee) idx) op)) in
  set_printnarg thee
    (zset (printnarg thee) idx (zget 0%Z (printnarg thee) idx + 1)%Z).

Fixpoint NOsh_parsePRINT_loop (thee : NOsh) (idx expect : Z) (sock : Vio)
    : Z * NOsh * Vio :=
  match sock with
  | [] => (0%Z, thee, [])
  | tok :: sock1 =>
    if (Vstring_strcasecmp tok "end" =? 0)%Z then
      if negb (expect =? 0)%Z then
        let thee := set_nprint thee (nprint thee + 1)%Z in
        let thee :=
          set_printnarg thee
            (zset (printnarg thee) idx
                  (zget 0%Z (printnarg thee) idx + 1)%Z) in
        (1%Z, thee, sock1)
      else (0%Z, thee, sock1)
    else
      match sscanf_d tok with
      | Some ti =>
        if (expect =? 0)%Z then
          let thee :=
            set_printcalc thee
              (zset (printcalc thee) idx
                    (zset (zget [] (printcalc thee) idx)
                          (zget 0%Z (printnarg thee) idx) ti)) in
          NOsh_parsePRINT_loop thee idx 1 sock1
        else (0%Z, thee, sock1)
      | None =>
        if (Vstring_strcasecmp tok "+" =? 0)%Z then
          if (expect =? 1)%Z then
            let thee := print_push_op thee idx 0 in
            if (zget 0%Z (printnarg thee) idx >=? NOSH_MAXPOP)%Z
            then (0%Z, thee, sock1)
            else NOsh_parsePRINT_loop thee idx 0 sock1
          else (0%Z, thee, sock1)
        else if (Vstring_strcasecmp tok "-" =? 0)%Z then
          if (expect =? 1)%Z then
            let thee := print_push_op thee idx 1 in
            if (zget 0%Z (printnarg thee) idx >=? NOSH_MAXPOP)%Z
            then (0%Z, thee, sock1)
            else NOsh_parsePRINT_loop thee idx 0 sock1
          else (0%Z, thee, sock1)
        else (0%Z, thee, sock1)
      end
  end.

Definition NOsh_parsePRINT (thee : NOsh) (sock : Vio) : Z * NOsh * Vio :=
  if negb (parsed thee =? 0)%Z then (0%Z, thee, sock)
  else
    let idx := nprint thee in
    if (nprint thee >=? NOSH_MAXPRINT)%Z then (0%Z, thee, sock)
    else
      match sock with
      | [] => (0%Z, thee, [])
      | tok :: sock1 =>
        if (Vstring_strcasecmp tok "energy" =? 0)%Z then
          let thee := set_printwhat thee (zset (printwhat thee) idx 0%Z) in
          let thee := set_printnarg thee (zset (printnarg thee) idx 0%Z) in
          NOsh_parsePRINT_loop thee idx 0 sock1
        else (0%Z, thee, sock1)
      end.

(** ** [NOsh_parseFEM] and [NOsh_parseELEC] *)

Definition NOsh_parseFEM (thee : NOsh) (sock : Vio) (parm : option FEMparm)
    : Z * NOsh * Vio :=
  match parm with
  | None => (0%Z, thee, sock)
  | Some _ =>
    if negb (parsed thee =? 0)%Z then (0%Z, thee, sock)
    else (1%Z, thee, sock)
  end.

Definition set_calctype (c : NOsh_calc) (v : Z) : NOsh_calc :=
  mkNOsh_calc (mgparm c) (femparm c) v.

Definition set_femparm (c : NOsh_calc) (v : option FEMparm) : NOsh_calc :=
  mkNOsh_calc (mgparm c) v (calctype c).

Definition NOsh_parseELEC (thee : NOsh) (sock : Vio) : Z * NOsh * Vio :=
  if negb (parsed thee =? 0)%Z then (0%Z, thee, sock)
  else if (ncalc thee >=? NOSH_MAXCALC)%Z then (1%Z, thee, sock)
  else
    let thee := set_nelec thee (nelec thee + 1)%Z in
    match sock with
    | [] => (0%Z, thee, [])
    | tok :: sock1 =>
      if (Vstring_strcasecmp tok "mg-manual" =? 0)%Z then
        NOsh_parseMG thee sock1 0
      else if (Vstring_strcasecmp tok "mg-auto" =? 0)%Z then
        NOsh_parseMG thee sock1 1
      else if (Vstring_strcasecmp tok "mg-para" =? 0)%Z then
        NOsh_parseMG thee sock1 2
      else if (Vstring_strcasecmp tok "mg-dummy" =? 0)%Z then
        NOsh_parseMG thee sock1 3
      else if (Vstring_strcasecmp tok "fem" =? 0)%Z then
        if (ncalc thee >=? NOSH_MAXCALC)%Z then (1%Z, thee, sock1)
        else
          let thee := set_ncalc thee (ncalc thee + 1)%Z in
          let thee :=
            set_calc thee
              (zset (calc thee) (ncalc thee - 1)
                    (set_calctype
                       (zget NOsh_calc_null (calc thee) (ncalc thee - 1))
                       1)) in
          let thee :=
            set_calc thee
              (zset (calc thee) (ncalc thee - 1)
                    (set_femparm
                       (zget NOsh_calc_null (calc thee) (ncalc thee - 1))
                       FEMparm_ctor)) in
          let thee :=
            set_elec2calc thee
              (zset (elec2calc thee) (nelec thee - 1) (ncalc thee - 1)%Z) in
          NOsh_parseFEM thee sock1
            (femparm (zget NOsh_calc_null (calc thee) (ncalc thee - 1)))
      else (0%Z, thee, sock1)
    end.

(** ** [NOsh_parse]

    The loop reads one token per round and hands the socket to the
    section parsers; [fuel] bounds the number of rounds, and [None] is
    the loop out of fuel. *)

Fixpoint NOsh_parse_loop (fuel : nat) (thee : NOsh) (sock : Vio)
    : option (Z * NOsh * Vio) :=
  match fuel with
  | O => None
  | S fuel' =>
    match sock with
    | [] => Some (1%Z, set_parsed thee 1, [])
    | tok :: sock1 =>
      if (Vstring_strcasecmp tok "read" =? 0)%Z then
        let '(rc, thee, sock2) := NOsh_parseREAD thee sock1 in
        if (rc =? 0)%Z then Some (0%Z, thee, sock2)
        else NOsh_parse_loop fuel' thee sock2
      else if (Vstring_strcasecmp tok "print" =? 0)%Z then
        let '(rc, thee, sock2) := NOsh_parsePRINT thee sock1 in
        if (rc =? 0)%Z then Some (0%Z, thee, sock2)
        else NOsh_parse_loop fuel' thee sock2
      else if (Vstring_strcasecmp tok "elec" =? 0)%Z then
        let '(rc, thee, sock2) := NOsh_parseELEC thee sock1 in
        if (rc =? 0)%Z then Some (0%Z, thee, sock2)
        else NOsh_parse_loop fuel' thee sock2
      else if (Vstring_strcasecmp tok "quit" =? 0)%Z then
        Some (1%Z, set_parsed thee 1, sock1)
      else NOsh_parse_loop fuel' thee sock1
    end
  end.

Definition NOsh_parse (fuel : nat) (thee : NOsh) (sock : Vio)
    : option (Z * NOsh * Vio) :=
  if negb (parsed thee =? 0)%Z then Some (0%Z, thee, sock)
  else if (Vio_accept sock <? 0)%Z then Some (0%Z, thee, sock)
  else NOsh_parse_loop fuel thee sock.

Unset Implicit Arguments.

End NOsh_model.

(** ** Definitions used to state the properties of the parser *)

(** [thee] with its PRINT members replaced. *)
Definition with_print {Vcom MGparm FEMparm}
    (thee : NOsh Vcom MGparm FEMparm)
    (np : Z) (pw pa : list Z) (pc po : list (list Z))
    : NOsh Vcom MGparm FEMparm :=
  mkNOsh (com thee) (ispara thee) (parsed thee) (ncalc thee) (nelec thee)
    (nmol thee) (ncharge thee) (ndiel thee) (nkappa thee) np
    (calc thee) (elec2calc thee) (molfmt thee) (molpath thee)
    (dielfmt thee) (dielXpath thee) (dielYpath thee) (dielZpath thee)
    (kappafmt thee) (kappapath thee) (chargefmt thee) (chargepath thee)
    pw pa pc po.

(** [thee] with its READ members replaced. *)
Definition with_read {Vcom MGparm FEMparm}
    (thee : NOsh Vcom MGparm FEMparm)
    (nm nc nd nk : Z)
    (mf : list Z) (mp : list String.string)
    (df : list Z) (dx dy dz : list String.string)
    (kf : list Z) (kp : list String.string)
    (cf : list Z) (cp : list String.string)
    : NOsh Vcom MGparm FEMparm :=
  mkNOsh (com thee) (ispara thee) (parsed thee) (ncalc thee) (nelec thee)
    nm nc nd nk (nprint thee)
    (calc thee) (elec2calc thee) mf mp df dx dy dz kf kp cf cp
    (printwhat thee) (printnarg thee) (printcalc thee) (printop thee).

(** The tokens of the arguments of a PRINT statement after the first:
    an operation, 0 for [+] and 1 for [-], then a token. *)
Definition op_token (op : Z) : String.string :=
  if (op =? 0)%Z then "+"%string else "-"%string.

Definition print_more_tokens (rest : list (Z * String.string * Z))
    : list String.string :=
  flat_map (fun a => [op_token (fst (fst a)); snd (fst a)]) rest.

(** The statements of a READ section. *)
Inductive read_item : Type :=
  | read_mol (path : String.string)
  | read_diel (xpath ypath zpath : String.string)
  | read_kappa (path : String.string)
  | read_charge (path : String.string).

Definition read_tokens (it : read_item) : list String.string :=
  match it with
  | read_mol p => ["mol"; "pqr"; p]%string
  | read_diel x y z => ["diel"; "dx"; x; y; z]%string
  | read_kappa p => ["kappa"; "dx"; p]%string
  | read_charge p => ["charge"; "dx"; p]%string
  end.

Definition mol_paths (items : list read_item) : list String.string :=
  flat_map (fun it => match it with read_mol p => [p] | _ => [] end) items.

Definition diel_paths (items : list read_item)
    : list (String.string * String.string * String.string) :=
  flat_map (fun it => match it with
                      | read_diel x y z => [(x, y, z)]
                      | _ => []
                      end) items.

Definition kappa_paths (items : list read_item) : list String.string :=
  flat_map (fun it => match it with read_kappa p => [p] | _ => [] end)
           items.

Definition charge_paths (items : list read_item) : list String.string :=
  flat_map (fun it => match it with read_charge p => [p] | _ => [] end)
           items.

(** What a run of [NOsh_parsePRINT] that returns [rc] may change: the
    count [nprint] goes up by [rc], and of the PRINT arrays only the
    slot [idx] may differ. *)
Definition print_frame {Vcom MGparm FEMparm} (idx rc : Z)
    (thee thee' : NOsh Vcom MGparm FEMparm) : Prop :=
  exists pw pa pc po,
    thee' = with_print thee (nprint thee + rc) pw pa pc po /\
    length pw = length (printwhat thee) /\
    length pa = length (printnarg thee) /\
    length pc = length (printcalc thee) /\
    length po = length (printop thee) /\
    forall j, j <> idx ->
      zget 0%Z pw j = zget 0%Z (printwhat thee) j /\
      zget 0%Z pa j = zget 0%Z (printnarg thee) j /\
      zget [] pc j = zget [] (printcalc thee) j /\
      zget [] po j = zget [] (printop thee) j.

(** The entries of an array below the index [n] are kept. *)
Definition kept {A} (n : Z) (l l' : list A) : Prop :=
  length l' = length l /\
  forall j : nat, (Z.of_nat j < n)%Z -> l' !! j = l !! j.

(** What a run of [NOsh_parseREAD] may change: the four counts do not
    go down, and the entries below the counts are kept. *)
Definition read_frame {Vcom MGparm FEMparm}
    (thee thee' : NOsh Vcom MGparm FEMparm) : Prop :=
  exists nm nc nd nk mf mp df dx dy dz kf kp cf cp,
    thee' = with_read thee nm nc nd nk mf mp df dx dy dz kf kp cf cp /\
    (nmol thee <= nm /\ ncharge thee <= nc /\
     ndiel thee <= nd /\ nkappa thee <= nk)%Z /\
    (kept (nmol thee) (molfmt thee) mf /\
     kept (nmol thee) (molpath thee) mp) /\
    (kept (ndiel thee) (dielfmt thee) df /\
     kept (ndiel thee) (dielXpath thee) dx /\
     kept (ndiel thee) (dielYpath thee) dy /\
     kept (ndiel thee) (dielZpath thee) dz) /\
    (kept (nkappa thee) (kappafmt thee) kf /\
     kept (nkappa thee) (kappapath thee) kp) /\
    (kept (ncharge thee) (chargefmt thee) cf /\
     kept (ncharge thee) (chargepath thee) cp).

(** The READ arrays of [thee] have room for [nm] more molecules, [nd]
    more dielectric maps, [nk] more kappa maps and [nc] more charge maps
    after the ones counted: the indices the section writes at are
    indices of the arrays. *)
Definition read_room {Vcom MGparm FEMparm}
    (thee : NOsh Vcom MGparm FEMparm) (nm nd nk nc : Z) : Prop :=
  (0 <= nmol thee /\
   nmol thee + nm <= Z.of_nat (length (molfmt thee)) /\
   nmol thee + nm <= Z.of_nat (length (molpath thee)))%Z /\
  (0 <= ndiel thee /\
   ndiel thee + nd <= Z.of_nat (length (dielfmt thee)) /\
   ndiel thee + nd <= Z.of_nat (length (dielXpath thee)) /\
   ndiel thee + nd <= Z.of_nat (length (dielYpath thee)) /\
   ndiel thee + nd <= Z.of_nat (length (dielZpath thee)))%Z /\
  (0 <= nkappa thee /\
   nkappa thee + nk <= Z.of_nat (length (kappafmt thee)) /\
   nkappa thee + nk <= Z.of_nat (length (kappapath thee)))%Z /\
  (0 <= ncharge thee /\
   ncharge thee + nc <= Z.of_nat (length (chargefmt thee)) /\
   ncharge thee + nc <= Z.of_nat (length (chargepath thee)))%Z.

(** The number of tokens of [sock] that read as the keyword [kw]; no
    more statements of that kind can start in [sock]. *)
Definition count_kw (kw : String.string) (sock : Vio) : Z :=
  Z.of_nat
    (length (List.filter
               (fun tok => (Vstring_strcasecmp tok kw =? 0)%Z) sock)).

(** The array [l] holds the entries [xs], in order, from the index [i]
    on. *)
Definition stored {A} (l : list A) (i : Z) (xs : list A) : Prop :=
  take (length xs) (drop (Z.to_nat i) l) = xs.

(** The assignments [NOsh_parseREAD] makes for one statement. *)
Definition read_store {Vcom MGparm FEMparm} (VMAX_ARGLEN : Z)
    (thee : NOsh Vcom MGparm FEMparm) (it : read_item)
    : NOsh Vcom MGparm FEMparm :=
  match it with
  | read_mol p =>
      with_read thee (nmol thee + 1) (ncharge thee) (ndiel thee)
        (nkappa thee)
        (zset (molfmt thee) (nmol thee) 0%Z)
        (zset (molpath thee) (nmol thee) (strncpy p VMAX_ARGLEN))
        (dielfmt thee) (dielXpath thee) (dielYpath thee) (dielZpath thee)
        (kappafmt thee) (kappapath thee) (chargefmt thee) (chargepath thee)
  | read_diel x y z =>
      with_read thee (nmol thee) (ncharge thee) (ndiel thee + 1)
        (nkappa thee) (molfmt thee) (molpath thee)
        (zset (dielfmt thee) (ndiel thee) 0%Z)
        (zset (dielXpath thee) (ndiel thee) (strncpy x VMAX_ARGLEN))
        (zset (dielYpath thee) (ndiel thee) (strncpy y VMAX_ARGLEN))
        (zset (dielZpath thee) (ndiel thee) (strncpy z VMAX_ARGLEN))
        (kappafmt thee) (kappapath thee) (chargefmt thee) (chargepath thee)
  | read_kappa p =>
      with_read thee (nmol thee) (ncharge thee) (ndiel thee)
        (nkappa thee + 1) (molfmt thee) (molpath thee)
        (dielfmt thee) (dielXpath thee) (dielYpath thee) (dielZpath thee)
        (zset (kappafmt thee) (nkappa thee) 0%Z)
        (zset (kappapath thee) (nkappa thee) (strncpy p VMAX_ARGLEN))
        (chargefmt thee) (chargepath thee)
  | read_charge p =>
      with_read thee (nmol thee) (ncharge thee + 1) (ndiel thee)
        (nkappa thee) (molfmt thee) (molpath thee)
        (dielfmt thee) (dielXpath thee) (dielYpath thee) (dielZpath thee)
        (kappafmt thee) (kappapath thee)
        (zset (chargefmt thee) (ncharge thee) 0%Z)
        (zset (chargepath thee) (ncharge thee) (strncpy p VMAX_ARGLEN))
  end.

(** What [NOsh_parseREAD] returns on the socket [sock]: 0 with the
    socket used up, or 1 with the socket just after a token [end]. *)
Definition read_outcome {Vcom MGparm FEMparm}
    (thee : NOsh Vcom MGparm FEMparm) (sock : Vio)
    (r : Z * NOsh Vcom MGparm FEMparm * Vio) : Prop :=
  let rc := fst (fst r) in
  let thee' := snd (fst r) in
  let sock' := snd r in
  (rc = 0 \/ rc = 1)%Z /\
  read_frame thee thee' /\
  (rc = 0%Z -> sock' = []) /\
  (rc = 1%Z ->
   exists pre tok,
     sock = pre ++ tok :: sock' /\
     Vstring_strcasecmp tok "end"%string = 0%Z).

(** *** Instances of the parameters for the examples *)

(** A reading of [sscanf(tok, "%d", &ti)]: an optional sign, then
    decimal digits up to the first other character; no digit, no
    integer. *)
Fixpoint scan_digits (s : String.string) (acc : option Z) : option Z :=
  match s with
  | String.EmptyString => acc
  | String.String c r =>
      let n := Ascii.nat_of_ascii c in
      if ((48 <=? n) && (n <=? 57))%nat
      then scan_digits r
             (Some (10 * match acc with Some a => a | None => 0 end
                    + Z.of_nat (n - 48))%Z)
      else acc
  end.

Definition scan_int (s : String.string) : option Z :=
  match s with
  | String.String c r =>
      if (Ascii.nat_of_ascii c =? 43)%nat then scan_digits r None
      else if (Ascii.nat_of_ascii c =? 45)%nat
           then option_map Z.opp (scan_digits r None)
           else scan_digits s None
  | String.EmptyString => None
  end.

(** An object as [NOsh_ctor2] leaves it, with room for two molecules,
    two maps of each kind, two calculations and two PRINT statements of
    four arguments. *)
Definition NOsh_example : NOsh unit unit unit :=
  mkNOsh tt 0 0 0 0 0 0 0 0 0
    (replicate 2 (mkNOsh_calc None None (-1))) (replicate 2 0%Z)
    (replicate 2 0%Z) (replicate 2 ""%string)
    (replicate 2 0%Z) (replicate 2 ""%string) (replicate 2 ""%string)
    (replicate 2 ""%string)
    (replicate 2 0%Z) (replicate 2 ""%string)
    (replicate 2 0%Z) (replicate 2 ""%string)
    (replicate 2 0%Z) (replicate 2 0%Z)
    (replicate 2 (replicate 4 0%Z)) (replicate 2 (replicate 4 0%Z)).

(** * Properties *)

(** ** Scalars *)

Lemma VMAX2R_Rmax x y : VMAX2R x y = Rmax x y.
Proof.
  unfold VMAX2R, Rmax.
  destruct (Rge_dec x y), (Rle_dec x y); lra.
Qed.

Lemma VSQRT_nonneg x : 0 <= VSQRT x.
Proof. apply sqrt_pos. Qed.

Lemma VSQR_nonneg x : 0 <= VSQR x.
Proof. unfold VSQR; nra. Qed.

Lemma dist2_nonneg a b : 0 <= dist2 a b.
Proof.
  unfold dist2.
  pose proof (VSQR_nonneg (c0 a - c0 b)).
  pose proof (VSQR_nonneg (c1 a - c1 b)).
  pose proof (VSQR_nonneg (c2 a - c2 b)).
  lra.
Qed.

Lemma dist2_sym a b : dist2 a b = dist2 b a.
Proof. unfold dist2, VSQR; ring. Qed.

(** Decimal literals as fractions, for [field]. *)
Lemma dec_075 : 0.75 = 3 / 4.
Proof. lra. Qed.
Lemma dec_025 : 0.25 = 1 / 4.
Proof. lra. Qed.
Lemma dec_15 : 1.5 = 3 / 2.
Proof. lra. Qed.

Ltac undecimal := rewrite ?dec_075, ?dec_025, ?dec_15.

(** Settle the comparisons of a goal whose operands are numerals,
    innermost first. *)
Ltac rdec_with dec a b P :=
  first
    [ let H := fresh in
      assert (H : P) by lra;
      let Hn := fresh in
      destruct (dec a b) as [_|Hn]; [|exfalso; exact (Hn H)]; clear H
    | let H := fresh in
      assert (H : ~ P) by lra;
      let Hp := fresh in
      destruct (dec a b) as [Hp|_]; [exfalso; exact (H Hp)|]; clear H ].

Ltac rdec :=
  repeat match goal with
         | |- context [Rlt_dec ?a ?b] => rdec_with Rlt_dec a b (a < b)
         | |- context [Rgt_dec ?a ?b] => rdec_with Rgt_dec a b (a > b)
         | |- context [Rle_dec ?a ?b] => rdec_with Rle_dec a b (a <= b)
         | |- context [Rge_dec ?a ?b] => rdec_with Rge_dec a b (a >= b)
         end.

(** ** The smoothing polynomial *)

Lemma smooth_formula win sm :
  win <> 0 ->
  smooth win sm = 0.75 * sm ^ 2 / win ^ 2 - 0.25 * sm ^ 3 / win ^ 3.
Proof. intros Hw. unfold smooth, VSQR. undecimal. field. exact Hw. Qed.

Lemma smooth_scaled win sm :
  win <> 0 ->
  smooth win sm = 0.75 * (sm / win) ^ 2 - 0.25 * (sm / win) ^ 3.
Proof. intros Hw. unfold smooth, VSQR. undecimal. field. exact Hw. Qed.

Lemma cubic_mono t1 t2 :
  0 <= t1 -> t1 <= t2 -> t2 <= 2 ->
  0.75 * t1 ^ 2 - 0.25 * t1 ^ 3 <= 0.75 * t2 ^ 2 - 0.25 * t2 ^ 3.
Proof.
  intros H0 H12 H2.
  assert (Hf : 0.75 * t2 ^ 2 - 0.25 * t2 ^ 3
               - (0.75 * t1 ^ 2 - 0.25 * t1 ^ 3)
               = 0.25 * (t2 - t1)
                 * (t1 * (2 - t1) + t2 * (2 - t2) + (t1 + t2 - t1 * t2)))
    by lra.
  assert (H3 : 0 <= t1 * (2 - t1)) by nra.
  assert (H4 : 0 <= t2 * (2 - t2)) by nra.
  assert (H5 : 0 <= t1 + t2 - t1 * t2) by nra.
  assert (H6 : 0 <= 0.25 * (t2 - t1)
                 * (t1 * (2 - t1) + t2 * (2 - t2) + (t1 + t2 - t1 * t2))).
  { apply Rmult_le_pos; lra. }
  lra.
Qed.

Lemma smooth_mono win s1 s2 :
  0 < win -> 0 <= s1 -> s1 <= s2 -> s2 <= 2 * win ->
  smooth win s1 <= smooth win s2.
Proof.
  intros Hw H0 H12 H2.
  rewrite !smooth_scaled by lra.
  assert (Hi : 0 < / win) by (apply Rinv_0_lt_compat; exact Hw).
  apply cubic_mono; unfold Rdiv.
  - apply Rmult_le_pos; lra.
  - apply Rmult_le_compat_r; lra.
  - replace 2 with (2 * win * / win) by (field; lra).
    apply Rmult_le_compat_r; lra.
Qed.

Lemma smooth_pos win sm :
  0 < win -> 0 < sm -> sm < 2 * win -> 0 < smooth win sm.
Proof.
  intros Hw H0 H2. rewrite smooth_scaled by lra.
  assert (Hi : 0 < / win) by (apply Rinv_0_lt_compat; exact Hw).
  assert (Ht : 0 < sm / win) by (unfold Rdiv; apply Rmult_lt_0_compat; lra).
  assert (Ht2 : sm / win < 2).
  { unfold Rdiv. replace 2 with (2 * win * / win) by (field; lra).
    apply Rmult_lt_compat_r; lra. }
  assert (Hf : 0.75 * (sm / win) ^ 2 - 0.25 * (sm / win) ^ 3
               = 0.25 * ((sm / win) * (sm / win)) * (3 - sm / win))
    by lra.
  rewrite Hf. apply Rmult_lt_0_compat; [|lra].
  apply Rmult_lt_0_compat; [lra|]. apply Rmult_lt_0_compat; lra.
Qed.

Lemma smooth_0 win : smooth win 0 = 0.
Proof. unfold smooth, VSQR. lra. Qed.

Lemma smooth_2w win : win <> 0 -> smooth win (2 * win) = 1.
Proof. intros Hw. unfold smooth, VSQR. undecimal. field. exact Hw. Qed.

Lemma smooth_range win sm :
  0 < win -> 0 <= sm -> sm <= 2 * win -> 0 <= smooth win sm <= 1.
Proof.
  intros Hw H0 H2. split.
  - rewrite <- (smooth_0 win). apply smooth_mono; lra.
  - rewrite <- (smooth_2w win) by lra. apply smooth_mono; lra.
Qed.

(** ** [Vacc_splineAccAtom] *)

Lemma splineAccAtom_large thee center win infrad atomID :
  let atom := Valist_getAtom (alist thee) atomID in
  Vatom_getRadius atom > 1 ->
  Vacc_splineAccAtom thee center win infrad atomID
  = spline_of_dist win (Vatom_getRadius atom + infrad)
      (VSQRT (dist2 (Vatom_getPosition atom) center)).
Proof.
  intros atom Hr. unfold Vacc_splineAccAtom, spline_of_dist, smooth.
  fold atom. rewrite VMAX2R_Rmax.
  destruct (Rgt_dec (Vatom_getRadius atom) 1) as [_|Hn]; [reflexivity|].
  contradiction.
Qed.

Lemma splineAccAtom_small thee center win infrad atomID :
  Vatom_getRadius (Valist_getAtom (alist thee) atomID) <= 1 ->
  Vacc_splineAccAtom thee center win infrad atomID = 1.
Proof.
  intros Hr. unfold Vacc_splineAccAtom.
  destruct (Rgt_dec _ 1) as [Hg|_]; [lra|reflexivity].
Qed.

Lemma spline_of_dist_mono win arad d1 d2 :
  0 < win -> 0 <= d1 -> d1 <= d2 ->
  spline_of_dist win arad d1 <= spline_of_dist win arad d2.
Proof.
  intros Hw H0 H12. unfold spline_of_dist.
  assert (Hm := Rmax_l 0 (arad - win)).
  assert (Hm' := Rmax_r 0 (arad - win)).
  destruct (Rle_dec d1 _) as [Ha|Ha], (Rle_dec d2 _) as [Hb|Hb];
    try lra.
  - destruct (Rge_dec d2 _); [lra|].
    apply smooth_range; lra.
  - destruct (Rge_dec d1 _) as [Hc|Hc], (Rge_dec d2 _) as [Hd|Hd];
      try lra.
    + apply smooth_range; lra.
    + apply smooth_mono; lra.
Qed.

Lemma spline_of_dist_range win arad d :
  0 < win -> 0 <= spline_of_dist win arad d <= 1.
Proof.
  intros Hw. unfold spline_of_dist.
  assert (Hm' := Rmax_r 0 (arad - win)).
  destruct (Rle_dec d _); [lra|].
  destruct (Rge_dec d _); [lra|].
  apply smooth_range; lra.
Qed.

Lemma VSQRT_sqr x : 0 <= x -> VSQRT (x * x) = x.
Proof. intros Hx. unfold VSQRT. apply sqrt_square. exact Hx. Qed.

Lemma dist2_x_axis x y : dist2 (x, 0, 0) (y, 0, 0) = (x - y) * (x - y).
Proof. unfold dist2, VSQR, c0, c1, c2. simpl. lra. Qed.


(** ** [Vacc_splineAccGradAtom] against [Vacc_splineAccAtom] *)

Lemma splineAccGradAtom_window thee center win infrad atomID :
  let atom := Valist_getAtom (alist thee) atomID in
  let apos := Vatom_getPosition atom in
  let arad := Vatom_getRadius atom + infrad in
  let dist := VSQRT (dist2 apos center) in
  let sm := dist - arad + win in
  let mychi := smooth win sm in
  let mygrad := 1.5 * sm * (1 / (win * win))
                - 0.75 * VSQR sm * (1 / (win * win * win)) in
  Vatom_getRadius atom > 0 ->
  arad - win < dist < arad + win ->
  mychi > 0 ->
  Vacc_splineAccGradAtom thee center win infrad atomID
  = Ok (- (mygrad / mychi) * ((c0 center - c0 apos) / dist),
        - (mygrad / mychi) * ((c1 center - c1 apos) / dist),
        - (mygrad / mychi) * ((c2 center - c2 apos) / dist)).
Proof.
  intros atom apos arad dist sm mychi mygrad Hr [H1 H2] Hchi.
  unfold Vacc_splineAccGradAtom. fold atom apos arad dist sm.
  destruct (Rgt_dec (Vatom_getRadius atom) 0); [|contradiction].
  destruct (Rle_dec dist (arad - win)); [lra|].
  destruct (Rge_dec dist (arad + win)); [lra|].
  fold (smooth win sm). fold mychi.
  destruct (Rgt_dec mychi 0); [reflexivity|contradiction].
Qed.


(** ** The discrete predicates *)

Lemma vdwAcc_loop_01 thee center ids :
  vdwAcc_loop thee center ids = 0 \/ vdwAcc_loop thee center ids = 1.
Proof.
  induction ids as [|id ids IH]; simpl; [right; reflexivity|].
  destruct (Rlt_dec _ _); [left; reflexivity|exact IH].
Qed.

Lemma ivdwAccExclus_loop_01 thee center radius atomID ids :
  ivdwAccExclus_loop thee center radius atomID ids = 0%Z \/
  ivdwAccExclus_loop thee center radius atomID ids = 1%Z.
Proof.
  induction ids as [|id ids IH]; simpl; [right; reflexivity|].
  destruct (id =? atomID)%Z; [exact IH|].
  destruct (Rgt_dec _ 0); [|exact IH].
  destruct (Rlt_dec _ _); [left; reflexivity|exact IH].
Qed.

Lemma ivdwAccExclus_fail_iff thee center radius atomID :
  ivdwAccExclus thee center radius atomID = AssertFail
  <-> radius > max_radius thee.
Proof.
  unfold ivdwAccExclus.
  destruct (Rgt_dec radius (max_radius thee)) as [H|H].
  - split; [intros _; exact H|reflexivity].
  - split; [|contradiction].
    destruct (off_grid thee center); discriminate.
Qed.

Lemma ivdwAccExclus_ok thee center radius atomID :
  radius <= max_radius thee ->
  ivdwAccExclus thee center radius atomID = Ok 0%Z \/
  ivdwAccExclus thee center radius atomID = Ok 1%Z.
Proof.
  intros H. unfold ivdwAccExclus.
  destruct (Rgt_dec radius (max_radius thee)); [lra|].
  destruct (off_grid thee center); [right; reflexivity|].
  destruct (ivdwAccExclus_loop_01 thee center radius atomID
              (bucket thee (center_ui thee center))) as [E|E];
    rewrite E; [left|right]; reflexivity.
Qed.

Lemma Vacc_ivdwAcc_fail_iff thee center radius :
  Vacc_ivdwAcc thee center radius = AssertFail
  <-> radius > max_radius thee.
Proof.
  unfold Vacc_ivdwAcc.
  rewrite <- (ivdwAccExclus_fail_iff thee center radius (-1)).
  destruct (ivdwAccExclus thee center radius (-1)); simpl;
    split; intros H; (discriminate || reflexivity).
Qed.

Lemma Vacc_ivdwAcc_ok thee center radius :
  radius <= max_radius thee ->
  Vacc_ivdwAcc thee center radius = Ok 0 \/
  Vacc_ivdwAcc thee center radius = Ok 1.
Proof.
  intros H. unfold Vacc_ivdwAcc.
  destruct (ivdwAccExclus_ok thee center radius (-1) H) as [E|E];
    rewrite E; simpl; [left|right]; reflexivity.
Qed.

(** C7: [ivdwAccExclus] and [Vacc_ivdwAcc] stop on the failing [VASSERT]
    exactly when the probe radius is greater than [max_radius]; for every
    radius up to [max_radius] they return 0 or 1. *)
Theorem ivdwAcc_fails_iff_radius_too_large thee center radius atomID :
  (ivdwAccExclus thee center radius atomID = AssertFail
   <-> radius > max_radius thee) /\
  (Vacc_ivdwAcc thee center radius = AssertFail
   <-> radius > max_radius thee) /\
  (radius <= max_radius thee ->
   (ivdwAccExclus thee center radius atomID = Ok 0%Z \/
    ivdwAccExclus thee center radius atomID = Ok 1%Z) /\
   (Vacc_ivdwAcc thee center radius = Ok 0 \/
    Vacc_ivdwAcc thee center radius = Ok 1)).
Proof.
  split; [apply ivdwAccExclus_fail_iff|].
  split; [apply Vacc_ivdwAcc_fail_iff|].
  intros H. split.
  - apply ivdwAccExclus_ok; exact H.
  - apply Vacc_ivdwAcc_ok; exact H.
Qed.

(** *** Monotonicity in the probe radius *)

Lemma ivdwAccExclus_loop_mono thee center r r' atomID ids :
  0 <= r' -> r' < r ->
  ivdwAccExclus_loop thee center r atomID ids = 1%Z ->
  ivdwAccExclus_loop thee center r' atomID ids = 1%Z.
Proof.
  intros H0 Hlt. induction ids as [|id ids IH]; simpl; [reflexivity|].
  destruct (id =? atomID)%Z; [exact IH|].
  destruct (Rgt_dec _ 0) as [Hr|Hr]; [|exact IH].
  destruct (Rlt_dec _ (VSQR (_ + r))) as [Hd|Hd]; [discriminate|].
  destruct (Rlt_dec _ (VSQR (_ + r'))) as [Hd'|Hd']; [|exact IH].
  exfalso. apply Hd. unfold VSQR in *. nra.
Qed.

Lemma Ok_inj {A} (a b : A) : Ok a = Ok b -> a = b.
Proof. intros H; injection H; trivial. Qed.

Lemma Vacc_ivdwAcc_Ok1 thee center radius :
  Vacc_ivdwAcc thee center radius = Ok 1
  <-> ivdwAccExclus thee center radius (-1) = Ok 1%Z.
Proof.
  unfold Vacc_ivdwAcc.
  destruct (ivdwAccExclus thee center radius (-1)) as [z|]; simpl.
  - split; intros H; apply Ok_inj in H.
    + apply eq_IZR in H. subst z. reflexivity.
    + subst z. reflexivity.
  - split; discriminate.
Qed.

Lemma Vacc_ivdwAcc_Ok0 thee center radius :
  Vacc_ivdwAcc thee center radius = Ok 0
  <-> ivdwAccExclus thee center radius (-1) = Ok 0%Z.
Proof.
  unfold Vacc_ivdwAcc.
  destruct (ivdwAccExclus thee center radius (-1)) as [z|]; simpl.
  - split; intros H; apply Ok_inj in H.
    + apply eq_IZR in H. subst z. reflexivity.
    + subst z. reflexivity.
  - split; discriminate.
Qed.

(** C6: with the atoms and the point fixed, if [Vacc_ivdwAcc] returns 1.0
    for a probe radius [r], it returns 1.0 for every smaller radius
    [0 <= r' < r]. *)
Theorem ivdwAcc_monotone thee center r r' :
  0 <= r' -> r' < r -> r <= max_radius thee ->
  Vacc_ivdwAcc thee center r = Ok 1 ->
  Vacc_ivdwAcc thee center r' = Ok 1.
Proof.
  intros H0 Hlt Hmax. rewrite !Vacc_ivdwAcc_Ok1. unfold ivdwAccExclus.
  destruct (Rgt_dec r _); [discriminate|].
  destruct (Rgt_dec r' _); [lra|].
  destruct (off_grid thee center); [reflexivity|].
  intros H. apply Ok_inj in H. f_equal.
  apply ivdwAccExclus_loop_mono with (r := r); assumption.
Qed.

(** *** Exact and fast molecular surface *)

Lemma molAcc_fastMolAcc_loop thee center radius pts :
  molAcc_loop thee center radius pts
  = fastMolAcc_loop thee center radius pts.
Proof.
  induction pts as [|s pts IH]; simpl; [reflexivity|].
  destruct (Vacc_ivdwAcc thee _ radius); simpl; [|reflexivity].
  destruct (Req_dec_T _ 0); [exact IH|reflexivity].
Qed.

(** C5: at a point where [Vacc_vdwAcc] is 1.0 and [Vacc_ivdwAcc] with
    probe radius [r] is 0.0, [Vacc_molAcc] and [Vacc_fastMolAcc] return
    the same result. *)
Theorem molAcc_agrees_with_fastMolAcc thee center radius :
  Vacc_vdwAcc thee center = 1 ->
  Vacc_ivdwAcc thee center radius = Ok 0 ->
  Vacc_molAcc thee center radius = Vacc_fastMolAcc thee center radius.
Proof.
  intros Hv Hi. unfold Vacc_molAcc, Vacc_fastMolAcc.
  rewrite Hi. simpl.
  destruct (Req_dec_T 0 1); [lra|].
  rewrite Hv. destruct (Req_dec_T 1 0); [lra|].
  apply molAcc_fastMolAcc_loop.
Qed.

(** *** Points off the grid *)

Lemma Vacc_vdwAcc_off_grid thee center :
  off_grid thee center = true -> Vacc_vdwAcc thee center = 1.
Proof. intros H. unfold Vacc_vdwAcc. rewrite H. reflexivity. Qed.

Lemma ivdwAccExclus_off_grid thee center radius atomID :
  radius <= max_radius thee ->
  off_grid thee center = true ->
  ivdwAccExclus thee center radius atomID = Ok 1%Z.
Proof.
  intros Hr H. unfold ivdwAccExclus.
  destruct (Rgt_dec radius _); [lra|]. rewrite H. reflexivity.
Qed.

Lemma Vacc_ivdwAcc_off_grid thee center radius :
  radius <= max_radius thee ->
  off_grid thee center = true ->
  Vacc_ivdwAcc thee center radius = Ok 1.
Proof.
  intros Hr H. apply Vacc_ivdwAcc_Ok1.
  apply ivdwAccExclus_off_grid; assumption.
Qed.

Lemma Vacc_molAcc_off_grid thee center radius :
  radius <= max_radius thee ->
  off_grid thee center = true ->
  Vacc_molAcc thee center radius = Ok 1.
Proof.
  intros Hr H. unfold Vacc_molAcc.
  rewrite Vacc_ivdwAcc_off_grid by assumption. simpl.
  destruct (Req_dec_T 1 1); [reflexivity|lra].
Qed.

(** ** [Vacc_sphere] *)

Lemma VRINT_bound x : IZR (VRINT x) - / 2 <= x < IZR (VRINT x) + / 2.
Proof.
  unfold VRINT. pose proof (Zfloor_bound (x + / 2)). lra.
Qed.

Lemma VRINT_nonneg x : 0 <= x -> (0 <= VRINT x)%Z.
Proof.
  intros Hx. unfold VRINT. apply Zfloor_lub. simpl. lra.
Qed.

Lemma VRINT_ge (z : Z) x : IZR z <= x -> (z <= VRINT x)%Z.
Proof.
  intros Hx. unfold VRINT. apply Zfloor_lub. lra.
Qed.

Lemma VRINT_0 : VRINT 0 = 0%Z.
Proof. unfold VRINT. apply Zfloor_eq. simpl. lra. Qed.

Lemma VRINT_IZR (z : Z) : VRINT (IZR z) = z.
Proof. unfold VRINT. apply Zfloor_eq. lra. Qed.

Lemma sphere_ntheta_nonneg npts : (0 <= sphere_ntheta npts)%Z.
Proof. unfold sphere_ntheta. apply VRINT_nonneg, VSQRT_nonneg. Qed.

Lemma sphere_theta_range npts itheta :
  (0 <= itheta < sphere_ntheta npts)%Z ->
  0 <= sphere_theta npts itheta <= PI.
Proof.
  intros [H0 H1]. unfold sphere_theta, sphere_dtheta, Vunit_pi.
  assert (Hn : 0 < IZR (sphere_ntheta npts)) by (apply IZR_lt; lia).
  assert (Hi : 0 <= IZR itheta) by (apply IZR_le; lia).
  assert (Hl : IZR itheta <= IZR (sphere_ntheta npts))
    by (apply IZR_le; lia).
  assert (Hp := PI_RGT_0).
  assert (Hd : 0 < / IZR (sphere_ntheta npts))
    by (apply Rinv_0_lt_compat; exact Hn).
  replace (PI / IZR (sphere_ntheta npts) * IZR itheta)
    with (PI * (IZR itheta * / IZR (sphere_ntheta npts)))
    by (unfold Rdiv; ring).
  assert (Hq : 0 <= IZR itheta * / IZR (sphere_ntheta npts) <= 1).
  { split; [apply Rmult_le_pos; lra|].
    replace 1 with (IZR (sphere_ntheta npts) * / IZR (sphere_ntheta npts))
      by (field; lra).
    apply Rmult_le_compat_r; lra. }
  nra.
Qed.

Lemma sphere_nphi_nonneg npts itheta :
  (0 <= itheta < sphere_ntheta npts)%Z ->
  (0 <= sphere_nphi npts itheta)%Z.
Proof.
  intros H. unfold sphere_nphi. apply VRINT_nonneg.
  apply Rmult_le_pos.
  - unfold VSIN. apply sin_ge_0; apply sphere_theta_range; exact H.
  - unfold sphere_nphimax. apply IZR_le. lia.
Qed.

(** *** The counting pass *)

Lemma fold_left_add_zsum (f : Z -> Z) l acc :
  fold_left (fun a i => (a + f i)%Z) l acc = (acc + zsum (map f l))%Z.
Proof.
  revert acc. induction l as [|i l IH]; intros acc; simpl; [lia|].
  rewrite IH. lia.
Qed.

Lemma sphere_count_zsum npts :
  sphere_count npts
  = zsum (map (sphere_nphi npts) (seqZ 0 (sphere_ntheta npts))).
Proof. unfold sphere_count. rewrite fold_left_add_zsum. lia. Qed.

Lemma length_sphere_ring npts itheta :
  length (sphere_ring npts itheta) = Z.to_nat (sphere_nphi npts itheta).
Proof. unfold sphere_ring. rewrite length_map, length_seqZ. reflexivity. Qed.

Lemma length_flat_map_rings npts l :
  (forall i, i ∈ l -> (0 <= sphere_nphi npts i)%Z) ->
  Z.of_nat (length (flat_map (sphere_ring npts) l))
  = zsum (map (sphere_nphi npts) l).
Proof.
  induction l as [|i l IH]; intros H; simpl; [reflexivity|].
  rewrite length_app, length_sphere_ring, Nat2Z.inj_add.
  rewrite IH by (intros j Hj; apply H; right; exact Hj).
  rewrite Z2Nat.id by (apply H; left). reflexivity.
Qed.

Lemma length_sphere_all npts :
  Z.of_nat (length (sphere_all npts)) = sphere_count npts.
Proof.
  rewrite sphere_count_zsum. unfold sphere_all.
  apply length_flat_map_rings. intros i Hi.
  apply elem_of_seqZ in Hi. apply sphere_nphi_nonneg. lia.
Qed.

(** *** The assigning pass *)

Lemma zset_app_length {A} (pre : list A) o post x :
  zset (pre ++ o :: post) (Z.of_nat (length pre)) x = pre ++ x :: post.
Proof.
  unfold zset. destruct (Z.ltb_spec (Z.of_nat (length pre)) 0); [lia|].
  rewrite Nat2Z.id.
  replace (length pre) with (length pre + 0)%nat by lia.
  rewrite insert_app_r. reflexivity.
Qed.

Lemma write_points (f : Z -> vec3) ks : forall pre old post,
  length old = length ks ->
  fold_left (fun '(points, nactual) k =>
               (zset points nactual (f k), (nactual + 1)%Z))
            ks (pre ++ old ++ post, Z.of_nat (length pre))
  = (pre ++ map f ks ++ post, Z.of_nat (length pre + length ks)).
Proof.
  induction ks as [|k ks IH]; intros pre old post Hlen.
  - destruct old; [|discriminate]. simpl.
    rewrite Nat.add_0_r. reflexivity.
  - destruct old as [|o old]; [discriminate|]. simpl in Hlen.
    simpl. rewrite zset_app_length.
    specialize (IH (pre ++ [f k]) old post ltac:(lia)).
    rewrite length_app in IH. simpl in IH.
    replace (Z.of_nat (length pre) + 1)%Z
      with (Z.of_nat (length pre + 1)) by lia.
    rewrite <- !app_assoc in IH. simpl in IH. rewrite IH.
    f_equal. f_equal. lia.
Qed.

Lemma sphere_assign_ring_fold npts itheta st :
  sphere_assign_ring npts itheta st
  = fold_left (fun '(points, nactual) iphi =>
                 (zset points nactual (sphere_point npts itheta iphi),
                  (nactual + 1)%Z))
              (seqZ 0 (sphere_nphi npts itheta)) st.
Proof.
  unfold sphere_assign_ring.
  destruct (Z.eqb_spec (sphere_nphi npts itheta) 0) as [E|E];
    [rewrite E; reflexivity|reflexivity].
Qed.

Lemma sphere_assign_rings npts l : forall pre old post,
  length old = length (flat_map (sphere_ring npts) l) ->
  fold_left (fun st itheta => sphere_assign_ring npts itheta st) l
            (pre ++ old ++ post, Z.of_nat (length pre))
  = (pre ++ flat_map (sphere_ring npts) l ++ post,
     Z.of_nat (length pre + length (flat_map (sphere_ring npts) l))).
Proof.
  induction l as [|i l IH]; intros pre old post Hlen.
  - destruct old; [|discriminate]. simpl.
    rewrite Nat.add_0_r. reflexivity.
  - simpl in *. rewrite length_app in Hlen.
    rewrite sphere_assign_ring_fold.
    rewrite <- (take_drop (length (sphere_ring npts i)) old).
    rewrite <- app_assoc.
    rewrite write_points
      by (rewrite length_take, length_seqZ, <- length_sphere_ring; lia).
    fold (sphere_ring npts i).
    rewrite length_seqZ, <- length_sphere_ring.
    specialize (IH (pre ++ sphere_ring npts i)
                   (drop (length (sphere_ring npts i)) old) post).
    rewrite length_app in IH. rewrite <- !app_assoc in IH.
    rewrite IH by (rewrite length_drop; lia).
    rewrite length_app, <- !app_assoc. f_equal. f_equal. lia.
Qed.

Lemma Vacc_sphere_all npts :
  Vacc_sphere npts = (sphere_all npts, sphere_count npts).
Proof.
  unfold Vacc_sphere, sphere_assign.
  pose proof (sphere_assign_rings npts (seqZ 0 (sphere_ntheta npts))
                [] (replicate (Z.to_nat (sphere_count npts)) (0, 0, 0)) [])
    as H.
  simpl in H. rewrite !app_nil_r in H. fold (sphere_all npts) in H.
  change (Z.of_nat 0) with 0%Z in H.
  transitivity (sphere_all npts, Z.of_nat (length (sphere_all npts))).
  - apply H.
    rewrite length_replicate, <- length_sphere_all, Nat2Z.id. reflexivity.
  - rewrite length_sphere_all. reflexivity.
Qed.

(** ** Arrays *)

Lemma length_zset {A} (l : list A) i x : length (zset l i x) = length l.
Proof.
  unfold zset. destruct (i <? 0)%Z; [reflexivity|apply length_insert].
Qed.

Lemma zget_zset_eq {A} (d : A) l i x :
  (0 <= i < Z.of_nat (length l))%Z -> zget d (zset l i x) i = x.
Proof.
  intros Hi. unfold zget, zset.
  destruct (Z.ltb_spec i 0); [lia|].
  rewrite nth_lookup, list_lookup_insert_eq by lia. reflexivity.
Qed.

Lemma zget_zset_ne {A} (d : A) l i j x :
  i <> j -> zget d (zset l i x) j = zget d l j.
Proof.
  intros Hij. unfold zget, zset.
  destruct (Z.ltb_spec j 0); [reflexivity|].
  destruct (Z.ltb_spec i 0); [reflexivity|].
  rewrite !nth_lookup, list_lookup_insert_ne by lia. reflexivity.
Qed.

Lemma zget_app_l {A} (d : A) l k i :
  (0 <= i < Z.of_nat (length l))%Z -> zget d (l ++ k) i = zget d l i.
Proof.
  intros Hi. unfold zget. destruct (Z.ltb_spec i 0); [lia|].
  rewrite !nth_lookup, lookup_app_l by lia. reflexivity.
Qed.

Lemma zget_replicate {A} (d x : A) m i :
  (0 <= i < Z.of_nat m)%Z -> zget d (replicate m x) i = x.
Proof.
  intros Hi. unfold zget. destruct (Z.ltb_spec i 0); [lia|].
  rewrite nth_lookup, lookup_replicate_2 by lia. reflexivity.
Qed.

Lemma zget_map {A B} (f : A -> B) (d : A) (e : B) l i :
  (0 <= i < Z.of_nat (length l))%Z ->
  zget e (map f l) i = f (zget d l i).
Proof.
  intros Hi. unfold zget. destruct (Z.ltb_spec i 0); [lia|].
  rewrite !nth_lookup.
  change (map f l) with (f <$> l). rewrite list_lookup_fmap.
  destruct (lookup_lt_is_Some_2 l (Z.to_nat i) ltac:(lia)) as [y Hy].
  rewrite Hy. reflexivity.
Qed.

Lemma zget_app_length {A} (d : A) l x :
  zget d (l ++ [x]) (Z.of_nat (length l)) = x.
Proof.
  unfold zget. destruct (Z.ltb_spec (Z.of_nat (length l)) 0); [lia|].
  rewrite nth_lookup, Nat2Z.id.
  rewrite lookup_app_r by lia.
  replace (length l - length l)%nat with 0%nat by lia.
  reflexivity.
Qed.

(** Reading a whole array back with a counting loop. *)
Lemma map_zget_seqZ {A} (d : A) l :
  map (zget d l) (seqZ 0 (Z.of_nat (length l))) = l.
Proof.
  induction l as [|x l IH] using rev_ind; [reflexivity|].
  rewrite length_app. simpl.
  replace (Z.of_nat (length l + 1)) with (Z.of_nat (length l) + 1)%Z
    by lia.
  rewrite seqZ_app by lia. rewrite map_app. f_equal.
  - transitivity (map (zget d l) (seqZ 0 (Z.of_nat (length l))));
      [|exact IH].
    apply map_ext_in. intros i Hi.
    apply list_elem_of_In, elem_of_seqZ in Hi.
    apply zget_app_l. lia.
  - simpl. f_equal.
    match goal with
    | |- zget _ _ ?i = _ => replace i with (Z.of_nat (length l)) by lia
    end.
    apply zget_app_length.
Qed.

Lemma map_zget_seqZ_take {A} (d : A) l (c : Z) :
  (0 <= c <= Z.of_nat (length l))%Z ->
  map (zget d l) (seqZ 0 c) = take (Z.to_nat c) l.
Proof.
  intros Hc.
  rewrite <- (map_zget_seqZ d (take (Z.to_nat c) l)).
  rewrite length_take.
  replace (Z.of_nat (Z.to_nat c `min` length l)) with c by lia.
  apply map_ext_in. intros i Hi.
  apply list_elem_of_In, elem_of_seqZ in Hi.
  unfold zget. destruct (Z.ltb_spec i 0); [lia|].
  rewrite !nth_lookup, lookup_take_lt by lia. reflexivity.
Qed.

(** ** Lists of cells *)

Lemma elem_of_flat_map {A B} (f : A -> list B) l y :
  y ∈ flat_map f l <-> exists x, x ∈ l /\ y ∈ f x.
Proof.
  rewrite list_elem_of_In, in_flat_map.
  split; intros (x & H1 & H2); exists x;
    rewrite ?list_elem_of_In in *; auto.
Qed.

Lemma NoDup_flat_map {A B} (f : A -> list B) l :
  NoDup l ->
  (forall x, x ∈ l -> NoDup (f x)) ->
  (forall x1 x2 y, x1 ∈ l -> x2 ∈ l -> y ∈ f x1 -> y ∈ f x2 -> x1 = x2) ->
  NoDup (flat_map f l).
Proof.
  induction 1 as [|x l Hx Hl IH]; intros Hf Hinj; simpl.
  - constructor.
  - apply NoDup_app. split; [apply Hf; left|]. split.
    + intros y Hy Hy'. apply elem_of_flat_map in Hy' as (x' & Hx' & Hy').
      assert (x = x') by (eapply Hinj; eauto; [left|right; exact Hx']).
      subst x'. contradiction.
    + apply IH.
      * intros z Hz. apply Hf. right. exact Hz.
      * intros x1 x2 y H1 H2. apply Hinj; right; assumption.
Qed.

Lemma elem_of_zrange lo hi v : v ∈ zrange lo hi <-> (lo <= v <= hi)%Z.
Proof. unfold zrange. rewrite elem_of_seqZ. lia. Qed.

Lemma NoDup_zrange lo hi : NoDup (zrange lo hi).
Proof. apply NoDup_seqZ. Qed.

Lemma cell_ui_inj ny nz ii jj kk ii' jj' kk' :
  (0 <= jj < ny)%Z -> (0 <= kk < nz)%Z ->
  (0 <= jj' < ny)%Z -> (0 <= kk' < nz)%Z ->
  cell_ui ny nz ii jj kk = cell_ui ny nz ii' jj' kk' ->
  ii = ii' /\ jj = jj' /\ kk = kk'.
Proof.
  unfold cell_ui. intros Hj Hk Hj' Hk' H.
  assert (H1 : (ny * ii + jj = ny * ii' + jj')%Z) by nia.
  assert (H2 : ii = ii') by nia.
  subst ii'. split; [reflexivity|]. split; nia.
Qed.

Lemma cell_ui_range nx ny nz ii jj kk :
  (0 <= ii < nx)%Z -> (0 <= jj < ny)%Z -> (0 <= kk < nz)%Z ->
  (0 <= cell_ui ny nz ii jj kk < nx * ny * nz)%Z.
Proof.
  unfold cell_ui. intros Hi Hj Hk.
  assert (0 <= ny * ii + jj < nx * ny)%Z by nia.
  nia.
Qed.

Lemma elem_of_span_cells g s ui :
  ui ∈ span_cells g s <->
  exists ii jj kk,
    (i_min s <= ii <= i_max s)%Z /\ (j_min s <= jj <= j_max s)%Z /\
    (k_min s <= kk <= k_max s)%Z /\
    ui = cell_ui (g_ny g) (g_nz g) ii jj kk.
Proof.
  unfold span_cells. rewrite elem_of_flat_map. split.
  - intros (ii & Hi & H). apply elem_of_flat_map in H as (jj & Hj & H).
    apply list_elem_of_In, in_map_iff in H as (kk & <- & Hk).
    apply list_elem_of_In in Hk.
    rewrite elem_of_zrange in Hi, Hj, Hk.
    exists ii, jj, kk. auto.
  - intros (ii & jj & kk & Hi & Hj & Hk & ->).
    exists ii. split; [apply elem_of_zrange; exact Hi|].
    apply elem_of_flat_map. exists jj.
    split; [apply elem_of_zrange; exact Hj|].
    apply list_elem_of_In, in_map_iff. exists kk.
    split; [reflexivity|].
    apply list_elem_of_In, elem_of_zrange. exact Hk.
Qed.

Lemma atom_span_ok g atom : span_ok g (atom_span g atom).
Proof.
  unfold span_ok, atom_span, VMAX2, VMIN2. simpl.
  repeat match goal with
         | |- context [(?a >=? ?b)%Z] => destruct (Z.geb_spec a b)
         | |- context [(?a <=? ?b)%Z] => destruct (Z.leb_spec a b)
         end; lia.
Qed.

Lemma span_cells_range g s ui :
  span_ok g s -> ui ∈ span_cells g s -> (0 <= ui < g_n g)%Z.
Proof.
  intros Hok H.
  apply elem_of_span_cells in H as (ii & jj & kk & Hi & Hj & Hk & ->).
  unfold span_ok in Hok. apply cell_ui_range; lia.
Qed.

Lemma NoDup_map_inj_on {A B} (f : A -> B) l :
  NoDup l ->
  (forall x y, x ∈ l -> y ∈ l -> f x = f y -> x = y) ->
  NoDup (map f l).
Proof.
  induction 1 as [|x l Hx Hl IH]; intros Hinj; simpl; constructor.
  - intros Hin. apply list_elem_of_In, in_map_iff in Hin as (y & E & Hy).
    apply list_elem_of_In in Hy.
    assert (y = x) by (apply Hinj; [right; exact Hy|left|exact E]).
    subst y. contradiction.
  - apply IH. intros a b Ha Hb. apply Hinj; right; assumption.
Qed.

Lemma NoDup_span_cells g s : span_ok g s -> NoDup (span_cells g s).
Proof.
  intros Hok. unfold span_ok in Hok. unfold span_cells.
  apply NoDup_flat_map.
  - apply NoDup_zrange.
  - intros ii Hi. apply NoDup_flat_map.
    + apply NoDup_zrange.
    + intros jj Hj. apply NoDup_map_inj_on; [apply NoDup_zrange|].
      intros kk kk' Hk Hk' E.
      rewrite elem_of_zrange in Hj, Hk, Hk'.
      apply cell_ui_inj in E; lia.
    + intros jj jj' y Hj Hj' Hy Hy'.
      apply list_elem_of_In, in_map_iff in Hy as (kk & <- & Hk).
      apply list_elem_of_In, in_map_iff in Hy' as (kk' & E & Hk').
      apply list_elem_of_In in Hk, Hk'.
      rewrite elem_of_zrange in Hj, Hj', Hk, Hk'.
      apply cell_ui_inj in E; lia.
  - intros ii ii' y Hi Hi' Hy Hy'.
    apply elem_of_flat_map in Hy as (jj & Hj & Hy).
    apply elem_of_flat_map in Hy' as (jj' & Hj' & Hy').
    apply list_elem_of_In, in_map_iff in Hy as (kk & <- & Hk).
    apply list_elem_of_In, in_map_iff in Hy' as (kk' & E & Hk').
    apply list_elem_of_In in Hk, Hk'.
    rewrite elem_of_zrange in Hj, Hj', Hk, Hk'.
    apply cell_ui_inj in E; lia.
Qed.

(** ** The counting pass of [Vacc_ctor2] *)

Lemma count_cells cells : forall na,
  NoDup cells ->
  (forall ui, ui ∈ cells -> (0 <= ui < Z.of_nat (length na))%Z) ->
  let na' := fold_left (fun na ui => zset na ui (zget 0 na ui + 1)%Z)
                       cells na in
  length na' = length na /\
  forall ui, zget 0%Z na' ui
             = (zget 0 na ui + if decide (ui ∈ cells) then 1 else 0)%Z.
Proof.
  induction cells as [|c cells IH]; intros na Hnd Hr; simpl.
  - split; [reflexivity|]. intros ui.
    destruct (decide (ui ∈ [])) as [H|_]; [inversion H|lia].
  - apply NoDup_cons in Hnd as [Hc Hnd].
    specialize (IH (zset na c (zget 0 na c + 1)%Z) Hnd).
    rewrite length_zset in IH.
    destruct IH as [IH1 IH2].
    { intros ui Hui. apply Hr. right. exact Hui. }
    split; [exact IH1|]. intros ui. rewrite IH2.
    destruct (decide (ui = c)) as [->|Hne].
    + rewrite zget_zset_eq by (apply Hr; left).
      destruct (decide (c ∈ cells)); [contradiction|].
      destruct (decide (c ∈ c :: cells)) as [_|H]; [lia|].
      exfalso. apply H. left.
    + rewrite zget_zset_ne by congruence.
      destruct (decide (ui ∈ cells)) as [H|H],
               (decide (ui ∈ c :: cells)) as [H'|H']; try lia.
      * exfalso. apply H'. right. exact H.
      * exfalso. apply elem_of_cons in H' as [?|?]; contradiction.
Qed.

Lemma count_pass_spec g atoms : forall na,
  Z.of_nat (length na) = g_n g ->
  length (count_pass g atoms na) = length na /\
  forall ui base,
    zget 0%Z (count_pass g atoms na) ui
    = (zget 0 na ui + Z.of_nat (length (covering g ui base atoms)))%Z.
Proof.
  induction atoms as [|a atoms IH]; intros na Hlen; simpl.
  - split; [reflexivity|]. intros. lia.
  - pose proof (count_cells (span_cells g (atom_span g a)) na
                  (NoDup_span_cells g _ (atom_span_ok g a))) as Hc.
    destruct Hc as [Hc1 Hc2].
    { intros ui Hui. rewrite Hlen.
      eapply span_cells_range; [apply atom_span_ok|exact Hui]. }
    fold (count_atom g na a) in Hc1, Hc2.
    destruct (IH (count_atom g na a)) as [IH1 IH2]; [lia|].
    unfold count_pass in *. simpl.
    split; [lia|]. intros ui base.
    rewrite (IH2 ui (base + 1)%Z), Hc2, length_app.
    destruct (decide (ui ∈ span_cells g (atom_span g a))); simpl; lia.
Qed.

(** ** The allocation and the filling pass of [Vacc_ctor2] *)

Lemma length_alloc_pass counts : length (alloc_pass counts) = length counts.
Proof. unfold alloc_pass. apply length_map. Qed.

Lemma alloc_pass_slot counts ui :
  (0 <= ui < Z.of_nat (length counts))%Z ->
  length (zget [] (alloc_pass counts) ui)
  = Z.to_nat (zget 0%Z counts ui).
Proof.
  intros Hui. unfold alloc_pass.
  rewrite (zget_map _ 0%Z) by exact Hui.
  destruct (Z.gtb_spec (zget 0%Z counts ui) 0).
  - apply length_replicate.
  - simpl. lia.
Qed.

Lemma fill_cells i cells : forall na ids,
  NoDup cells ->
  (forall ui, ui ∈ cells -> (0 <= ui < Z.of_nat (length na))%Z) ->
  length ids = length na ->
  let st := fold_left (fill_cell i) cells (na, ids) in
  length (fst st) = length na /\
  length (snd st) = length ids /\
  forall ui,
    zget 0%Z (fst st) ui
    = (zget 0 na ui + if decide (ui ∈ cells) then 1 else 0)%Z /\
    zget [] (snd st) ui
    = if decide (ui ∈ cells)
      then zset (zget [] ids ui) (zget 0%Z na ui) i
      else zget [] ids ui.
Proof.
  induction cells as [|c cells IH]; intros na ids Hnd Hr Hlen; simpl.
  - split; [reflexivity|]. split; [reflexivity|]. intros ui.
    destruct (decide (ui ∈ [])) as [H|_]; [inversion H|].
    split; [lia|reflexivity].
  - apply NoDup_cons in Hnd as [Hc Hnd].
    specialize (IH (zset na c (zget 0 na c + 1)%Z)
                   (zset ids c (zset (zget [] ids c) (zget 0%Z na c) i))
                   Hnd).
    rewrite !length_zset in IH.
    destruct IH as (IH1 & IH2 & IH3); [|exact Hlen|].
    { intros ui Hui. apply Hr. right. exact Hui. }
    split; [exact IH1|]. split; [exact IH2|]. intros ui.
    destruct (IH3 ui) as [E1 E2]. rewrite E1, E2. clear E1 E2.
    destruct (decide (ui = c)) as [->|Hne].
    + rewrite !zget_zset_eq
        by (try rewrite Hlen; apply Hr; left).
      destruct (decide (c ∈ cells)); [contradiction|].
      destruct (decide (c ∈ c :: cells)) as [_|H];
        [split; [lia|reflexivity]|].
      exfalso. apply H. left.
    + rewrite !zget_zset_ne by congruence.
      destruct (decide (ui ∈ cells)) as [H|H],
               (decide (ui ∈ c :: cells)) as [H'|H'];
        try (split; [lia|reflexivity]).
      * exfalso. apply H'. right. exact H.
      * exfalso. apply elem_of_cons in H' as [?|?]; contradiction.
Qed.

Lemma take_zset_next (l : list Z) (c : Z) x :
  (0 <= c < Z.of_nat (length l))%Z ->
  take (Z.to_nat (c + 1)) (zset l c x) = take (Z.to_nat c) l ++ [x].
Proof.
  intros Hc. unfold zset. destruct (Z.ltb_spec c 0); [lia|].
  replace (Z.to_nat (c + 1)) with (S (Z.to_nat c)) by lia.
  erewrite take_S_r by (apply list_lookup_insert_eq; lia).
  rewrite take_insert_ge by lia. reflexivity.
Qed.

Lemma fill_pass_gen g atoms : forall base na ids,
  Z.of_nat (length na) = g_n g ->
  length ids = length na ->
  (forall ui, (0 <= ui < g_n g)%Z ->
     (0 <= zget 0 na ui)%Z /\
     Z.of_nat (length (zget [] ids ui))
     = (zget 0 na ui + Z.of_nat (length (covering g ui base atoms)))%Z) ->
  let st := fold_left (fill_atom g)
              (zip (seqZ base (Z.of_nat (length atoms))) atoms) (na, ids) in
  length (fst st) = length na /\
  length (snd st) = length ids /\
  forall ui, (0 <= ui < g_n g)%Z ->
    zget 0%Z (fst st) ui
    = (zget 0 na ui + Z.of_nat (length (covering g ui base atoms)))%Z /\
    zget [] (snd st) ui
    = take (Z.to_nat (zget 0%Z na ui)) (zget [] ids ui)
      ++ covering g ui base atoms.
Proof.
  induction atoms as [|a atoms IH]; intros base na ids Hn Hlen Hcap.
  - simpl. split; [reflexivity|]. split; [reflexivity|].
    intros ui Hui. destruct (Hcap ui Hui) as [H0 H1]. simpl in H1.
    split; [lia|]. rewrite app_nil_r, take_ge; [reflexivity|lia].
  - cbn [length]. rewrite Nat2Z.inj_succ, seqZ_cons by lia.
    cbn [zip zip_with fold_left].
    replace (Z.pred (Z.succ (Z.of_nat (length atoms))))
      with (Z.of_nat (length atoms)) by lia.
    replace (Z.succ base) with (base + 1)%Z by lia.
    change (fill_atom g (na, ids) (base, a))
      with (fold_left (fill_cell base) (span_cells g (atom_span g a))
              (na, ids)).
    pose proof (fill_cells base (span_cells g (atom_span g a)) na ids
                  (NoDup_span_cells g _ (atom_span_ok g a))) as Hf.
    destruct Hf as (Hf1 & Hf2 & Hf3); [|exact Hlen|].
    { intros ui Hui. rewrite Hn.
      eapply span_cells_range; [apply atom_span_ok|exact Hui]. }
    destruct (fold_left (fill_cell base) (span_cells g (atom_span g a))
                (na, ids)) as [na1 ids1] eqn:E1.
    cbn [fst snd] in Hf1, Hf2, Hf3.
    specialize (IH (base + 1)%Z na1 ids1).
    destruct IH as (IH1 & IH2 & IH3); [lia|lia| |].
    { intros ui Hui. destruct (Hcap ui Hui) as [H0 H1].
      destruct (Hf3 ui) as [E2 E3]. rewrite E2, E3.
      cbn [covering] in H1. rewrite length_app in H1.
      destruct (decide (ui ∈ span_cells g (atom_span g a))).
      - rewrite length_zset. simpl in H1. lia.
      - simpl in H1. lia. }
    split; [lia|]. split; [lia|]. intros ui Hui.
    destruct (IH3 ui Hui) as [E4 E5]. rewrite E4, E5. clear E4 E5.
    destruct (Hcap ui Hui) as [H0 H1].
    destruct (Hf3 ui) as [E2 E3]. rewrite E2, E3. clear E2 E3.
    cbn [covering] in *. rewrite length_app in *.
    destruct (decide (ui ∈ span_cells g (atom_span g a))).
    + simpl in H1. split; [simpl; lia|].
      rewrite take_zset_next by lia.
      rewrite <- app_assoc. reflexivity.
    + simpl in H1. split; [simpl; lia|].
      rewrite Z.add_0_r. reflexivity.
Qed.

(** ** Directions covered by the quadrature points *)

Lemma PI_gt_3 : 3 < PI.
Proof. pose proof PI2_3_2. lra. Qed.

Lemma VRINT_ge_half (z : Z) x : IZR z <= x + / 2 -> (z <= VRINT x)%Z.
Proof. intros Hx. unfold VRINT. apply Zfloor_lub. exact Hx. Qed.

Lemma sphere_ntheta_ge_2 npts :
  (3 <= npts)%Z -> (2 <= sphere_ntheta npts)%Z.
Proof.
  intros Hn. unfold sphere_ntheta. apply VRINT_ge_half.
  assert (H3 : 3 <= IZR npts) by (apply IZR_le; exact Hn).
  assert (Hpi := PI_gt_3).
  assert (Hs : 1.5 <= VSQRT (Vunit_pi * (IZR npts / 4))).
  { unfold VSQRT, Vunit_pi.
    rewrite <- (sqrt_square 1.5) by lra.
    apply sqrt_le_1_alt. nra. }
  simpl. lra.
Qed.

Lemma half_bounds (m : Z) :
  (2 <= m)%Z -> (1 <= m / 2 /\ 2 * (m / 2) <= m /\ m <= 3 * (m / 2))%Z.
Proof.
  intros Hm. pose proof (Z.div_mod m 2 ltac:(lia)) as Hd.
  pose proof (Z.mod_pos_bound m 2 ltac:(lia)) as Hb. lia.
Qed.

Lemma sphere_theta_mid npts :
  (2 <= sphere_ntheta npts)%Z ->
  PI / 3 <= sphere_theta npts (sphere_ntheta npts / 2) <= PI / 2.
Proof.
  intros Hn. destruct (half_bounds _ Hn) as (H1 & H2 & H3).
  set (nt := sphere_ntheta npts) in *.
  unfold sphere_theta, sphere_dtheta, Vunit_pi. fold nt.
  assert (Hnt : 2 <= IZR nt) by (apply IZR_le; exact Hn).
  assert (Hm2 : 2 * IZR (nt / 2) <= IZR nt).
  { rewrite <- mult_IZR. apply IZR_le. exact H2. }
  assert (Hm3 : IZR nt <= 3 * IZR (nt / 2)).
  { rewrite <- mult_IZR. apply IZR_le. exact H3. }
  assert (Hi : 0 < / IZR nt) by (apply Rinv_0_lt_compat; lra).
  assert (Hq : / 3 <= IZR (nt / 2) * / IZR nt <= / 2).
  { split.
    - apply Rmult_le_reg_r with (IZR nt); [lra|].
      rewrite Rmult_assoc, Rinv_l by lra. lra.
    - apply Rmult_le_reg_r with (IZR nt); [lra|].
      rewrite Rmult_assoc, Rinv_l by lra. lra. }
  assert (Hpi := PI_RGT_0).
  replace (PI / IZR nt * IZR (nt / 2))
    with (PI * (IZR (nt / 2) * / IZR nt)) by (unfold Rdiv; ring).
  split; nra.
Qed.

Lemma sin_ge_half x : PI / 6 <= x <= PI / 2 -> / 2 <= sin x.
Proof.
  intros [H1 H2]. assert (Hpi := PI_RGT_0).
  replace (/ 2) with (sin (PI / 6)) by (rewrite sin_PI6; lra).
  apply sin_incr_1; lra.
Qed.

Lemma sphere_nphi_mid npts :
  (2 <= sphere_ntheta npts)%Z ->
  (2 <= sphere_nphi npts (sphere_ntheta npts / 2))%Z.
Proof.
  intros Hn. unfold sphere_nphi, sphere_nphimax, VSIN.
  apply VRINT_ge.
  pose proof (sphere_theta_mid npts Hn) as [T1 T2].
  assert (Hpi := PI_RGT_0).
  assert (Hs : / 2 <= sin (sphere_theta npts (sphere_ntheta npts / 2)))
    by (apply sin_ge_half; lra).
  assert (Hnt : 4 <= IZR (2 * sphere_ntheta npts))
    by (apply IZR_le; lia).
  nra.
Qed.

Lemma sphere_theta_mirror npts i :
  (0 < sphere_ntheta npts)%Z ->
  sphere_theta npts (sphere_ntheta npts - i) = PI - sphere_theta npts i.
Proof.
  intros Hn. unfold sphere_theta, sphere_dtheta, Vunit_pi.
  rewrite minus_IZR.
  assert (Hnt : 0 < IZR (sphere_ntheta npts)) by (apply IZR_lt; exact Hn).
  field. lra.
Qed.

Lemma cos_PI_minus x : cos (PI - x) = - cos x.
Proof. rewrite cos_minus, cos_PI, sin_PI. ring. Qed.

Lemma sphere_nphi_mirror npts i :
  (0 < sphere_ntheta npts)%Z ->
  sphere_nphi npts (sphere_ntheta npts - i) = sphere_nphi npts i.
Proof.
  intros Hn. unfold sphere_nphi, VSIN.
  rewrite sphere_theta_mirror by exact Hn.
  rewrite sin_PI_x. reflexivity.
Qed.

Lemma sphere_point_in npts i k :
  (0 <= i < sphere_ntheta npts)%Z ->
  (0 <= k < sphere_nphi npts i)%Z ->
  sphere_point npts i k ∈ sphere_all npts.
Proof.
  intros Hi Hk. unfold sphere_all. apply elem_of_flat_map.
  exists i. split; [apply elem_of_seqZ; lia|].
  unfold sphere_ring. apply list_elem_of_In, in_map_iff.
  exists k. split; [reflexivity|].
  apply list_elem_of_In, elem_of_seqZ. lia.
Qed.

Lemma sphere_point_first npts i :
  sphere_point npts i 0
  = (sin (sphere_theta npts i), 0, cos (sphere_theta npts i)).
Proof.
  unfold sphere_point, VSIN, VCOS.
  rewrite Rmult_0_r, sin_0, cos_0.
  rewrite Rmult_1_l, Rmult_0_l. reflexivity.
Qed.

Lemma sphere_phi_half npts i :
  (2 <= sphere_nphi npts i)%Z ->
  PI / 2
  <= 2 * Vunit_pi / IZR (sphere_nphi npts i)
     * IZR (sphere_nphi npts i / 2)
  <= PI.
Proof.
  intros Hn. destruct (half_bounds _ Hn) as (H1 & H2 & H3).
  set (np := sphere_nphi npts i) in *. unfold Vunit_pi.
  assert (Hnp : 2 <= IZR np) by (apply IZR_le; exact Hn).
  assert (Hm2 : 2 * IZR (np / 2) <= IZR np).
  { rewrite <- mult_IZR. apply IZR_le. exact H2. }
  assert (Hm4 : IZR np <= 4 * IZR (np / 2)).
  { rewrite <- mult_IZR. apply IZR_le. lia. }
  assert (Hi : 0 < / IZR np) by (apply Rinv_0_lt_compat; lra).
  assert (Hq : / 4 <= IZR (np / 2) * / IZR np <= / 2).
  { split.
    - apply Rmult_le_reg_r with (IZR np); [lra|].
      rewrite Rmult_assoc, Rinv_l by lra. lra.
    - apply Rmult_le_reg_r with (IZR np); [lra|].
      rewrite Rmult_assoc, Rinv_l by lra. lra. }
  assert (Hpi := PI_RGT_0).
  replace (2 * PI / IZR np * IZR (np / 2))
    with (2 * PI * (IZR (np / 2) * / IZR np)) by (unfold Rdiv; ring).
  split; nra.
Qed.

(** For a target count of 3 or more the quadrature set has, on each
    axis, a point with a non-negative and a point with a non-positive
    coordinate. *)
Lemma sphere_directions npts :
  (3 <= npts)%Z ->
  (exists s, s ∈ sphere_all npts /\ 0 <= c0 s) /\
  (exists s, s ∈ sphere_all npts /\ c0 s <= 0) /\
  (exists s, s ∈ sphere_all npts /\ c1 s = 0) /\
  (exists s, s ∈ sphere_all npts /\ 0 <= c2 s) /\
  (exists s, s ∈ sphere_all npts /\ c2 s <= 0).
Proof.
  intros Hn. pose proof (sphere_ntheta_ge_2 npts Hn) as Hnt.
  destruct (half_bounds _ Hnt) as (H1 & H2 & H3).
  pose proof (sphere_theta_mid npts Hnt) as [T1 T2].
  pose proof (sphere_nphi_mid npts Hnt) as Hnp.
  set (nt := sphere_ntheta npts) in *.
  set (m := (nt / 2)%Z) in *.
  assert (Hpi := PI_RGT_0).
  assert (Hsin : 0 <= sin (sphere_theta npts m))
    by (apply sin_ge_0; lra).
  assert (Hcos : 0 <= cos (sphere_theta npts m))
    by (apply cos_ge_0; lra).
  assert (Hin0 : sphere_point npts m 0 ∈ sphere_all npts)
    by (apply sphere_point_in; fold nt; lia).
  split; [|split; [|split; [|split]]].
  - exists (sphere_point npts m 0). split; [exact Hin0|].
    rewrite sphere_point_first. exact Hsin.
  - exists (sphere_point npts m (sphere_nphi npts m / 2)). split.
    + destruct (half_bounds _ Hnp) as (K1 & K2 & K3).
      apply sphere_point_in; fold nt; lia.
    + unfold sphere_point, c0, VSIN, VCOS. simpl.
      pose proof (sphere_phi_half npts m Hnp) as [P1 P2].
      assert (Hc : cos (2 * Vunit_pi / IZR (sphere_nphi npts m)
                        * IZR (sphere_nphi npts m / 2)) <= 0)
        by (apply cos_le_0; lra).
      nra.
  - exists (sphere_point npts m 0). split; [exact Hin0|].
    rewrite sphere_point_first. reflexivity.
  - exists (sphere_point npts m 0). split; [exact Hin0|].
    rewrite sphere_point_first. exact Hcos.
  - exists (sphere_point npts (nt - m) 0). split.
    + apply sphere_point_in; [fold nt; lia|].
      unfold nt. rewrite sphere_nphi_mirror by lia. fold nt m. lia.
    + rewrite sphere_point_first. unfold c2. simpl.
      unfold nt. rewrite sphere_theta_mirror by lia.
      rewrite cos_PI_minus. fold nt m. lra.
Qed.

(** ** When the first pass counts a point *)

Lemma sphere_count_pos npts : (3 <= npts)%Z -> (0 < sphere_count npts)%Z.
Proof.
  intros Hn. rewrite <- length_sphere_all.
  destruct (sphere_directions npts Hn) as ((s & Hs & _) & _).
  destruct (sphere_all npts); [inversion Hs|]. simpl. lia.
Qed.

Lemma sphere_ntheta_le_1 npts : (npts < 3)%Z -> (sphere_ntheta npts <= 1)%Z.
Proof.
  intros Hn. unfold sphere_ntheta.
  pose proof (VRINT_bound (VSQRT (Vunit_pi * (IZR npts / 4)))) as [Hb _].
  assert (U : VSQRT (Vunit_pi * (IZR npts / 4)) < 1.5).
  { unfold VSQRT, Vunit_pi. assert (Hpi4 := PI_4).
    assert (Hpi := PI_RGT_0).
    assert (H2 : IZR npts <= 2) by (apply IZR_le; lia).
    rewrite <- (sqrt_square 1.5) by lra.
    destruct (Rle_dec (PI * (IZR npts / 4)) 0) as [Hneg|Hpos].
    - rewrite (sqrt_neg_0 _ Hneg). apply sqrt_lt_R0. lra.
    - apply sqrt_lt_1_alt. nra. }
  assert (H2 : IZR (VRINT (VSQRT (Vunit_pi * (IZR npts / 4)))) < 2) by lra.
  apply lt_IZR in H2. lia.
Qed.

Lemma sphere_count_small npts : (npts < 3)%Z -> sphere_count npts = 0%Z.
Proof.
  intros Hn. pose proof (sphere_ntheta_le_1 npts Hn) as H1.
  pose proof (sphere_ntheta_nonneg npts) as H0.
  unfold sphere_count.
  assert (E : sphere_ntheta npts = 0%Z \/ sphere_ntheta npts = 1%Z) by lia.
  destruct E as [-> | E1]; [reflexivity|].
  rewrite E1. change (seqZ 0 1) with [0%Z]. cbn [fold_left].
  unfold sphere_nphi, sphere_theta, VSIN.
  rewrite Rmult_0_r, sin_0, Rmult_0_l, VRINT_0. reflexivity.
Qed.

(** The allocation of [Vacc_sphere] is served for a target count of 3 or
    more, and for no other. *)
Lemma Vacc_sphere_alloc_iff npts :
  Vacc_sphere_alloc npts = true <-> (3 <= npts)%Z.
Proof.
  unfold Vacc_sphere_alloc, Vmem_malloc_ok. rewrite Z.ltb_lt. split.
  - intros H. destruct (Z_lt_le_dec npts 3) as [Hs|Hs]; [|exact Hs].
    rewrite (sphere_count_small npts Hs) in H. lia.
  - apply sphere_count_pos.
Qed.

(** ** What [covering] lists *)

Lemma zget_cons {A} (d : A) a l k :
  (0 < k)%Z -> zget d (a :: l) k = zget d l (k - 1).
Proof.
  intros Hk. unfold zget.
  destruct (Z.ltb_spec k 0); [lia|].
  destruct (Z.ltb_spec (k - 1) 0); [lia|].
  replace (Z.to_nat k) with (S (Z.to_nat (k - 1))) by lia. reflexivity.
Qed.

Lemma elem_of_covering g ui atoms : forall base i,
  i ∈ covering g ui base atoms <->
  (base <= i < base + Z.of_nat (length atoms))%Z /\
  ui ∈ span_cells g (atom_span g (zget Vatom_null atoms (i - base))).
Proof.
  induction atoms as [|a atoms IH]; intros base i; simpl.
  - split; [intros H; inversion H|intros [H _]; lia].
  - rewrite elem_of_app, IH. split.
    + intros [H|[H1 H2]].
      * destruct (decide (ui ∈ span_cells g (atom_span g a))) as [Hc|Hc];
          [|inversion H].
        apply list_elem_of_singleton in H. subst i.
        split; [lia|]. rewrite Z.sub_diag. exact Hc.
      * split; [lia|]. rewrite zget_cons by lia.
        replace (i - base - 1)%Z with (i - (base + 1))%Z by lia.
        exact H2.
    + intros [H1 H2]. destruct (decide (i = base)) as [->|Hne].
      * left. rewrite Z.sub_diag in H2. change (zget Vatom_null (a :: atoms) 0) with a in H2.
        destruct (decide (ui ∈ span_cells g (atom_span g a)));
          [left|contradiction].
      * right. split; [lia|]. rewrite zget_cons in H2 by lia.
        replace (i - (base + 1))%Z with (i - base - 1)%Z by lia.
        exact H2.
Qed.

Lemma covering_sorted g ui atoms : forall base,
  StronglySorted Z.lt (covering g ui base atoms).
Proof.
  induction atoms as [|a atoms IH]; intros base; simpl; [constructor|].
  destruct (decide (ui ∈ span_cells g (atom_span g a))); simpl;
    [|apply IH].
  constructor; [apply IH|].
  apply Forall_forall. intros i Hi. apply elem_of_covering in Hi. lia.
Qed.

(** ** [Vacc_ctor2] *)

(** The guards both constructors pass before they build the object. *)
Ltac ctor_guards H :=
  repeat match type of H with
  | (if ?b then None else _) = Some _ =>
      let E := fresh "Eg" in destruct b eqn:E; [discriminate H|]
  end.

Lemma Vacc_ctor2_Some VLARGE al maxr nx0 ny0 nz0 nsph thee :
  Vacc_ctor2 VLARGE al maxr nx0 ny0 nz0 nsph = Some thee ->
  let g := ctor_grid VLARGE al maxr nx0 ny0 nz0 in
  let counts := count_pass g al
                  (replicate (Z.to_nat (nx0 * ny0 * nz0)) 0%Z) in
  (3 <= nx0 /\ 3 <= ny0 /\ 3 <= nz0)%Z /\
  alist thee = al /\ max_radius thee = maxr /\
  nx thee = nx0 /\ ny thee = ny0 /\ nz thee = nz0 /\
  n thee = (nx0 * ny0 * nz0)%Z /\
  hx thee = g_hx g /\ hy thee = g_hy g /\ hzed thee = g_hzed g /\
  grid_lower_corner thee = g_lower g /\
  (sphere thee, nsphere thee) = Vacc_sphere nsph /\
  atomFlags thee = replicate (Z.to_nat (nx0 * ny0 * nz0)) 0%Z /\
  (natoms thee, atomIDs thee)
  = fill_pass g al (map (fun _ => 0%Z) counts, alloc_pass counts).
Proof.
  intros H. cbv zeta. unfold Vacc_ctor2 in H. cbv zeta in H.
  destruct (Z.ltb_spec nx0 3); [discriminate|].
  destruct (Z.ltb_spec ny0 3); [discriminate|].
  destruct (Z.ltb_spec nz0 3); [discriminate|].
  cbn [orb] in H. ctor_guards H.
  destruct (Vacc_sphere nsph) as [sph nsph'].
  destruct (fill_pass _ _ _) as [na ids] eqn:E.
  injection H as <-.
  cbn [alist max_radius nx ny nz n hx hy hzed grid_lower_corner
       sphere nsphere natoms atomIDs atomFlags].
  repeat split; lia.
Qed.

(** What the allocations of a constructed object have been asked for. *)
Lemma Vacc_ctor2_allocated VLARGE al maxr nx0 ny0 nz0 nsph thee :
  Vacc_ctor2 VLARGE al maxr nx0 ny0 nz0 nsph = Some thee ->
  (nx0 * ny0 * nz0 <= INT_MAX)%Z /\ (3 <= nsph)%Z /\
  (0 < Valist_getNumberAtoms al)%Z.
Proof.
  intros H. unfold Vacc_ctor2 in H. cbv zeta in H.
  destruct ((nx0 <? 3)%Z || (ny0 <? 3)%Z || (nz0 <? 3)%Z);
    [discriminate|].
  ctor_guards H.
  apply Z.ltb_ge in Eg. apply negb_false_iff in Eg0, Eg2.
  apply Vacc_sphere_alloc_iff in Eg0.
  unfold Vmem_malloc_ok in Eg2. apply Z.ltb_lt in Eg2.
  repeat split; assumption.
Qed.

Lemma Vacc_ctor2_succeeds VLARGE al maxr nx0 ny0 nz0 nsph :
  (3 <= nx0)%Z -> (3 <= ny0)%Z -> (3 <= nz0)%Z ->
  (nx0 * ny0 * nz0 <= INT_MAX)%Z -> (3 <= nsph)%Z -> al <> [] ->
  exists thee, Vacc_ctor2 VLARGE al maxr nx0 ny0 nz0 nsph = Some thee.
Proof.
  intros Hx Hy Hz Hn Hs Ha. unfold Vacc_ctor2. cbv zeta.
  destruct (Z.ltb_spec nx0 3); [lia|].
  destruct (Z.ltb_spec ny0 3); [lia|].
  destruct (Z.ltb_spec nz0 3); [lia|].
  cbn [orb].
  destruct (Z.ltb_spec INT_MAX (nx0 * ny0 * nz0)); [lia|].
  rewrite (proj2 (Vacc_sphere_alloc_iff nsph) Hs). cbn [negb].
  unfold Vmem_malloc_ok.
  destruct (Z.ltb_spec 0 (nx0 * ny0 * nz0)); [|nia].
  destruct (Z.ltb_spec 0 (Valist_getNumberAtoms al));
    [|destruct al; [contradiction|
                    unfold Valist_getNumberAtoms in *; simpl in *; lia]].
  cbn [negb].
  destruct (Vacc_sphere nsph) as [sph nsph'].
  destruct (fill_pass _ _ _) as [na ids].
  eexists. reflexivity.
Qed.

(** The instance every example below is built on: a 3 x 3 x 3 table and
    a target count of 4. *)
Lemma Vacc_ctor2_example VLARGE al maxr :
  al <> [] ->
  exists thee, Vacc_ctor2 VLARGE al maxr 3 3 3 4 = Some thee.
Proof.
  intros Ha. apply Vacc_ctor2_succeeds; try lia; [|exact Ha].
  unfold INT_MAX. lia.
Qed.

Lemma g_n_ctor_grid VLARGE al maxr nx0 ny0 nz0 :
  g_n (ctor_grid VLARGE al maxr nx0 ny0 nz0) = (nx0 * ny0 * nz0)%Z.
Proof. reflexivity. Qed.

(** The bucket of every cell after construction. *)
Lemma Vacc_ctor2_bucket VLARGE al maxr nx0 ny0 nz0 nsph thee ui :
  Vacc_ctor2 VLARGE al maxr nx0 ny0 nz0 nsph = Some thee ->
  (0 <= ui < nx0 * ny0 * nz0)%Z ->
  let g := ctor_grid VLARGE al maxr nx0 ny0 nz0 in
  let counts := count_pass g al
                  (replicate (Z.to_nat (nx0 * ny0 * nz0)) 0%Z) in
  bucket thee ui = covering g ui 0 al /\
  zget 0%Z (natoms thee) ui = zget 0%Z counts ui /\
  zget 0%Z (natoms thee) ui = Z.of_nat (length (bucket thee ui)) /\
  length (zget [] (atomIDs thee) ui) = length (bucket thee ui).
Proof.
  intros Hc Hui g counts.
  apply Vacc_ctor2_Some in Hc.
  fold g counts in Hc.
  destruct Hc
    as (Hdim & _ & _ & _ & _ & _ & _ & _ & _ & _ & _ & _ & _ & Hf).
  set (n0 := (nx0 * ny0 * nz0)%Z) in *.
  assert (Hn0 : (0 <= n0)%Z) by lia.
  destruct (count_pass_spec g al (replicate (Z.to_nat n0) 0%Z))
    as [Hc1 Hc2].
  { rewrite length_replicate. change (g_n g) with n0. lia. }
  fold counts in Hc1, Hc2. rewrite length_replicate in Hc1.
  assert (Hcnt : zget 0%Z counts ui
                 = Z.of_nat (length (covering g ui 0 al))).
  { rewrite (Hc2 ui 0%Z), zget_replicate by lia. lia. }
  pose proof (fill_pass_gen g al 0%Z (map (fun _ => 0%Z) counts)
                (alloc_pass counts)) as Hg.
  rewrite length_map, length_alloc_pass in Hg.
  change (g_n g) with n0 in Hg.
  destruct Hg as (Hg1 & Hg2 & Hg3); [lia|reflexivity| |].
  { intros u Hu.
    rewrite (zget_map _ 0%Z) by lia.
    rewrite alloc_pass_slot by lia.
    rewrite (Hc2 u 0%Z), zget_replicate by lia. lia. }
  change (fold_left (fill_atom g)
            (zip (seqZ 0 (Z.of_nat (length al))) al)
            (map (fun _ => 0%Z) counts, alloc_pass counts))
    with (fill_pass g al (map (fun _ => 0%Z) counts, alloc_pass counts))
    in Hg1, Hg2, Hg3.
  rewrite <- Hf in Hg1, Hg2, Hg3. cbn [fst snd] in Hg1, Hg2, Hg3.
  destruct (Hg3 ui Hui) as [E1 E2].
  rewrite (zget_map _ 0%Z) in E1, E2 by lia.
  simpl in E1, E2.
  assert (Hb : bucket thee ui = covering g ui 0 al).
  { unfold bucket. rewrite E1, E2. apply map_zget_seqZ. }
  rewrite Hb. repeat split.
  - rewrite E1, Hcnt. reflexivity.
  - exact E1.
  - rewrite E2. reflexivity.
Qed.

Lemma in_span_cells g s ii jj kk :
  span_ok g s ->
  (0 <= jj < g_ny g)%Z -> (0 <= kk < g_nz g)%Z ->
  cell_ui (g_ny g) (g_nz g) ii jj kk ∈ span_cells g s
  <-> in_span s ii jj kk.
Proof.
  intros Hok Hj Hk. unfold span_ok in Hok. unfold in_span.
  rewrite elem_of_span_cells. split.
  - intros (ii' & jj' & kk' & Hi' & Hj' & Hk' & E).
    apply cell_ui_inj in E; lia.
  - intros (Hi' & Hj' & Hk'). exists ii, jj, kk. auto.
Qed.

(** A ball that meets the box of a cell has that cell in its span. *)
Lemma meets_in_span g atom ii jj kk p :
  0 < g_hx g -> 0 < g_hy g -> 0 < g_hzed g ->
  0 <= Vatom_getRadius atom + g_max_radius g ->
  (0 <= ii < g_nx g)%Z -> (0 <= jj < g_ny g)%Z -> (0 <= kk < g_nz g)%Z ->
  in_cell_box g ii jj kk p ->
  in_inflated_atom g atom p ->
  in_span (atom_span g atom) ii jj kk.
Proof.
  intros Hx Hy Hz Hr Hi Hj Hk (Bx & By & Bz) Hin.
  unfold in_inflated_atom, dist2 in Hin.
  set (rtot := Vatom_getRadius atom + g_max_radius g) in *.
  assert (Hs0 := VSQR_nonneg (c0 p - c0 (Vatom_getPosition atom))).
  assert (Hs1 := VSQR_nonneg (c1 p - c1 (Vatom_getPosition atom))).
  assert (Hs2 := VSQR_nonneg (c2 p - c2 (Vatom_getPosition atom))).
  assert (axis : forall u a, VSQR (u - a) <= VSQR rtot ->
                             a - rtot <= u <= a + rtot).
  { intros u a H. unfold VSQR in H. split; nra. }
  destruct (axis (c0 p) (c0 (Vatom_getPosition atom)) ltac:(lra)) as [X1 X2].
  destruct (axis (c1 p) (c1 (Vatom_getPosition atom)) ltac:(lra)) as [Y1 Y2].
  destruct (axis (c2 p) (c2 (Vatom_getPosition atom)) ltac:(lra)) as [Z1 Z2].
  assert (range : forall h lo a u (v nn : Z),
            0 < h -> (0 <= v < nn)%Z ->
            lo + IZR v * h <= u < lo + (IZR v + 1) * h ->
            a - rtot <= u <= a + rtot ->
            (VMAX2 (Zfloor ((a - lo - rtot) / h)) 0 <= v
             <= VMIN2 (Zceil ((a - lo + rtot) / h)) (nn - 1))%Z).
  { intros h lo a u v nn Hh Hv [B1 B2] [A1 A2].
    assert (Hih : 0 < / h) by (apply Rinv_0_lt_compat; exact Hh).
    assert (F : IZR (Zfloor ((a - lo - rtot) / h)) < IZR (v + 1)).
    { pose proof (Zfloor_bound ((a - lo - rtot) / h)) as [F1 _].
      rewrite plus_IZR.
      apply Rle_lt_trans with (1 := F1).
      apply Rmult_lt_reg_r with h; [exact Hh|].
      unfold Rdiv. rewrite Rmult_assoc, Rinv_l by lra. lra. }
    assert (C : IZR v <= IZR (Zceil ((a - lo + rtot) / h))).
    { pose proof (Zceil_bound ((a - lo + rtot) / h)) as [_ C1].
      apply Rle_trans with (2 := C1).
      apply Rmult_le_reg_r with h; [exact Hh|].
      unfold Rdiv. rewrite Rmult_assoc, Rinv_l by lra. lra. }
    apply lt_IZR in F. apply le_IZR in C.
    unfold VMAX2, VMIN2.
    destruct (Z.geb_spec (Zfloor ((a - lo - rtot) / h)) 0),
             (Z.leb_spec (Zceil ((a - lo + rtot) / h)) (nn - 1)); lia. }
  unfold in_span, atom_span. cbn [i_min i_max j_min j_max k_min k_max].
  fold rtot.
  split; [|split].
  - apply (range _ _ _ (c0 p)); auto.
  - apply (range _ _ _ (c1 p)); auto.
  - apply (range _ _ _ (c2 p)); auto.
Qed.

(** C2 (as the code has it): after [Vacc_ctor2] has built an object with
    positive cell sizes, the atom index [i] is in the bucket of the cell
    [(ii, jj, kk)] exactly when [i] is an atom of the list and the cell
    indices lie in the index ranges
    [max(floor((x-rtot)/h), 0) .. min(ceil((x+rtot)/h), n-1)] of that atom
    on the three axes, [rtot = radius + max_radius]; so the atom is in the
    bucket whenever its ball of radius [rtot] meets the box of the cell.
    The bucket is in ascending order, and its size is the count of the
    first pass, which is also [natoms] of the cell and the number of
    slots allocated for it. *)
Theorem Vacc_ctor2_bucket_invariant
    VLARGE al maxr nx0 ny0 nz0 nsph thee ii jj kk i :
  Vacc_ctor2 VLARGE al maxr nx0 ny0 nz0 nsph = Some thee ->
  0 < hx thee -> 0 < hy thee -> 0 < hzed thee ->
  (0 <= ii < nx0)%Z -> (0 <= jj < ny0)%Z -> (0 <= kk < nz0)%Z ->
  let g := ctor_grid VLARGE al maxr nx0 ny0 nz0 in
  let ui := cell_ui ny0 nz0 ii jj kk in
  let atom := Valist_getAtom al i in
  (i ∈ bucket thee ui <->
   (0 <= i < Valist_getNumberAtoms al)%Z /\
   in_span (atom_span g atom) ii jj kk) /\
  ((0 <= i < Valist_getNumberAtoms al)%Z ->
   0 <= Vatom_getRadius atom + maxr ->
   (exists p, in_cell_box g ii jj kk p /\ in_inflated_atom g atom p) ->
   i ∈ bucket thee ui) /\
  StronglySorted Z.lt (bucket thee ui) /\
  Z.of_nat (length (bucket thee ui))
  = zget 0%Z (count_pass g al (replicate (Z.to_nat (nx0 * ny0 * nz0)) 0%Z))
         ui /\
  zget 0%Z (natoms thee) ui = Z.of_nat (length (bucket thee ui)) /\
  length (zget [] (atomIDs thee) ui) = length (bucket thee ui).
Proof.
  intros Hc Hx Hy Hz Hi Hj Hk g ui atom.
  assert (Hui : (0 <= ui < nx0 * ny0 * nz0)%Z)
    by (apply cell_ui_range; assumption).
  destruct (Vacc_ctor2_bucket _ _ _ _ _ _ _ _ ui Hc Hui)
    as (Hb & Hn1 & Hn2 & Hn3).
  fold g in Hb, Hn1.
  pose proof (Vacc_ctor2_Some _ _ _ _ _ _ _ _ Hc) as Hf.
  cbv zeta in Hf. fold g in Hf.
  destruct Hf as (_ & _ & _ & _ & _ & _ & _ & Hhx & Hhy & Hhz & _).
  rewrite Hhx in Hx. rewrite Hhy in Hy. rewrite Hhz in Hz.
  assert (Hiff : i ∈ bucket thee ui <->
                 (0 <= i < Valist_getNumberAtoms al)%Z /\
                 in_span (atom_span g atom) ii jj kk).
  { rewrite Hb, elem_of_covering. unfold Valist_getNumberAtoms.
    rewrite Z.sub_0_r. fold (Valist_getAtom al i). fold atom.
    change ny0 with (g_ny g) in ui. change nz0 with (g_nz g) in ui.
    unfold ui. rewrite in_span_cells by (auto using atom_span_ok).
    split; intros [H1 H2]; (split; [lia|exact H2]). }
  split; [exact Hiff|]. split; [|split; [|split; [|split]]].
  - intros Hin Hr (p & Hp1 & Hp2). apply Hiff.
    split; [exact Hin|].
    apply meets_in_span with (p := p); auto.
  - rewrite Hb. apply covering_sorted.
  - rewrite <- Hn1, Hn2. reflexivity.
  - exact Hn2.
  - exact Hn3.
Qed.

(** *** Consequences used by the queries *)

Lemma Vacc_ctor2_bucket_mem VLARGE al maxr nx0 ny0 nz0 nsph thee ii jj kk i :
  Vacc_ctor2 VLARGE al maxr nx0 ny0 nz0 nsph = Some thee ->
  (0 <= ii < nx0)%Z -> (0 <= jj < ny0)%Z -> (0 <= kk < nz0)%Z ->
  i ∈ bucket thee (cell_ui ny0 nz0 ii jj kk) <->
  (0 <= i < Valist_getNumberAtoms al)%Z /\
  in_span (atom_span (ctor_grid VLARGE al maxr nx0 ny0 nz0)
                     (Valist_getAtom al i)) ii jj kk.
Proof.
  intros Hc Hi Hj Hk.
  set (g := ctor_grid VLARGE al maxr nx0 ny0 nz0).
  assert (Hui : (0 <= cell_ui ny0 nz0 ii jj kk < nx0 * ny0 * nz0)%Z)
    by (apply cell_ui_range; assumption).
  destruct (Vacc_ctor2_bucket _ _ _ _ _ _ _ _ _ Hc Hui) as (Hb & _).
  fold g in Hb. rewrite Hb, elem_of_covering.
  unfold Valist_getNumberAtoms. rewrite Z.sub_0_r.
  fold (Valist_getAtom al i).
  change ny0 with (g_ny g). change nz0 with (g_nz g).
  rewrite in_span_cells by (auto using atom_span_ok).
  split; intros [H1 H2]; (split; [lia|exact H2]).
Qed.

Lemma Vacc_ctor2_bucket_sorted VLARGE al maxr nx0 ny0 nz0 nsph thee ui :
  Vacc_ctor2 VLARGE al maxr nx0 ny0 nz0 nsph = Some thee ->
  (0 <= ui < nx0 * ny0 * nz0)%Z ->
  StronglySorted Z.lt (bucket thee ui).
Proof.
  intros Hc Hui.
  destruct (Vacc_ctor2_bucket _ _ _ _ _ _ _ _ _ Hc Hui) as (Hb & _).
  rewrite Hb. apply covering_sorted.
Qed.

Lemma Vacc_ctor2_bucket_meets
    VLARGE al maxr nx0 ny0 nz0 nsph thee ii jj kk i p :
  Vacc_ctor2 VLARGE al maxr nx0 ny0 nz0 nsph = Some thee ->
  (0 <= ii < nx0)%Z -> (0 <= jj < ny0)%Z -> (0 <= kk < nz0)%Z ->
  let g := ctor_grid VLARGE al maxr nx0 ny0 nz0 in
  (0 <= i < Valist_getNumberAtoms al)%Z ->
  0 < g_hx g -> 0 < g_hy g -> 0 < g_hzed g ->
  0 <= Vatom_getRadius (Valist_getAtom al i) + maxr ->
  in_cell_box g ii jj kk p ->
  in_inflated_atom g (Valist_getAtom al i) p ->
  i ∈ bucket thee (cell_ui ny0 nz0 ii jj kk).
Proof.
  intros Hc Hi Hj Hk g Hin Hx Hy Hz Hr Hp1 Hp2.
  apply (Vacc_ctor2_bucket_mem _ _ _ _ _ _ _ _ _ _ _ _ Hc Hi Hj Hk).
  split; [exact Hin|].
  apply meets_in_span with (p := p); auto.
Qed.

(** A strictly ascending list over [0, 1] that holds 0 and 1. *)
Lemma sorted_pair (l : list Z) :
  StronglySorted Z.lt l ->
  (forall i, i ∈ l -> (0 <= i < 2)%Z) ->
  0%Z ∈ l -> 1%Z ∈ l -> l = [0%Z; 1%Z].
Proof.
  intros Hs Hr H0 H1.
  destruct l as [|x l]; [inversion H0|].
  apply StronglySorted_inv in Hs as [Hs Hx].
  rewrite Forall_forall in Hx.
  assert (x = 0%Z).
  { apply elem_of_cons in H0 as [?|H0]; [congruence|].
    specialize (Hx _ H0). specialize (Hr x ltac:(left)). lia. }
  subst x.
  apply elem_of_cons in H1 as [?|H1]; [lia|].
  destruct l as [|y l]; [inversion H1|].
  apply StronglySorted_inv in Hs as [Hs Hy].
  rewrite Forall_forall in Hy.
  assert (Hy0 := Hx y ltac:(left)).
  assert (Hy1 := Hr y ltac:(right; left)).
  assert (y = 1%Z) by lia. subst y.
  destruct l as [|z l]; [reflexivity|].
  assert (Hz0 := Hy z ltac:(left)).
  assert (Hz1 := Hr z ltac:(right; right; left)). lia.
Qed.

(** A strictly ascending list over [0] that holds 0. *)
Lemma sorted_single (l : list Z) :
  StronglySorted Z.lt l ->
  (forall i, i ∈ l -> (0 <= i < 1)%Z) ->
  0%Z ∈ l -> l = [0%Z].
Proof.
  intros Hs Hr H0.
  destruct l as [|x l]; [inversion H0|].
  apply StronglySorted_inv in Hs as [Hs Hx].
  rewrite Forall_forall in Hx.
  assert (Hx0 := Hr x ltac:(left)).
  assert (x = 0%Z) by lia. subst x.
  destruct l as [|y l]; [reflexivity|].
  assert (Hy0 := Hx y ltac:(left)).
  assert (Hy1 := Hr y ltac:(right; left)). lia.
Qed.

(** *** One atom of radius 1 at the origin, [max_radius = 1], 3x3x3 cells *)

Lemma one_atom_grid :
  ctor_grid 1000000000 [mkVatom (0, 0, 0) 1] 1 3 3 3
  = mkGrid 3 3 3 2.84 2.84 2.84 (-2.84, -2.84, -2.84) 1.
Proof.
  unfold ctor_grid, find_extent. simpl.
  unfold c0, c1, c2. simpl.
  rdec.
  change (IZR (3 - 1)) with 2.
  f_equal; try lra.
  repeat f_equal; lra.
Qed.

Lemma one_atom_span :
  atom_span (mkGrid 3 3 3 2.84 2.84 2.84 (-2.84, -2.84, -2.84) 1)
            (mkVatom (0, 0, 0) 1)
  = mkSpan 0 2 0 2 0 2.
Proof.
  unfold atom_span. simpl. unfold c0, c1, c2. simpl.
  assert (F : Zfloor ((0 - -2.84 - (1 + 1)) / 2.84) = 0%Z).
  { apply Zfloor_eq. simpl. lra. }
  assert (C : Zceil ((0 - -2.84 + (1 + 1)) / 2.84) = 2%Z).
  { apply Zceil_eq. simpl. lra. }
  rewrite F, C. reflexivity.
Qed.

Lemma one_atom_corner :
  cell_ui 3 3 2 2 2
  ∈ span_cells (mkGrid 3 3 3 2.84 2.84 2.84 (-2.84, -2.84, -2.84) 1)
      (atom_span (mkGrid 3 3 3 2.84 2.84 2.84 (-2.84, -2.84, -2.84) 1)
                 (mkVatom (0, 0, 0) 1)).
Proof.
  apply (in_span_cells
           (mkGrid 3 3 3 2.84 2.84 2.84 (-2.84, -2.84, -2.84) 1)
           (atom_span
              (mkGrid 3 3 3 2.84 2.84 2.84 (-2.84, -2.84, -2.84) 1)
              (mkVatom (0, 0, 0) 1)) 2 2 2).
  - apply atom_span_ok.
  - simpl. lia.
  - simpl. lia.
  - rewrite one_atom_span. unfold in_span. simpl. lia.
Qed.

(** C2 as written fails: with one atom of radius 1 at the origin,
    [max_radius = 1] and 3x3x3 cells, atom 0 is in the bucket of the
    corner cell (2,2,2), whose box, even closed, lies outside the ball of
    radius 2 around the atom. *)
Lemma Vacc_ctor2_corner_counterexample :
  let al := [mkVatom (0, 0, 0) 1] in
  let g := ctor_grid 1000000000 al 1 3 3 3 in
  exists thee,
    Vacc_ctor2 1000000000 al 1 3 3 3 4 = Some thee /\
    0%Z ∈ bucket thee (cell_ui 3 3 2 2 2) /\
    ~ (exists p, in_cell_box_closed g 2 2 2 p /\
                 in_inflated_atom g (Valist_getAtom al 0) p).
Proof.
  intros al g.
  destruct (Vacc_ctor2_example 1000000000 al 1) as [thee Hc];
    [discriminate|].
  exists thee. split; [exact Hc|]. split.
  - destruct (Vacc_ctor2_bucket _ _ _ _ _ _ _ _ (cell_ui 3 3 2 2 2) Hc)
      as (Hb & _); [unfold cell_ui; lia|].
    rewrite Hb. apply elem_of_covering. split; [simpl; lia|].
    unfold al. rewrite one_atom_grid.
    change (zget Vatom_null [mkVatom (0, 0, 0) 1] (0 - 0))
      with (mkVatom (0, 0, 0) 1).
    exact one_atom_corner.
  - intros (p & (Bx & _ & _) & Hin).
    unfold g, al in Bx, Hin. rewrite one_atom_grid in Bx, Hin.
    unfold in_inflated_atom, dist2, Valist_getAtom, zget in Hin.
    simpl in Bx, Hin.
    unfold c0, c1, c2 in *. simpl in *.
    assert (H1 := VSQR_nonneg (p.1.2 - 0)).
    assert (H2 := VSQR_nonneg (p.2 - 0)).
    unfold VSQR in *. nra.
Qed.

(** ** [Vacc_splineAcc] *)

Lemma length_reset_flags ids flags :
  length (reset_flags ids flags) = length flags.
Proof.
  unfold reset_flags. revert flags.
  induction ids as [|id ids IH]; intros flags; simpl; [reflexivity|].
  rewrite IH, length_zset. reflexivity.
Qed.

Lemma reset_flags_zero ids : forall flags id,
  id ∈ ids -> (0 <= id < Z.of_nat (length flags))%Z ->
  zget 0%Z (reset_flags ids flags) id = 0%Z.
Proof.
  unfold reset_flags.
  induction ids as [|x ids IH]; intros flags id Hin Hr; [inversion Hin|].
  simpl. destruct (decide (id ∈ ids)) as [Hi|Hi].
  - apply IH; [exact Hi|rewrite length_zset; exact Hr].
  - apply elem_of_cons in Hin as [->|Hin]; [|contradiction].
    clear IH. revert flags Hr.
    induction ids as [|y ids IH]; intros flags Hr; simpl.
    + apply zget_zset_eq. exact Hr.
    + assert (Hy : x <> y) by (intros ->; apply Hi; left).
      assert (Hx : x ∉ ids) by (intros H; apply Hi; right; exact H).
      destruct (decide (y = x)); [congruence|].
      specialize (IH Hx (zset flags y 0%Z)).
      rewrite length_zset in IH.
      replace (zset (zset flags x 0%Z) y 0%Z)
        with (zset (zset flags y 0%Z) x 0%Z); [apply IH; exact Hr|].
      unfold zset.
      destruct (Z.ltb_spec x 0), (Z.ltb_spec y 0); try reflexivity.
      apply list_insert_insert_ne. lia.
Qed.

Lemma splineAcc_loop_spec VSMALL thee center win infrad ids :
  forall flags value seen,
    (forall id, id ∈ ids -> (0 <= id < Z.of_nat (length flags))%Z) ->
    (forall id, id ∈ ids -> zget 0%Z flags id = 0%Z <-> id ∉ seen) ->
    fst (splineAcc_loop VSMALL thee center win infrad ids flags value)
    = prod_cut VSMALL value
        (map (Vacc_splineAccAtom thee center win infrad)
             (distinct seen ids)).
Proof.
  induction ids as [|id ids IH]; intros flags value seen Hr Hs; simpl;
    [reflexivity|].
  destruct (Z.eqb_spec (zget 0%Z flags id) 0) as [E|E].
  - destruct (decide (id ∈ seen)) as [Hin|Hin].
    { exfalso. apply (proj1 (Hs id ltac:(left)) E). exact Hin. }
    simpl. destruct (Rlt_dec _ VSMALL); [reflexivity|].
    apply IH.
    + intros x Hx. rewrite length_zset. apply Hr. right. exact Hx.
    + intros x Hx. destruct (decide (x = id)) as [->|Hne].
      * rewrite zget_zset_eq by (apply Hr; left).
        split; [discriminate|]. intros H. exfalso. apply H. left.
      * rewrite zget_zset_ne by congruence.
        rewrite (Hs x ltac:(right; exact Hx)).
        rewrite not_elem_of_cons. tauto.
  - destruct (decide (id ∈ seen)) as [Hin|Hin].
    + apply IH.
      * intros x Hx. apply Hr. right. exact Hx.
      * intros x Hx. apply Hs. right. exact Hx.
    + exfalso. apply E. apply Hs; [left|exact Hin].
Qed.

Lemma prod_cut_prefix VSMALL fs : forall v,
  exists k : nat,
    (k <= length fs)%nat /\
    prod_cut VSMALL v fs = v * Rprod (take k fs) /\
    (k = length fs \/ (0 < k)%nat /\ v * Rprod (take k fs) < VSMALL) /\
    forall j : nat, (0 < j < k)%nat -> ~ v * Rprod (take j fs) < VSMALL.
Proof.
  induction fs as [|f fs IH]; intros v; simpl.
  - exists 0%nat. simpl. split; [lia|]. split; [lra|].
    split; [left; reflexivity|]. intros j Hj. lia.
  - destruct (Rlt_dec (v * f) VSMALL) as [Hlt|Hge].
    + exists 1%nat. simpl. rewrite ?take_0. simpl.
      split; [lia|]. split; [lra|].
      split; [right; split; [lia|lra]|]. intros j Hj. lia.
    + destruct (IH (v * f)) as (k & Hk & E & Hend & Hmid).
      exists (S k). simpl. split; [lia|].
      split; [rewrite E; lra|]. split.
      * destruct Hend as [->|[H0 Hlt]]; [left; reflexivity|].
        right. split; [lia|lra].
      * intros j Hj. destruct j as [|j]; [lia|]. simpl.
        destruct j as [|j].
        -- rewrite ?take_0. simpl. lra.
        -- replace (v * (f * Rprod (take (S j) fs)))
             with (v * f * Rprod (take (S j) fs)) by lra.
           apply Hmid. lia.
Qed.

Lemma Vacc_splineAcc_fail_iff VSMALL thee center win infrad :
  Vacc_splineAcc VSMALL thee center win infrad = AssertFail
  <-> max_radius thee < win + infrad.
Proof.
  unfold Vacc_splineAcc.
  destruct (Rlt_dec (max_radius thee) (win + infrad)) as [H|H].
  - split; [intros _; exact H|reflexivity].
  - split; [|contradiction].
    destruct (off_grid thee center); discriminate.
Qed.

Lemma Vacc_splineAcc_on_grid VSMALL thee center win infrad :
  win + infrad <= max_radius thee ->
  off_grid thee center = false ->
  (forall id, id ∈ bucket thee (center_ui thee center) ->
              (0 <= id < Z.of_nat (length (atomFlags thee)))%Z) ->
  exists flags,
    Vacc_splineAcc VSMALL thee center win infrad
    = Ok (prod_cut VSMALL 1
            (map (Vacc_splineAccAtom thee center win infrad)
                 (distinct [] (bucket thee (center_ui thee center)))),
          flags).
Proof.
  intros Hr Hoff Hcov. unfold Vacc_splineAcc.
  destruct (Rlt_dec (max_radius thee) (win + infrad)); [lra|].
  rewrite Hoff.
  set (ids := bucket thee (center_ui thee center)) in *.
  pose proof (splineAcc_loop_spec VSMALL thee center win infrad ids
                (reset_flags ids (atomFlags thee)) 1 []) as H.
  destruct (splineAcc_loop VSMALL thee center win infrad ids
              (reset_flags ids (atomFlags thee)) 1) as [v fl].
  exists fl. simpl in H. rewrite H; [reflexivity| |].
  - intros id Hid. rewrite length_reset_flags. apply Hcov. exact Hid.
  - intros id Hid. split; [intros _ Hin; inversion Hin|].
    intros _. apply reset_flags_zero; [exact Hid|apply Hcov; exact Hid].
Qed.

(** C10 (as the code has it): [Vacc_splineAcc] stops on the failing
    [VASSERT] exactly when [max_radius < win + infrad].  Otherwise it
    returns a value: 1 off the grid, and on the grid, the flags array covering the
    atoms of the bucket, it returns the product of the per-atom values
    over the first [k] distinct atoms of the bucket: either all of them,
    or as many as it takes for the running product to fall below
    [VSMALL], where the loop returns early. *)
Theorem Vacc_splineAcc_running_product VSMALL thee center win infrad :
  (Vacc_splineAcc VSMALL thee center win infrad = AssertFail
   <-> max_radius thee < win + infrad) /\
  (win + infrad <= max_radius thee ->
   (exists v flags,
      Vacc_splineAcc VSMALL thee center win infrad = Ok (v, flags)) /\
   (off_grid thee center = true ->
    Vacc_splineAcc VSMALL thee center win infrad
    = Ok (1, atomFlags thee)) /\
   (off_grid thee center = false ->
    (forall id, id ∈ bucket thee (center_ui thee center) ->
                (0 <= id < Z.of_nat (length (atomFlags thee)))%Z) ->
    let fs := map (Vacc_splineAccAtom thee center win infrad)
                  (distinct [] (bucket thee (center_ui thee center))) in
    exists (k : nat) flags,
      (k <= length fs)%nat /\
      Vacc_splineAcc VSMALL thee center win infrad
      = Ok (Rprod (take k fs), flags) /\
      (k = length fs \/ (0 < k)%nat /\ Rprod (take k fs) < VSMALL) /\
      forall j : nat, (0 < j < k)%nat -> ~ Rprod (take j fs) < VSMALL)).
Proof.
  split; [apply Vacc_splineAcc_fail_iff|]. intros Hr.
  split; [|split].
  - unfold Vacc_splineAcc.
    destruct (Rlt_dec (max_radius thee) (win + infrad)); [lra|].
    destruct (off_grid thee center); [eexists _, _; reflexivity|].
    destruct (splineAcc_loop _ _ _ _ _ _ _ _) as [v fl].
    exists v, fl. reflexivity.
  - intros Hoff. unfold Vacc_splineAcc.
    destruct (Rlt_dec (max_radius thee) (win + infrad)); [lra|].
    rewrite Hoff. reflexivity.
  - intros Hoff Hcov fs.
    destruct (Vacc_splineAcc_on_grid VSMALL thee center win infrad
                Hr Hoff Hcov) as [flags E].
    fold fs in E.
    destruct (prod_cut_prefix VSMALL fs 1) as (k & Hk & Ek & Hend & Hmid).
    exists k, flags. split; [exact Hk|]. split.
    + rewrite E, Ek. f_equal. f_equal. lra.
    + split.
      * destruct Hend as [->|[H0 Hlt]]; [left; reflexivity|].
        right. split; [exact H0|lra].
      * intros j Hj Hlt. apply (Hmid j Hj). lra.
Qed.

(** *** Two atoms of radius 2, [max_radius = 1], 3x3x3 cells *)

Lemma two_atom_grid :
  ctor_grid 1000000000
    [mkVatom (-1.00001, 0, 0) 2; mkVatom (2, 0, 0) 2] 1 3 3 3
  = mkGrid 3 3 3 5.760005 4.26 4.26 (-5.26001, -4.26, -4.26) 1.
Proof.
  unfold ctor_grid, find_extent. simpl.
  unfold c0, c1, c2. simpl.
  rdec. change (IZR (3 - 1)) with 2.
  f_equal; try lra.
  repeat f_equal; lra.
Qed.

Lemma int_of_double_eq (z : Z) x :
  0 <= x -> IZR z <= x < IZR z + 1 -> int_of_double x = z.
Proof.
  intros H0 H. unfold int_of_double.
  destruct (Rlt_dec x 0); [lra|]. apply Zfloor_eq. exact H.
Qed.

Lemma two_atom_engine thee :
  Vacc_ctor2 1000000000
    [mkVatom (-1.00001, 0, 0) 2; mkVatom (2, 0, 0) 2] 1 3 3 3 4
  = Some thee ->
  alist thee = [mkVatom (-1.00001, 0, 0) 2; mkVatom (2, 0, 0) 2] /\
  max_radius thee = 1 /\
  length (atomFlags thee) = 27%nat /\
  off_grid thee (0, 0, 0) = false /\
  bucket thee (center_ui thee (0, 0, 0)) = [0%Z; 1%Z].
Proof.
  intros Hc.
  set (al := [mkVatom (-1.00001, 0, 0) 2; mkVatom (2, 0, 0) 2]) in *.
  pose proof (Vacc_ctor2_Some _ _ _ _ _ _ _ _ Hc) as H.
  cbv zeta in H. unfold al in H. rewrite two_atom_grid in H. fold al in H.
  destruct H as (_ & Hal & Hmr & Hnx & Hny & Hnz & _ & Hhx & Hhy & Hhz
                 & Hlo & _ & Hfl & _).
  cbn [g_hx g_hy g_hzed g_lower] in Hhx, Hhy, Hhz, Hlo.
  assert (Ci : centeri thee (0, 0, 0) = 0%Z).
  { unfold centeri. rewrite Hlo, Hhx. unfold c0. simpl.
    apply int_of_double_eq; simpl; lra. }
  assert (Cj : centerj thee (0, 0, 0) = 1%Z).
  { unfold centerj. rewrite Hlo, Hhy. unfold c1. simpl.
    apply int_of_double_eq; simpl; lra. }
  assert (Ck : centerk thee (0, 0, 0) = 1%Z).
  { unfold centerk. rewrite Hlo, Hhz. unfold c2. simpl.
    apply int_of_double_eq; simpl; lra. }
  split; [exact Hal|]. split; [exact Hmr|].
  split; [rewrite Hfl; reflexivity|].
  split.
  { unfold off_grid. rewrite Ci, Cj, Ck, Hnx, Hny, Hnz. reflexivity. }
  unfold center_ui. rewrite Ci, Cj, Ck, Hny, Hnz.
  assert (Hmem : forall i, (0 <= i < 2)%Z ->
                           i ∈ bucket thee (cell_ui 3 3 0 1 1)).
  { pose proof (fun i => Vacc_ctor2_bucket_meets 1000000000 al 1 3 3 3 4
                            thee 0 1 1 i (0, 0, 0) Hc
                            ltac:(lia) ltac:(lia) ltac:(lia)) as M.
    cbv zeta in M. unfold al in M. rewrite two_atom_grid in M.
    cbn [g_hx g_hy g_hzed] in M.
    intros i Hi.
    assert (Hi' : i = 0%Z \/ i = 1%Z) by lia.
    apply M.
    - unfold Valist_getNumberAtoms. simpl. lia.
    - lra.
    - lra.
    - lra.
    - destruct Hi' as [-> | ->]; simpl; lra.
    - unfold in_cell_box, c0, c1, c2. simpl. lra.
    - unfold in_inflated_atom, dist2, VSQR, c0, c1, c2.
      destruct Hi' as [-> | ->]; simpl; lra. }
  apply sorted_pair.
  - apply (Vacc_ctor2_bucket_sorted _ _ _ _ _ _ _ _ _ Hc).
    unfold cell_ui. lia.
  - intros i Hi.
    apply (Vacc_ctor2_bucket_mem _ _ _ _ _ _ _ _ 0 1 1 i Hc) in Hi;
      try lia.
    destruct Hi as [Hi _]. exact Hi.
  - apply Hmem. lia.
  - apply Hmem. lia.
Qed.

Lemma smooth_unit sm : smooth 1 sm = 0.75 * sm ^ 2 - 0.25 * sm ^ 3.
Proof. rewrite smooth_formula by lra. undecimal. field. Qed.

(** C10 as written fails: two atoms of radius 2 at (-1.00001, 0, 0) and
    (2, 0, 0), [win = 1], [infrad = 0], [VSMALL = 1e-9], the point
    (0, 0, 0).  The value of the first atom is below [VSMALL] and is
    returned at once; the product over the two atoms of the bucket is half
    of it. *)
Lemma Vacc_splineAcc_early_return_counterexample :
  let al := [mkVatom (-1.00001, 0, 0) 2; mkVatom (2, 0, 0) 2] in
  exists thee v flags,
    Vacc_ctor2 1000000000 al 1 3 3 3 4 = Some thee /\
    1 + 0 <= max_radius thee /\
    off_grid thee (0, 0, 0) = false /\
    Vacc_splineAcc 0.000000001 thee (0, 0, 0) 1 0 = Ok (v, flags) /\
    v <> Rprod (map (Vacc_splineAccAtom thee (0, 0, 0) 1 0)
                    (distinct [] (bucket thee (center_ui thee (0, 0, 0))))).
Proof.
  intros al.
  destruct (Vacc_ctor2_example 1000000000 al 1) as [thee Hc];
    [discriminate|].
  destruct (two_atom_engine thee Hc) as (Hal & Hmr & Hfl & Hoff & Hb).
  assert (FA : Vacc_splineAccAtom thee (0, 0, 0) 1 0 0
               = smooth 1 0.00001).
  { rewrite splineAccAtom_large; rewrite Hal;
      unfold Valist_getAtom, zget; simpl; [|lra].
    rewrite dist2_x_axis.
    replace ((-1.00001 - 0) * (-1.00001 - 0))
      with (1.00001 * 1.00001) by lra.
    rewrite VSQRT_sqr by lra.
    unfold spline_of_dist.
    rewrite Rmax_right by lra. rdec. f_equal. lra. }
  assert (FB : Vacc_splineAccAtom thee (0, 0, 0) 1 0 1 = 0.5).
  { rewrite splineAccAtom_large; rewrite Hal;
      unfold Valist_getAtom, zget; simpl; [|lra].
    rewrite dist2_x_axis.
    replace ((2 - 0) * (2 - 0)) with (2 * 2) by lra.
    rewrite VSQRT_sqr by lra.
    unfold spline_of_dist.
    rewrite Rmax_right by lra. rdec.
    replace (2 - (2 + 0) + 1) with 1 by lra.
    rewrite smooth_unit. lra. }
  assert (Hsm : smooth 1 0.00001 = 0.00000000007499975).
  { rewrite smooth_unit. lra. }
  destruct (Vacc_splineAcc_on_grid 0.000000001 thee (0, 0, 0) 1 0)
    as [flags E]; [rewrite Hmr; lra|exact Hoff| |].
  { intros id Hid. rewrite Hb in Hid. rewrite Hfl.
    apply elem_of_cons in Hid as [->|Hid]; [lia|].
    apply list_elem_of_singleton in Hid. lia. }
  rewrite Hb in E.
  assert (Hd : distinct [] [0%Z; 1%Z] = [0%Z; 1%Z]).
  { simpl. destruct (decide (0%Z ∈ [])) as [H|_]; [inversion H|].
    destruct (decide (1%Z ∈ [0%Z])) as [H|_]; [|reflexivity].
    apply list_elem_of_singleton in H. discriminate. }
  rewrite Hd in E. simpl in E. rewrite FA, FB, Hsm in E.
  destruct (Rlt_dec (1 * 0.00000000007499975) 0.000000001) as [_|Hn];
    [|lra].
  exists thee, (1 * 0.00000000007499975), flags.
  split; [exact Hc|]. split; [rewrite Hmr; lra|].
  split; [exact Hoff|]. split; [exact E|].
  rewrite Hb, Hd. simpl. rewrite FA, FB, Hsm. lra.
Qed.

(** ** Points off the grid and [Vacc_fastMolAcc] *)

Lemma int_of_double_mono x y :
  x <= y -> (int_of_double x <= int_of_double y)%Z.
Proof.
  intros Hxy. unfold int_of_double.
  destruct (Rlt_dec x 0) as [Hx|Hx], (Rlt_dec y 0) as [Hy|Hy].
  - apply Zceil_le. exact Hxy.
  - assert (Zceil x <= 0)%Z.
    { pose proof (Zceil_bound x) as [B _].
      assert (IZR (Zceil x) < IZR 1) by (simpl; lra).
      apply lt_IZR in H. lia. }
    assert (0 <= Zfloor y)%Z by (apply Zfloor_lub; simpl; lra).
    lia.
  - lra.
  - apply Zfloor_le. exact Hxy.
Qed.

Lemma off_grid_true thee center :
  off_grid thee center = true <->
  (centeri thee center < 0 \/ centeri thee center >= nx thee \/
   centerj thee center < 0 \/ centerj thee center >= ny thee \/
   centerk thee center < 0 \/ centerk thee center >= nz thee)%Z.
Proof.
  unfold off_grid. rewrite !orb_true_iff, !Z.ltb_lt, !Z.geb_le. lia.
Qed.

Lemma pick_sign (c : vec3 -> R) (pts : list vec3) t :
  (exists s, s ∈ pts /\ 0 <= c s) ->
  (exists s, s ∈ pts /\ c s <= 0) ->
  (exists s, s ∈ pts /\ 0 <= t * c s) /\
  (exists s, s ∈ pts /\ t * c s <= 0).
Proof.
  intros (p & Hp & Hp') (q & Hq & Hq').
  destruct (Rle_dec 0 t) as [Ht|Ht].
  - split; [exists p|exists q]; split; auto; nra.
  - split; [exists q|exists p]; split; auto; nra.
Qed.

Lemma shifted_coordinate cc lo h radius c :
  (radius * c + cc - lo) / h = (cc - lo) / h + radius * / h * c.
Proof. unfold Rdiv. ring. Qed.

(** From a point off the grid, some probe point stays off the grid. *)
Lemma off_grid_probe thee center radius (pts : list vec3) :
  (exists s, s ∈ pts /\ 0 <= c0 s) ->
  (exists s, s ∈ pts /\ c0 s <= 0) ->
  (exists s, s ∈ pts /\ c1 s = 0) ->
  (exists s, s ∈ pts /\ 0 <= c2 s) ->
  (exists s, s ∈ pts /\ c2 s <= 0) ->
  off_grid thee center = true ->
  exists s, s ∈ pts /\ off_grid thee (probe_point radius s center) = true.
Proof.
  intros X1 X2 (y & Hy & Ey) Z1 Z2 Hoff.
  destruct (pick_sign c0 pts (radius * / hx thee) X1 X2)
    as [(xp & Hxp & Exp) (xm & Hxm & Exm)].
  destruct (pick_sign c2 pts (radius * / hzed thee) Z1 Z2)
    as [(zp & Hzp & Ezp) (zm & Hzm & Ezm)].
  apply off_grid_true in Hoff.
  assert (Ci : forall s,
            centeri thee (probe_point radius s center)
            = int_of_double
                ((c0 center - c0 (grid_lower_corner thee)) / hx thee
                 + radius * / hx thee * c0 s)).
  { intros s. unfold centeri. f_equal.
    unfold probe_point, c0. simpl. apply shifted_coordinate. }
  assert (Cj : forall s,
            centerj thee (probe_point radius s center)
            = int_of_double
                ((c1 center - c1 (grid_lower_corner thee)) / hy thee
                 + radius * / hy thee * c1 s)).
  { intros s. unfold centerj. f_equal.
    unfold probe_point, c1. simpl. apply shifted_coordinate. }
  assert (Ck : forall s,
            centerk thee (probe_point radius s center)
            = int_of_double
                ((c2 center - c2 (grid_lower_corner thee)) / hzed thee
                 + radius * / hzed thee * c2 s)).
  { intros s. unfold centerk. f_equal.
    unfold probe_point, c2. simpl. apply shifted_coordinate. }
  destruct Hoff as [H|[H|[H|[H|[H|H]]]]].
  - exists xm. split; [exact Hxm|]. apply off_grid_true. left.
    rewrite Ci. unfold centeri in H.
    eapply Z.le_lt_trans; [apply int_of_double_mono|exact H]. lra.
  - exists xp. split; [exact Hxp|]. apply off_grid_true. right; left.
    rewrite Ci. unfold centeri in H.
    apply Z.le_ge. eapply Z.le_trans; [apply Z.ge_le; exact H|].
    apply int_of_double_mono. lra.
  - exists y. split; [exact Hy|]. apply off_grid_true.
    right; right; left.
    rewrite Cj, Ey, Rmult_0_r, Rplus_0_r. exact H.
  - exists y. split; [exact Hy|]. apply off_grid_true.
    right; right; right; left.
    rewrite Cj, Ey, Rmult_0_r, Rplus_0_r. exact H.
  - exists zm. split; [exact Hzm|]. apply off_grid_true.
    right; right; right; right; left.
    rewrite Ck. unfold centerk in H.
    eapply Z.le_lt_trans; [apply int_of_double_mono|exact H]. lra.
  - exists zp. split; [exact Hzp|]. apply off_grid_true.
    right; right; right; right; right.
    rewrite Ck. unfold centerk in H.
    apply Z.le_ge. eapply Z.le_trans; [apply Z.ge_le; exact H|].
    apply int_of_double_mono. lra.
Qed.

Lemma fastMolAcc_loop_some thee center radius pts :
  radius <= max_radius thee ->
  (exists s, s ∈ pts /\
     Vacc_ivdwAcc thee (probe_point radius s center) radius = Ok 1) ->
  fastMolAcc_loop thee center radius pts = Ok 1.
Proof.
  intros Hr (s & Hs & E).
  induction pts as [|p pts IH]; [inversion Hs|]. simpl.
  destruct (Vacc_ivdwAcc_ok thee (probe_point radius p center) radius Hr)
    as [E0|E1].
  - rewrite E0. simpl. destruct (Req_dec_T 0 0) as [_|H]; [|lra].
    apply IH. apply elem_of_cons in Hs as [->|Hs]; [|exact Hs].
    rewrite E in E0. apply Ok_inj in E0. lra.
  - rewrite E1. simpl. destruct (Req_dec_T 1 0); [lra|reflexivity].
Qed.

Lemma sphere_points_generated thee npts :
  (sphere thee, nsphere thee) = Vacc_sphere npts ->
  sphere_points thee = sphere_all npts.
Proof.
  intros Hs. rewrite Vacc_sphere_all in Hs. injection Hs as Hs1 Hs2.
  unfold sphere_points.
  rewrite Hs1, Hs2, <- length_sphere_all. apply map_zget_seqZ.
Qed.

Lemma Vacc_fastMolAcc_off_grid thee center radius npts :
  (3 <= npts)%Z ->
  (sphere thee, nsphere thee) = Vacc_sphere npts ->
  radius <= max_radius thee ->
  off_grid thee center = true ->
  Vacc_fastMolAcc thee center radius = Ok 1.
Proof.
  intros Hn Hs Hr Hoff. unfold Vacc_fastMolAcc.
  rewrite (sphere_points_generated thee npts Hs).
  destruct (sphere_directions npts Hn) as (X1 & X2 & Y & Z1 & Z2).
  destruct (off_grid_probe thee center radius (sphere_all npts)
              X1 X2 Y Z1 Z2 Hoff) as (s & Hs1 & Hs2).
  apply fastMolAcc_loop_some; [exact Hr|].
  exists s. split; [exact Hs1|].
  apply Vacc_ivdwAcc_off_grid; assumption.
Qed.

(** The quadrature set of a constructed object. *)
Lemma Vacc_ctor2Focus_sphere al maxr nx0 ny0 nz0 nsph
    xmin ymin zmin xmax ymax zmax thee :
  Vacc_ctor2Focus al maxr nx0 ny0 nz0 nsph xmin ymin zmin xmax ymax zmax
  = Some thee ->
  (3 <= nsph)%Z /\ (sphere thee, nsphere thee) = Vacc_sphere nsph.
Proof.
  intros H. unfold Vacc_ctor2Focus in H. cbv zeta in H.
  destruct ((nx0 <? 3)%Z || (ny0 <? 3)%Z || (nz0 <? 3)%Z);
    [discriminate|].
  ctor_guards H.
  apply negb_false_iff, Vacc_sphere_alloc_iff in Eg0.
  destruct (Vacc_sphere nsph) as [sph nsph'].
  destruct (fill_pass _ _ _) as [na ids].
  injection H as <-. split; [exact Eg0|reflexivity].
Qed.

Lemma constructed_sphere VLARGE thee :
  constructed VLARGE thee ->
  exists npts,
    (3 <= npts)%Z /\ (sphere thee, nsphere thee) = Vacc_sphere npts.
Proof.
  intros [(al & maxr & nx0 & ny0 & nz0 & nsph & Hc)
         |(al & maxr & nx0 & ny0 & nz0 & nsph
           & xmin & ymin & zmin & xmax & ymax & zmax & Hc)].
  - exists nsph. split.
    + apply (Vacc_ctor2_allocated _ _ _ _ _ _ _ _ Hc).
    + apply Vacc_ctor2_Some in Hc. cbv zeta in Hc.
      destruct Hc as (_ & _ & _ & _ & _ & _ & _ & _ & _ & _ & _ & Hs & _).
      exact Hs.
  - exists nsph.
    apply (Vacc_ctor2Focus_sphere _ _ _ _ _ _ _ _ _ _ _ _ _ Hc).
Qed.


(** ** The quadrature points are unit vectors *)

Lemma sphere_point_unit npts i k :
  VSQR (c0 (sphere_point npts i k)) + VSQR (c1 (sphere_point npts i k))
  + VSQR (c2 (sphere_point npts i k)) = 1.
Proof.
  unfold sphere_point, VSQR, c0, c1, c2, VSIN, VCOS. simpl.
  set (theta := sphere_theta npts i).
  set (phi := 2 * Vunit_pi / IZR (sphere_nphi npts i) * IZR k).
  pose proof (sin2_cos2 theta) as Ht.
  pose proof (sin2_cos2 phi) as Hp.
  unfold Rsqr in Ht, Hp. nra.
Qed.

Lemma sphere_all_unit npts s :
  s ∈ sphere_all npts ->
  VSQR (c0 s) + VSQR (c1 s) + VSQR (c2 s) = 1.
Proof.
  unfold sphere_all. intros H.
  apply elem_of_flat_map in H as (i & _ & H).
  unfold sphere_ring in H.
  apply list_elem_of_In, in_map_iff in H as (k & <- & _).
  apply sphere_point_unit.
Qed.

Lemma sphere_points_ctor VLARGE al maxr nx0 ny0 nz0 nsph thee :
  Vacc_ctor2 VLARGE al maxr nx0 ny0 nz0 nsph = Some thee ->
  sphere_points thee = sphere_all nsph /\
  nsphere thee = Z.of_nat (length (sphere_all nsph)).
Proof.
  intros Hc. apply Vacc_ctor2_Some in Hc. cbv zeta in Hc.
  destruct Hc as (_ & _ & _ & _ & _ & _ & _ & _ & _ & _ & _ & Hs & _).
  rewrite Vacc_sphere_all in Hs. injection Hs as Hs1 Hs2.
  unfold sphere_points.
  rewrite Hs1, Hs2, <- length_sphere_all.
  split; [apply map_zget_seqZ|reflexivity].
Qed.

(** ** [Vacc_atomSASA] and [Vacc_totalSASA] *)

Lemma atomSASA_loop_all_accessible thee srad iatom pts : forall area,
  (forall s, s ∈ pts ->
     ivdwAccExclus thee
       (probe_point
          (Vatom_getRadius (Valist_getAtom (alist thee) iatom) + srad) s
          (Vatom_getPosition (Valist_getAtom (alist thee) iatom)))
       srad iatom = Ok 1%Z) ->
  atomSASA_loop thee srad iatom pts area
  = Ok (area + INR (length pts)).
Proof.
  induction pts as [|s pts IH]; intros area H.
  - simpl. f_equal. lra.
  - cbn [atomSASA_loop]. rewrite (H s ltac:(left)). cbn [rbind Z.eqb].
    rewrite IH by (intros s' Hs'; apply H; right; exact Hs').
    f_equal. cbn [length]. rewrite S_INR. lra.
Qed.

(** On the probe sphere of an atom, a point is not strictly inside the
    inflated sphere of an atom with the same centre and radius. *)
Lemma probe_point_on_sphere r s pos :
  VSQR (c0 s) + VSQR (c1 s) + VSQR (c2 s) = 1 ->
  dist2 pos (probe_point r s pos) = VSQR r.
Proof.
  intros Hs. unfold dist2, probe_point, VSQR, c0, c1, c2 in *. simpl.
  nra.
Qed.

Lemma ivdwAccExclus_loop_copies thee atom0 srad iatom s ids :
  (forall id, Valist_getAtom (alist thee) id = atom0 \/
              Valist_getAtom (alist thee) id = Vatom_null) ->
  VSQR (c0 s) + VSQR (c1 s) + VSQR (c2 s) = 1 ->
  ivdwAccExclus_loop thee
    (probe_point (Vatom_getRadius atom0 + srad) s
                 (Vatom_getPosition atom0))
    srad iatom ids = 1%Z.
Proof.
  intros Hal Hs. induction ids as [|id ids IH]; simpl; [reflexivity|].
  destruct (id =? iatom)%Z; [exact IH|].
  destruct (Hal id) as [E|E]; rewrite E.
  - destruct (Rgt_dec (Vatom_getRadius atom0) 0); [|exact IH].
    rewrite probe_point_on_sphere by exact Hs.
    destruct (Rlt_dec _ _) as [Hlt|_]; [lra|exact IH].
  - simpl. destruct (Rgt_dec 0 0); [lra|exact IH].
Qed.

Lemma atomSASA_copies thee atom0 srad iatom :
  (forall id, Valist_getAtom (alist thee) id = atom0 \/
              Valist_getAtom (alist thee) id = Vatom_null) ->
  Valist_getAtom (alist thee) iatom = atom0 ->
  (forall s, s ∈ sphere_points thee ->
             VSQR (c0 s) + VSQR (c1 s) + VSQR (c2 s) = 1) ->
  (0 < nsphere thee)%Z ->
  srad <= max_radius thee ->
  Vacc_atomSASA thee srad iatom
  = Ok (4 * PI * (Vatom_getRadius atom0 + srad)
        * (Vatom_getRadius atom0 + srad)).
Proof.
  intros Hal Hi Hunit Hn Hr. unfold Vacc_atomSASA.
  rewrite atomSASA_loop_all_accessible.
  - simpl. rewrite Hi. f_equal.
    unfold sphere_points. rewrite length_map, length_seqZ.
    rewrite INR_IZR_INZ, Z2Nat.id by lia.
    assert (Hz : IZR (nsphere thee) <> 0).
    { apply not_0_IZR. lia. }
    unfold VPI. field. exact Hz.
  - intros s Hs. rewrite Hi. unfold ivdwAccExclus.
    destruct (Rgt_dec srad (max_radius thee)); [lra|].
    destruct (off_grid thee _); [reflexivity|].
    f_equal. apply ivdwAccExclus_loop_copies; [exact Hal|].
    apply Hunit. exact Hs.
Qed.

Lemma getAtom_one a id :
  Valist_getAtom [a] id = a \/ Valist_getAtom [a] id = Vatom_null.
Proof.
  unfold Valist_getAtom, zget. destruct (id <? 0)%Z; [right; reflexivity|].
  destruct (Z.to_nat id) as [|[|k]]; simpl; auto.
Qed.

Lemma getAtom_two a id :
  Valist_getAtom [a; a] id = a \/ Valist_getAtom [a; a] id = Vatom_null.
Proof.
  unfold Valist_getAtom, zget. destruct (id <? 0)%Z; [right; reflexivity|].
  destruct (Z.to_nat id) as [|[|[|k]]]; simpl; auto.
Qed.

(** Two coincident atoms: the total is twice the area of one isolated
    atom. *)
Lemma totalSASA_coincident VLARGE atom0 maxr nx0 ny0 nz0 nsph srad
    thee2 thee1 :
  Vacc_ctor2 VLARGE [atom0; atom0] maxr nx0 ny0 nz0 nsph = Some thee2 ->
  Vacc_ctor2 VLARGE [atom0] maxr nx0 ny0 nz0 nsph = Some thee1 ->
  srad <= maxr ->
  (0 < sphere_count nsph)%Z ->
  let single := 4 * PI * (Vatom_getRadius atom0 + srad)
                * (Vatom_getRadius atom0 + srad) in
  Vacc_atomSASA thee1 srad 0 = Ok single /\
  exists areas, Vacc_totalSASA thee2 srad = Ok (2 * single, areas).
Proof.
  intros Hc2 Hc1 Hr Hn single.
  destruct (sphere_points_ctor _ _ _ _ _ _ _ _ Hc2) as [Hp2 Hs2].
  destruct (sphere_points_ctor _ _ _ _ _ _ _ _ Hc1) as [Hp1 Hs1].
  rewrite length_sphere_all in Hs1, Hs2.
  apply Vacc_ctor2_Some in Hc1, Hc2. cbv zeta in Hc1, Hc2.
  destruct Hc1 as (_ & Hal1 & Hm1 & _).
  destruct Hc2 as (_ & Hal2 & Hm2 & _).
  split.
  - apply atomSASA_copies.
    + intros id. rewrite Hal1. apply getAtom_one.
    + rewrite Hal1. reflexivity.
    + intros s Hs. rewrite Hp1 in Hs. apply (sphere_all_unit _ _ Hs).
    + lia.
    + lra.
  - assert (Ha : forall i, (i = 0 \/ i = 1)%Z ->
                           Vacc_atomSASA thee2 srad i = Ok single).
    { intros i Hi. apply atomSASA_copies.
      - intros id. rewrite Hal2. apply getAtom_two.
      - rewrite Hal2. destruct Hi as [-> | ->]; reflexivity.
      - intros s Hs. rewrite Hp2 in Hs. apply (sphere_all_unit _ _ Hs).
      - lia.
      - lra. }
    unfold Vacc_totalSASA. rewrite Hal2.
    change (seqZ 0 (Valist_getNumberAtoms [atom0; atom0]))
      with [0%Z; 1%Z].
    cbn [totalSASA_loop].
    rewrite (Ha 0%Z) by auto. cbn [rbind].
    rewrite (Ha 1%Z) by auto. cbn [rbind].
    eexists. f_equal. f_equal. lra.
Qed.

Lemma sphere_ntheta_formula npts :
  sphere_ntheta npts = VRINT (sqrt (PI * IZR npts / 4)).
Proof.
  unfold sphere_ntheta, VSQRT, Vunit_pi. do 2 f_equal. unfold Rdiv. ring.
Qed.

Lemma sphere_theta_formula npts i :
  sphere_theta npts i = IZR i * PI / IZR (sphere_ntheta npts).
Proof.
  unfold sphere_theta, sphere_dtheta, Vunit_pi. unfold Rdiv. ring.
Qed.

Lemma sphere_nphi_formula npts i :
  sphere_nphi npts i
  = VRINT (sin (IZR i * PI / IZR (sphere_ntheta npts))
           * 2 * IZR (sphere_ntheta npts)).
Proof.
  unfold sphere_nphi, VSIN, sphere_nphimax.
  rewrite sphere_theta_formula, mult_IZR. f_equal. ring.
Qed.

Lemma sphere_point_formula npts i k :
  sphere_point npts i k
  = (cos (IZR k * (2 * PI) / IZR (sphere_nphi npts i))
       * sin (IZR i * PI / IZR (sphere_ntheta npts)),
     sin (IZR k * (2 * PI) / IZR (sphere_nphi npts i))
       * sin (IZR i * PI / IZR (sphere_ntheta npts)),
     cos (IZR i * PI / IZR (sphere_ntheta npts))).
Proof.
  unfold sphere_point, VSIN, VCOS, Vunit_pi.
  rewrite sphere_theta_formula.
  replace (2 * PI / IZR (sphere_nphi npts i) * IZR k)
    with (IZR k * (2 * PI) / IZR (sphere_nphi npts i))
    by (unfold Rdiv; ring).
  reflexivity.
Qed.

(** C8: [Vacc_sphere] with target count [npts] takes
    [ntheta = round(sqrt(pi*npts/4))] rings; ring [i] has
    [nphi = round(sin(theta)*2*ntheta)] points with [theta = i*pi/ntheta],
    the [k]-th of them being
    [(cos(phi)sin(theta), sin(phi)sin(theta), cos(theta))] with
    [phi = k*2*pi/nphi], a unit vector; a ring with [nphi = 0]
    contributes nothing.  The
    count returned is the sum of the [nphi], it is the number of points
    produced, and the result is a function of [npts] alone. *)
Theorem Vacc_sphere_rings npts :
  (0 <= npts)%Z ->
  let ntheta := VRINT (sqrt (PI * IZR npts / 4)) in
  let nphi := fun i : Z =>
    VRINT (sin (IZR i * PI / IZR ntheta) * 2 * IZR ntheta) in
  let point := fun i k : Z =>
    (cos (IZR k * (2 * PI) / IZR (nphi i)) * sin (IZR i * PI / IZR ntheta),
     sin (IZR k * (2 * PI) / IZR (nphi i)) * sin (IZR i * PI / IZR ntheta),
     cos (IZR i * PI / IZR ntheta)) in
  fst (Vacc_sphere npts)
  = flat_map (fun i => map (point i) (seqZ 0 (nphi i))) (seqZ 0 ntheta) /\
  (forall i, (0 <= i < ntheta)%Z -> (0 <= nphi i)%Z) /\
  (forall s, s ∈ fst (Vacc_sphere npts) ->
             c0 s * c0 s + c1 s * c1 s + c2 s * c2 s = 1) /\
  snd (Vacc_sphere npts) = zsum (map nphi (seqZ 0 ntheta)) /\
  snd (Vacc_sphere npts) = Z.of_nat (length (fst (Vacc_sphere npts))) /\
  (forall npts', npts' = npts -> Vacc_sphere npts' = Vacc_sphere npts).
Proof.
  intros _ ntheta nphi point.
  assert (Hn : sphere_ntheta npts = ntheta)
    by apply sphere_ntheta_formula.
  assert (Hp : forall i, sphere_nphi npts i = nphi i).
  { intros i. rewrite sphere_nphi_formula, Hn. reflexivity. }
  assert (Hq : forall i k, sphere_point npts i k = point i k).
  { intros i k. rewrite sphere_point_formula, Hn, Hp. reflexivity. }
  rewrite Vacc_sphere_all. simpl.
  split; [|split; [|split; [|split; [|split]]]].
  - unfold sphere_all. rewrite Hn.
    induction (seqZ 0 ntheta) as [|i l IH]; simpl; [reflexivity|].
    rewrite IH. f_equal. unfold sphere_ring. rewrite Hp.
    apply map_ext. intros k. apply Hq.
  - intros i Hi. rewrite <- Hp. apply sphere_nphi_nonneg.
    rewrite Hn. exact Hi.
  - intros s Hs. apply sphere_all_unit in Hs. exact Hs.
  - rewrite sphere_count_zsum, Hn. f_equal.
    apply map_ext. exact Hp.
  - symmetry. apply length_sphere_all.
  - intros npts' ->. apply Vacc_sphere_all.
Qed.

(** ** The engine of one atom of radius 1 at the origin *)

Lemma int_of_double_ge (z : Z) x :
  0 <= x -> IZR z <= x -> (z <= int_of_double x)%Z.
Proof.
  intros H0 H. unfold int_of_double.
  destruct (Rlt_dec x 0); [lra|]. apply Zfloor_lub. exact H.
Qed.

Lemma one_atom_engine nsph thee :
  Vacc_ctor2 1000000000 [mkVatom (0, 0, 0) 1] 1 3 3 3 nsph = Some thee ->
  alist thee = [mkVatom (0, 0, 0) 1] /\
  max_radius thee = 1 /\
  nx thee = 3%Z /\ ny thee = 3%Z /\ nz thee = 3%Z /\
  hx thee = 2.84 /\ hy thee = 2.84 /\ hzed thee = 2.84 /\
  grid_lower_corner thee = (-2.84, -2.84, -2.84) /\
  bucket thee (cell_ui 3 3 1 1 1) = [0%Z].
Proof.
  intros Hc.
  pose proof (Vacc_ctor2_Some _ _ _ _ _ _ _ _ Hc) as H.
  cbv zeta in H. rewrite one_atom_grid in H.
  destruct H as (_ & Hal & Hmr & Hnx & Hny & Hnz & _ & Hhx & Hhy & Hhz
                 & Hlo & _).
  cbn [g_hx g_hy g_hzed g_lower] in Hhx, Hhy, Hhz, Hlo.
  repeat (split; [assumption|]).
  apply sorted_single.
  - apply (Vacc_ctor2_bucket_sorted _ _ _ _ _ _ _ _ _ Hc).
    unfold cell_ui. lia.
  - intros i Hi.
    apply (Vacc_ctor2_bucket_mem _ _ _ _ _ _ _ _ 1 1 1 i Hc) in Hi;
      try lia.
    destruct Hi as [Hi _]. exact Hi.
  - pose proof (Vacc_ctor2_bucket_meets 1000000000
                  [mkVatom (0, 0, 0) 1] 1 3 3 3 nsph
                  thee 1 1 1 0 (0, 0, 0) Hc
                  ltac:(lia) ltac:(lia) ltac:(lia)) as M.
    cbv zeta in M. rewrite one_atom_grid in M.
    cbn [g_hx g_hy g_hzed] in M.
    apply M.
    + unfold Valist_getNumberAtoms. simpl. lia.
    + lra.
    + lra.
    + lra.
    + simpl. lra.
    + unfold in_cell_box, c0, c1, c2. simpl. lra.
    + unfold in_inflated_atom, dist2, VSQR, c0, c1, c2. simpl. lra.
Qed.

Lemma one_atom_far_point nsph thee :
  Vacc_ctor2 1000000000 [mkVatom (0, 0, 0) 1] 1 3 3 3 nsph = Some thee ->
  off_grid thee (100, 0, 0) = true.
Proof.
  intros Hc.
  destruct (one_atom_engine nsph thee Hc)
    as (_ & _ & Hnx & _ & _ & Hhx & _ & _ & Hlo & _).
  apply off_grid_true. right; left. rewrite Hnx.
  unfold centeri. rewrite Hhx, Hlo. unfold c0. simpl.
  apply Z.le_ge. apply int_of_double_ge; simpl; lra.
Qed.

Lemma one_atom_near_point nsph thee :
  Vacc_ctor2 1000000000 [mkVatom (0, 0, 0) 1] 1 3 3 3 nsph = Some thee ->
  off_grid thee (1.5, 0, 0) = false /\
  center_ui thee (1.5, 0, 0) = cell_ui 3 3 1 1 1.
Proof.
  intros Hc.
  destruct (one_atom_engine nsph thee Hc)
    as (_ & _ & Hnx & Hny & Hnz & Hhx & Hhy & Hhz & Hlo & _).
  assert (Ci : centeri thee (1.5, 0, 0) = 1%Z).
  { unfold centeri. rewrite Hlo, Hhx. unfold c0. simpl.
    apply int_of_double_eq; simpl; lra. }
  assert (Cj : centerj thee (1.5, 0, 0) = 1%Z).
  { unfold centerj. rewrite Hlo, Hhy. unfold c1. simpl.
    apply int_of_double_eq; simpl; lra. }
  assert (Ck : centerk thee (1.5, 0, 0) = 1%Z).
  { unfold centerk. rewrite Hlo, Hhz. unfold c2. simpl.
    apply int_of_double_eq; simpl; lra. }
  split.
  - unfold off_grid. rewrite Ci, Cj, Ck, Hnx, Hny, Hnz. reflexivity.
  - unfold center_ui. rewrite Ci, Cj, Ck, Hny, Hnz. reflexivity.
Qed.

(** At (1.5, 0, 0) the point is outside the atom and inside the atom
    inflated by 1. *)
Lemma one_atom_annulus nsph thee :
  Vacc_ctor2 1000000000 [mkVatom (0, 0, 0) 1] 1 3 3 3 nsph = Some thee ->
  Vacc_vdwAcc thee (1.5, 0, 0) = 1 /\
  Vacc_ivdwAcc thee (1.5, 0, 0) 1 = Ok 0.
Proof.
  intros Hc.
  destruct (one_atom_engine nsph thee Hc)
    as (Hal & Hmr & _ & _ & _ & _ & _ & _ & _ & Hb).
  destruct (one_atom_near_point nsph thee Hc) as [Hoff Hui].
  split.
  - unfold Vacc_vdwAcc. rewrite Hoff, Hui, Hb. simpl.
    rewrite Hal. unfold Valist_getAtom, zget. simpl.
    rewrite dist2_x_axis. unfold VSQR. rdec. reflexivity.
  - apply Vacc_ivdwAcc_Ok0. unfold ivdwAccExclus.
    rewrite Hmr, Hoff, Hui, Hb. rdec. simpl.
    rewrite Hal. unfold Valist_getAtom, zget. simpl.
    rewrite dist2_x_axis. unfold VSQR. rdec. reflexivity.
Qed.

(** At (1.5, 0, 0) the point is on the sphere of the atom inflated by
    0.5, which does not cover it. *)
Lemma one_atom_touching nsph thee :
  Vacc_ctor2 1000000000 [mkVatom (0, 0, 0) 1] 1 3 3 3 nsph = Some thee ->
  Vacc_ivdwAcc thee (1.5, 0, 0) 0.5 = Ok 1.
Proof.
  intros Hc.
  destruct (one_atom_engine nsph thee Hc)
    as (Hal & Hmr & _ & _ & _ & _ & _ & _ & _ & Hb).
  destruct (one_atom_near_point nsph thee Hc) as [Hoff Hui].
  apply Vacc_ivdwAcc_Ok1. unfold ivdwAccExclus.
  rewrite Hmr, Hoff, Hui, Hb. rdec. simpl.
  rewrite Hal. unfold Valist_getAtom, zget. simpl.
  rewrite dist2_x_axis. unfold VSQR. rdec. reflexivity.
Qed.

(** C4 as written fails: two atoms of radius 2 at the origin, probe
    radius 1.4, target count 4.  The total is not the area of the atom
    alone: the self-exclusion of [ivdwAccExclus] skips the atom's own
    index only, and the twin, tested with a strict [<], does not take
    the samples away. *)
Lemma totalSASA_double_counterexample :
  exists thee2 thee1 single total areas,
    Vacc_ctor2 1000000000
      [mkVatom (0, 0, 0) 2; mkVatom (0, 0, 0) 2] 1.4 3 3 3 4 = Some thee2 /\
    Vacc_ctor2 1000000000 [mkVatom (0, 0, 0) 2] 1.4 3 3 3 4 = Some thee1 /\
    Vacc_atomSASA thee1 1.4 0 = Ok single /\
    Vacc_totalSASA thee2 1.4 = Ok (total, areas) /\
    total <> single.
Proof.
  destruct (Vacc_ctor2_example 1000000000
              [mkVatom (0, 0, 0) 2; mkVatom (0, 0, 0) 2] 1.4
              ltac:(discriminate)) as [thee2 Hc2].
  destruct (Vacc_ctor2_example 1000000000
              [mkVatom (0, 0, 0) 2] 1.4
              ltac:(discriminate)) as [thee1 Hc1].
  destruct (totalSASA_coincident 1000000000 (mkVatom (0, 0, 0) 2)
              1.4 3 3 3 4 1.4 thee2 thee1 Hc2 Hc1 ltac:(lra)
              (sphere_count_pos 4 ltac:(lia))) as [H1 [areas H2]].
  exists thee2, thee1. do 2 eexists. exists areas.
  split; [exact Hc2|]. split; [exact Hc1|].
  split; [exact H1|]. split; [exact H2|].
  simpl. assert (Hpi := PI_RGT_0). nra.
Qed.

(** ** Instances *)


Lemma Vacc_ctor2_bucket_invariant_witness :
  exists thee,
    Vacc_ctor2 1000000000 [mkVatom (0, 0, 0) 1] 1 3 3 3 4 = Some thee /\
    (0 < hx thee /\ 0 < hy thee /\ 0 < hzed thee) /\
    let al := [mkVatom (0, 0, 0) 1] in
    let g := ctor_grid 1000000000 al 1 3 3 3 in
    let ui := cell_ui 3 3 2 2 2 in
    let atom := Valist_getAtom al 0 in
    (0%Z ∈ bucket thee ui <->
     (0 <= 0 < Valist_getNumberAtoms al)%Z /\
     in_span (atom_span g atom) 2 2 2) /\
    ((0 <= 0 < Valist_getNumberAtoms al)%Z ->
     0 <= Vatom_getRadius atom + 1 ->
     (exists p, in_cell_box g 2 2 2 p /\ in_inflated_atom g atom p) ->
     0%Z ∈ bucket thee ui) /\
    StronglySorted Z.lt (bucket thee ui) /\
    Z.of_nat (length (bucket thee ui))
    = zget 0%Z (count_pass g al
                  (replicate (Z.to_nat (3 * 3 * 3)) 0%Z)) ui /\
    zget 0%Z (natoms thee) ui = Z.of_nat (length (bucket thee ui)) /\
    length (zget [] (atomIDs thee) ui) = length (bucket thee ui).
Proof.
  destruct (Vacc_ctor2_example 1000000000 [mkVatom (0, 0, 0) 1]
              1 ltac:(discriminate)) as [thee Hc].
  exists thee. split; [exact Hc|].
  destruct (one_atom_engine 4 thee Hc)
    as (_ & _ & _ & _ & _ & Hhx & Hhy & Hhz & _).
  assert (Hx : 0 < hx thee) by (rewrite Hhx; lra).
  assert (Hy : 0 < hy thee) by (rewrite Hhy; lra).
  assert (Hz : 0 < hzed thee) by (rewrite Hhz; lra).
  split; [auto|].
  exact (Vacc_ctor2_bucket_invariant 1000000000 [mkVatom (0, 0, 0) 1]
           1 3 3 3 4 thee 2 2 2 0 Hc Hx Hy Hz
           ltac:(lia) ltac:(lia) ltac:(lia)).
Defined.

Lemma molAcc_agrees_with_fastMolAcc_witness :
  exists thee,
    Vacc_ctor2 1000000000 [mkVatom (0, 0, 0) 1] 1 3 3 3 4 = Some thee /\
    Vacc_vdwAcc thee (1.5, 0, 0) = 1 /\
    Vacc_ivdwAcc thee (1.5, 0, 0) 1 = Ok 0 /\
    Vacc_molAcc thee (1.5, 0, 0) 1 = Vacc_fastMolAcc thee (1.5, 0, 0) 1.
Proof.
  destruct (Vacc_ctor2_example 1000000000 [mkVatom (0, 0, 0) 1]
              1 ltac:(discriminate)) as [thee Hc].
  exists thee. split; [exact Hc|].
  destruct (one_atom_annulus 4 thee Hc) as [Hv Hi].
  split; [exact Hv|]. split; [exact Hi|].
  exact (molAcc_agrees_with_fastMolAcc thee (1.5, 0, 0) 1 Hv Hi).
Defined.

Lemma ivdwAcc_monotone_witness :
  exists thee,
    Vacc_ctor2 1000000000 [mkVatom (0, 0, 0) 1] 1 3 3 3 4 = Some thee /\
    Vacc_ivdwAcc thee (1.5, 0, 0) 0.5 = Ok 1 /\
    Vacc_ivdwAcc thee (1.5, 0, 0) 0.25 = Ok 1.
Proof.
  destruct (Vacc_ctor2_example 1000000000 [mkVatom (0, 0, 0) 1]
              1 ltac:(discriminate)) as [thee Hc].
  exists thee. split; [exact Hc|].
  assert (Hmr : 0.5 <= max_radius thee).
  { destruct (one_atom_engine 4 thee Hc) as (_ & Hmr & _).
    rewrite Hmr. lra. }
  pose proof (one_atom_touching 4 thee Hc) as H1.
  split; [exact H1|].
  exact (ivdwAcc_monotone thee (1.5, 0, 0) 0.5 0.25
           ltac:(lra) ltac:(lra) Hmr H1).
Defined.

Lemma Vacc_sphere_rings_witness :
  snd (Vacc_sphere 4) = Z.of_nat (length (fst (Vacc_sphere 4))).
Proof.
  exact (proj1 (proj2 (proj2 (proj2 (proj2
           (Vacc_sphere_rings 4 ltac:(lia))))))).
Defined.

(** ** The claims on the per-atom value and gradient *)


(** C1 (as the code has it): for an atom of radius greater than 1, a
    window [win > 0] and an inflation [infrad >= 0], with
    [a = radius + infrad] and [d] the distance the routine computes,
    [Vacc_splineAccAtom] is 0 for [d <= max(0, a - win)], the cubic
    [0.75 s^2/win^2 - 0.25 s^3/win^3] with [s = d - a + win] for
    [max(0, a - win) < d < a + win], and 1 for [d >= a + win]; so it is 0
    at [d = a - win], 1 at [d = a + win], and non-decreasing in the
    distance.  An atom of radius 0 gives 1. *)
Theorem splineAccAtom_piecewise thee center win infrad atomID :
  let atom := Valist_getAtom (alist thee) atomID in
  let a := Vatom_getRadius atom + infrad in
  let d := VSQRT (dist2 (Vatom_getPosition atom) center) in
  let s := d - a + win in
  let value := Vacc_splineAccAtom thee center win infrad atomID in
  0 < win -> 0 <= infrad ->
  (Vatom_getRadius atom > 1 ->
     (d <= Rmax 0 (a - win) -> value = 0) /\
     (Rmax 0 (a - win) < d < a + win ->
        value = 0.75 * s ^ 2 / win ^ 2 - 0.25 * s ^ 3 / win ^ 3) /\
     (d >= a + win -> value = 1) /\
     (d = a - win -> value = 0) /\
     (d = a + win -> value = 1) /\
     (forall center',
        d <= VSQRT (dist2 (Vatom_getPosition atom) center') ->
        value <= Vacc_splineAccAtom thee center' win infrad atomID)) /\
  (Vatom_getRadius atom = 0 -> value = 1).
Proof.
  intros atom a d s value Hw Hi. split.
  - intros Hr. subst value.
    rewrite (splineAccAtom_large thee center win infrad atomID Hr).
    fold atom a d.
    assert (Hd : 0 <= d) by apply VSQRT_nonneg.
    assert (Hm := Rmax_l 0 (a - win)).
    assert (Hm' := Rmax_r 0 (a - win)).
    assert (Ha : 1 < a) by (subst a; lra).
    unfold spline_of_dist.
    repeat split.
    + intros H. destruct (Rle_dec d _); [reflexivity|lra].
    + intros [H1 H2]. destruct (Rle_dec d _); [lra|].
      destruct (Rge_dec d _); [lra|].
      fold s. apply smooth_formula. lra.
    + intros H. destruct (Rle_dec d _) as [Hc|Hc].
      * assert (Hx : Rmax 0 (a - win) < a + win)
          by (apply Rmax_lub_lt; lra).
        lra.
      * destruct (Rge_dec d _); [reflexivity|lra].
    + intros H. destruct (Rle_dec d _); [reflexivity|lra].
    + intros H. destruct (Rle_dec d _) as [Hc|Hc].
      * assert (Hx : Rmax 0 (a - win) < a + win)
          by (apply Rmax_lub_lt; lra).
        lra.
      * destruct (Rge_dec d _); [reflexivity|lra].
    + intros center' Hdd.
      rewrite (splineAccAtom_large thee center' win infrad atomID Hr).
      fold atom a. apply spline_of_dist_mono; assumption.
  - intros Hr. subst value. apply splineAccAtom_small. fold atom. lra.
Qed.

Lemma Vacc_ctor2_alist VLARGE al maxr nx0 ny0 nz0 nsph thee :
  Vacc_ctor2 VLARGE al maxr nx0 ny0 nz0 nsph = Some thee ->
  alist thee = al.
Proof.
  intros Hc. apply Vacc_ctor2_Some in Hc. cbv zeta in Hc.
  destruct Hc as (_ & Hal & _). exact Hal.
Qed.

Lemma splineAccAtom_piecewise_witness :
  exists thee,
    Vacc_ctor2 1000000000 [mkVatom (0, 0, 0) 2] 1 3 3 3 4 = Some thee /\
    Vacc_splineAccAtom thee (3, 0, 0) 1 0 0 = 1.
Proof.
  destruct (Vacc_ctor2_example 1000000000 [mkVatom (0, 0, 0) 2]
              1 ltac:(discriminate)) as [thee Hc].
  exists thee. split; [exact Hc|].
  pose proof (Vacc_ctor2_alist _ _ _ _ _ _ _ _ Hc) as Hal.
  pose proof (splineAccAtom_piecewise thee (3, 0, 0) 1 0 0
                ltac:(lra) ltac:(lra)) as [H _].
  rewrite Hal in H. unfold Valist_getAtom, zget in H. simpl in H.
  destruct (H ltac:(lra)) as (_ & _ & H3 & _).
  apply H3.
  rewrite dist2_sym, dist2_x_axis.
  replace ((3 - 0) * (3 - 0)) with (3 * 3) by lra.
  rewrite VSQRT_sqr by lra. lra.
Defined.

(** C1 as written fails at the centre of an atom whose inflated radius
    is smaller than the window: radius 2, [infrad = 0], [win = 3],
    [d = 0].  The claim gives the cubic at [s = 1], the routine gives 0. *)
Lemma splineAccAtom_center_counterexample :
  exists thee,
    Vacc_ctor2 1000000000 [mkVatom (0, 0, 0) 2] 3 3 3 3 4 = Some thee /\
    let atom := Valist_getAtom (alist thee) 0 in
    let a := Vatom_getRadius atom + 0 in
    let d := VSQRT (dist2 (Vatom_getPosition atom) (0, 0, 0)) in
    let s := d - a + 3 in
    Vatom_getRadius atom > 0 /\ a - 3 < d < a + 3 /\
    Vacc_splineAccAtom thee (0, 0, 0) 3 0 0 = 0 /\
    Vacc_splineAccAtom thee (0, 0, 0) 3 0 0
    <> 0.75 * s ^ 2 / 3 ^ 2 - 0.25 * s ^ 3 / 3 ^ 3.
Proof.
  destruct (Vacc_ctor2_example 1000000000 [mkVatom (0, 0, 0) 2]
              3 ltac:(discriminate)) as [thee Hc].
  exists thee. split; [exact Hc|].
  pose proof (Vacc_ctor2_alist _ _ _ _ _ _ _ _ Hc) as Hal.
  assert (Hd : VSQRT (dist2 (0, 0, 0) (0, 0, 0)) = 0).
  { rewrite dist2_x_axis. replace ((0 - 0) * (0 - 0)) with (0 * 0) by lra.
    apply VSQRT_sqr. lra. }
  assert (Hv : Vacc_splineAccAtom thee (0, 0, 0) 3 0 0 = 0).
  { rewrite splineAccAtom_large; rewrite Hal;
      unfold Valist_getAtom, zget; simpl; [|lra].
    rewrite Hd. unfold spline_of_dist.
    assert (Hm := Rmax_l 0 (2 + 0 - 3)).
    destruct (Rle_dec 0 _); [reflexivity|lra]. }
  cbv zeta. rewrite Hv, Hal.
  unfold Valist_getAtom, zget. simpl. rewrite Hd.
  repeat split; try lra.
Qed.

(** C9: the value routine uses the window only for a radius above 1.0
    (it is the constant 1 for every radius up to 1.0), the gradient
    routine uses it for every radius above 0.0, where it returns
    [-(mygrad/mychi) (center - apos)/dist] inside the window; for the atom
    of radius 1 at the origin, [win = 1/2], [infrad = 0] and the point
    (1,0,0), which is strictly inside the window, the gradient is
    (-3, 0, 0) while the value is 1. *)
Theorem splineAcc_value_gradient_mismatch :
  (forall thee center win infrad atomID,
     Vatom_getRadius (Valist_getAtom (alist thee) atomID) <= 1 ->
     Vacc_splineAccAtom thee center win infrad atomID = 1) /\
  (forall thee center win infrad atomID,
     let atom := Valist_getAtom (alist thee) atomID in
     let arad := Vatom_getRadius atom + infrad in
     let dist := VSQRT (dist2 (Vatom_getPosition atom) center) in
     Vatom_getRadius atom > 1 ->
     Rmax 0 (arad - win) < dist < arad + win ->
     Vacc_splineAccAtom thee center win infrad atomID
     = smooth win (dist - arad + win)) /\
  (forall thee center win infrad atomID,
     let atom := Valist_getAtom (alist thee) atomID in
     let apos := Vatom_getPosition atom in
     let arad := Vatom_getRadius atom + infrad in
     let dist := VSQRT (dist2 apos center) in
     let sm := dist - arad + win in
     let mychi := smooth win sm in
     let mygrad := 1.5 * sm * (1 / (win * win))
                   - 0.75 * VSQR sm * (1 / (win * win * win)) in
     Vatom_getRadius atom > 0 ->
     0 < win ->
     arad - win < dist < arad + win ->
     Vacc_splineAccGradAtom thee center win infrad atomID
     = Ok (- (mygrad / mychi) * ((c0 center - c0 apos) / dist),
           - (mygrad / mychi) * ((c1 center - c1 apos) / dist),
           - (mygrad / mychi) * ((c2 center - c2 apos) / dist))) /\
  (exists thee,
   Vacc_ctor2 1000000000 [mkVatom (0, 0, 0) 1] 1 3 3 3 4 = Some thee /\
   let atom := Valist_getAtom (alist thee) 0 in
   let arad := Vatom_getRadius atom + 0 in
   let dist := VSQRT (dist2 (Vatom_getPosition atom) (1, 0, 0)) in
   0 < Vatom_getRadius atom <= 1 /\
   arad - / 2 < dist < arad + / 2 /\
   Vacc_splineAccGradAtom thee (1, 0, 0) (/ 2) 0 0 = Ok (-3, 0, 0) /\
   Vacc_splineAccAtom thee (1, 0, 0) (/ 2) 0 0 = 1).
Proof.
  split; [|split; [|split]].
  - intros. apply splineAccAtom_small. assumption.
  - intros thee center win infrad atomID atom arad dist Hr [H1 H2].
    rewrite (splineAccAtom_large thee center win infrad atomID Hr).
    fold atom arad dist. unfold spline_of_dist.
    destruct (Rle_dec dist _); [lra|].
    destruct (Rge_dec dist _); [lra|reflexivity].
  - intros thee center win infrad atomID. cbv zeta.
    intros Hr Hw [Hd1 Hd2].
    apply splineAccGradAtom_window; [exact Hr|split; assumption|].
    apply smooth_pos; [exact Hw| |]; lra.
  - destruct (Vacc_ctor2_example 1000000000 [mkVatom (0, 0, 0) 1]
                1 ltac:(discriminate)) as [thee Hc].
    exists thee. split; [exact Hc|].
    pose proof (Vacc_ctor2_alist _ _ _ _ _ _ _ _ Hc) as Hal.
    assert (Hd : VSQRT (dist2 (0, 0, 0) (1, 0, 0)) = 1).
    { rewrite dist2_x_axis.
      replace ((0 - 1) * (0 - 1)) with (1 * 1) by lra.
      apply VSQRT_sqr. lra. }
    cbv zeta. rewrite Hal. unfold Valist_getAtom, zget. simpl.
    rewrite Hd.
    split; [lra|]. split; [lra|]. split.
    + pose proof (splineAccGradAtom_window thee (1, 0, 0) (/ 2) 0 0) as H.
      cbv zeta in H. rewrite Hal in H.
      unfold Valist_getAtom, zget in H. simpl in H.
      rewrite Hd in H.
      assert (Hs : smooth (/ 2) (1 - (1 + 0) + / 2) = / 2).
      { unfold smooth, VSQR. undecimal. field. }
      rewrite Hs in H.
      rewrite H by lra.
      unfold c0, c1, c2, VSQR. simpl. undecimal.
      f_equal. f_equal; [f_equal|]; field.
    + apply splineAccAtom_small.
      rewrite Hal. unfold Valist_getAtom, zget. simpl. lra.
Qed.

(** * Further properties *)

(** ** Engines built by either constructor *)

Lemma Vacc_ctor2_binned VLARGE al maxr nx0 ny0 nz0 nsph thee :
  Vacc_ctor2 VLARGE al maxr nx0 ny0 nz0 nsph = Some thee ->
  binned (ctor_grid VLARGE al maxr nx0 ny0 nz0) al thee.
Proof.
  intros H. unfold Vacc_ctor2 in H. cbv zeta in H.
  destruct (Z.ltb_spec nx0 3); [discriminate|].
  destruct (Z.ltb_spec ny0 3); [discriminate|].
  destruct (Z.ltb_spec nz0 3); [discriminate|].
  cbn [orb] in H. ctor_guards H.
  destruct (Vacc_sphere nsph) as [sph nsph'].
  destruct (fill_pass _ _ _) as [na ids] eqn:E.
  injection H as <-. unfold binned.
  cbn [alist max_radius nx ny nz n hx hy hzed grid_lower_corner
       sphere nsphere natoms atomIDs atomFlags area].
  unfold g_n. cbn [g_nx g_ny g_nz ctor_grid g_max_radius].
  rewrite E, length_replicate. repeat split; lia.
Qed.

Lemma Vacc_ctor2Focus_binned al maxr nx0 ny0 nz0 nsph
    xmin ymin zmin xmax ymax zmax thee :
  Vacc_ctor2Focus al maxr nx0 ny0 nz0 nsph xmin ymin zmin xmax ymax zmax
  = Some thee ->
  binned (focus_grid al maxr nx0 ny0 nz0 xmin ymin zmin xmax ymax zmax)
         al thee.
Proof.
  intros H. unfold Vacc_ctor2Focus in H. cbv zeta in H.
  destruct (Z.ltb_spec nx0 3); [discriminate|].
  destruct (Z.ltb_spec ny0 3); [discriminate|].
  destruct (Z.ltb_spec nz0 3); [discriminate|].
  cbn [orb] in H. ctor_guards H.
  destruct (Vacc_sphere nsph) as [sph nsph'].
  destruct (fill_pass _ _ _) as [na ids] eqn:E.
  injection H as <-. unfold binned.
  cbn [alist max_radius nx ny nz n hx hy hzed grid_lower_corner
       sphere nsphere natoms atomIDs atomFlags area].
  unfold g_n. cbn [g_nx g_ny g_nz focus_grid g_max_radius].
  rewrite E, length_replicate. repeat split; lia.
Qed.

Lemma binned_bucket g al thee ui :
  binned g al thee ->
  (0 <= ui < g_n g)%Z ->
  bucket thee ui = covering g ui 0 al /\
  zget 0%Z (natoms thee) ui = Z.of_nat (length (covering g ui 0 al)) /\
  zget [] (atomIDs thee) ui = covering g ui 0 al.
Proof.
  intros (Hdim & _ & _ & _ & _ & _ & _ & _ & _ & _ & _ & _ & Hf) Hui.
  set (n0 := g_n g) in *.
  set (counts := count_pass g al (replicate (Z.to_nat n0) 0%Z)) in *.
  assert (Hn0 : (0 <= n0)%Z) by lia.
  destruct (count_pass_spec g al (replicate (Z.to_nat n0) 0%Z))
    as [Hc1 Hc2].
  { rewrite length_replicate. fold n0. lia. }
  fold counts in Hc1, Hc2. rewrite length_replicate in Hc1.
  pose proof (fill_pass_gen g al 0%Z (map (fun _ => 0%Z) counts)
                (alloc_pass counts)) as Hg.
  rewrite length_map, length_alloc_pass in Hg. fold n0 in Hg.
  destruct Hg as (Hg1 & Hg2 & Hg3); [lia|reflexivity| |].
  { intros u Hu.
    rewrite (zget_map _ 0%Z) by lia.
    rewrite alloc_pass_slot by lia.
    rewrite (Hc2 u 0%Z), zget_replicate by lia. lia. }
  change (fold_left (fill_atom g)
            (zip (seqZ 0 (Z.of_nat (length al))) al)
            (map (fun _ => 0%Z) counts, alloc_pass counts))
    with (fill_pass g al (map (fun _ => 0%Z) counts, alloc_pass counts))
    in Hg1, Hg2, Hg3.
  rewrite <- Hf in Hg1, Hg2, Hg3. cbn [fst snd] in Hg1, Hg2, Hg3.
  destruct (Hg3 ui Hui) as [E1 E2].
  rewrite (zget_map _ 0%Z) in E1, E2 by lia.
  simpl in E1, E2.
  assert (Hb : bucket thee ui = covering g ui 0 al).
  { unfold bucket. rewrite E1, E2. apply map_zget_seqZ. }
  split; [exact Hb|]. split; [exact E1|exact E2].
Qed.

Lemma binned_center_ui g al thee p :
  binned g al thee ->
  off_grid thee p = false ->
  (0 <= centeri thee p < g_nx g /\ 0 <= centerj thee p < g_ny g /\
   0 <= centerk thee p < g_nz g)%Z /\
  (0 <= center_ui thee p < g_n g)%Z /\
  center_ui thee p
  = cell_ui (g_ny g) (g_nz g)
      (centeri thee p) (centerj thee p) (centerk thee p).
Proof.
  intros (_ & _ & _ & Hnx & Hny & Hnz & _) Hoff.
  assert (Hon : ~ off_grid thee p = true) by (rewrite Hoff; discriminate).
  rewrite off_grid_true in Hon. rewrite Hnx, Hny, Hnz in Hon.
  assert (Hr : (0 <= centeri thee p < g_nx g /\
                0 <= centerj thee p < g_ny g /\
                0 <= centerk thee p < g_nz g)%Z) by lia.
  split; [exact Hr|]. unfold center_ui. rewrite Hny, Hnz.
  split; [|reflexivity].
  apply cell_ui_range; lia.
Qed.

(** The atoms of the bucket of the cell of [p]. *)
Lemma binned_bucket_mem g al thee p i :
  binned g al thee ->
  off_grid thee p = false ->
  i ∈ bucket thee (center_ui thee p) <->
  (0 <= i < Valist_getNumberAtoms al)%Z /\
  in_span (atom_span g (Valist_getAtom al i))
          (centeri thee p) (centerj thee p) (centerk thee p).
Proof.
  intros Hb Hoff.
  destruct (binned_center_ui g al thee p Hb Hoff) as (Hr & Hui & E).
  destruct (binned_bucket g al thee _ Hb Hui) as (Hbk & _).
  rewrite Hbk, elem_of_covering, E.
  unfold Valist_getNumberAtoms. rewrite Z.sub_0_r.
  fold (Valist_getAtom al i).
  rewrite in_span_cells by (try apply atom_span_ok; lia).
  split; intros [H1 H2]; (split; [lia|exact H2]).
Qed.

(** ** The bucket of the cell of a point holds every atom near it *)

Lemma int_of_double_near y :
  IZR (int_of_double y) - 1 < y < IZR (int_of_double y) + 1.
Proof.
  unfold int_of_double. destruct (Rlt_dec y 0).
  - pose proof (Zceil_bound y). lra.
  - pose proof (Zfloor_bound y). lra.
Qed.

Lemma axis_located h lo a u rtot (nn : Z) :
  0 < h -> 0 <= rtot ->
  (0 <= int_of_double ((u - lo) / h) < nn)%Z ->
  VSQR (u - a) <= VSQR rtot ->
  (VMAX2 (Zfloor ((a - lo - rtot) / h)) 0
   <= int_of_double ((u - lo) / h)
   <= VMIN2 (Zceil ((a - lo + rtot) / h)) (nn - 1))%Z.
Proof.
  intros Hh Hr Hv Hd.
  assert (A : a - rtot <= u <= a + rtot).
  { unfold VSQR in Hd. split; nra. }
  pose proof (int_of_double_near ((u - lo) / h)) as [N1 N2].
  set (v := int_of_double ((u - lo) / h)) in *.
  assert (Hih : 0 < / h) by (apply Rinv_0_lt_compat; exact Hh).
  assert (M1 : (a - lo - rtot) / h <= (u - lo) / h).
  { unfold Rdiv. apply Rmult_le_compat_r; lra. }
  assert (M2 : (u - lo) / h <= (a - lo + rtot) / h).
  { unfold Rdiv. apply Rmult_le_compat_r; lra. }
  assert (F : IZR (Zfloor ((a - lo - rtot) / h)) < IZR (v + 1)).
  { pose proof (Zfloor_bound ((a - lo - rtot) / h)) as [F1 _].
    rewrite plus_IZR. lra. }
  assert (C : IZR (v - 1) < IZR (Zceil ((a - lo + rtot) / h))).
  { pose proof (Zceil_bound ((a - lo + rtot) / h)) as [_ C1].
    rewrite minus_IZR. lra. }
  apply lt_IZR in F. apply lt_IZR in C.
  unfold VMAX2, VMIN2.
  destruct (Z.geb_spec (Zfloor ((a - lo - rtot) / h)) 0),
           (Z.leb_spec (Zceil ((a - lo + rtot) / h)) (nn - 1)); lia.
Qed.

Lemma located_in_span g al thee atom p :
  binned g al thee ->
  off_grid thee p = false ->
  0 < g_hx g -> 0 < g_hy g -> 0 < g_hzed g ->
  0 <= Vatom_getRadius atom + g_max_radius g ->
  in_inflated_atom g atom p ->
  in_span (atom_span g atom)
          (centeri thee p) (centerj thee p) (centerk thee p).
Proof.
  intros Hb Hoff Hx Hy Hz Hr Hin.
  destruct (binned_center_ui g al thee p Hb Hoff) as ((Ri & Rj & Rk) & _).
  destruct Hb as (_ & _ & _ & _ & _ & _ & Hhx & Hhy & Hhz & Hlo & _).
  unfold in_inflated_atom, dist2 in Hin.
  set (rtot := Vatom_getRadius atom + g_max_radius g) in *.
  assert (Hs0 := VSQR_nonneg (c0 p - c0 (Vatom_getPosition atom))).
  assert (Hs1 := VSQR_nonneg (c1 p - c1 (Vatom_getPosition atom))).
  assert (Hs2 := VSQR_nonneg (c2 p - c2 (Vatom_getPosition atom))).
  unfold centeri, centerj, centerk in *.
  rewrite Hhx, Hhy, Hhz, Hlo in *.
  unfold in_span, atom_span. cbn [i_min i_max j_min j_max k_min k_max].
  fold rtot.
  split; [|split]; apply axis_located; auto; lra.
Qed.

(** Every atom whose closed inflated ball holds an on-grid point [p] is
    in the bucket of the cell of [p]. *)
Lemma binned_bucket_near g al thee p i :
  binned g al thee ->
  off_grid thee p = false ->
  0 < g_hx g -> 0 < g_hy g -> 0 < g_hzed g ->
  (0 <= i < Valist_getNumberAtoms al)%Z ->
  0 <= Vatom_getRadius (Valist_getAtom al i) + g_max_radius g ->
  in_inflated_atom g (Valist_getAtom al i) p ->
  i ∈ bucket thee (center_ui thee p).
Proof.
  intros Hb Hoff Hx Hy Hz Hi Hr Hin.
  apply (binned_bucket_mem g al thee p i Hb Hoff).
  split; [exact Hi|].
  apply located_in_span with (al := al); assumption.
Qed.

(** ** The scans over a bucket *)

Lemma ivdwAccExclus_loop_zero thee p r skip ids :
  ivdwAccExclus_loop thee p r skip ids = 0%Z <->
  exists id,
    id ∈ ids /\ id <> skip /\
    Vatom_getRadius (Valist_getAtom (alist thee) id) > 0 /\
    dist2 (Vatom_getPosition (Valist_getAtom (alist thee) id)) p
    < VSQR (Vatom_getRadius (Valist_getAtom (alist thee) id) + r).
Proof.
  induction ids as [|x ids IH]; simpl.
  - split; [discriminate|]. intros (id & H & _). inversion H.
  - destruct (Z.eqb_spec x skip) as [->|Hne].
    + rewrite IH. split.
      * intros (id & H1 & H2). exists id. split; [right; exact H1|exact H2].
      * intros (id & H1 & H2 & H3).
        apply elem_of_cons in H1 as [->|H1]; [congruence|].
        exists id. auto.
    + destruct (Rgt_dec _ 0) as [Hr|Hr].
      * destruct (Rlt_dec _ _) as [Hd|Hd].
        -- split; [|reflexivity]. intros _. exists x.
           split; [left|]. auto.
        -- rewrite IH. split.
           ++ intros (id & H1 & H2). exists id.
              split; [right; exact H1|exact H2].
           ++ intros (id & H1 & H2 & H3 & H4).
              apply elem_of_cons in H1 as [->|H1]; [contradiction|].
              exists id. auto.
      * rewrite IH. split.
        -- intros (id & H1 & H2). exists id.
           split; [right; exact H1|exact H2].
        -- intros (id & H1 & H2 & H3 & H4).
           apply elem_of_cons in H1 as [->|H1]; [contradiction|].
           exists id. auto.
Qed.

Lemma vdwAcc_loop_zero thee p ids :
  vdwAcc_loop thee p ids = 0 <->
  exists id,
    id ∈ ids /\
    dist2 p (Vatom_getPosition (Valist_getAtom (alist thee) id))
    < VSQR (Vatom_getRadius (Valist_getAtom (alist thee) id)).
Proof.
  induction ids as [|x ids IH]; simpl.
  - split; [lra|]. intros (id & H & _). inversion H.
  - destruct (Rlt_dec _ _) as [Hd|Hd].
    + split; [|reflexivity]. intros _. exists x. split; [left|exact Hd].
    + rewrite IH. split.
      * intros (id & H1 & H2). exists id. split; [right; exact H1|exact H2].
      * intros (id & H1 & H2).
        apply elem_of_cons in H1 as [->|H1]; [contradiction|].
        exists id. auto.
Qed.

Lemma ivdwAccExclus_Ok0 thee p r skip :
  ivdwAccExclus thee p r skip = Ok 0%Z <->
  r <= max_radius thee /\ off_grid thee p = false /\
  ivdwAccExclus_loop thee p r skip (bucket thee (center_ui thee p)) = 0%Z.
Proof.
  unfold ivdwAccExclus.
  destruct (Rgt_dec r (max_radius thee)) as [Hr|Hr].
  - split; [discriminate|]. intros [H _]. lra.
  - destruct (off_grid thee p).
    + split; [intros H; apply Ok_inj in H; discriminate|].
      intros (_ & H & _). discriminate.
    + split.
      * intros H. apply Ok_inj in H. repeat split; [lra|exact H].
      * intros (_ & _ & H). rewrite H. reflexivity.
Qed.

(** ** On the grid the scan of one bucket is the scan of all atoms *)

Lemma binned_ivdwAccExclus g al thee p r skip :
  binned g al thee ->
  0 < g_hx g -> 0 < g_hy g -> 0 < g_hzed g ->
  0 <= r <= g_max_radius g ->
  off_grid thee p = false ->
  ivdwAccExclus thee p r skip = Ok 0%Z <-> covered_by al p r skip.
Proof.
  intros Hb Hx Hy Hz [Hr0 Hr1] Hoff.
  pose proof Hb as (_ & Hal & Hmr & _).
  rewrite ivdwAccExclus_Ok0, ivdwAccExclus_loop_zero, Hal, Hmr.
  unfold covered_by. split.
  - intros (_ & _ & id & Hid & Hne & Hrad & Hd).
    exists id. split; [|auto].
    apply (binned_bucket_mem g al thee p id Hb Hoff) in Hid.
    destruct Hid as [Hid _]. exact Hid.
  - intros (i & Hi & Hne & Hrad & Hd).
    split; [exact Hr1|]. split; [exact Hoff|].
    exists i. split; [|auto].
    apply (binned_bucket_near g al thee p i Hb Hoff); auto; [lra|].
    unfold in_inflated_atom. rewrite dist2_sym.
    unfold VSQR in *. nra.
Qed.

Lemma binned_vdwAcc g al thee p :
  binned g al thee ->
  0 < g_hx g -> 0 < g_hy g -> 0 < g_hzed g ->
  0 <= g_max_radius g ->
  (forall a, a ∈ al -> 0 <= Vatom_getRadius a) ->
  off_grid thee p = false ->
  Vacc_vdwAcc thee p = 0 <-> inside_atom al p.
Proof.
  intros Hb Hx Hy Hz Hm Hrad Hoff.
  pose proof Hb as (_ & Hal & _).
  unfold Vacc_vdwAcc. rewrite Hoff, vdwAcc_loop_zero, Hal.
  unfold inside_atom. split.
  - intros (id & Hid & Hd). exists id. split; [|exact Hd].
    apply (binned_bucket_mem g al thee p id Hb Hoff) in Hid.
    destruct Hid as [Hid _]. exact Hid.
  - intros (i & Hi & Hd). exists i. split; [|exact Hd].
    assert (Hr : 0 <= Vatom_getRadius (Valist_getAtom al i)).
    { apply Hrad. unfold Valist_getAtom, zget.
      destruct (Z.ltb_spec i 0); [lia|].
      apply list_elem_of_In, nth_In.
      unfold Valist_getNumberAtoms in Hi. lia. }
    apply (binned_bucket_near g al thee p i Hb Hoff); auto; [lra|].
    unfold in_inflated_atom. unfold VSQR in *. nra.
Qed.

(** ** The box [Vacc_ctor2] computes *)

Lemma extent_step_bounds e a :
  x_min (extent_step e a) <= x_min e /\
  x_max e <= x_max (extent_step e a) /\
  y_min (extent_step e a) <= y_min e /\
  y_max e <= y_max (extent_step e a) /\
  z_min (extent_step e a) <= z_min e /\
  z_max e <= z_max (extent_step e a) /\
  rmax e <= rmax (extent_step e a) /\
  x_min (extent_step e a) <= c0 (Vatom_getPosition a)
    <= x_max (extent_step e a) /\
  y_min (extent_step e a) <= c1 (Vatom_getPosition a)
    <= y_max (extent_step e a) /\
  z_min (extent_step e a) <= c2 (Vatom_getPosition a)
    <= z_max (extent_step e a) /\
  Vatom_getRadius a <= rmax (extent_step e a).
Proof.
  unfold extent_step. cbn [x_min x_max y_min y_max z_min z_max rmax].
  repeat match goal with
         | |- context [Rlt_dec ?u ?v] => destruct (Rlt_dec u v)
         | |- context [Rgt_dec ?u ?v] => destruct (Rgt_dec u v)
         end; repeat split; lra.
Qed.

Lemma extent_fold al : forall e0,
  let e := fold_left extent_step al e0 in
  (x_min e <= x_min e0 /\ x_max e0 <= x_max e /\
   y_min e <= y_min e0 /\ y_max e0 <= y_max e /\
   z_min e <= z_min e0 /\ z_max e0 <= z_max e /\
   rmax e0 <= rmax e) /\
  forall a, a ∈ al ->
    x_min e <= c0 (Vatom_getPosition a) <= x_max e /\
    y_min e <= c1 (Vatom_getPosition a) <= y_max e /\
    z_min e <= c2 (Vatom_getPosition a) <= z_max e /\
    Vatom_getRadius a <= rmax e.
Proof.
  induction al as [|b al IH]; intros e0; simpl.
  - split; [repeat split; lra|]. intros a Ha. inversion Ha.
  - destruct (IH (extent_step e0 b)) as [M A].
    pose proof (extent_step_bounds e0 b) as S.
    split; [repeat split; lra|].
    intros a Ha. apply elem_of_cons in Ha as [->|Ha]; [|apply A; exact Ha].
    repeat split; lra.
Qed.

Lemma getAtom_elem al i :
  (0 <= i < Valist_getNumberAtoms al)%Z -> Valist_getAtom al i ∈ al.
Proof.
  intros Hi. unfold Valist_getAtom, zget.
  destruct (Z.ltb_spec i 0); [lia|].
  apply list_elem_of_In, nth_In.
  unfold Valist_getNumberAtoms in Hi. lia.
Qed.

(** With an atom of positive inflated radius in the list, the cells of
    [Vacc_ctor2] have positive sizes. *)
Lemma ctor_grid_sizes VLARGE al maxr nx0 ny0 nz0 a :
  (3 <= nx0)%Z -> (3 <= ny0)%Z -> (3 <= nz0)%Z ->
  a ∈ al -> 0 < Vatom_getRadius a + maxr ->
  let g := ctor_grid VLARGE al maxr nx0 ny0 nz0 in
  0 < g_hx g /\ 0 < g_hy g /\ 0 < g_hzed g.
Proof.
  intros Hx Hy Hz Ha Hr g.
  destruct (extent_fold al (mkExtent VLARGE VLARGE VLARGE (- VLARGE)
                              (- VLARGE) (- VLARGE) (-1))) as [_ A].
  specialize (A a Ha). fold (find_extent VLARGE al) in A.
  destruct A as (Ax & Ay & Az & Ar).
  unfold g, ctor_grid. cbn [g_hx g_hy g_hzed].
  assert (Nx : 0 < / IZR (nx0 - 1))
    by (apply Rinv_0_lt_compat, IZR_lt; lia).
  assert (Ny : 0 < / IZR (ny0 - 1))
    by (apply Rinv_0_lt_compat, IZR_lt; lia).
  assert (Nz : 0 < / IZR (nz0 - 1))
    by (apply Rinv_0_lt_compat, IZR_lt; lia).
  repeat split; unfold Rdiv; apply Rmult_lt_0_compat; lra.
Qed.

Lemma int_of_double_neg y : (int_of_double y < 0)%Z -> y <= -1.
Proof.
  unfold int_of_double. destruct (Rlt_dec y 0) as [Hy|Hy]; intros H.
  - pose proof (Zceil_bound y) as [_ B].
    assert (IZR (Zceil y) <= IZR (-1)) by (apply IZR_le; lia).
    simpl in *. lra.
  - assert (0 <= Zfloor y)%Z by (apply Zfloor_lub; simpl; lra). lia.
Qed.

Lemma int_of_double_large y (m : Z) :
  (0 < m)%Z -> (int_of_double y >= m)%Z -> IZR m <= y.
Proof.
  unfold int_of_double. destruct (Rlt_dec y 0) as [Hy|Hy]; intros Hm H.
  - pose proof (Zceil_bound y) as [B _].
    assert (IZR m <= IZR (Zceil y)) by (apply IZR_le; lia).
    assert (IZR 1 <= IZR m) by (apply IZR_le; lia).
    simpl in *. lra.
  - pose proof (Zfloor_bound y) as [B _].
    assert (IZR m <= IZR (Zfloor y)) by (apply IZR_le; lia). lra.
Qed.

(** One axis: a coordinate whose cell index is outside [0, nn) is
    farther than [rtot] from every atom. *)
Lemma axis_off_grid lo_min lo_max big (nn : Z) u a rtot :
  (3 <= nn)%Z ->
  0 < rtot -> rtot <= big ->
  lo_min <= a <= lo_max ->
  let h := (lo_max - lo_min + 2.84 * big) / IZR (nn - 1) in
  let lo := lo_min - 1.42 * big in
  (int_of_double ((u - lo) / h) < 0 \/
   int_of_double ((u - lo) / h) >= nn)%Z ->
  VSQR rtot < VSQR (u - a).
Proof.
  intros Hn Hr Hb Ha h lo Hoff.
  assert (Hn1 : 2 <= IZR (nn - 1)) by (apply IZR_le; lia).
  assert (Hh : 0 < h).
  { unfold h, Rdiv. apply Rmult_lt_0_compat; [lra|].
    apply Rinv_0_lt_compat. lra. }
  assert (Hspan : h * IZR (nn - 1) = lo_max - lo_min + 2.84 * big).
  { unfold h. field. lra. }
  assert (Hy : (u - lo) / h * h = u - lo).
  { unfold Rdiv. rewrite Rmult_assoc, Rinv_l by lra. lra. }
  destruct Hoff as [H|H].
  - apply int_of_double_neg in H.
    assert (Hle : u - lo <= - h) by nra.
    assert (Hfar : rtot < a - u) by (unfold lo in *; lra).
    unfold VSQR. nra.
  - apply int_of_double_large in H; [|lia].
    assert (Hnn : IZR nn = IZR (nn - 1) + 1)
      by (rewrite minus_IZR; lra).
    assert (Hle : h * IZR nn <= u - lo) by nra.
    assert (Hexp : h * IZR nn = lo_max - lo_min + 2.84 * big + h).
    { rewrite Hnn, Rmult_plus_distr_l, Hspan. lra. }
    assert (Hfar : rtot < u - a) by (unfold lo in *; lra).
    unfold VSQR. nra.
Qed.

(** Off the grid of [Vacc_ctor2], a point is outside the closed inflated
    ball of every atom. *)
Lemma ctor2_off_grid_far VLARGE al maxr nx0 ny0 nz0 thee p i :
  binned (ctor_grid VLARGE al maxr nx0 ny0 nz0) al thee ->
  off_grid thee p = true ->
  (0 <= i < Valist_getNumberAtoms al)%Z ->
  0 < Vatom_getRadius (Valist_getAtom al i) + maxr ->
  ~ in_inflated_atom (ctor_grid VLARGE al maxr nx0 ny0 nz0)
      (Valist_getAtom al i) p.
Proof.
  intros Hb Hoff Hi Hr Hin.
  destruct Hb as (Hdim & _ & _ & Hnx & Hny & Hnz & Hhx & Hhy & Hhz & Hlo & _).
  cbn [ctor_grid g_nx g_ny g_nz g_hx g_hy g_hzed g_lower] in *.
  destruct (extent_fold al (mkExtent VLARGE VLARGE VLARGE (- VLARGE)
                              (- VLARGE) (- VLARGE) (-1))) as [_ A].
  specialize (A _ (getAtom_elem al i Hi)).
  fold (find_extent VLARGE al) in A.
  set (e := find_extent VLARGE al) in *.
  set (a := Valist_getAtom al i) in *.
  destruct A as (Ax & Ay & Az & Ar).
  unfold in_inflated_atom, dist2 in Hin.
  change (g_max_radius (ctor_grid VLARGE al maxr nx0 ny0 nz0))
    with maxr in Hin.
  assert (Hs0 := VSQR_nonneg (c0 p - c0 (Vatom_getPosition a))).
  assert (Hs1 := VSQR_nonneg (c1 p - c1 (Vatom_getPosition a))).
  assert (Hs2 := VSQR_nonneg (c2 p - c2 (Vatom_getPosition a))).
  apply off_grid_true in Hoff.
  unfold centeri, centerj, centerk in Hoff.
  rewrite Hhx, Hhy, Hhz, Hlo, Hnx, Hny, Hnz in Hoff.
  unfold c0 at 2, c1 at 2, c2 at 2 in Hoff. cbn [fst snd] in Hoff.
  assert (Hoff' :
    (int_of_double ((c0 p - (x_min e - 1.42 * (rmax e + maxr)))
       / ((x_max e - x_min e + 2.84 * (rmax e + maxr)) / IZR (nx0 - 1)))
       < 0 \/
     int_of_double ((c0 p - (x_min e - 1.42 * (rmax e + maxr)))
       / ((x_max e - x_min e + 2.84 * (rmax e + maxr)) / IZR (nx0 - 1)))
       >= nx0)%Z \/
    (int_of_double ((c1 p - (y_min e - 1.42 * (rmax e + maxr)))
       / ((y_max e - y_min e + 2.84 * (rmax e + maxr)) / IZR (ny0 - 1)))
       < 0 \/
     int_of_double ((c1 p - (y_min e - 1.42 * (rmax e + maxr)))
       / ((y_max e - y_min e + 2.84 * (rmax e + maxr)) / IZR (ny0 - 1)))
       >= ny0)%Z \/
    (int_of_double ((c2 p - (z_min e - 1.42 * (rmax e + maxr)))
       / ((z_max e - z_min e + 2.84 * (rmax e + maxr)) / IZR (nz0 - 1)))
       < 0 \/
     int_of_double ((c2 p - (z_min e - 1.42 * (rmax e + maxr)))
       / ((z_max e - z_min e + 2.84 * (rmax e + maxr)) / IZR (nz0 - 1)))
       >= nz0)%Z) by tauto.
  clear Hoff.
  destruct Hoff' as [H|[H|H]].
  - pose proof (axis_off_grid (x_min e) (x_max e) (rmax e + maxr) nx0
                  (c0 p) (c0 (Vatom_getPosition a))
                  (Vatom_getRadius a + maxr)
                  ltac:(lia) Hr ltac:(lra) Ax H). lra.
  - pose proof (axis_off_grid (y_min e) (y_max e) (rmax e + maxr) ny0
                  (c1 p) (c1 (Vatom_getPosition a))
                  (Vatom_getRadius a + maxr)
                  ltac:(lia) Hr ltac:(lra) Ay H). lra.
  - pose proof (axis_off_grid (z_min e) (z_max e) (rmax e + maxr) nz0
                  (c2 p) (c2 (Vatom_getPosition a))
                  (Vatom_getRadius a + maxr)
                  ltac:(lia) Hr ltac:(lra) Az H). lra.
Qed.

(** ** The queries of a [Vacc_ctor2] object against the whole atom list *)

Lemma VSQR_le a b : 0 <= a -> a <= b -> VSQR a <= VSQR b.
Proof. intros Ha Hab. unfold VSQR. nra. Qed.

Lemma bucket_in_range g al thee p id :
  binned g al thee ->
  off_grid thee p = false ->
  id ∈ bucket thee (center_ui thee p) ->
  (0 <= id < Valist_getNumberAtoms al)%Z.
Proof.
  intros Hb Hoff Hid.
  apply (binned_bucket_mem g al thee p id Hb Hoff) in Hid. tauto.
Qed.

(** The cell lookup of a [Vacc_ctor2] object loses no atom. *)
Lemma ctor2_ivdwAccExclus_covered
    VLARGE al maxr nx0 ny0 nz0 nsph thee p r skip :
  Vacc_ctor2 VLARGE al maxr nx0 ny0 nz0 nsph = Some thee ->
  0 <= r <= maxr ->
  ivdwAccExclus thee p r skip = Ok 0%Z <-> covered_by al p r skip.
Proof.
  intros Hc Hr.
  pose proof (Vacc_ctor2_binned _ _ _ _ _ _ _ _ Hc) as Hb.
  set (g := ctor_grid VLARGE al maxr nx0 ny0 nz0) in *.
  assert (Hal : alist thee = al) by (destruct Hb as (_ & H & _); exact H).
  assert (Hmr : max_radius thee = maxr)
    by (destruct Hb as (_ & _ & H & _); exact H).
  assert (Hdim : (3 <= nx0 /\ 3 <= ny0 /\ 3 <= nz0)%Z)
    by (destruct Hb as (H & _); exact H).
  split.
  - intros H. apply ivdwAccExclus_Ok0 in H as (_ & Hoff & Hl).
    apply ivdwAccExclus_loop_zero in Hl as (id & Hid & Hne & Hrad & Hd).
    rewrite Hal in Hrad, Hd.
    exists id. repeat split; try assumption;
      apply (bucket_in_range g al thee p id Hb Hoff Hid).
  - intros (i & Hi & Hne & Hrad & Hd).
    assert (Hpos : 0 < Vatom_getRadius (Valist_getAtom al i) + maxr)
      by lra.
    destruct (ctor_grid_sizes VLARGE al maxr nx0 ny0 nz0
                (Valist_getAtom al i) ltac:(lia) ltac:(lia) ltac:(lia)
                (getAtom_elem al i Hi) Hpos) as (Hx & Hy & Hz).
    assert (Hoff : off_grid thee p = false).
    { destruct (off_grid thee p) eqn:E; [|reflexivity]. exfalso.
      apply (ctor2_off_grid_far VLARGE al maxr nx0 ny0 nz0 thee p i
               Hb E Hi Hpos).
      unfold in_inflated_atom. rewrite dist2_sym.
      change (g_max_radius (ctor_grid VLARGE al maxr nx0 ny0 nz0))
        with maxr.
      pose proof (VSQR_le (Vatom_getRadius (Valist_getAtom al i) + r)
                    (Vatom_getRadius (Valist_getAtom al i) + maxr)
                    ltac:(lra) ltac:(lra)).
      lra. }
    apply (binned_ivdwAccExclus g al thee p r skip Hb Hx Hy Hz Hr Hoff).
    exists i. tauto.
Qed.

(** X1.  For an object built by [Vacc_ctor2] and a probe radius between
    0 and the radius the object was built for, [ivdwAccExclus] returns 0
    exactly when some atom of the whole list, other than the excluded
    one and of positive radius, has the point strictly inside its
    inflated sphere: the cell lookup loses no atom, on or off the grid. *)
Theorem Vacc_ctor2_ivdwAccExclus_all_atoms
    VLARGE al maxr nx0 ny0 nz0 nsph thee p r skip :
  Vacc_ctor2 VLARGE al maxr nx0 ny0 nz0 nsph = Some thee ->
  0 <= r <= maxr ->
  ivdwAccExclus thee p r skip = Ok 0%Z <-> covered_by al p r skip.
Proof.
  intros Hc Hr.
  apply ctor2_ivdwAccExclus_covered with (1 := Hc). exact Hr.
Qed.

(** X2.  For an object built by [Vacc_ctor2] over atoms of non-negative
    radius, [Vacc_vdwAcc] returns 0 exactly when the point is strictly
    inside the sphere of some atom of the whole list. *)
Theorem Vacc_ctor2_vdwAcc_all_atoms
    VLARGE al maxr nx0 ny0 nz0 nsph thee p :
  Vacc_ctor2 VLARGE al maxr nx0 ny0 nz0 nsph = Some thee ->
  0 <= maxr ->
  (forall a, a ∈ al -> 0 <= Vatom_getRadius a) ->
  Vacc_vdwAcc thee p = 0 <-> inside_atom al p.
Proof.
  intros Hc Hm Hrad.
  pose proof (Vacc_ctor2_binned _ _ _ _ _ _ _ _ Hc) as Hb.
  set (g := ctor_grid VLARGE al maxr nx0 ny0 nz0) in *.
  assert (Hal : alist thee = al) by (destruct Hb as (_ & H & _); exact H).
  assert (Hdim : (3 <= nx0 /\ 3 <= ny0 /\ 3 <= nz0)%Z)
    by (destruct Hb as (H & _); exact H).
  split.
  - unfold Vacc_vdwAcc. destruct (off_grid thee p) eqn:Hoff; [lra|].
    intros Hl. apply vdwAcc_loop_zero in Hl as (id & Hid & Hd).
    rewrite Hal in Hd. exists id. split; [|exact Hd].
    apply (bucket_in_range g al thee p id Hb Hoff Hid).
  - intros (i & Hi & Hd).
    pose proof (Hrad _ (getAtom_elem al i Hi)) as H0.
    assert (Hne : Vatom_getRadius (Valist_getAtom al i) <> 0).
    { intros E. rewrite E in Hd. unfold VSQR at 1 in Hd.
      pose proof (dist2_nonneg p (Vatom_getPosition (Valist_getAtom al i))).
      lra. }
    assert (Hpos : 0 < Vatom_getRadius (Valist_getAtom al i) + maxr)
      by lra.
    destruct (ctor_grid_sizes VLARGE al maxr nx0 ny0 nz0
                (Valist_getAtom al i) ltac:(lia) ltac:(lia) ltac:(lia)
                (getAtom_elem al i Hi) Hpos) as (Hx & Hy & Hz).
    assert (Hoff : off_grid thee p = false).
    { destruct (off_grid thee p) eqn:E; [|reflexivity]. exfalso.
      apply (ctor2_off_grid_far VLARGE al maxr nx0 ny0 nz0 thee p i
               Hb E Hi Hpos).
      unfold in_inflated_atom.
      change (g_max_radius (ctor_grid VLARGE al maxr nx0 ny0 nz0))
        with maxr.
      pose proof (VSQR_le (Vatom_getRadius (Valist_getAtom al i))
                    (Vatom_getRadius (Valist_getAtom al i) + maxr)
                    ltac:(lra) ltac:(lra)).
      lra. }
    apply (binned_vdwAcc g al thee p Hb Hx Hy Hz Hm Hrad Hoff).
    exists i. tauto.
Qed.

Lemma Vacc_ctor2_ivdwAccExclus_all_atoms_witness :
  exists thee,
    Vacc_ctor2 1000000000 [mkVatom (0, 0, 0) 1] 1 3 3 3 4 = Some thee /\
    (ivdwAccExclus thee (1.5, 0, 0) 1 (-1) = Ok 0%Z
     <-> covered_by [mkVatom (0, 0, 0) 1] (1.5, 0, 0) 1 (-1)).
Proof.
  destruct (Vacc_ctor2_example 1000000000 [mkVatom (0, 0, 0) 1]
              1 ltac:(discriminate)) as [thee Hc].
  exists thee. split; [exact Hc|].
  exact (Vacc_ctor2_ivdwAccExclus_all_atoms 1000000000
           [mkVatom (0, 0, 0) 1] 1 3 3 3 4 thee (1.5, 0, 0) 1 (-1) Hc
           ltac:(lra)).
Defined.

Lemma one_atom_radii a :
  a ∈ [mkVatom (0, 0, 0) 1] -> 0 <= Vatom_getRadius a.
Proof.
  intros H. apply list_elem_of_singleton in H. subst a. simpl. lra.
Qed.

Lemma Vacc_ctor2_vdwAcc_all_atoms_witness :
  exists thee,
    Vacc_ctor2 1000000000 [mkVatom (0, 0, 0) 1] 1 3 3 3 4 = Some thee /\
    (Vacc_vdwAcc thee (0.5, 0, 0) = 0
     <-> inside_atom [mkVatom (0, 0, 0) 1] (0.5, 0, 0)).
Proof.
  destruct (Vacc_ctor2_example 1000000000 [mkVatom (0, 0, 0) 1]
              1 ltac:(discriminate)) as [thee Hc].
  exists thee. split; [exact Hc|].
  exact (Vacc_ctor2_vdwAcc_all_atoms 1000000000
           [mkVatom (0, 0, 0) 1] 1 3 3 3 4 thee (0.5, 0, 0) Hc
           ltac:(lra) one_atom_radii).
Defined.

(** ** [Vacc_ctor2Focus] *)

Lemma find_rmax_fold al : forall r0,
  let r := fold_left
             (fun rmax atom =>
                if Rgt_dec (Vatom_getRadius atom) rmax
                then Vatom_getRadius atom else rmax) al r0 in
  r0 <= r /\ forall a, a ∈ al -> Vatom_getRadius a <= r.
Proof.
  induction al as [|b al IH]; intros r0; simpl.
  - split; [lra|]. intros a Ha. inversion Ha.
  - destruct (Rgt_dec (Vatom_getRadius b) r0) as [Hb|Hb].
    + destruct (IH (Vatom_getRadius b)) as [M A].
      split; [lra|]. intros a Ha.
      apply elem_of_cons in Ha as [->|Ha]; [exact M|apply A; exact Ha].
    + destruct (IH r0) as [M A].
      split; [lra|]. intros a Ha.
      apply elem_of_cons in Ha as [->|Ha]; [lra|apply A; exact Ha].
Qed.

Lemma find_rmax_ge al a : a ∈ al -> Vatom_getRadius a <= find_rmax al.
Proof. intros Ha. apply (find_rmax_fold al (-1)). exact Ha. Qed.

(** The largest radius [Vacc_ctor2Focus] finds is the one [Vacc_ctor2]
    finds together with the box. *)
Lemma find_rmax_extent al : forall e0,
  rmax (fold_left extent_step al e0)
  = fold_left
      (fun rmax atom =>
         if Rgt_dec (Vatom_getRadius atom) rmax
         then Vatom_getRadius atom else rmax) al (rmax e0).
Proof.
  induction al as [|b al IH]; intros e0; simpl; [reflexivity|].
  rewrite IH. reflexivity.
Qed.

Lemma focus_grid_sizes al maxr nx0 ny0 nz0 xmin ymin zmin xmax ymax zmax a :
  (3 <= nx0)%Z -> (3 <= ny0)%Z -> (3 <= nz0)%Z ->
  xmin <= xmax -> ymin <= ymax -> zmin <= zmax ->
  a ∈ al -> 0 < Vatom_getRadius a + maxr ->
  let g := focus_grid al maxr nx0 ny0 nz0 xmin ymin zmin xmax ymax zmax in
  0 < g_hx g /\ 0 < g_hy g /\ 0 < g_hzed g.
Proof.
  intros Hx Hy Hz Bx By Bz Ha Hr g.
  pose proof (find_rmax_ge al a Ha) as Hm.
  unfold g, focus_grid. cbn [g_hx g_hy g_hzed].
  assert (Nx : 0 < / IZR (nx0 - 1))
    by (apply Rinv_0_lt_compat, IZR_lt; lia).
  assert (Ny : 0 < / IZR (ny0 - 1))
    by (apply Rinv_0_lt_compat, IZR_lt; lia).
  assert (Nz : 0 < / IZR (nz0 - 1))
    by (apply Rinv_0_lt_compat, IZR_lt; lia).
  repeat split; unfold Rdiv; apply Rmult_lt_0_compat; lra.
Qed.

(** X3.  Given the box [Vacc_ctor2] would compute, [Vacc_ctor2Focus]
    builds the same object as [Vacc_ctor2]. *)
Theorem Vacc_ctor2Focus_on_extent VLARGE al maxr nx0 ny0 nz0 nsph :
  let e := find_extent VLARGE al in
  Vacc_ctor2Focus al maxr nx0 ny0 nz0 nsph
    (x_min e) (y_min e) (z_min e) (x_max e) (y_max e) (z_max e)
  = Vacc_ctor2 VLARGE al maxr nx0 ny0 nz0 nsph.
Proof.
  intros e. unfold Vacc_ctor2Focus, Vacc_ctor2.
  assert (E : focus_grid al maxr nx0 ny0 nz0
                (x_min e) (y_min e) (z_min e) (x_max e) (y_max e) (z_max e)
              = ctor_grid VLARGE al maxr nx0 ny0 nz0).
  { unfold focus_grid, ctor_grid. fold e.
    assert (R0 : find_rmax al = rmax e).
    { unfold e, find_extent, find_rmax. rewrite find_rmax_extent.
      reflexivity. }
    rewrite R0. reflexivity. }
  cbv zeta. rewrite E. reflexivity.
Qed.



Lemma Vacc_ctor2Focus_succeeds al maxr nx0 ny0 nz0 nsph
    xmin ymin zmin xmax ymax zmax :
  (3 <= nx0)%Z -> (3 <= ny0)%Z -> (3 <= nz0)%Z ->
  (nx0 * ny0 * nz0 <= INT_MAX)%Z -> (3 <= nsph)%Z -> al <> [] ->
  exists thee,
    Vacc_ctor2Focus al maxr nx0 ny0 nz0 nsph xmin ymin zmin xmax ymax zmax
    = Some thee.
Proof.
  intros Hx Hy Hz Hn Hs Ha. unfold Vacc_ctor2Focus. cbv zeta.
  destruct (Z.ltb_spec nx0 3); [lia|].
  destruct (Z.ltb_spec ny0 3); [lia|].
  destruct (Z.ltb_spec nz0 3); [lia|].
  cbn [orb].
  destruct (Z.ltb_spec INT_MAX (nx0 * ny0 * nz0)); [lia|].
  rewrite (proj2 (Vacc_sphere_alloc_iff nsph) Hs). cbn [negb].
  unfold Vmem_malloc_ok.
  destruct (Z.ltb_spec 0 (nx0 * ny0 * nz0)); [|nia].
  destruct (Z.ltb_spec 0 (Valist_getNumberAtoms al));
    [|destruct al; [contradiction|
                    unfold Valist_getNumberAtoms in *; simpl in *; lia]].
  cbn [negb].
  destruct (Vacc_sphere nsph) as [sph nsph'].
  destruct (fill_pass _ _ _) as [na ids].
  eexists. reflexivity.
Qed.

Lemma Vacc_ctor2Focus_example al maxr xmin ymin zmin xmax ymax zmax :
  al <> [] ->
  exists thee,
    Vacc_ctor2Focus al maxr 3 3 3 4 xmin ymin zmin xmax ymax zmax
    = Some thee.
Proof.
  intros Ha. apply Vacc_ctor2Focus_succeeds; try lia; [|exact Ha].
  unfold INT_MAX. lia.
Qed.

(** *** One atom of radius 1 at the origin, focused on the box of that
    atom *)

Lemma one_atom_focus_grid :
  focus_grid [mkVatom (0, 0, 0) 1] 1 3 3 3 0 0 0 0 0 0
  = mkGrid 3 3 3 2.84 2.84 2.84 (-2.84, -2.84, -2.84) 1.
Proof.
  unfold focus_grid, find_rmax. simpl. rdec.
  change (IZR (3 - 1)) with 2.
  f_equal; try lra.
  repeat f_equal; lra.
Qed.

Lemma one_atom_focus_near_point nsph thee :
  Vacc_ctor2Focus [mkVatom (0, 0, 0) 1] 1 3 3 3 nsph 0 0 0 0 0 0
  = Some thee ->
  off_grid thee (1.5, 0, 0) = false.
Proof.
  intros Hc.
  pose proof (Vacc_ctor2Focus_binned _ _ _ _ _ _ _ _ _ _ _ _ _ Hc) as Hb.
  rewrite one_atom_focus_grid in Hb.
  destruct Hb as (_ & _ & _ & Hnx & Hny & Hnz & Hhx & Hhy & Hhz & Hlo & _).
  cbn [g_nx g_ny g_nz g_hx g_hy g_hzed g_lower] in *.
  assert (Ci : centeri thee (1.5, 0, 0) = 1%Z).
  { unfold centeri. rewrite Hlo, Hhx. unfold c0. simpl.
    apply int_of_double_eq; simpl; lra. }
  assert (Cj : centerj thee (1.5, 0, 0) = 1%Z).
  { unfold centerj. rewrite Hlo, Hhy. unfold c1. simpl.
    apply int_of_double_eq; simpl; lra. }
  assert (Ck : centerk thee (1.5, 0, 0) = 1%Z).
  { unfold centerk. rewrite Hlo, Hhz. unfold c2. simpl.
    apply int_of_double_eq; simpl; lra. }
  unfold off_grid. rewrite Ci, Cj, Ck, Hnx, Hny, Hnz. reflexivity.
Qed.



(** ** [Vacc_molAcc] and [Vacc_fastMolAcc] against the other predicates *)

Lemma fastMolAcc_loop_ok thee center radius pts :
  radius <= max_radius thee ->
  fastMolAcc_loop thee center radius pts = Ok 0 \/
  fastMolAcc_loop thee center radius pts = Ok 1.
Proof.
  intros Hr. induction pts as [|s pts IH]; simpl; [left; reflexivity|].
  destruct (Vacc_ivdwAcc_ok thee (probe_point radius s center) radius Hr)
    as [E|E]; rewrite E; simpl.
  - destruct (Req_dec_T 0 0); [exact IH|lra].
  - destruct (Req_dec_T 1 0); [lra|right; reflexivity].
Qed.

Lemma fastMolAcc_loop_fail thee center radius pts :
  radius > max_radius thee ->
  fastMolAcc_loop thee center radius pts
  = match pts with [] => Ok 0 | _ :: _ => AssertFail end.
Proof.
  intros Hr. destruct pts as [|s pts]; simpl; [reflexivity|].
  rewrite (proj2 (Vacc_ivdwAcc_fail_iff thee _ radius) Hr). reflexivity.
Qed.

Lemma sphere_points_nil thee :
  sphere_points thee = [] <-> (nsphere thee <= 0)%Z.
Proof.
  unfold sphere_points. split.
  - intros H. apply (f_equal length) in H.
    rewrite length_map, length_seqZ in H. simpl in H. lia.
  - intros H. unfold seqZ. replace (Z.to_nat (nsphere thee)) with 0%nat by lia.
    reflexivity.
Qed.

Lemma Vacc_molAcc_ok thee center radius :
  radius <= max_radius thee ->
  Vacc_molAcc thee center radius = Ok 0 \/
  Vacc_molAcc thee center radius = Ok 1.
Proof.
  intros Hr. unfold Vacc_molAcc.
  destruct (Vacc_ivdwAcc_ok thee center radius Hr) as [E|E];
    rewrite E; simpl.
  - destruct (Req_dec_T 0 1); [lra|].
    destruct (Req_dec_T _ 0); [left; reflexivity|].
    rewrite molAcc_fastMolAcc_loop.
    apply fastMolAcc_loop_ok. exact Hr.
  - destruct (Req_dec_T 1 1); [right; reflexivity|lra].
Qed.

Lemma Vacc_molAcc_fail_iff thee center radius :
  Vacc_molAcc thee center radius = AssertFail <-> radius > max_radius thee.
Proof.
  split.
  - intros H. destruct (Rgt_dec radius (max_radius thee)) as [G|G];
      [exact G|].
    destruct (Vacc_molAcc_ok thee center radius) as [E|E]; [lra| |];
      rewrite E in H; discriminate.
  - intros Hr. unfold Vacc_molAcc.
    rewrite (proj2 (Vacc_ivdwAcc_fail_iff thee _ radius) Hr).
    reflexivity.
Qed.

(** X6.  [Vacc_molAcc] stops on the failing [VASSERT] exactly when the
    probe radius is greater than [max_radius].  [Vacc_fastMolAcc], which
    only probes the quadrature points, stops exactly when in addition
    there is a quadrature point; with none it returns 0.0 for every
    radius.  Below the limit both return 0.0 or 1.0. *)
Theorem molAcc_fails_iff thee center radius :
  (Vacc_molAcc thee center radius = AssertFail
   <-> radius > max_radius thee) /\
  (Vacc_fastMolAcc thee center radius = AssertFail
   <-> radius > max_radius thee /\ (0 < nsphere thee)%Z) /\
  ((nsphere thee <= 0)%Z -> Vacc_fastMolAcc thee center radius = Ok 0) /\
  (radius <= max_radius thee ->
   (Vacc_molAcc thee center radius = Ok 0 \/
    Vacc_molAcc thee center radius = Ok 1) /\
   (Vacc_fastMolAcc thee center radius = Ok 0 \/
    Vacc_fastMolAcc thee center radius = Ok 1)).
Proof.
  assert (Hmol : radius <= max_radius thee ->
                 Vacc_molAcc thee center radius = Ok 0 \/
                 Vacc_molAcc thee center radius = Ok 1).
  { intros Hr. unfold Vacc_molAcc.
    destruct (Vacc_ivdwAcc_ok thee center radius Hr) as [E|E];
      rewrite E; simpl.
    - destruct (Req_dec_T 0 1); [lra|].
      destruct (Req_dec_T _ 0); [left; reflexivity|].
      rewrite molAcc_fastMolAcc_loop.
      apply fastMolAcc_loop_ok. exact Hr.
    - destruct (Req_dec_T 1 1); [right; reflexivity|lra]. }
  split; [|split; [|split]].
  - split.
    + intros H. destruct (Rgt_dec radius (max_radius thee)) as [G|G];
        [exact G|].
      destruct Hmol as [E|E]; [lra| |]; rewrite E in H; discriminate.
    + intros Hr. unfold Vacc_molAcc.
      rewrite (proj2 (Vacc_ivdwAcc_fail_iff thee _ radius) Hr).
      reflexivity.
  - unfold Vacc_fastMolAcc. split.
    + intros H. destruct (Rgt_dec radius (max_radius thee)) as [G|G].
      * split; [exact G|]. rewrite fastMolAcc_loop_fail in H by exact G.
        destruct (sphere_points thee) eqn:E; [discriminate|].
        destruct (Z.ltb_spec 0 (nsphere thee)) as [L|L]; [exact L|].
        apply sphere_points_nil in L. congruence.
      * destruct (fastMolAcc_loop_ok thee center radius
                    (sphere_points thee) ltac:(lra)) as [E|E];
          rewrite E in H; discriminate.
    + intros [G L]. rewrite fastMolAcc_loop_fail by exact G.
      destruct (sphere_points thee) eqn:E; [|reflexivity].
      apply sphere_points_nil in E. lia.
  - intros L. unfold Vacc_fastMolAcc.
    rewrite (proj2 (sphere_points_nil thee) L). reflexivity.
  - intros Hr. split; [apply Hmol; exact Hr|].
    apply fastMolAcc_loop_ok. exact Hr.
Qed.

Lemma getAtom_radius_nonneg al id :
  (forall a, a ∈ al -> 0 <= Vatom_getRadius a) ->
  0 <= Vatom_getRadius (Valist_getAtom al id).
Proof.
  intros H. unfold Valist_getAtom, zget.
  destruct (Z.ltb_spec id 0); [simpl; lra|].
  destruct (nth_in_or_default (Z.to_nat id) al Vatom_null) as [Hin|E].
  - apply H, list_elem_of_In. exact Hin.
  - rewrite E. simpl. lra.
Qed.

(** Inside an atom is inside the atom inflated by a probe. *)
Lemma vdwAcc_zero_ivdwAcc_zero thee center radius :
  (forall a, a ∈ alist thee -> 0 <= Vatom_getRadius a) ->
  0 <= radius <= max_radius thee ->
  Vacc_vdwAcc thee center = 0 ->
  Vacc_ivdwAcc thee center radius = Ok 0.
Proof.
  intros Hrad Hr Hv. unfold Vacc_vdwAcc in Hv.
  destruct (off_grid thee center) eqn:Hoff; [lra|].
  apply vdwAcc_loop_zero in Hv as (id & Hid & Hd).
  pose proof (getAtom_radius_nonneg (alist thee) id Hrad) as H0.
  pose proof (dist2_nonneg center
                (Vatom_getPosition (Valist_getAtom (alist thee) id))) as Hn.
  assert (Hpos : Vatom_getRadius (Valist_getAtom (alist thee) id) > 0).
  { destruct (Rgt_dec (Vatom_getRadius (Valist_getAtom (alist thee) id)) 0)
      as [G|G]; [exact G|].
    assert (E : Vatom_getRadius (Valist_getAtom (alist thee) id) = 0)
      by lra.
    rewrite E in Hd. unfold VSQR at 1 in Hd. lra. }
  apply Vacc_ivdwAcc_Ok0, ivdwAccExclus_Ok0.
  split; [lra|]. split; [exact Hoff|].
  apply ivdwAccExclus_loop_zero. exists id.
  split; [exact Hid|]. split.
  - intros ->. unfold Valist_getAtom, zget in Hpos. simpl in Hpos. lra.
  - split; [exact Hpos|]. rewrite dist2_sym.
    pose proof (VSQR_le (Vatom_getRadius (Valist_getAtom (alist thee) id))
                  (Vatom_getRadius (Valist_getAtom (alist thee) id)
                   + radius) ltac:(lra) ltac:(lra)).
    lra.
Qed.

(** X7.  With atoms of non-negative radius and a probe radius between 0
    and [max_radius], the three predicates are ordered at every point:
    [Vacc_ivdwAcc <= Vacc_molAcc <= Vacc_vdwAcc], each being 0.0 or
    1.0. *)
Theorem molAcc_between thee center radius :
  (forall a, a ∈ alist thee -> 0 <= Vatom_getRadius a) ->
  0 <= radius <= max_radius thee ->
  exists i m,
    Vacc_ivdwAcc thee center radius = Ok i /\
    Vacc_molAcc thee center radius = Ok m /\
    (i = 0 \/ i = 1) /\ (m = 0 \/ m = 1) /\
    (Vacc_vdwAcc thee center = 0 \/ Vacc_vdwAcc thee center = 1) /\
    i <= m <= Vacc_vdwAcc thee center.
Proof.
  intros Hrad Hr.
  assert (Hv : Vacc_vdwAcc thee center = 0 \/ Vacc_vdwAcc thee center = 1).
  { unfold Vacc_vdwAcc. destruct (off_grid thee center);
      [right; reflexivity|apply vdwAcc_loop_01]. }
  destruct Hv as [Hv|Hv].
  - pose proof (vdwAcc_zero_ivdwAcc_zero thee center radius Hrad Hr Hv)
      as Hi.
    exists 0, 0. split; [exact Hi|]. split.
    + unfold Vacc_molAcc. rewrite Hi. simpl.
      destruct (Req_dec_T 0 1); [lra|].
      destruct (Req_dec_T _ 0); [reflexivity|contradiction].
    + rewrite Hv. repeat split; auto; lra.
  - destruct (Vacc_ivdwAcc_ok thee center radius ltac:(lra)) as [Hi|Hi].
    + assert (Hm : Vacc_molAcc thee center radius = Ok 0 \/
                   Vacc_molAcc thee center radius = Ok 1).
      { unfold Vacc_molAcc. rewrite Hi. simpl.
        destruct (Req_dec_T 0 1); [lra|].
        destruct (Req_dec_T _ 0); [left; reflexivity|].
        rewrite molAcc_fastMolAcc_loop.
        apply fastMolAcc_loop_ok. lra. }
      destruct Hm as [Hm|Hm].
      * exists 0, 0. rewrite Hv. repeat split; auto; lra.
      * exists 0, 1. rewrite Hv. repeat split; auto; lra.
    + exists 1, 1. split; [exact Hi|]. split.
      * unfold Vacc_molAcc. rewrite Hi. simpl.
        destruct (Req_dec_T 1 1); [reflexivity|lra].
      * rewrite Hv. repeat split; auto; lra.
Qed.

Lemma molAcc_between_witness :
  exists thee,
    Vacc_ctor2 1000000000 [mkVatom (0, 0, 0) 1] 1 3 3 3 4 = Some thee /\
    exists i m,
      Vacc_ivdwAcc thee (1.5, 0, 0) 1 = Ok i /\
      Vacc_molAcc thee (1.5, 0, 0) 1 = Ok m /\
      (i = 0 \/ i = 1) /\ (m = 0 \/ m = 1) /\
      (Vacc_vdwAcc thee (1.5, 0, 0) = 0 \/
       Vacc_vdwAcc thee (1.5, 0, 0) = 1) /\
      i <= m <= Vacc_vdwAcc thee (1.5, 0, 0).
Proof.
  destruct (Vacc_ctor2_example 1000000000 [mkVatom (0, 0, 0) 1]
              1 ltac:(discriminate)) as [thee Hc].
  exists thee. split; [exact Hc|].
  destruct (one_atom_engine 4 thee Hc) as (Hal & Hmr & _).
  apply (molAcc_between thee (1.5, 0, 0) 1).
  - rewrite Hal. exact one_atom_radii.
  - rewrite Hmr. lra.
Defined.

(** ** [Vacc_splineAcc] of a [Vacc_ctor2] object against the whole atom
    list *)

Lemma distinct_NoDup l : forall seen,
  NoDup l -> (forall x, x ∈ l -> x ∉ seen) -> distinct seen l = l.
Proof.
  induction l as [|x l IH]; intros seen Hnd Hs; simpl; [reflexivity|].
  apply NoDup_cons in Hnd as [Hx Hnd].
  destruct (decide (x ∈ seen)) as [Hin|_].
  - exfalso. apply (Hs x); [left|exact Hin].
  - f_equal. apply IH; [exact Hnd|].
    intros y Hy Hys. apply elem_of_cons in Hys as [->|Hys].
    + contradiction.
    + apply (Hs y); [right; exact Hy|exact Hys].
Qed.

Lemma sorted_NoDup (l : list Z) : StronglySorted Z.lt l -> NoDup l.
Proof.
  induction 1 as [|x l Hs IH Hx]; [constructor|].
  apply NoDup_cons. split; [|exact IH].
  intros Hin. rewrite Forall_forall in Hx. specialize (Hx x Hin). lia.
Qed.

(** Over the indices a cell leaves out the factor is 1, so the product
    over the bucket is the product over all atoms. *)
Lemma Rprod_covering g ui (f : Z -> R) atoms : forall base,
  (forall i, (base <= i < base + Z.of_nat (length atoms))%Z ->
     ui ∉ span_cells g (atom_span g (zget Vatom_null atoms (i - base))) ->
     f i = 1) ->
  Rprod (map f (covering g ui base atoms))
  = Rprod (map f (seqZ base (Z.of_nat (length atoms)))).
Proof.
  induction atoms as [|a atoms IH]; intros base H; [reflexivity|].
  cbn [covering length].
  replace (Z.of_nat (S (length atoms)))
    with (Z.succ (Z.of_nat (length atoms))) by lia.
  rewrite seqZ_cons by lia. rewrite Z.pred_succ.
  cbn [map Rprod fold_right]. fold (Rprod (map f (seqZ (Z.succ base)
                                            (Z.of_nat (length atoms))))).
  rewrite map_app. unfold Rprod at 1. rewrite fold_right_app.
  fold (Rprod (map f (covering g ui (base + 1) atoms))).
  rewrite (IH (base + 1)%Z).
  - replace (base + 1)%Z with (Z.succ base) by lia.
    destruct (decide (ui ∈ span_cells g (atom_span g a))) as [Hin|Hout].
    + reflexivity.
    + simpl. rewrite (H base).
      * lra.
      * cbn [length]. lia.
      * rewrite Z.sub_diag. exact Hout.
  - intros i Hi Hout. apply H; [cbn [length]; lia|].
    rewrite zget_cons by lia.
    replace (i - base - 1)%Z with (i - (base + 1))%Z by lia. exact Hout.
Qed.

Lemma splineAccAtom_range thee center win infrad atomID :
  0 < win -> 0 <= Vacc_splineAccAtom thee center win infrad atomID <= 1.
Proof.
  intros Hw.
  destruct (Rgt_dec (Vatom_getRadius (Valist_getAtom (alist thee) atomID)) 1)
    as [G|G].
  - rewrite splineAccAtom_large by exact G.
    apply spline_of_dist_range. exact Hw.
  - rewrite splineAccAtom_small by lra. lra.
Qed.

(** An atom whose factor is not 1 has the point in its window. *)
Lemma splineAccAtom_not_1 thee center win infrad atomID :
  0 < win -> 0 <= infrad ->
  Vacc_splineAccAtom thee center win infrad atomID <> 1 ->
  let atom := Valist_getAtom (alist thee) atomID in
  Vatom_getRadius atom > 1 /\
  VSQRT (dist2 (Vatom_getPosition atom) center)
  < Vatom_getRadius atom + infrad + win.
Proof.
  intros Hw Hi H atom. unfold Vacc_splineAccAtom in H. fold atom in H.
  cbv zeta in H.
  destruct (Rgt_dec (Vatom_getRadius atom) 1) as [G|G];
    [|exfalso; apply H; reflexivity].
  split; [exact G|].
  destruct (Rle_dec _ _) as [L|L].
  - unfold VMAX2R in L.
    destruct (Rge_dec 0 (Vatom_getRadius atom + infrad - win)); lra.
  - destruct (Rge_dec _ _) as [G2|G2]; [exfalso; apply H; reflexivity|].
    lra.
Qed.

Lemma prod_cut_bounds VSMALL fs : forall v0,
  0 <= v0 <= 1 ->
  (forall f, f ∈ fs -> 0 <= f <= 1) ->
  let v := prod_cut VSMALL v0 fs in
  v0 * Rprod fs <= v <= v0 /\ 0 <= Rprod fs <= 1 /\
  (v = v0 * Rprod fs \/ v < VSMALL).
Proof.
  induction fs as [|f fs IH]; intros v0 Hv Hf; simpl.
  - split; [lra|]. split; [lra|]. left. lra.
  - assert (Hf0 : 0 <= f <= 1) by (apply Hf; left).
    assert (Hv1 : 0 <= v0 * f <= 1) by nra.
    destruct (IH (v0 * f) Hv1) as (B1 & B2 & B3).
    { intros x Hx. apply Hf. right. exact Hx. }
    fold (Rprod fs) in *.
    assert (Hp : 0 <= f * Rprod fs <= 1) by nra.
    destruct (Rlt_dec (v0 * f) VSMALL) as [Hlt|Hge].
    + split; [nra|]. split; [exact Hp|]. right. exact Hlt.
    + cbv zeta in B1, B3.
      split; [nra|]. split; [exact Hp|].
      destruct B3 as [E|L]; [left; rewrite E; lra|right; exact L].
Qed.

(** X8.  For an object built by [Vacc_ctor2] with at least as many
    cells as atoms (the flags array has one entry per cell and is
    indexed by atom), a window [win > 0] and [infrad >= 0] with
    [win + infrad] at most the radius the object was built for,
    [Vacc_splineAcc] returns a value [v] between the product of the
    per-atom factors over ALL atoms of the list and 1; it is that
    product unless it is below [VSMALL]. *)
Theorem Vacc_ctor2_splineAcc_all_atoms
    VSMALL VLARGE al maxr nx0 ny0 nz0 nsph thee p win infrad :
  Vacc_ctor2 VLARGE al maxr nx0 ny0 nz0 nsph = Some thee ->
  (Valist_getNumberAtoms al <= nx0 * ny0 * nz0)%Z ->
  0 < win -> 0 <= infrad -> win + infrad <= maxr ->
  let full :=
    Rprod (map (Vacc_splineAccAtom thee p win infrad)
               (seqZ 0 (Valist_getNumberAtoms al))) in
  exists v flags,
    Vacc_splineAcc VSMALL thee p win infrad = Ok (v, flags) /\
    0 <= full /\ full <= v /\ v <= 1 /\ (v = full \/ v < VSMALL).
Proof.
  intros Hc Hn Hw Hi Hm full.
  pose proof (Vacc_ctor2_binned _ _ _ _ _ _ _ _ Hc) as Hb.
  set (g := ctor_grid VLARGE al maxr nx0 ny0 nz0) in *.
  assert (Hal : alist thee = al) by (destruct Hb as (_ & H & _); exact H).
  assert (Hmr : max_radius thee = maxr)
    by (destruct Hb as (_ & _ & H & _); exact H).
  assert (Hdim : (3 <= nx0 /\ 3 <= ny0 /\ 3 <= nz0)%Z)
    by (destruct Hb as (H & _); exact H).
  assert (Hfl : length (atomFlags thee) = Z.to_nat (nx0 * ny0 * nz0)).
  { destruct Hb as (_ & _ & _ & _ & _ & _ & _ & _ & _ & _ & H & _).
    rewrite H, length_replicate. reflexivity. }
  (* an atom whose factor is not 1 is in range and has the point in its
     inflated ball *)
  assert (Hnear : forall i,
            (0 <= i < Valist_getNumberAtoms al)%Z ->
            Vacc_splineAccAtom thee p win infrad i <> 1 ->
            0 < Vatom_getRadius (Valist_getAtom al i) + maxr /\
            in_inflated_atom g (Valist_getAtom al i) p).
  { intros i Hir Hne.
    apply splineAccAtom_not_1 in Hne; [|exact Hw|exact Hi].
    cbv zeta in Hne. rewrite Hal in Hne.
    destruct Hne as [G L]. split; [lra|].
    unfold in_inflated_atom. rewrite dist2_sym.
    change (g_max_radius g) with maxr.
    set (d2 := dist2 (Vatom_getPosition (Valist_getAtom al i)) p) in *.
    assert (H0 : 0 <= d2) by apply dist2_nonneg.
    assert (Hs : VSQRT d2 * VSQRT d2 = d2) by (apply sqrt_sqrt; exact H0).
    pose proof (VSQRT_nonneg d2) as Hs0.
    pose proof (VSQR_le (VSQRT d2)
                  (Vatom_getRadius (Valist_getAtom al i) + maxr)
                  Hs0 ltac:(lra)) as Hle.
    unfold VSQR at 1 in Hle. lra. }
  destruct (off_grid thee p) eqn:Hoff.
  - (* off the grid: the value is 1 and every factor is 1 *)
    assert (Hall : forall l : list Z,
              (forall i, i ∈ l -> (0 <= i < Valist_getNumberAtoms al)%Z) ->
              Rprod (map (Vacc_splineAccAtom thee p win infrad) l) = 1).
    { induction l as [|i l IH]; intros Hl; [reflexivity|].
      simpl. fold (Rprod (map (Vacc_splineAccAtom thee p win infrad) l)).
      rewrite IH by (intros j Hj; apply Hl; right; exact Hj).
      destruct (Req_dec_T (Vacc_splineAccAtom thee p win infrad i) 1)
        as [E|E]; [rewrite E; lra|].
      exfalso.
      destruct (Hnear i (Hl i ltac:(left)) E) as [Hpos Hin].
      exact (ctor2_off_grid_far VLARGE al maxr nx0 ny0 nz0 thee p i
               Hb Hoff (Hl i ltac:(left)) Hpos Hin). }
    assert (Hfull : full = 1).
    { apply Hall. intros i Hi'. apply elem_of_seqZ in Hi'. lia. }
    exists 1, (atomFlags thee). split.
    + unfold Vacc_splineAcc. rewrite Hmr.
      destruct (Rlt_dec maxr (win + infrad)); [lra|].
      rewrite Hoff. reflexivity.
    + rewrite Hfull. repeat split; lra.
  - destruct (binned_center_ui g al thee p Hb Hoff) as (_ & Hui & _).
    destruct (binned_bucket g al thee _ Hb Hui) as (Ebk & _).
    assert (Hcov : forall id, id ∈ bucket thee (center_ui thee p) ->
                     (0 <= id < Z.of_nat (length (atomFlags thee)))%Z).
    { intros id Hid.
      pose proof (bucket_in_range g al thee p id Hb Hoff Hid).
      rewrite Hfl. lia. }
    destruct (Vacc_splineAcc_on_grid VSMALL thee p win infrad
                ltac:(lra) Hoff Hcov) as [flags E].
    rewrite distinct_NoDup in E.
    2:{ rewrite Ebk. apply sorted_NoDup, covering_sorted. }
    2:{ intros x _ Hx. inversion Hx. }
    set (fs := map (Vacc_splineAccAtom thee p win infrad)
                   (bucket thee (center_ui thee p))) in *.
    assert (Efull : Rprod fs = full).
    { unfold fs, full. rewrite Ebk. unfold Valist_getNumberAtoms.
      apply Rprod_covering. intros i Hir Hout.
      rewrite Z.sub_0_r in Hout. fold (Valist_getAtom al i) in Hout.
      destruct (Req_dec_T (Vacc_splineAccAtom thee p win infrad i) 1)
        as [E1|E1]; [exact E1|exfalso].
      assert (Hir' : (0 <= i < Valist_getNumberAtoms al)%Z)
        by (unfold Valist_getNumberAtoms; lia).
      destruct (Hnear i Hir' E1) as [Hpos Hin].
      destruct (ctor_grid_sizes VLARGE al maxr nx0 ny0 nz0
                  (Valist_getAtom al i) ltac:(lia) ltac:(lia) ltac:(lia)
                  (getAtom_elem al i Hir') Hpos) as (Hx & Hy & Hz).
      pose proof (binned_bucket_near g al thee p i Hb Hoff Hx Hy Hz Hir'
                    ltac:(change (g_max_radius g) with maxr; lra) Hin)
        as Hmem.
      rewrite Ebk, elem_of_covering in Hmem.
      rewrite Z.sub_0_r in Hmem. fold (Valist_getAtom al i) in Hmem.
      apply Hout. tauto. }
    destruct (prod_cut_bounds VSMALL fs 1 ltac:(lra)) as (B1 & B2 & B3).
    { intros f Hf. unfold fs in Hf.
      apply list_elem_of_In, in_map_iff in Hf as (id & <- & _).
      apply splineAccAtom_range. exact Hw. }
    cbv zeta in B1, B3. rewrite Efull in B1, B2, B3.
    exists (prod_cut VSMALL 1 fs), flags.
    split; [exact E|]. split; [lra|]. split; [lra|]. split; [lra|].
    destruct B3 as [E3|L3]; [left; lra|right; exact L3].
Qed.

Lemma Vacc_ctor2_splineAcc_all_atoms_witness :
  exists thee,
    Vacc_ctor2 1000000000 [mkVatom (0, 0, 0) 2] 1 3 3 3 4 = Some thee /\
    exists v flags,
      Vacc_splineAcc 0.000001 thee (2, 0, 0) 0.5 0.5 = Ok (v, flags) /\
      0 <= Rprod (map (Vacc_splineAccAtom thee (2, 0, 0) 0.5 0.5)
                      (seqZ 0 (Valist_getNumberAtoms
                                 [mkVatom (0, 0, 0) 2]))) /\
      Rprod (map (Vacc_splineAccAtom thee (2, 0, 0) 0.5 0.5)
                 (seqZ 0 (Valist_getNumberAtoms [mkVatom (0, 0, 0) 2])))
      <= v /\
      v <= 1 /\
      (v = Rprod (map (Vacc_splineAccAtom thee (2, 0, 0) 0.5 0.5)
                      (seqZ 0 (Valist_getNumberAtoms
                                 [mkVatom (0, 0, 0) 2]))) \/
       v < 0.000001).
Proof.
  destruct (Vacc_ctor2_example 1000000000 [mkVatom (0, 0, 0) 2]
              1 ltac:(discriminate)) as [thee Hc].
  exists thee. split; [exact Hc|].
  apply (Vacc_ctor2_splineAcc_all_atoms 0.000001 1000000000
           [mkVatom (0, 0, 0) 2] 1 3 3 3 4 thee (2, 0, 0) 0.5 0.5 Hc).
  - unfold Valist_getNumberAtoms. simpl. lia.
  - lra.
  - lra.
  - lra.
Defined.

(** ** [Vacc_splineAccGradAtom] *)

Lemma smooth_deriv win sm :
  derivable_pt_lim (smooth win) sm
    (1.5 * sm * (1 / (win * win))
     - 0.75 * VSQR sm * (1 / (win * win * win))).
Proof.
  set (a := 0.75 * (1 / (win * win))).
  set (b := 0.25 * (1 / (win * win * win))).
  apply (derivable_pt_lim_ext
           (mult_real_fct a (id * id) - mult_real_fct b (id * (id * id)))%F).
  - intros z. unfold minus_fct, mult_real_fct, mult_fct, id, smooth, VSQR,
      a, b. lra.
  - replace (1.5 * sm * (1 / (win * win))
             - 0.75 * VSQR sm * (1 / (win * win * win)))
      with (a * (1 * id sm + id sm * 1)
            - b * (1 * (id * id)%F sm
                   + id sm * (1 * id sm + id sm * 1))).
    + apply derivable_pt_lim_minus; apply derivable_pt_lim_scal.
      * apply derivable_pt_lim_mult; apply derivable_pt_lim_id.
      * apply derivable_pt_lim_mult; [apply derivable_pt_lim_id|].
        apply derivable_pt_lim_mult; apply derivable_pt_lim_id.
    + unfold mult_fct, id, VSQR, a, b. lra.
Qed.

(** X10.  Strictly inside the window of an atom of positive radius, at
    a distance [dist > 0] from its centre, whenever
    [Vacc_splineAccGradAtom] returns (its [VASSERT(mychi > 0.0)]
    passes), the vector returned is [-(g / chi)] times the unit vector
    [(center - apos) / dist], where [chi > 0] is the window polynomial
    at [sm = dist - arad + win] and [g] is the derivative of that
    polynomial at [sm]: minus the gradient of [log chi]. *)
Theorem splineAccGradAtom_log_derivative
    thee center win infrad atomID v :
  let atom := Valist_getAtom (alist thee) atomID in
  let apos := Vatom_getPosition atom in
  let arad := Vatom_getRadius atom + infrad in
  let dist := VSQRT (dist2 apos center) in
  let sm := dist - arad + win in
  Vatom_getRadius atom > 0 ->
  arad - win < dist < arad + win ->
  0 < dist ->
  Vacc_splineAccGradAtom thee center win infrad atomID = Ok v ->
  exists g,
    derivable_pt_lim (smooth win) sm g /\ 0 < smooth win sm /\
    v = (- (g / smooth win sm) * ((c0 center - c0 apos) / dist),
         - (g / smooth win sm) * ((c1 center - c1 apos) / dist),
         - (g / smooth win sm) * ((c2 center - c2 apos) / dist)).
Proof.
  intros atom apos arad dist sm Hr Hwin Hdist Hv.
  exists (1.5 * sm * (1 / (win * win))
          - 0.75 * VSQR sm * (1 / (win * win * win))).
  split; [apply smooth_deriv|].
  unfold Vacc_splineAccGradAtom in Hv.
  fold atom apos arad dist sm in Hv. cbv zeta in Hv.
  destruct (Rgt_dec (Vatom_getRadius atom) 0); [|contradiction].
  destruct (Rle_dec dist (arad - win)); [lra|].
  destruct (Rge_dec dist (arad + win)); [lra|].
  fold (smooth win sm) in Hv.
  destruct (Rgt_dec (smooth win sm) 0) as [Hchi|_]; [|discriminate].
  split; [apply Rgt_lt; exact Hchi|].
  apply Ok_inj in Hv. symmetry. exact Hv.
Qed.

Lemma splineAccGradAtom_log_derivative_witness :
  exists thee v,
    Vacc_ctor2 1000000000 [mkVatom (0, 0, 0) 1] 1 3 3 3 4 = Some thee /\
    Vacc_splineAccGradAtom thee (1.5, 0, 0) 0.5 0.5 0 = Ok v /\
    exists g,
      derivable_pt_lim (smooth 0.5) (1.5 - (1 + 0.5) + 0.5) g /\
      0 < smooth 0.5 (1.5 - (1 + 0.5) + 0.5) /\
      v = (- (g / smooth 0.5 (1.5 - (1 + 0.5) + 0.5))
             * ((1.5 - 0) / 1.5),
           - (g / smooth 0.5 (1.5 - (1 + 0.5) + 0.5))
             * ((0 - 0) / 1.5),
           - (g / smooth 0.5 (1.5 - (1 + 0.5) + 0.5))
             * ((0 - 0) / 1.5)).
Proof.
  destruct (Vacc_ctor2_example 1000000000 [mkVatom (0, 0, 0) 1]
              1 ltac:(discriminate)) as [thee Hc].
  destruct (one_atom_engine 4 thee Hc) as (Hal & _).
  assert (Ha : Valist_getAtom (alist thee) 0 = mkVatom (0, 0, 0) 1)
    by (rewrite Hal; reflexivity).
  assert (Hd : VSQRT (dist2 (Vatom_getPosition
                               (Valist_getAtom (alist thee) 0))
                            (1.5, 0, 0)) = 1.5).
  { rewrite Ha. cbn [Vatom_getPosition].
    rewrite dist2_x_axis.
    replace ((0 - 1.5) * (0 - 1.5)) with (1.5 * 1.5) by lra.
    apply VSQRT_sqr. lra. }
  assert (Hchi : smooth 0.5 (1.5 - (1 + 0.5) + 0.5) > 0).
  { unfold smooth, VSQR. lra. }
  pose proof (splineAccGradAtom_window thee (1.5, 0, 0) 0.5 0.5 0) as W.
  cbv zeta in W. rewrite Hd, Ha in W.
  cbn [Vatom_getPosition Vatom_getRadius] in W.
  specialize (W ltac:(lra) ltac:(lra) Hchi).
  exists thee. eexists. split; [exact Hc|]. split; [exact W|].
  pose proof (splineAccGradAtom_log_derivative thee (1.5, 0, 0) 0.5 0.5 0
                _ ltac:(rewrite Ha; simpl; lra)
                ltac:(rewrite Hd, Ha; simpl; lra)
                ltac:(rewrite Hd; lra) W) as T.
  cbv zeta in T. rewrite Hd, Ha in T.
  cbn [Vatom_getPosition Vatom_getRadius c0 c1 c2 fst snd] in T.
  exact T.
Defined.

(** ** [Vacc_atomSASA] and [Vacc_totalSASA] in general *)

Lemma atomSASA_loop_count thee srad iatom pts :
  srad <= max_radius thee ->
  forall area0, exists k : nat,
    (k <= length pts)%nat /\
    atomSASA_loop thee srad iatom pts area0 = Ok (area0 + INR k).
Proof.
  intros Hr. induction pts as [|s pts IH]; intros area0.
  - exists 0%nat. split; [reflexivity|]. simpl. f_equal. lra.
  - cbn [atomSASA_loop].
    destruct (ivdwAccExclus_ok thee
                (probe_point
                   (Vatom_getRadius (Valist_getAtom (alist thee) iatom)
                    + srad) s
                   (Vatom_getPosition (Valist_getAtom (alist thee) iatom)))
                srad iatom Hr) as [E|E]; rewrite E; cbn [rbind Z.eqb].
    + destruct (IH area0) as (k & Hk & Ek).
      exists k. split; [cbn [length]; lia|exact Ek].
    + destruct (IH (area0 + 1)) as (k & Hk & Ek).
      exists (S k). split; [cbn [length]; lia|].
      rewrite Ek, S_INR. f_equal. lra.
Qed.

Lemma atomSASA_loop_fail thee srad iatom pts area0 :
  srad > max_radius thee ->
  atomSASA_loop thee srad iatom pts area0
  = match pts with [] => Ok area0 | _ :: _ => AssertFail end.
Proof.
  intros Hr. destruct pts as [|s pts]; [reflexivity|].
  cbn [atomSASA_loop].
  rewrite (proj2 (ivdwAccExclus_fail_iff thee _ srad iatom) Hr).
  reflexivity.
Qed.

Lemma Vacc_atomSASA_fail thee srad iatom :
  (0 < nsphere thee)%Z ->
  Vacc_atomSASA thee srad iatom = AssertFail <-> srad > max_radius thee.
Proof.
  intros Hn. split.
  - intros H. destruct (Rgt_dec srad (max_radius thee)) as [G|G];
      [exact G|].
    unfold Vacc_atomSASA in H. cbv zeta in H.
    destruct (atomSASA_loop_count thee srad iatom (sphere_points thee)
                ltac:(lra) 0) as (k & _ & Ek).
    rewrite Ek in H. discriminate.
  - intros G. unfold Vacc_atomSASA. cbv zeta.
    rewrite atomSASA_loop_fail by exact G.
    destruct (sphere_points thee) eqn:E; [|reflexivity].
    apply sphere_points_nil in E. lia.
Qed.

(** X11.  With a quadrature point, [Vacc_atomSASA] stops on the failing
    [VASSERT] of [ivdwAccExclus] exactly when the probe radius is
    greater than [max_radius]; otherwise it returns an area between 0
    and the area [4 pi (R + srad)^2] of the whole probe-centred
    sphere. *)
Theorem Vacc_atomSASA_bounds thee srad iatom :
  (0 < nsphere thee)%Z ->
  let tRad := Vatom_getRadius (Valist_getAtom (alist thee) iatom) in
  (Vacc_atomSASA thee srad iatom = AssertFail
   <-> srad > max_radius thee) /\
  (srad <= max_radius thee ->
   exists a,
     Vacc_atomSASA thee srad iatom = Ok a /\
     0 <= a <= 4 * VPI * (tRad + srad) * (tRad + srad)).
Proof.
  intros Hn tRad.
  assert (Hlen : length (sphere_points thee) = Z.to_nat (nsphere thee)).
  { unfold sphere_points. rewrite length_map, length_seqZ. reflexivity. }
  assert (Hok : srad <= max_radius thee ->
     exists a,
       Vacc_atomSASA thee srad iatom = Ok a /\
       0 <= a <= 4 * VPI * (tRad + srad) * (tRad + srad)).
  { intros Hr. unfold Vacc_atomSASA. cbv zeta.
    destruct (atomSASA_loop_count thee srad iatom (sphere_points thee)
                Hr 0) as (k & Hk & Ek).
    rewrite Ek. cbn [rbind]. eexists. split; [reflexivity|].
    fold tRad. rewrite Rplus_0_l.
    assert (HN : 0 < IZR (nsphere thee)) by (apply IZR_lt; lia).
    assert (Hk0 : 0 <= INR k) by apply pos_INR.
    assert (Hk1 : INR k <= IZR (nsphere thee)).
    { rewrite INR_IZR_INZ. apply IZR_le. lia. }
    assert (Hq : 0 <= INR k / IZR (nsphere thee) <= 1).
    { split.
      - apply Rmult_le_pos; [exact Hk0|].
        left. apply Rinv_0_lt_compat. exact HN.
      - apply Rmult_le_reg_r with (r := IZR (nsphere thee)); [exact HN|].
        unfold Rdiv. rewrite Rmult_assoc, Rinv_l by lra. lra. }
    assert (Hpi : 0 < VPI) by (unfold VPI; apply PI_RGT_0).
    pose proof (Rle_0_sqr (tRad + srad)) as Hsq. unfold Rsqr in Hsq.
    assert (Hc : 0 <= 4 * VPI * ((tRad + srad) * (tRad + srad)))
      by (apply Rmult_le_pos; [lra|exact Hsq]).
    set (q := INR k / IZR (nsphere thee)) in *.
    set (c := 4 * VPI * ((tRad + srad) * (tRad + srad))) in *.
    replace (q * 4 * VPI * (tRad + srad) * (tRad + srad)) with (q * c)
      by (unfold c; lra).
    replace (4 * VPI * (tRad + srad) * (tRad + srad)) with c
      by (unfold c; lra).
    clearbody q c. split; [apply Rmult_le_pos; lra|].
    rewrite <- (Rmult_1_l c) at 2.
    apply Rmult_le_compat_r; lra. }
  split; [|exact Hok]. split.
  - intros H. destruct (Rgt_dec srad (max_radius thee)) as [G|G];
      [exact G|].
    destruct Hok as (a & E & _); [lra|]. rewrite E in H. discriminate.
  - intros G. unfold Vacc_atomSASA. cbv zeta.
    rewrite atomSASA_loop_fail by exact G.
    destruct (sphere_points thee) eqn:E; [|reflexivity].
    apply sphere_points_nil in E. lia.
Qed.

Lemma Vacc_atomSASA_bounds_witness :
  exists thee,
    Vacc_ctor2 1000000000 [mkVatom (0, 0, 0) 1] 1 3 3 3 4 = Some thee /\
    (Vacc_atomSASA thee 2 0 = AssertFail <-> 2 > max_radius thee).
Proof.
  destruct (Vacc_ctor2_example 1000000000 [mkVatom (0, 0, 0) 1]
              1 ltac:(discriminate)) as [thee Hc].
  exists thee. split; [exact Hc|].
  apply (Vacc_atomSASA_bounds thee 2 0).
  destruct (sphere_points_ctor _ _ _ _ _ _ _ _ Hc) as [_ Hn].
  rewrite Hn, length_sphere_all. apply sphere_count_pos. lia.
Defined.

(** *** The area array and the total *)

Lemma totalSASA_loop_spec thee srad idxs :
  (forall i, i ∈ idxs ->
     Vacc_atomSASA thee srad i = Ok (atom_area thee srad i)) ->
  forall areas area0,
    totalSASA_loop thee srad idxs areas area0
    = Ok (area0 + Rsum (map (atom_area thee srad) idxs),
          fold_left (fun ar i => zset ar i (atom_area thee srad i))
                    idxs areas).
Proof.
  induction idxs as [|i idxs IH]; intros H areas area0.
  - simpl. f_equal. f_equal. lra.
  - cbn [totalSASA_loop]. rewrite (H i ltac:(left)). cbn [rbind].
    rewrite IH by (intros j Hj; apply H; right; exact Hj).
    cbn [map Rsum fold_right fold_left].
    fold (Rsum (map (atom_area thee srad) idxs)).
    f_equal. f_equal. lra.
Qed.

Lemma fill_areas (f : Z -> R) (post : list R) : forall (m : nat) pre old,
  length old = m ->
  fold_left (fun ar i => zset ar i (f i))
            (seqZ (Z.of_nat (length pre)) (Z.of_nat m)) (pre ++ old ++ post)
  = pre ++ map f (seqZ (Z.of_nat (length pre)) (Z.of_nat m)) ++ post.
Proof.
  induction m as [|m IH]; intros pre old Hl.
  - destruct old; [|discriminate]. reflexivity.
  - destruct old as [|o old]; [discriminate|].
    replace (Z.of_nat (S m)) with (Z.succ (Z.of_nat m)) by lia.
    rewrite seqZ_cons by lia. rewrite Z.pred_succ.
    cbn [fold_left map].
    replace (zset (pre ++ (o :: old) ++ post) (Z.of_nat (length pre))
                  (f (Z.of_nat (length pre))))
      with ((pre ++ [f (Z.of_nat (length pre))]) ++ old ++ post).
    + replace (Z.succ (Z.of_nat (length pre)))
        with (Z.of_nat (length (pre ++ [f (Z.of_nat (length pre))])))
        by (rewrite length_app; simpl; lia).
      rewrite IH by (simpl in Hl; lia).
      rewrite <- app_assoc. reflexivity.
    + change ((o :: old) ++ post) with (o :: (old ++ post)).
      rewrite zset_app_length, <- app_assoc. reflexivity.
Qed.

Lemma atomSASA_area thee srad i :
  srad <= max_radius thee ->
  Vacc_atomSASA thee srad i = Ok (atom_area thee srad i).
Proof.
  intros Hr. unfold atom_area.
  destruct (Vacc_atomSASA thee srad i) eqn:E; [reflexivity|].
  unfold Vacc_atomSASA in E. cbv zeta in E.
  destruct (atomSASA_loop_count thee srad i (sphere_points thee) Hr 0)
    as (k & _ & Ek).
  rewrite Ek in E. discriminate.
Qed.

(** X12.  With a quadrature point and an [area] array of one entry per
    atom, [Vacc_totalSASA] stops on the failing [VASSERT] exactly when
    the probe radius is greater than [max_radius] and there is an atom;
    otherwise it returns the sum of the areas [Vacc_atomSASA] returns
    for the atoms, and leaves exactly those areas, in atom order, in the
    [area] array. *)
Theorem Vacc_totalSASA_sum thee srad :
  (0 < nsphere thee)%Z ->
  length (area thee) = length (alist thee) ->
  let areas := map (atom_area thee srad)
                   (seqZ 0 (Valist_getNumberAtoms (alist thee))) in
  (Vacc_totalSASA thee srad = AssertFail
   <-> srad > max_radius thee /\ alist thee <> []) /\
  (srad <= max_radius thee ->
   (forall i, Vacc_atomSASA thee srad i = Ok (atom_area thee srad i)) /\
   Vacc_totalSASA thee srad = Ok (Rsum areas, areas)).
Proof.
  intros Hn Hlen areas.
  assert (Hok : srad <= max_radius thee ->
                Vacc_totalSASA thee srad = Ok (Rsum areas, areas)).
  { intros Hr. unfold Vacc_totalSASA.
    rewrite totalSASA_loop_spec
      by (intros i _; apply atomSASA_area; exact Hr).
    fold areas. f_equal. f_equal; [lra|].
    unfold Valist_getNumberAtoms.
    pose proof (fill_areas (atom_area thee srad) []
                  (length (alist thee)) [] (area thee) Hlen) as F.
    simpl in F. rewrite !app_nil_r in F. exact F. }
  split.
  - split.
    + intros H. destruct (Rgt_dec srad (max_radius thee)) as [G|G].
      * split; [exact G|]. intros E.
        unfold Vacc_totalSASA in H. rewrite E in H. discriminate.
      * rewrite Hok in H by lra. discriminate.
    + intros [G Hne]. unfold Vacc_totalSASA, Valist_getNumberAtoms.
      destruct (alist thee) as [|a al] eqn:E; [contradiction|].
      replace (Z.of_nat (length (a :: al)))
        with (Z.succ (Z.of_nat (length al))) by (simpl; lia).
      rewrite seqZ_cons by lia. cbn [totalSASA_loop].
      rewrite (proj2 (Vacc_atomSASA_fail thee srad 0 Hn) G).
      reflexivity.
  - intros Hr. split; [|apply Hok; exact Hr].
    intros i. apply atomSASA_area. exact Hr.
Qed.

Lemma Vacc_totalSASA_sum_witness :
  exists thee,
    Vacc_ctor2 1000000000 [mkVatom (0, 0, 0) 1] 1 3 3 3 4 = Some thee /\
    (Vacc_totalSASA thee 2 = AssertFail
     <-> 2 > max_radius thee /\ alist thee <> []).
Proof.
  destruct (Vacc_ctor2_example 1000000000 [mkVatom (0, 0, 0) 1]
              1 ltac:(discriminate)) as [thee Hc].
  exists thee. split; [exact Hc|].
  apply (Vacc_totalSASA_sum thee 2).
  - destruct (sphere_points_ctor _ _ _ _ _ _ _ _ Hc) as [_ Hn].
    rewrite Hn, length_sphere_all. apply sphere_count_pos. lia.
  - destruct (Vacc_ctor2_binned _ _ _ _ _ _ _ _ Hc)
      as (_ & Hal & _ & _ & _ & _ & _ & _ & _ & _ & _ & Hl & _).
    rewrite Hl, Hal. reflexivity.
Defined.

(** ** Two atoms with the same centre and radius *)

Lemma atomSASA_loop_filter thee srad iatom (f : vec3 -> bool) pts :
  (forall s, s ∈ pts ->
     ivdwAccExclus thee
       (probe_point
          (Vatom_getRadius (Valist_getAtom (alist thee) iatom) + srad) s
          (Vatom_getPosition (Valist_getAtom (alist thee) iatom)))
       srad iatom = Ok (if f s then 1 else 0)%Z) ->
  forall area,
    atomSASA_loop thee srad iatom pts area
    = Ok (area + INR (length (List.filter f pts))).
Proof.
  induction pts as [|s pts IH]; intros H area.
  - simpl. f_equal. lra.
  - cbn [atomSASA_loop]. rewrite (H s ltac:(left)). cbn [rbind].
    rewrite IH by (intros s' Hs'; apply H; right; exact Hs').
    cbn [List.filter]. destruct (f s); cbn [Z.eqb length].
    + rewrite S_INR. f_equal. lra.
    + reflexivity.
Qed.

Lemma length_sphere_points thee :
  (0 <= nsphere thee)%Z ->
  INR (length (sphere_points thee)) = IZR (nsphere thee).
Proof.
  intros Hn. unfold sphere_points.
  rewrite length_map, length_seqZ, INR_IZR_INZ, Z2Nat.id by lia.
  reflexivity.
Qed.

Lemma length_filter_le {A} (f : A -> bool) l :
  (length (List.filter f l) <= length l)%nat.
Proof.
  induction l as [|a l IH]; simpl; [lia|].
  destruct (f a); simpl; lia.
Qed.

(** In a list of two atoms, the atom tested against the samples of one
    is the other. *)
Lemma covered_by_pair a b p r skip other :
  (skip = 0%Z /\ other = b) \/ (skip = 1%Z /\ other = a) ->
  covered_by [a; b] p r skip <->
  Vatom_getRadius other > 0 /\
  dist2 (Vatom_getPosition other) p < VSQR (Vatom_getRadius other + r).
Proof.
  intros Hs. unfold covered_by, Valist_getNumberAtoms. cbn [length].
  split.
  - intros (i & Hi & Hne & Hrad & Hd).
    assert (Ei : (i = 0 \/ i = 1)%Z) by lia.
    destruct Hs as [[-> ->]|[-> ->]]; destruct Ei as [-> | ->];
      try contradiction; split; assumption.
  - intros [Hrad Hd].
    destruct Hs as [[-> ->]|[-> ->]].
    + exists 1%Z. repeat split; try lia; assumption.
    + exists 0%Z. repeat split; try lia; assumption.
Qed.

Lemma pair_ivdwAccExclus VLARGE a b maxr nx0 ny0 nz0 nsph thee
    srad skip atom other s :
  Vacc_ctor2 VLARGE [a; b] maxr nx0 ny0 nz0 nsph = Some thee ->
  0 <= srad <= maxr ->
  (skip = 0%Z /\ other = b) \/ (skip = 1%Z /\ other = a) ->
  ivdwAccExclus thee
    (probe_point (Vatom_getRadius atom + srad) s (Vatom_getPosition atom))
    srad skip
  = Ok (if sample_clear atom other srad s then 1 else 0)%Z.
Proof.
  intros Hc Hr Hs.
  set (vec := probe_point (Vatom_getRadius atom + srad) s
                (Vatom_getPosition atom)).
  pose proof (ctor2_ivdwAccExclus_covered VLARGE [a; b] maxr nx0 ny0 nz0
                nsph thee vec srad skip Hc Hr) as Hcov.
  rewrite (covered_by_pair a b vec srad skip other Hs) in Hcov.
  assert (Hm : srad <= max_radius thee).
  { apply Vacc_ctor2_Some in Hc. cbv zeta in Hc.
    destruct Hc as (_ & _ & -> & _). lra. }
  unfold sample_clear. fold vec.
  destruct (ivdwAccExclus_ok thee vec srad skip Hm) as [E|E]; rewrite E.
  - apply Hcov in E as [Hrad Hd].
    destruct (Rgt_dec (Vatom_getRadius other) 0); [|contradiction].
    destruct (Rlt_dec _ _); [reflexivity|contradiction].
  - destruct (Rgt_dec (Vatom_getRadius other) 0) as [Hrad|_];
      [|reflexivity].
    destruct (Rlt_dec _ _) as [Hd|_]; [|reflexivity].
    rewrite (proj2 Hcov (conj Hrad Hd)) in E. discriminate.
Qed.

Lemma lone_ivdwAccExclus VLARGE a maxr nx0 ny0 nz0 nsph thee srad p :
  Vacc_ctor2 VLARGE [a] maxr nx0 ny0 nz0 nsph = Some thee ->
  0 <= srad <= maxr ->
  ivdwAccExclus thee p srad 0 = Ok 1%Z.
Proof.
  intros Hc Hr.
  assert (Hm : srad <= max_radius thee).
  { pose proof (Vacc_ctor2_Some _ _ _ _ _ _ _ _ Hc) as H. cbv zeta in H.
    destruct H as (_ & _ & -> & _). lra. }
  destruct (ivdwAccExclus_ok thee p srad 0 Hm) as [E|E]; [|exact E].
  apply (ctor2_ivdwAccExclus_covered VLARGE [a] maxr nx0 ny0 nz0
           nsph thee p srad 0 Hc Hr) in E.
  destruct E as (i & Hi & Hne & _).
  unfold Valist_getNumberAtoms in Hi. simpl in Hi. lia.
Qed.

Lemma ctor2_nsphere_pos VLARGE al maxr nx0 ny0 nz0 nsph thee :
  Vacc_ctor2 VLARGE al maxr nx0 ny0 nz0 nsph = Some thee ->
  (0 < nsphere thee)%Z.
Proof.
  intros Hc.
  destruct (sphere_points_ctor _ _ _ _ _ _ _ _ Hc) as [_ Hn].
  rewrite Hn, length_sphere_all. apply sphere_count_pos.
  apply (Vacc_ctor2_allocated _ _ _ _ _ _ _ _ Hc).
Qed.

(** C4 (as the code has it): for two atoms with the same position and
    radius and a probe radius between 0 and [max_radius], each atom gets
    the share [k / nsphere] of the area [single] of one such atom alone,
    [4 pi (radius + srad)^2], where [k] is the number of its samples
    that the test of [ivdwAccExclus] against the twin keeps: those whose
    squared distance to the common centre is not below
    [(radius + srad)^2].  [Vacc_totalSASA] is twice that share of
    [single]; it lies between 0 and [2 * single]. *)
Theorem totalSASA_two_coincident_atoms
    VLARGE atom0 maxr nx0 ny0 nz0 nsph srad thee2 thee1 :
  Vacc_ctor2 VLARGE [atom0; atom0] maxr nx0 ny0 nz0 nsph = Some thee2 ->
  Vacc_ctor2 VLARGE [atom0] maxr nx0 ny0 nz0 nsph = Some thee1 ->
  0 <= srad <= maxr ->
  let single := 4 * PI * (Vatom_getRadius atom0 + srad)
                * (Vatom_getRadius atom0 + srad) in
  let kept := List.filter (sample_clear atom0 atom0 srad)
                          (sphere_points thee2) in
  let share := INR (length kept) / IZR (nsphere thee2) in
  Vacc_atomSASA thee1 srad 0 = Ok single /\
  Vacc_atomSASA thee2 srad 0 = Ok (share * single) /\
  Vacc_atomSASA thee2 srad 1 = Ok (share * single) /\
  (exists areas,
     Vacc_totalSASA thee2 srad = Ok (2 * (share * single), areas)) /\
  0 <= share <= 1 /\
  0 <= 2 * (share * single) <= 2 * single.
Proof.
  intros Hc2 Hc1 Hr single kept share.
  pose proof (ctor2_nsphere_pos _ _ _ _ _ _ _ _ Hc2) as Hn2.
  pose proof (ctor2_nsphere_pos _ _ _ _ _ _ _ _ Hc1) as Hn1.
  pose proof (Vacc_ctor2_Some _ _ _ _ _ _ _ _ Hc2) as H2.
  pose proof (Vacc_ctor2_Some _ _ _ _ _ _ _ _ Hc1) as H1.
  cbv zeta in H1, H2.
  destruct H1 as (_ & Hal1 & _). destruct H2 as (_ & Hal2 & _).
  assert (Hz2 : IZR (nsphere thee2) <> 0) by (apply not_0_IZR; lia).
  assert (Hz1 : IZR (nsphere thee1) <> 0) by (apply not_0_IZR; lia).
  assert (A1 : Vacc_atomSASA thee1 srad 0 = Ok single).
  { unfold Vacc_atomSASA. cbv zeta.
    rewrite atomSASA_loop_all_accessible
      by (intros s _; apply (lone_ivdwAccExclus _ _ _ _ _ _ _ _ _ _ Hc1 Hr)).
    cbn [rbind]. rewrite length_sphere_points by lia.
    rewrite Hal1. change (Valist_getAtom [atom0] 0) with atom0.
    unfold single, VPI. f_equal. field. exact Hz1. }
  assert (A2 : forall i, (i = 0 \/ i = 1)%Z ->
                         Vacc_atomSASA thee2 srad i = Ok (share * single)).
  { intros i Hi. unfold Vacc_atomSASA. cbv zeta.
    assert (Ha : Valist_getAtom (alist thee2) i = atom0)
      by (rewrite Hal2; destruct Hi as [-> | ->]; reflexivity).
    rewrite (atomSASA_loop_filter thee2 srad i
               (sample_clear atom0 atom0 srad)).
    - cbn [rbind]. rewrite Ha. fold kept.
      unfold share, single, VPI. f_equal. field. exact Hz2.
    - intros s _. rewrite Ha.
      apply (pair_ivdwAccExclus VLARGE atom0 atom0 maxr nx0 ny0 nz0 nsph
               thee2 srad i atom0 atom0 s Hc2 Hr).
      destruct Hi as [-> | ->]; [left|right]; split; reflexivity. }
  assert (Hk : 0 <= share <= 1).
  { unfold share.
    assert (Hp : 0 < IZR (nsphere thee2)) by (apply IZR_lt; lia).
    assert (K0 : 0 <= INR (length kept)) by apply pos_INR.
    assert (K1 : INR (length kept) <= IZR (nsphere thee2)).
    { rewrite <- length_sphere_points by lia. apply le_INR.
      apply length_filter_le. }
    split.
    - apply Rmult_le_pos; [exact K0|].
      apply Rlt_le, Rinv_0_lt_compat. exact Hp.
    - apply Rmult_le_reg_r with (r := IZR (nsphere thee2)); [exact Hp|].
      unfold Rdiv. rewrite Rmult_assoc, Rinv_l by exact Hz2. lra. }
  split; [exact A1|].
  split; [apply A2; left; reflexivity|].
  split; [apply A2; right; reflexivity|].
  split.
  - unfold Vacc_totalSASA. rewrite Hal2.
    change (seqZ 0 (Valist_getNumberAtoms [atom0; atom0]))
      with [0%Z; 1%Z].
    cbn [totalSASA_loop].
    rewrite (A2 0%Z) by auto. cbn [rbind].
    rewrite (A2 1%Z) by auto. cbn [rbind].
    eexists. f_equal. f_equal. lra.
  - split; [exact Hk|].
    assert (Hs : 0 <= single).
    { unfold single. assert (Hpi := PI_RGT_0).
      pose proof (Rle_0_sqr (Vatom_getRadius atom0 + srad)) as Hq.
      unfold Rsqr in Hq. nra. }
    nra.
Qed.

Lemma totalSASA_two_coincident_atoms_witness :
  let atom0 := mkVatom (0, 0, 0) 2 in
  exists thee2 thee1,
    Vacc_ctor2 1000000000 [atom0; atom0] 1.4 3 3 3 4 = Some thee2 /\
    Vacc_ctor2 1000000000 [atom0] 1.4 3 3 3 4 = Some thee1 /\
    0 <= 1.4 <= 1.4 /\
    let single := 4 * PI * (Vatom_getRadius atom0 + 1.4)
                  * (Vatom_getRadius atom0 + 1.4) in
    let kept := List.filter (sample_clear atom0 atom0 1.4)
                            (sphere_points thee2) in
    let share := INR (length kept) / IZR (nsphere thee2) in
    Vacc_atomSASA thee1 1.4 0 = Ok single /\
    Vacc_atomSASA thee2 1.4 0 = Ok (share * single) /\
    Vacc_atomSASA thee2 1.4 1 = Ok (share * single) /\
    (exists areas,
       Vacc_totalSASA thee2 1.4 = Ok (2 * (share * single), areas)) /\
    0 <= share <= 1 /\
    0 <= 2 * (share * single) <= 2 * single.
Proof.
  intros atom0.
  destruct (Vacc_ctor2_example 1000000000 [atom0; atom0] 1.4
              ltac:(discriminate)) as [thee2 Hc2].
  destruct (Vacc_ctor2_example 1000000000 [atom0] 1.4
              ltac:(discriminate)) as [thee1 Hc1].
  assert (Hr : 0 <= 1.4 <= 1.4) by lra.
  exists thee2, thee1.
  split; [exact Hc2|]. split; [exact Hc1|]. split; [exact Hr|].
  exact (totalSASA_two_coincident_atoms 1000000000 atom0 1.4 3 3 3 4 1.4
           thee2 thee1 Hc2 Hc1 Hr).
Defined.

(** ** An atom no other atom reaches *)

(** A point at distance [rho] from [a] is at least [t] away from [b] when
    [a] and [b] are at least [rho + t] apart. *)
Lemma probe_far rho t (u a b : vec3) :
  VSQR (c0 u) + VSQR (c1 u) + VSQR (c2 u) = 1 ->
  0 <= rho -> 0 <= t ->
  VSQR (rho + t) <= dist2 a b ->
  VSQR t <= dist2 b (probe_point rho u a).
Proof.
  intros Hu Hrho Ht Hd.
  unfold dist2, probe_point, VSQR, c0, c1, c2 in *. cbn [fst snd] in *.
  destruct u as [[u0 u1] u2], a as [[a0 a1] a2], b as [[b0 b1] b2].
  cbn [fst snd] in *.
  set (d0 := a0 - b0) in *. set (d1 := a1 - b1) in *.
  set (d2 := a2 - b2) in *.
  set (D2 := d0 * d0 + d1 * d1 + d2 * d2) in *.
  set (s := u0 * d0 + u1 * d1 + u2 * d2).
  assert (HD2 : 0 <= D2) by (unfold D2; nra).
  assert (CS : s * s <= D2).
  { assert (L : D2 * (u0 * u0 + u1 * u1 + u2 * u2) - s * s
                = (d0 * u1 - d1 * u0) * (d0 * u1 - d1 * u0)
                  + (d0 * u2 - d2 * u0) * (d0 * u2 - d2 * u0)
                  + (d1 * u2 - d2 * u1) * (d1 * u2 - d2 * u1))
      by (unfold D2, s; ring).
    rewrite Hu, Rmult_1_r in L.
    pose proof (Rle_0_sqr (d0 * u1 - d1 * u0)) as S1.
    pose proof (Rle_0_sqr (d0 * u2 - d2 * u0)) as S2.
    pose proof (Rle_0_sqr (d1 * u2 - d2 * u1)) as S3.
    unfold Rsqr in S1, S2, S3. lra. }
  set (D := sqrt D2).
  assert (HD : 0 <= D) by apply sqrt_pos.
  assert (HDD : D * D = D2) by (apply sqrt_sqrt; exact HD2).
  assert (HDge : rho + t <= D).
  { destruct (Rle_dec (rho + t) D) as [L|L]; [exact L|].
    exfalso. assert (D < rho + t) by lra. nra. }
  assert (Hs : - D <= s).
  { destruct (Rle_dec (- D) s) as [L|L]; [exact L|].
    exfalso. assert (s < - D) by lra. nra. }
  replace ((b0 - (rho * u0 + a0)) * (b0 - (rho * u0 + a0))
           + (b1 - (rho * u1 + a1)) * (b1 - (rho * u1 + a1))
           + (b2 - (rho * u2 + a2)) * (b2 - (rho * u2 + a2)))
    with (D2 + 2 * rho * s + rho * rho * (u0 * u0 + u1 * u1 + u2 * u2))
    by (unfold D2, s, d0, d1, d2; ring).
  rewrite Hu, Rmult_1_r.
  assert (H1 : (D - rho) * (D - rho) <= D2 + 2 * rho * s + rho * rho)
    by nra.
  assert (H2 : t * t <= (D - rho) * (D - rho)) by nra.
  lra.
Qed.

Lemma ivdwAccExclus_loop_isolated thee srad i s ids :
  VSQR (c0 s) + VSQR (c1 s) + VSQR (c2 s) = 1 ->
  0 <= srad ->
  let atom := Valist_getAtom (alist thee) i in
  0 <= Vatom_getRadius atom + srad ->
  (forall j, j <> i ->
     Vatom_getRadius (Valist_getAtom (alist thee) j) > 0 ->
     VSQR (Vatom_getRadius atom
           + Vatom_getRadius (Valist_getAtom (alist thee) j)
           + 2 * srad)
     <= dist2 (Vatom_getPosition atom)
              (Vatom_getPosition (Valist_getAtom (alist thee) j))) ->
  ivdwAccExclus_loop thee
    (probe_point (Vatom_getRadius atom + srad) s (Vatom_getPosition atom))
    srad i ids = 1%Z.
Proof.
  intros Hs Hr atom Hrho Hfar.
  induction ids as [|j ids IH]; simpl; [reflexivity|].
  destruct (Z.eqb_spec j i) as [E|E]; [exact IH|].
  destruct (Rgt_dec (Vatom_getRadius (Valist_getAtom (alist thee) j)) 0)
    as [G|G]; [|exact IH].
  destruct (Rlt_dec _ _) as [L|L]; [|exact IH].
  exfalso.
  pose proof (probe_far (Vatom_getRadius atom + srad)
                (Vatom_getRadius (Valist_getAtom (alist thee) j) + srad)
                s (Vatom_getPosition atom)
                (Vatom_getPosition (Valist_getAtom (alist thee) j))
                Hs Hrho ltac:(lra)) as P.
  fold atom in L.
  assert (Hd := Hfar j E G).
  replace (Vatom_getRadius atom
           + Vatom_getRadius (Valist_getAtom (alist thee) j) + 2 * srad)
    with (Vatom_getRadius atom + srad
          + (Vatom_getRadius (Valist_getAtom (alist thee) j) + srad))
    in Hd by lra.
  specialize (P Hd). lra.
Qed.

Lemma getAtom_outside al j :
  ~ (0 <= j < Valist_getNumberAtoms al)%Z ->
  Valist_getAtom al j = Vatom_null.
Proof.
  intros H. unfold Valist_getAtom, zget, Valist_getNumberAtoms in *.
  destruct (Z.ltb_spec j 0); [reflexivity|].
  apply nth_overflow. lia.
Qed.



(** ** The printed count [totatoms] of the first pass *)

Lemma count_cell_tot_fst st ui :
  fst (count_cell_tot st ui)
  = zset (fst st) ui (zget 0 (fst st) ui + 1)%Z.
Proof. destruct st as [na tot]. reflexivity. Qed.

Lemma count_atom_tot_fst g a : forall st,
  fst (count_atom_tot g st a) = count_atom g (fst st) a.
Proof.
  unfold count_atom_tot, count_atom.
  induction (span_cells g (atom_span g a)) as [|ui cells IH];
    intros st; [reflexivity|].
  cbn [fold_left]. rewrite IH, count_cell_tot_fst. reflexivity.
Qed.

Lemma count_pass_tot_fst g al : forall st,
  fst (fold_left (count_atom_tot g) al st) = count_pass g al (fst st).
Proof.
  unfold count_pass.
  induction al as [|a al IH]; intros st; [reflexivity|].
  cbn [fold_left]. rewrite IH, count_atom_tot_fst. reflexivity.
Qed.

Lemma tri_insert (l : list Z) : forall k : nat,
  zsum (map (fun c => c * (c + 1))%Z (<[k := (nth k l 0 + 1)%Z]> l))
  = (zsum (map (fun c => c * (c + 1))%Z l)
     + 2 * nth k (<[k := (nth k l 0 + 1)%Z]> l) 0)%Z.
Proof.
  induction l as [|a l IH]; intros k.
  - destruct k; simpl; lia.
  - destruct k as [|k]; simpl.
    + lia.
    + specialize (IH k). simpl in IH. lia.
Qed.

Lemma tri_count_cell st ui :
  let st' := count_cell_tot st ui in
  (2 * snd st' - zsum (map (fun c => c * (c + 1)) (fst st'))
   = 2 * snd st - zsum (map (fun c => c * (c + 1)) (fst st)))%Z.
Proof.
  destruct st as [na tot]. cbn [count_cell_tot fst snd]. cbv zeta.
  unfold zset, zget. destruct (Z.ltb_spec ui 0); [lia|].
  pose proof (tri_insert na (Z.to_nat ui)). lia.
Qed.

Lemma tri_count_pass g al : forall st,
  let st' := fold_left (count_atom_tot g) al st in
  (2 * snd st' - zsum (map (fun c => c * (c + 1)) (fst st'))
   = 2 * snd st - zsum (map (fun c => c * (c + 1)) (fst st)))%Z.
Proof.
  induction al as [|a al IH]; intros st; [reflexivity|].
  cbn [fold_left]. cbv zeta. rewrite IH.
  unfold count_atom_tot.
  generalize (span_cells g (atom_span g a)). intros cells. revert st.
  induction cells as [|ui cells IHc]; intros st; [reflexivity|].
  cbn [fold_left]. rewrite IHc. apply tri_count_cell.
Qed.

Lemma zsum_replicate_0 (m : nat) :
  zsum (map (fun c => c * (c + 1))%Z (replicate m 0%Z)) = 0%Z.
Proof. induction m as [|m IH]; simpl; [reflexivity|]. simpl in IH. lia. Qed.

Lemma tri_ge (l : list Z) :
  (2 * zsum l <= zsum (map (fun c => c * (c + 1)) l))%Z /\
  ((2 * zsum l = zsum (map (fun c => c * (c + 1)) l))%Z <->
   Forall (fun c => c = 0 \/ c = 1)%Z l).
Proof.
  induction l as [|c l [IH1 IH2]]; simpl.
  - split; [lia|]. split; [constructor|reflexivity].
  - assert (Hc : (2 * c <= c * (c + 1))%Z) by nia.
    split; [lia|]. rewrite Forall_cons. split.
    + intros E.
      assert (E1 : (2 * c = c * (c + 1))%Z) by lia.
      assert (E2 : (2 * zsum l
                    = zsum (map (fun c0 => c0 * (c0 + 1)) l))%Z) by lia.
      split; [nia|apply IH2; exact E2].
    + intros [Hc01 Hl]. apply IH2 in Hl.
      destruct Hc01 as [->| ->]; lia.
Qed.


(** ** [Vacc_ctor] and [Vacc_ctorFocus] *)

Lemma binned_lengths g al thee :
  binned g al thee ->
  length (natoms thee) = Z.to_nat (g_n g) /\
  length (atomIDs thee) = Z.to_nat (g_n g) /\
  length (atomFlags thee) = Z.to_nat (g_n g) /\
  length (area thee) = length al.
Proof.
  intros (Hdim & _ & _ & _ & _ & _ & _ & _ & _ & _ & Hfl & Har & Hf).
  set (n0 := g_n g) in *.
  set (counts := count_pass g al (replicate (Z.to_nat n0) 0%Z)) in *.
  assert (Hn0 : (0 <= n0)%Z) by (unfold n0, g_n; lia).
  destruct (count_pass_spec g al (replicate (Z.to_nat n0) 0%Z))
    as [Hc1 Hc2].
  { rewrite length_replicate. fold n0. lia. }
  fold counts in Hc1, Hc2. rewrite length_replicate in Hc1.
  pose proof (fill_pass_gen g al 0%Z (map (fun _ => 0%Z) counts)
                (alloc_pass counts)) as Hg.
  rewrite length_map, length_alloc_pass in Hg. fold n0 in Hg.
  destruct Hg as (Hg1 & Hg2 & _); [lia|reflexivity| |].
  { intros u Hu.
    rewrite (zget_map _ 0%Z) by lia.
    rewrite alloc_pass_slot by lia.
    rewrite (Hc2 u 0%Z), zget_replicate by lia. lia. }
  change (fold_left (fill_atom g)
            (zip (seqZ 0 (Z.of_nat (length al))) al)
            (map (fun _ => 0%Z) counts, alloc_pass counts))
    with (fill_pass g al (map (fun _ => 0%Z) counts, alloc_pass counts))
    in Hg1, Hg2.
  rewrite <- Hf in Hg1, Hg2. cbn [fst snd] in Hg1, Hg2.
  split; [lia|]. split; [lia|]. split; [|exact Har].
  rewrite Hfl, length_replicate. reflexivity.
Qed.

Lemma Vacc_ctor2Focus_allocated al maxr nx0 ny0 nz0 nsph
    xmin ymin zmin xmax ymax zmax thee :
  Vacc_ctor2Focus al maxr nx0 ny0 nz0 nsph xmin ymin zmin xmax ymax zmax
  = Some thee ->
  (3 <= nx0 /\ 3 <= ny0 /\ 3 <= nz0)%Z /\ (3 <= nsph)%Z /\ al <> [].
Proof.
  intros H.
  pose proof (Vacc_ctor2Focus_binned _ _ _ _ _ _ _ _ _ _ _ _ _ H) as Hb.
  destruct Hb as (Hdim & _). cbn [focus_grid g_nx g_ny g_nz] in Hdim.
  destruct (Vacc_ctor2Focus_sphere _ _ _ _ _ _ _ _ _ _ _ _ _ H) as [Hs _].
  split; [exact Hdim|]. split; [exact Hs|].
  intros ->. unfold Vacc_ctor2Focus in H. cbv zeta in H.
  destruct ((nx0 <? 3)%Z || (ny0 <? 3)%Z || (nz0 <? 3)%Z);
    [discriminate|].
  ctor_guards H. discriminate Eg2.
Qed.



(** ** [Vacc_writeGMV] *)

Lemma writeGMV_loop_step thee radius meth c coords acc0 acc1 ivert :
  writeGMV_loop thee radius meth (c :: coords) acc0 acc1 ivert
  = (v <-r writeGMV_value thee radius meth c;
     writeGMV_loop thee radius meth coords
       (zset acc0 ivert v) (zset acc1 ivert v) (ivert + 1)).
Proof.
  cbn [writeGMV_loop]. unfold writeGMV_value.
  destruct (meth =? 0)%Z.
  - destruct (Vacc_molAcc thee c radius); reflexivity.
  - destruct (meth =? 1)%Z.
    + destruct (Vacc_ivdwAcc thee c radius); reflexivity.
    + destruct (meth =? 2)%Z; reflexivity.
Qed.

Lemma writeGMV_loop_spec thee radius meth coords :
  forall pre0 pre1 old0 old1,
    length old0 = length coords -> length old1 = length coords ->
    length pre0 = length pre1 ->
    match writeGMV_loop thee radius meth coords
            (pre0 ++ old0) (pre1 ++ old1) (Z.of_nat (length pre0)) with
    | Ok (a0, a1) =>
        exists vals,
          a0 = pre0 ++ vals /\ a1 = pre1 ++ vals /\
          Forall2 (fun c v => writeGMV_value thee radius meth c = Ok v)
                  coords vals
    | AssertFail =>
        exists c, c ∈ coords /\
                  writeGMV_value thee radius meth c = AssertFail
    end.
Proof.
  induction coords as [|c coords IH]; intros pre0 pre1 old0 old1 H0 H1 Hp.
  - destruct old0; [|discriminate]. destruct old1; [|discriminate].
    simpl. exists []. rewrite !app_nil_r. repeat split. constructor.
  - rewrite writeGMV_loop_step.
    destruct old0 as [|o0 old0]; [discriminate|].
    destruct old1 as [|o1 old1]; [discriminate|].
    destruct (writeGMV_value thee radius meth c) as [v|] eqn:E;
      cbn [rbind].
    + rewrite zset_app_length. rewrite Hp, zset_app_length.
      specialize (IH (pre0 ++ [v]) (pre1 ++ [v]) old0 old1).
      rewrite <- !app_assoc in IH. cbn [app] in IH.
      rewrite length_app in IH. cbn [length] in IH.
      replace (Z.of_nat (length pre0 + 1)) with (Z.of_nat (length pre1) + 1)%Z
        in IH by lia.
      specialize (IH ltac:(simpl in H0; lia) ltac:(simpl in H1; lia)
                     ltac:(rewrite !length_app; simpl; lia)).
      destruct (writeGMV_loop _ _ _ _ _ _ _) as [[a0 a1]|].
      * destruct IH as (vals & -> & -> & F).
        exists (v :: vals). rewrite <- !app_assoc. cbn [app].
        repeat split. constructor; assumption.
      * destruct IH as (c' & Hc' & E'). exists c'.
        split; [right; exact Hc'|exact E'].
    + exists c. split; [left|exact E].
Qed.

Lemma Forall2_functional {A B} (P : A -> B -> Prop) l :
  (forall a b b', P a b -> P a b' -> b = b') ->
  forall l1 l2, Forall2 P l l1 -> Forall2 P l l2 -> l1 = l2.
Proof.
  intros HP. induction l as [|a l IH]; intros l1 l2 H1 H2.
  - inversion H1; inversion H2; reflexivity.
  - inversion H1; subst. inversion H2; subst.
    f_equal; [eapply HP; eassumption|apply IH; assumption].
Qed.


(** ** The quadrature points of [Vacc_sphere] *)

Lemma sphere_nphi_0 npts : sphere_nphi npts 0 = 0%Z.
Proof.
  unfold sphere_nphi, sphere_theta, VSIN.
  rewrite Rmult_0_r, sin_0, Rmult_0_l. apply VRINT_0.
Qed.

Lemma sphere_theta_inner npts i :
  (0 < i < sphere_ntheta npts)%Z -> 0 < sphere_theta npts i < PI.
Proof.
  intros [H0 H1]. unfold sphere_theta, sphere_dtheta, Vunit_pi.
  assert (Hn : 0 < IZR (sphere_ntheta npts)) by (apply IZR_lt; lia).
  assert (Hi : 0 < IZR i) by (apply IZR_lt; lia).
  assert (Hl : IZR i < IZR (sphere_ntheta npts)) by (apply IZR_lt; lia).
  assert (Hp := PI_RGT_0).
  assert (Hd : 0 < / IZR (sphere_ntheta npts))
    by (apply Rinv_0_lt_compat; exact Hn).
  replace (PI / IZR (sphere_ntheta npts) * IZR i)
    with (PI * (IZR i * / IZR (sphere_ntheta npts)))
    by (unfold Rdiv; ring).
  assert (Hq : 0 < IZR i * / IZR (sphere_ntheta npts) < 1).
  { split; [apply Rmult_lt_0_compat; lra|].
    replace 1 with (IZR (sphere_ntheta npts) * / IZR (sphere_ntheta npts))
      by (field; lra).
    apply Rmult_lt_compat_r; lra. }
  nra.
Qed.

(** X17.  Every point [Vacc_sphere] returns lies on the unit sphere,
    and none of them is a pole: the ring [itheta = 0] is empty and the
    last ring stays short of [theta = pi], so [-1 < z < 1]. *)
Theorem Vacc_sphere_unit_no_pole npts :
  Forall (fun s =>
            VSQR (c0 s) + VSQR (c1 s) + VSQR (c2 s) = 1 /\
            -1 < c2 s < 1)
         (fst (Vacc_sphere npts)).
Proof.
  rewrite Vacc_sphere_all. cbn [fst]. apply Forall_forall.
  intros s Hs. split; [apply (sphere_all_unit npts); exact Hs|].
  unfold sphere_all in Hs.
  apply elem_of_flat_map in Hs as (i & Hi & Hs).
  apply elem_of_seqZ in Hi.
  unfold sphere_ring in Hs.
  apply list_elem_of_In, in_map_iff in Hs as (k & <- & Hk).
  apply list_elem_of_In, elem_of_seqZ in Hk.
  assert (Hi0 : i <> 0%Z).
  { intros ->. rewrite sphere_nphi_0 in Hk. lia. }
  destruct (sphere_theta_inner npts i ltac:(lia)) as [T0 T1].
  unfold sphere_point, c2, VCOS. cbn [snd].
  pose proof (cos_decreasing_1 (sphere_theta npts i) PI) as D1.
  pose proof (cos_decreasing_1 0 (sphere_theta npts i)) as D2.
  rewrite cos_PI in D1. rewrite cos_0 in D2.
  assert (Hp := PI_RGT_0).
  split; [apply D1; lra|apply D2; lra].
Qed.

(** ** [Vacc_splineAcc] and the flags it leaves behind *)

Lemma splineAcc_loop_length VSMALL thee center win infrad ids :
  forall flags value,
    length (snd (splineAcc_loop VSMALL thee center win infrad ids
                   flags value))
    = length flags.
Proof.
  induction ids as [|id ids IH]; intros flags value; simpl; [reflexivity|].
  destruct (zget 0%Z flags id =? 0)%Z; [|apply IH].
  destruct (Rlt_dec _ VSMALL); simpl.
  - apply length_zset.
  - rewrite IH. apply length_zset.
Qed.

(** X18.  The value of [Vacc_splineAcc] does not depend on what the
    flags array holds on entry, as long as it covers the atoms of the
    cell: the routine clears the flags of the cell before it uses them.
    The array it leaves has the length it had.  So a call is not
    disturbed by the flags an earlier call left set. *)
Theorem Vacc_splineAcc_flags_irrelevant
    VSMALL thee fl center win infrad :
  length fl = length (atomFlags thee) ->
  (forall id, id ∈ bucket thee (center_ui thee center) ->
              (0 <= id < Z.of_nat (length (atomFlags thee)))%Z) ->
  value_of (Vacc_splineAcc VSMALL (with_flags thee fl) center win infrad)
  = value_of (Vacc_splineAcc VSMALL thee center win infrad) /\
  (forall v fl',
     Vacc_splineAcc VSMALL thee center win infrad = Ok (v, fl') ->
     length fl' = length (atomFlags thee)).
Proof.
  intros Hl Hcov. split.
  - destruct (Rlt_dec (max_radius thee) (win + infrad)) as [G|G].
    + rewrite (proj2 (Vacc_splineAcc_fail_iff VSMALL thee center
                        win infrad) G).
      rewrite (proj2 (Vacc_splineAcc_fail_iff VSMALL (with_flags thee fl)
                        center win infrad) G).
      reflexivity.
    + destruct (off_grid thee center) eqn:Hoff.
      * unfold Vacc_splineAcc.
        change (off_grid (with_flags thee fl) center)
          with (off_grid thee center).
        change (max_radius (with_flags thee fl)) with (max_radius thee).
        destruct (Rlt_dec (max_radius thee) (win + infrad)); [lra|].
        rewrite Hoff. reflexivity.
      * destruct (Vacc_splineAcc_on_grid VSMALL thee center win infrad
                    ltac:(lra) Hoff Hcov) as [f1 E1].
        destruct (Vacc_splineAcc_on_grid VSMALL (with_flags thee fl)
                    center win infrad ltac:(simpl; lra) Hoff)
          as [f2 E2].
        { intros id Hid. cbn [with_flags atomFlags]. rewrite Hl.
          apply Hcov. exact Hid. }
        rewrite E1, E2. reflexivity.
  - intros v fl' E. unfold Vacc_splineAcc in E.
    destruct (Rlt_dec _ _); [discriminate|].
    destruct (off_grid thee center).
    + apply Ok_inj in E. injection E as _ <-. reflexivity.
    + apply Ok_inj in E.
      apply (f_equal snd) in E. cbn [snd] in E. rewrite <- E.
      rewrite splineAcc_loop_length. apply length_reset_flags.
Qed.

Lemma Vacc_splineAcc_flags_irrelevant_witness :
  exists thee,
    Vacc_ctor2 1000000000 [mkVatom (0, 0, 0) 1] 1 3 3 3 4 = Some thee /\
    value_of (Vacc_splineAcc 0.000001 (with_flags thee (replicate 27 1%Z))
                (1.5, 0, 0) 0.5 0.5)
    = value_of (Vacc_splineAcc 0.000001 thee (1.5, 0, 0) 0.5 0.5).
Proof.
  destruct (Vacc_ctor2_example 1000000000 [mkVatom (0, 0, 0) 1]
              1 ltac:(discriminate)) as [thee Hc].
  exists thee. split; [exact Hc|].
  pose proof (Vacc_ctor2_binned _ _ _ _ _ _ _ _ Hc) as Hb.
  destruct (binned_lengths _ _ _ Hb) as (_ & _ & Hfl & _).
  change (Z.to_nat (g_n (ctor_grid 1000000000 [mkVatom (0, 0, 0) 1]
                           1 3 3 3))) with 27%nat in Hfl.
  apply (Vacc_splineAcc_flags_irrelevant 0.000001 thee
           (replicate 27 1%Z) (1.5, 0, 0) 0.5 0.5).
  - rewrite Hfl. reflexivity.
  - intros id Hid.
    destruct (one_atom_near_point 4 thee Hc) as [Hoff _].
    pose proof (bucket_in_range _ _ _ _ _ Hb Hoff Hid) as Hr.
    unfold Valist_getNumberAtoms in Hr. simpl in Hr. rewrite Hfl. lia.
Defined.

(** * The input-file parser: properties *)

Section NOsh_print.

Local Open Scope string_scope.

Variables Vcom MGparm FEMparm : Type.
Variables NOSH_MAXPRINT NOSH_MAXPOP : Z.
Variable sscanf_d : String.string -> option Z.

Local Abbreviation NOsh := (NOsh Vcom MGparm FEMparm).
Local Abbreviation parsePRINT_loop :=
  (NOsh_parsePRINT_loop (Vcom := Vcom) (MGparm := MGparm)
     (FEMparm := FEMparm) NOSH_MAXPOP sscanf_d).
Local Abbreviation parsePRINT :=
  (NOsh_parsePRINT (Vcom := Vcom) (MGparm := MGparm) (FEMparm := FEMparm)
     NOSH_MAXPRINT NOSH_MAXPOP sscanf_d).

Lemma take_zset_next_gen {A} (l : list A) (c : Z) x :
  (0 <= c < Z.of_nat (length l))%Z ->
  take (Z.to_nat (c + 1)) (zset l c x) = take (Z.to_nat c) l ++ [x].
Proof.
  intros Hc. unfold zset. destruct (Z.ltb_spec c 0); [lia|].
  replace (Z.to_nat (c + 1)) with (S (Z.to_nat c)) by lia.
  erewrite take_S_r by (apply list_lookup_insert_eq; lia).
  rewrite take_insert_ge by lia. reflexivity.
Qed.

Lemma print_frame_refl idx (thee : NOsh) : print_frame idx 0 thee thee.
Proof.
  exists (printwhat thee), (printnarg thee), (printcalc thee),
    (printop thee).
  split; [destruct thee; unfold with_print; simpl; f_equal; lia|].
  repeat split; reflexivity.
Qed.

Lemma print_frame_trans idx rc (a b c : NOsh) :
  print_frame idx 0 a b -> print_frame idx rc b c -> print_frame idx rc a c.
Proof.
  intros (pw & pa & pc & po & -> & L0 & L1 & L2 & L3 & H)
         (pw' & pa' & pc' & po' & -> & L0' & L1' & L2' & L3' & H').
  exists pw', pa', pc', po'. cbn [with_print nprint printwhat printnarg
                                 printcalc printop] in *.
  split; [unfold with_print; simpl; f_equal; lia|].
  repeat (split; [congruence|]).
  intros j Hj. destruct (H j Hj) as (A0 & A1 & A2 & A3).
  destruct (H' j Hj) as (B0 & B1 & B2 & B3).
  repeat split; congruence.
Qed.

Lemma print_frame_slot idx (thee : NOsh) pw pa pc po :
  length pw = length (printwhat thee) ->
  length pa = length (printnarg thee) ->
  length pc = length (printcalc thee) ->
  length po = length (printop thee) ->
  (forall j, j <> idx ->
     zget 0%Z pw j = zget 0%Z (printwhat thee) j /\
     zget 0%Z pa j = zget 0%Z (printnarg thee) j /\
     zget [] pc j = zget [] (printcalc thee) j /\
     zget [] po j = zget [] (printop thee) j) ->
  forall rc,
    print_frame idx rc thee (with_print thee (nprint thee + rc) pw pa pc po).
Proof.
  intros L0 L1 L2 L3 H rc. exists pw, pa, pc, po.
  repeat (split; [assumption || reflexivity|]). exact H.
Qed.

Ltac frame_slot :=
  repeat split;
  rewrite ?length_zset; try reflexivity;
  rewrite ?zget_zset_ne by congruence; reflexivity.

Lemma frame_set_printcalc idx (thee : NOsh) l :
  print_frame idx 0 thee
    (set_printcalc thee (zset (printcalc thee) idx l)).
Proof.
  replace (set_printcalc thee (zset (printcalc thee) idx l))
    with (with_print thee (nprint thee + 0) (printwhat thee)
            (printnarg thee) (zset (printcalc thee) idx l) (printop thee))
    by (unfold with_print, set_printcalc; f_equal; lia).
  apply print_frame_slot; try (rewrite ?length_zset; reflexivity).
  intros j Hj. frame_slot.
Qed.

Lemma frame_print_push_op idx (thee : NOsh) op :
  print_frame idx 0 thee (print_push_op thee idx op).
Proof.
  unfold print_push_op. cbv zeta.
  match goal with
  | |- print_frame _ _ _ (set_printnarg (set_printop _ ?o) ?a) =>
      replace (set_printnarg (set_printop thee o) a)
        with (with_print thee (nprint thee + 0) (printwhat thee) a
                (printcalc thee) o)
        by (unfold with_print, set_printnarg, set_printop; simpl;
            f_equal; lia)
  end.
  cbn [set_printop printnarg].
  apply print_frame_slot; try (rewrite ?length_zset; reflexivity).
  intros j Hj. frame_slot.
Qed.

Lemma frame_print_end idx (thee : NOsh) :
  print_frame idx 1 thee
    (set_printnarg (set_nprint thee (nprint thee + 1))
       (zset (printnarg (set_nprint thee (nprint thee + 1))) idx
             (zget 0 (printnarg (set_nprint thee (nprint thee + 1))) idx
              + 1)%Z)).
Proof.
  cbn [set_nprint printnarg].
  match goal with
  | |- print_frame _ _ _ (set_printnarg _ ?a) =>
      replace (set_printnarg (set_nprint thee (nprint thee + 1)) a)
        with (with_print thee (nprint thee + 1) (printwhat thee) a
                (printcalc thee) (printop thee))
        by reflexivity
  end.
  apply print_frame_slot; try (rewrite ?length_zset; reflexivity).
  intros j Hj. frame_slot.
Qed.

Lemma frame_print_start idx (thee : NOsh) :
  print_frame idx 0 thee
    (set_printnarg (set_printwhat thee (zset (printwhat thee) idx 0%Z))
       (zset (printnarg
                (set_printwhat thee (zset (printwhat thee) idx 0%Z)))
             idx 0%Z)).
Proof.
  cbn [set_printwhat printnarg].
  match goal with
  | |- print_frame _ _ _ (set_printnarg (set_printwhat _ ?w) ?a) =>
      replace (set_printnarg (set_printwhat thee w) a)
        with (with_print thee (nprint thee + 0) w a
                (printcalc thee) (printop thee))
        by (unfold with_print, set_printnarg, set_printwhat; simpl;
            f_equal; lia)
  end.
  apply print_frame_slot; try (rewrite ?length_zset; reflexivity).
  intros j Hj. frame_slot.
Qed.

Lemma parsePRINT_loop_frame sock : forall (thee : NOsh) idx expect,
  exists rc thee' sock',
    parsePRINT_loop thee idx expect sock = (rc, thee', sock') /\
    (rc = 0 \/ rc = 1)%Z /\
    sock' `suffix_of` sock /\
    print_frame idx rc thee thee'.
Proof.
  induction sock as [|tok sock IH]; intros thee idx expect.
  - exists 0%Z, thee, []. split; [reflexivity|].
    split; [left; reflexivity|]. split; [reflexivity|].
    apply print_frame_refl.
  - assert (Hfail : forall thee1 : NOsh,
              print_frame idx 0 thee thee1 ->
              exists rc thee' sock',
                (0%Z, thee1, sock) = (rc, thee', sock') /\
                (rc = 0 \/ rc = 1)%Z /\
                sock' `suffix_of` tok :: sock /\
                print_frame idx rc thee thee').
    { intros thee1 F. exists 0%Z, thee1, sock.
      split; [reflexivity|]. split; [left; reflexivity|].
      split; [apply suffix_cons_r; reflexivity|exact F]. }
    assert (Hgo : forall (thee1 : NOsh) e,
              print_frame idx 0 thee thee1 ->
              exists rc thee' sock',
                parsePRINT_loop thee1 idx e sock = (rc, thee', sock') /\
                (rc = 0 \/ rc = 1)%Z /\
                sock' `suffix_of` tok :: sock /\
                print_frame idx rc thee thee').
    { intros thee1 e F.
      destruct (IH thee1 idx e) as (rc & thee' & sock' & E & Hrc & Hs & F').
      exists rc, thee', sock'. split; [exact E|]. split; [exact Hrc|].
      split; [apply suffix_cons_r; exact Hs|].
      eapply print_frame_trans; eassumption. }
    cbn [NOsh_parsePRINT_loop].
    destruct (Vstring_strcasecmp tok "end" =? 0)%Z.
    { destruct (negb (expect =? 0)%Z).
      - exists 1%Z. eexists. exists sock. split; [reflexivity|].
        split; [right; reflexivity|].
        split; [apply suffix_cons_r; reflexivity|].
        apply frame_print_end.
      - apply Hfail, print_frame_refl. }
    destruct (sscanf_d tok) as [ti|].
    { destruct (expect =? 0)%Z.
      - apply Hgo, frame_set_printcalc.
      - apply Hfail, print_frame_refl. }
    destruct (Vstring_strcasecmp tok "+" =? 0)%Z.
    { destruct (expect =? 1)%Z; [|apply Hfail, print_frame_refl].
      cbv zeta. destruct (_ >=? NOSH_MAXPOP)%Z.
      - apply Hfail, frame_print_push_op.
      - apply Hgo, frame_print_push_op. }
    destruct (Vstring_strcasecmp tok "-" =? 0)%Z.
    { destruct (expect =? 1)%Z; [|apply Hfail, print_frame_refl].
      cbv zeta. destruct (_ >=? NOSH_MAXPOP)%Z.
      - apply Hfail, frame_print_push_op.
      - apply Hgo, frame_print_push_op. }
    apply Hfail, print_frame_refl.
Qed.

(** X19.  Whatever the tokens, [NOsh_parsePRINT] returns 0 or 1 and
    leaves a suffix of the socket.  It changes nothing but the PRINT
    members of the object: [nprint] goes up by the value returned, and
    of the PRINT arrays only the slot [nprint] may differ, so the
    statements parsed before are kept, and a failed statement is not
    counted.  It returns 0 without reading a token when the file was
    parsed already or [nprint] has reached [NOSH_MAXPRINT]. *)
Theorem NOsh_parsePRINT_frame (thee : NOsh) sock :
  exists rc thee' sock',
    parsePRINT thee sock = (rc, thee', sock') /\
    (rc = 0 \/ rc = 1)%Z /\
    sock' `suffix_of` sock /\
    print_frame (nprint thee) rc thee thee' /\
    (parsed thee <> 0%Z \/ (nprint thee >= NOSH_MAXPRINT)%Z ->
     rc = 0%Z /\ thee' = thee /\ sock' = sock).
Proof.
  unfold NOsh_parsePRINT.
  destruct (Z.eqb_spec (parsed thee) 0) as [Hp|Hp]; cbn [negb].
  2:{ exists 0%Z, thee, sock. split; [reflexivity|].
      split; [left; reflexivity|]. split; [reflexivity|].
      split; [apply print_frame_refl|]. intros _. repeat split. }
  destruct (Z.geb_spec (nprint thee) NOSH_MAXPRINT) as [Hn|Hn].
  { exists 0%Z, thee, sock. split; [reflexivity|].
    split; [left; reflexivity|]. split; [reflexivity|].
    split; [apply print_frame_refl|]. intros _. repeat split. }
  destruct sock as [|tok sock].
  { exists 0%Z, thee, []. split; [reflexivity|].
    split; [left; reflexivity|]. split; [reflexivity|].
    split; [apply print_frame_refl|]. intros [H|H]; [contradiction|lia]. }
  destruct (Vstring_strcasecmp tok "energy" =? 0)%Z.
  - cbv zeta.
    destruct (parsePRINT_loop_frame sock
                (set_printnarg
                   (set_printwhat thee
                      (zset (printwhat thee) (nprint thee) 0%Z))
                   (zset (printnarg
                            (set_printwhat thee
                               (zset (printwhat thee) (nprint thee) 0%Z)))
                         (nprint thee) 0%Z))
                (nprint thee) 0%Z) as (rc & thee' & sock' & E & Hrc & Hs & F).
    exists rc, thee', sock'. split; [exact E|]. split; [exact Hrc|].
    split; [apply suffix_cons_r; exact Hs|]. split.
    + eapply print_frame_trans; [apply frame_print_start|exact F].
    + intros [H|H]; [contradiction|lia].
  - exists 0%Z, thee, sock. split; [reflexivity|].
    split; [left; reflexivity|].
    split; [apply suffix_cons_r; reflexivity|].
    split; [apply print_frame_refl|]. intros [H|H]; [contradiction|lia].
Qed.

(** *** Well-formed statements *)

Lemma parsePRINT_loop_accepts fin more rest :
  Vstring_strcasecmp fin "end" = 0%Z ->
  sscanf_d "+" = None -> sscanf_d "-" = None ->
  Forall (fun a : Z * String.string * Z =>
            (fst (fst a) = 0 \/ fst (fst a) = 1)%Z /\
            sscanf_d (snd (fst a)) = Some (snd a) /\
            Vstring_strcasecmp (snd (fst a)) "end" <> 0%Z) rest ->
  forall (thee : NOsh) idx j,
    (0 <= idx < Z.of_nat (length (printnarg thee)))%Z ->
    (idx < Z.of_nat (length (printcalc thee)))%Z ->
    (idx < Z.of_nat (length (printop thee)))%Z ->
    zget 0%Z (printnarg thee) idx = j -> (0 <= j)%Z ->
    (j + Z.of_nat (length rest) < NOSH_MAXPOP)%Z ->
    (j + Z.of_nat (length rest)
     < Z.of_nat (length (zget [] (printcalc thee) idx)))%Z ->
    (j + Z.of_nat (length rest)
     <= Z.of_nat (length (zget [] (printop thee) idx)))%Z ->
    exists thee',
      parsePRINT_loop thee idx 1 (print_more_tokens rest ++ fin :: more)
      = (1%Z, thee', more) /\
      nprint thee' = (nprint thee + 1)%Z /\
      printwhat thee' = printwhat thee /\
      zget 0%Z (printnarg thee') idx = (j + Z.of_nat (length rest) + 1)%Z /\
      take (Z.to_nat (j + 1 + Z.of_nat (length rest)))
           (zget [] (printcalc thee') idx)
      = take (Z.to_nat (j + 1)) (zget [] (printcalc thee) idx)
        ++ map snd rest /\
      take (Z.to_nat (j + Z.of_nat (length rest)))
           (zget [] (printop thee') idx)
      = take (Z.to_nat j) (zget [] (printop thee) idx)
        ++ map (fun a => fst (fst a)) rest.
Proof.
  intros Hfin Hplus Hminus Hwf.
  induction Hwf as [|[[op tok] val] rest Ha Hwf IH];
    intros thee idx j Hi1 Hi2 Hi3 Hj Hj0 Hpop Hc Ho.
  - cbn [print_more_tokens flat_map app NOsh_parsePRINT_loop].
    rewrite Hfin. cbn [Z.eqb negb]. eexists. split; [reflexivity|].
    cbn [set_printnarg set_nprint nprint printwhat printnarg printcalc
         printop length map].
    split; [reflexivity|]. split; [reflexivity|].
    rewrite zget_zset_eq by lia. rewrite Hj, !app_nil_r.
    split; [lia|]. split; f_equal; lia.
  - cbn [fst snd] in Ha. destruct Ha as (Hop & Hsc & Hend).
    cbn [length] in Hpop, Hc, Ho.
    assert (Hend' : (Vstring_strcasecmp tok "end" =? 0)%Z = false)
      by (apply Z.eqb_neq; exact Hend).
    (* the state after the operation and the token *)
    set (thee1 := print_push_op thee idx op).
    set (thee2 :=
           set_printcalc thee1
             (zset (printcalc thee1) idx
                   (zset (zget [] (printcalc thee1) idx)
                         (zget 0%Z (printnarg thee1) idx) val))).
    assert (N1 : zget 0%Z (printnarg thee1) idx = (j + 1)%Z).
    { unfold thee1, print_push_op. cbn [set_printnarg set_printop printnarg].
      rewrite zget_zset_eq by lia. lia. }
    assert (Hstep :
      parsePRINT_loop thee idx 1
        (print_more_tokens ((op, tok, val) :: rest) ++ fin :: more)
      = parsePRINT_loop thee2 idx 1
          (print_more_tokens rest ++ fin :: more)).
    { cbn [print_more_tokens flat_map fst snd app].
      fold (print_more_tokens rest).
      assert (Hge : (zget 0%Z (printnarg thee1) idx >=? NOSH_MAXPOP)%Z
                    = false).
      { rewrite N1. destruct (Z.geb_spec (j + 1) NOSH_MAXPOP); [lia|].
        reflexivity. }
      destruct Hop as [-> | ->].
      - change (op_token 0) with "+".
        cbn [NOsh_parsePRINT_loop].
        change (Vstring_strcasecmp "+" "end" =? 0)%Z with false.
        rewrite Hplus.
        change (Vstring_strcasecmp "+" "+" =? 0)%Z with true.
        cbn [Z.eqb]. cbv zeta. fold thee1. rewrite Hge.
        rewrite Hend', Hsc. reflexivity.
      - change (op_token 1) with "-".
        cbn [NOsh_parsePRINT_loop].
        change (Vstring_strcasecmp "-" "end" =? 0)%Z with false.
        rewrite Hminus.
        change (Vstring_strcasecmp "-" "+" =? 0)%Z with false.
        change (Vstring_strcasecmp "-" "-" =? 0)%Z with true.
        cbn [Z.eqb]. cbv zeta. fold thee1. rewrite Hge.
        rewrite Hend', Hsc. reflexivity. }
    rewrite Hstep.
    assert (C2 : zget [] (printcalc thee2) idx
                 = zset (zget [] (printcalc thee) idx) (j + 1) val).
    { unfold thee2. cbn [set_printcalc printcalc].
      rewrite N1. unfold thee1, print_push_op.
      cbn [set_printnarg set_printop printcalc].
      rewrite zget_zset_eq by lia. reflexivity. }
    assert (O2 : zget [] (printop thee2) idx
                 = zset (zget [] (printop thee) idx) j op).
    { unfold thee2, thee1, print_push_op.
      cbn [set_printcalc set_printnarg set_printop printop].
      rewrite zget_zset_eq by lia. rewrite Hj. reflexivity. }
    assert (N2 : zget 0%Z (printnarg thee2) idx = (j + 1)%Z)
      by exact N1.
    destruct (IH thee2 idx (j + 1)%Z)
      as (thee' & E & Hn & Hw & Ha' & Hc' & Ho').
    + unfold thee2, thee1, print_push_op.
      cbn [set_printcalc set_printnarg set_printop printnarg].
      rewrite length_zset. exact Hi1.
    + unfold thee2. cbn [set_printcalc printcalc]. rewrite length_zset.
      exact Hi2.
    + unfold thee2, thee1, print_push_op.
      cbn [set_printcalc set_printnarg set_printop printop].
      rewrite length_zset. exact Hi3.
    + exact N2.
    + lia.
    + lia.
    + rewrite C2, length_zset. lia.
    + rewrite O2, length_zset. lia.
    + exists thee'. split; [exact E|].
      split; [rewrite Hn; reflexivity|].
      split; [rewrite Hw; reflexivity|].
      split; [rewrite Ha'; cbn [length]; lia|].
      cbn [length map fst snd].
      split.
      * replace (j + 1 + Z.of_nat (S (length rest)))%Z
          with (j + 1 + 1 + Z.of_nat (length rest))%Z by lia.
        rewrite Hc', C2, take_zset_next_gen by lia.
        rewrite <- app_assoc. reflexivity.
      * replace (j + Z.of_nat (S (length rest)))%Z
          with (j + 1 + Z.of_nat (length rest))%Z by lia.
        rewrite Ho', O2, take_zset_next_gen by lia.
        rewrite <- app_assoc. reflexivity.
Qed.

(** X20.  [NOsh_parsePRINT] accepts a well-formed statement, whatever
    the case of its keywords: [energy], a token that scans as an
    integer, then pairs of [+] or [-] and such a token, fewer than
    [NOSH_MAXPOP] of them, then [end].  It returns 1 with the socket
    just after [end], counts the statement in [nprint], and leaves in
    its slot the number of arguments, the integers in order and the
    operations in order (0 for [+], 1 for [-]).  The slot must be there:
    the arrays hold the index [nprint], and its rows the arguments. *)
Theorem NOsh_parsePRINT_accepts (thee : NOsh) kw fin t0 v0 rest more :
  parsed thee = 0%Z ->
  (0 <= nprint thee < NOSH_MAXPRINT)%Z ->
  Vstring_strcasecmp kw "energy" = 0%Z ->
  Vstring_strcasecmp fin "end" = 0%Z ->
  sscanf_d "+" = None -> sscanf_d "-" = None ->
  sscanf_d t0 = Some v0 -> Vstring_strcasecmp t0 "end" <> 0%Z ->
  Forall (fun a : Z * String.string * Z =>
            (fst (fst a) = 0 \/ fst (fst a) = 1)%Z /\
            sscanf_d (snd (fst a)) = Some (snd a) /\
            Vstring_strcasecmp (snd (fst a)) "end" <> 0%Z) rest ->
  (Z.of_nat (length rest) < NOSH_MAXPOP)%Z ->
  (nprint thee < Z.of_nat (length (printwhat thee)))%Z ->
  (nprint thee < Z.of_nat (length (printnarg thee)))%Z ->
  (nprint thee < Z.of_nat (length (printcalc thee)))%Z ->
  (nprint thee < Z.of_nat (length (printop thee)))%Z ->
  (length rest < length (zget [] (printcalc thee) (nprint thee)))%nat ->
  (length rest <= length (zget [] (printop thee) (nprint thee)))%nat ->
  exists thee',
    parsePRINT thee (kw :: t0 :: print_more_tokens rest ++ fin :: more)
    = (1%Z, thee', more) /\
    nprint thee' = (nprint thee + 1)%Z /\
    zget 0%Z (printwhat thee') (nprint thee) = 0%Z /\
    zget 0%Z (printnarg thee') (nprint thee)
    = (Z.of_nat (length rest) + 1)%Z /\
    take (S (length rest)) (zget [] (printcalc thee') (nprint thee))
    = v0 :: map snd rest /\
    take (length rest) (zget [] (printop thee') (nprint thee))
    = map (fun a => fst (fst a)) rest.
Proof.
  intros Hp Hn Hkw Hfin Hplus Hminus Hs0 He0 Hwf Hpop L0 L1 L2 L3 Lc Lo.
  unfold NOsh_parsePRINT. rewrite Hp. cbn [Z.eqb negb].
  destruct (Z.geb_spec (nprint thee) NOSH_MAXPRINT) as [G|_]; [lia|].
  rewrite Hkw. cbn [Z.eqb]. cbv zeta.
  set (idx := nprint thee) in *.
  set (thee0 :=
         set_printnarg (set_printwhat thee (zset (printwhat thee) idx 0%Z))
           (zset (printnarg
                    (set_printwhat thee (zset (printwhat thee) idx 0%Z)))
                 idx 0%Z)).
  assert (N0 : zget 0%Z (printnarg thee0) idx = 0%Z).
  { unfold thee0. cbn [set_printnarg set_printwhat printnarg].
    apply zget_zset_eq. lia. }
  cbn [NOsh_parsePRINT_loop].
  assert (He0' : (Vstring_strcasecmp t0 "end" =? 0)%Z = false)
    by (apply Z.eqb_neq; exact He0).
  rewrite He0', Hs0. cbn [Z.eqb]. rewrite N0.
  set (thee1 :=
         set_printcalc thee0
           (zset (printcalc thee0) idx
                 (zset (zget [] (printcalc thee0) idx) 0 v0))).
  assert (C1 : zget [] (printcalc thee1) idx
               = zset (zget [] (printcalc thee) idx) 0 v0).
  { unfold thee1. cbn [set_printcalc printcalc].
    unfold thee0. cbn [set_printnarg set_printwhat printcalc].
    rewrite zget_zset_eq by lia. reflexivity. }
  destruct (parsePRINT_loop_accepts fin more rest Hfin Hplus Hminus Hwf
              thee1 idx 0%Z)
    as (thee' & E & Hn' & Hw' & Ha' & Hc' & Ho').
  - unfold thee1, thee0.
    cbn [set_printcalc set_printnarg set_printwhat printnarg].
    rewrite length_zset. lia.
  - unfold thee1, thee0.
    cbn [set_printcalc set_printnarg set_printwhat printcalc].
    rewrite length_zset. lia.
  - unfold thee1, thee0.
    cbn [set_printcalc set_printnarg set_printwhat printop]. lia.
  - exact N0.
  - lia.
  - lia.
  - rewrite C1, length_zset. lia.
  - unfold thee1, thee0.
    cbn [set_printcalc set_printnarg set_printwhat printop]. lia.
  - exists thee'. split; [exact E|].
    split; [rewrite Hn'; reflexivity|].
    split.
    { rewrite Hw'. unfold thee1, thee0.
      cbn [set_printcalc set_printnarg set_printwhat printwhat].
      apply zget_zset_eq. lia. }
    split; [rewrite Ha'; lia|].
    split.
    + replace (S (length rest))
        with (Z.to_nat (0 + 1 + Z.of_nat (length rest))) by lia.
      rewrite Hc', C1.
      rewrite (take_zset_next_gen _ 0) by lia. reflexivity.
    + replace (length rest)
        with (Z.to_nat (0 + Z.of_nat (length rest))) at 1 by lia.
      rewrite Ho'. reflexivity.
Qed.

End NOsh_print.

Lemma NOsh_parsePRINT_accepts_witness :
  exists thee',
    NOsh_parsePRINT 2 4 scan_int NOsh_example
      ["ENERGY"; "1"; "-"; "2"; "End"; "quit"]%string
    = (1%Z, thee', ["quit"]%string) /\
    nprint thee' = 1%Z /\
    take 2 (zget [] (printcalc thee') 0) = [1; 2]%Z /\
    take 1 (zget [] (printop thee') 0) = [1%Z].
Proof.
  destruct (NOsh_parsePRINT_accepts unit unit unit 2 4 scan_int
              NOsh_example "ENERGY"%string "End"%string "1"%string 1%Z
              [(1%Z, "2"%string, 2%Z)] ["quit"%string])
    as (thee' & E & Hn & _ & _ & Hc & Ho);
    try reflexivity; try (simpl; lia); try discriminate.
  - repeat constructor; discriminate.
  - exists thee'. split; [exact E|]. split; [exact Hn|].
    split; [exact Hc|exact Ho].
Defined.

Section NOsh_read.

Local Open Scope string_scope.

Variables Vcom MGparm FEMparm : Type.
Variable VMAX_ARGLEN : Z.

Local Abbreviation NOsh := (NOsh Vcom MGparm FEMparm).
Local Abbreviation parseREAD_loop :=
  (NOsh_parseREAD_loop (Vcom := Vcom) (MGparm := MGparm)
     (FEMparm := FEMparm) VMAX_ARGLEN).
Local Abbreviation parseREAD :=
  (NOsh_parseREAD (Vcom := Vcom) (MGparm := MGparm) (FEMparm := FEMparm)
     VMAX_ARGLEN).

Lemma kept_refl {A} n (l : list A) : kept n l l.
Proof. split; [reflexivity|]. intros; reflexivity. Qed.

Lemma kept_trans {A} n n' (l1 l2 l3 : list A) :
  (n <= n')%Z -> kept n l1 l2 -> kept n' l2 l3 -> kept n l1 l3.
Proof.
  intros Hn [L1 K1] [L2 K2]. split; [congruence|].
  intros j Hj. rewrite K2 by lia. apply K1. exact Hj.
Qed.

Lemma kept_zset {A} n (l : list A) i x :
  (n <= i)%Z -> kept n l (zset l i x).
Proof.
  intros Hi. split; [apply length_zset|].
  intros j Hj. unfold zset. destruct (Z.ltb_spec i 0); [reflexivity|].
  apply list_lookup_insert_ne. lia.
Qed.

Lemma read_frame_refl (thee : NOsh) : read_frame thee thee.
Proof.
  exists (nmol thee), (ncharge thee), (ndiel thee), (nkappa thee),
    (molfmt thee), (molpath thee), (dielfmt thee), (dielXpath thee),
    (dielYpath thee), (dielZpath thee), (kappafmt thee), (kappapath thee),
    (chargefmt thee), (chargepath thee).
  split; [destruct thee; reflexivity|].
  split; [lia|]. repeat split; intros; reflexivity.
Qed.

Lemma read_frame_trans (a b c : NOsh) :
  read_frame a b -> read_frame b c -> read_frame a c.
Proof.
  intros (nm & nc & nd & nk & mf & mp & df & dx & dy & dz & kf & kp & cf
          & cp & -> & Hn & [M1 M2] & (D1 & D2 & D3 & D4) & [K1 K2]
          & [C1 C2])
         (nm' & nc' & nd' & nk' & mf' & mp' & df' & dx' & dy' & dz' & kf'
          & kp' & cf' & cp' & -> & Hn' & [M1' M2'] & (D1' & D2' & D3' & D4')
          & [K1' K2'] & [C1' C2']).
  cbn [with_read nmol ncharge ndiel nkappa molfmt molpath dielfmt
       dielXpath dielYpath dielZpath kappafmt kappapath chargefmt
       chargepath] in *.
  exists nm', nc', nd', nk', mf', mp', df', dx', dy', dz', kf', kp', cf',
    cp'.
  split; [reflexivity|]. split; [lia|].
  repeat split; eapply kept_trans; try eassumption; lia.
Qed.

(** One assignment sequence of the loop keeps the frame. *)
Ltac read_frame_step :=
  unfold read_frame;
  do 14 eexists; split; [reflexivity|];
  cbn [set_molfmt set_molpath set_nmol set_dielfmt set_dielXpath
       set_dielYpath set_dielZpath set_ndiel set_kappafmt set_kappapath
       set_nkappa set_chargefmt set_chargepath set_ncharge
       nmol ncharge ndiel nkappa molfmt molpath dielfmt dielXpath
       dielYpath dielZpath kappafmt kappapath chargefmt chargepath];
  split; [lia|];
  repeat split;
  try apply kept_refl; try (apply kept_zset; lia);
  try apply length_zset;
  intros; unfold zset;
  repeat match goal with
         | |- context [(?i <? 0)%Z] => destruct (Z.ltb_spec i 0)
         end;
  try reflexivity; apply list_lookup_insert_ne; lia.

Lemma frame_read_store (thee : NOsh) it :
  read_frame thee (read_store VMAX_ARGLEN thee it).
Proof. destruct it; read_frame_step. Qed.

Lemma outcome_fail (thee thee1 : NOsh) sock :
  read_frame thee thee1 -> read_outcome thee sock (0%Z, thee1, []).
Proof.
  intros F. unfold read_outcome. cbn [fst snd].
  split; [left; reflexivity|]. split; [exact F|].
  split; [reflexivity|discriminate].
Qed.

Lemma outcome_go (thee thee1 : NOsh) pre sock r :
  read_frame thee thee1 ->
  read_outcome thee1 sock r -> read_outcome thee (pre ++ sock) r.
Proof.
  intros F (Hrc & F' & H0 & H1). unfold read_outcome.
  split; [exact Hrc|]. split; [eapply read_frame_trans; eassumption|].
  split; [exact H0|]. intros E. destruct (H1 E) as (pre' & tok & -> & Ht).
  exists (pre ++ pre'), tok. rewrite <- app_assoc. split; [reflexivity|].
  exact Ht.
Qed.

Lemma parseREAD_loop_outcome (m : nat) : forall sock (thee : NOsh),
  (length sock <= m)%nat ->
  read_outcome thee sock (parseREAD_loop thee sock).
Proof.
  induction m as [|m IH]; intros sock thee Hlen.
  { destruct sock; [|simpl in Hlen; lia].
    apply outcome_fail, read_frame_refl. }
  destruct sock as [|tok sock1];
    [apply outcome_fail, read_frame_refl|].
  cbn [length] in Hlen.
  cbn [NOsh_parseREAD_loop].
  destruct (Z.eqb_spec (Vstring_strcasecmp tok "end") 0) as [Hend|_].
  { unfold read_outcome. cbn [fst snd].
    split; [right; reflexivity|]. split; [apply read_frame_refl|].
    split; [discriminate|]. intros _. exists [], tok.
    split; [reflexivity|exact Hend]. }
  destruct (Vstring_strcasecmp tok "mol" =? 0)%Z.
  { destruct sock1 as [|tok1 sock2];
      [apply outcome_fail, read_frame_refl|].
    cbn [length] in Hlen.
    destruct (Vstring_strcasecmp tok1 "pqr" =? 0)%Z.
    - destruct sock2 as [|tok2 sock3];
        [apply outcome_fail, read_frame_refl|].
      cbn [length] in Hlen. cbv zeta.
      eapply (outcome_go thee _ [tok; tok1; tok2]); [|apply IH; lia];
        read_frame_step.
    - eapply (outcome_go thee _ [tok; tok1]); [|apply IH; lia];
        apply read_frame_refl. }
  destruct (Vstring_strcasecmp tok "diel" =? 0)%Z.
  { destruct sock1 as [|tok1 sock2];
      [apply outcome_fail, read_frame_refl|].
    cbn [length] in Hlen.
    destruct (Vstring_strcasecmp tok1 "dx" =? 0)%Z.
    - destruct sock2 as [|tokx sock3];
        [apply outcome_fail, read_frame_refl|].
      cbn [length] in Hlen. cbv zeta.
      destruct sock3 as [|toky sock4];
        [apply outcome_fail; read_frame_step|].
      cbn [length] in Hlen.
      destruct sock4 as [|tokz sock5];
        [apply outcome_fail; read_frame_step|].
      cbn [length] in Hlen.
      eapply (outcome_go thee _ [tok; tok1; tokx; toky; tokz]);
        [|apply IH; lia];
        read_frame_step.
    - eapply (outcome_go thee _ [tok; tok1]); [|apply IH; lia];
        apply read_frame_refl. }
  destruct (Vstring_strcasecmp tok "kappa" =? 0)%Z.
  { destruct sock1 as [|tok1 sock2];
      [apply outcome_fail, read_frame_refl|].
    cbn [length] in Hlen.
    destruct (Vstring_strcasecmp tok1 "dx" =? 0)%Z.
    - destruct sock2 as [|tok2 sock3];
        [apply outcome_fail, read_frame_refl|].
      cbn [length] in Hlen. cbv zeta.
      eapply (outcome_go thee _ [tok; tok1; tok2]); [|apply IH; lia];
        read_frame_step.
    - eapply (outcome_go thee _ [tok; tok1]); [|apply IH; lia];
        apply read_frame_refl. }
  destruct (Vstring_strcasecmp tok "charge" =? 0)%Z.
  { destruct sock1 as [|tok1 sock2];
      [apply outcome_fail, read_frame_refl|].
    cbn [length] in Hlen.
    destruct (Vstring_strcasecmp tok1 "dx" =? 0)%Z.
    - destruct sock2 as [|tok2 sock3];
        [apply outcome_fail, read_frame_refl|].
      cbn [length] in Hlen. cbv zeta.
      eapply (outcome_go thee _ [tok; tok1; tok2]); [|apply IH; lia];
        read_frame_step.
    - eapply (outcome_go thee _ [tok; tok1]); [|apply IH; lia];
        apply read_frame_refl. }
  eapply (outcome_go thee _ [tok]); [|apply IH; lia];
        apply read_frame_refl.
Qed.

(** *** The room the section needs *)

Lemma count_kw_cons kw tok l :
  count_kw kw (tok :: l)
  = ((if (Vstring_strcasecmp tok kw =? 0)%Z then 1 else 0)
     + count_kw kw l)%Z.
Proof.
  unfold count_kw. cbn [List.filter].
  destruct (Vstring_strcasecmp tok kw =? 0)%Z; cbn [length]; lia.
Qed.

Lemma count_kw_nonneg kw l : (0 <= count_kw kw l)%Z.
Proof. unfold count_kw. lia. Qed.

Lemma count_kw_drop kw pre l :
  (count_kw kw l <= count_kw kw (pre ++ l))%Z.
Proof.
  induction pre as [|t pre IH]; cbn [app]; [lia|].
  rewrite count_kw_cons.
  destruct (Vstring_strcasecmp t kw =? 0)%Z; lia.
Qed.

Lemma count_kw_hit kw tok pre l :
  (Vstring_strcasecmp tok kw =? 0)%Z = true ->
  (1 + count_kw kw l <= count_kw kw (tok :: pre ++ l))%Z.
Proof.
  intros E. rewrite count_kw_cons, E.
  pose proof (count_kw_drop kw pre l). lia.
Qed.

(** The room left after the assignments of the loop. *)
Ltac room_step :=
  match goal with
  | H : read_room _ _ _ _ _ |- read_room _ _ _ _ _ =>
      unfold read_room in H |- *;
      cbn [set_molfmt set_molpath set_nmol set_dielfmt set_dielXpath
           set_dielYpath set_dielZpath set_ndiel set_kappafmt
           set_kappapath set_nkappa set_chargefmt set_chargepath
           set_ncharge nmol ncharge ndiel nkappa molfmt molpath dielfmt
           dielXpath dielYpath dielZpath kappafmt kappapath chargefmt
           chargepath];
      rewrite ?length_zset; lia
  end.

(** The counts of the keywords in what is left of the socket. *)
Ltac counts pre l :=
  pose proof (count_kw_drop "mol" pre l);
  pose proof (count_kw_drop "diel" pre l);
  pose proof (count_kw_drop "kappa" pre l);
  pose proof (count_kw_drop "charge" pre l);
  pose proof (count_kw_nonneg "mol" l);
  pose proof (count_kw_nonneg "diel" l);
  pose proof (count_kw_nonneg "kappa" l);
  pose proof (count_kw_nonneg "charge" l);
  cbn [app] in *.

Lemma parseREAD_loop_room (m : nat) :
  forall sock (thee : NOsh) nm nd nk nc,
  (length sock <= m)%nat ->
  (count_kw "mol" sock <= nm)%Z -> (count_kw "diel" sock <= nd)%Z ->
  (count_kw "kappa" sock <= nk)%Z -> (count_kw "charge" sock <= nc)%Z ->
  read_room thee nm nd nk nc ->
  read_room (snd (fst (parseREAD_loop thee sock))) 0 0 0 0.
Proof.
  induction m as [|m IH]; intros sock thee nm nd nk nc Hlen Cm Cd Ck Cc Hr.
  { destruct sock; [|simpl in Hlen; lia].
    counts (@nil String.string) (@nil String.string).
    cbn [NOsh_parseREAD_loop fst snd]. room_step. }
  destruct sock as [|tok sock1].
  { counts (@nil String.string) (@nil String.string).
    cbn [NOsh_parseREAD_loop fst snd]. room_step. }
  cbn [length] in Hlen.
  cbn [NOsh_parseREAD_loop].
  destruct (Vstring_strcasecmp tok "end" =? 0)%Z.
  { counts [tok] sock1. cbn [fst snd]. room_step. }
  destruct (Vstring_strcasecmp tok "mol" =? 0)%Z eqn:Em.
  { destruct sock1 as [|tok1 sock2].
    { counts [tok] (@nil String.string). cbn [fst snd]. room_step. }
    cbn [length] in Hlen.
    destruct (Vstring_strcasecmp tok1 "pqr" =? 0)%Z.
    - destruct sock2 as [|tok2 sock3].
      { counts [tok; tok1] (@nil String.string). cbn [fst snd].
        room_step. }
      cbn [length] in Hlen. cbv zeta.
      pose proof (count_kw_hit "mol" tok [tok1; tok2] sock3 Em).
      counts [tok; tok1; tok2] sock3.
      apply (IH sock3 _ (nm - 1)%Z nd nk nc); try lia. room_step.
    - counts [tok; tok1] sock2.
      apply (IH sock2 _ nm nd nk nc); try lia. exact Hr. }
  destruct (Vstring_strcasecmp tok "diel" =? 0)%Z eqn:Ed.
  { destruct sock1 as [|tok1 sock2].
    { counts [tok] (@nil String.string). cbn [fst snd]. room_step. }
    cbn [length] in Hlen.
    destruct (Vstring_strcasecmp tok1 "dx" =? 0)%Z.
    - destruct sock2 as [|tokx sock3].
      { counts [tok; tok1] (@nil String.string). cbn [fst snd].
        room_step. }
      cbn [length] in Hlen. cbv zeta.
      destruct sock3 as [|toky sock4].
      { counts [tok; tok1; tokx] (@nil String.string). cbn [fst snd].
        room_step. }
      cbn [length] in Hlen.
      destruct sock4 as [|tokz sock5].
      { counts [tok; tok1; tokx; toky] (@nil String.string).
        cbn [fst snd]. room_step. }
      cbn [length] in Hlen.
      pose proof (count_kw_hit "diel" tok [tok1; tokx; toky; tokz] sock5
                    Ed).
      counts [tok; tok1; tokx; toky; tokz] sock5.
      apply (IH sock5 _ nm (nd - 1)%Z nk nc); try lia. room_step.
    - counts [tok; tok1] sock2.
      apply (IH sock2 _ nm nd nk nc); try lia. exact Hr. }
  destruct (Vstring_strcasecmp tok "kappa" =? 0)%Z eqn:Ek.
  { destruct sock1 as [|tok1 sock2].
    { counts [tok] (@nil String.string). cbn [fst snd]. room_step. }
    cbn [length] in Hlen.
    destruct (Vstring_strcasecmp tok1 "dx" =? 0)%Z.
    - destruct sock2 as [|tok2 sock3].
      { counts [tok; tok1] (@nil String.string). cbn [fst snd].
        room_step. }
      cbn [length] in Hlen. cbv zeta.
      pose proof (count_kw_hit "kappa" tok [tok1; tok2] sock3 Ek).
      counts [tok; tok1; tok2] sock3.
      apply (IH sock3 _ nm nd (nk - 1)%Z nc); try lia. room_step.
    - counts [tok; tok1] sock2.
      apply (IH sock2 _ nm nd nk nc); try lia. exact Hr. }
  destruct (Vstring_strcasecmp tok "charge" =? 0)%Z eqn:Ec.
  { destruct sock1 as [|tok1 sock2].
    { counts [tok] (@nil String.string). cbn [fst snd]. room_step. }
    cbn [length] in Hlen.
    destruct (Vstring_strcasecmp tok1 "dx" =? 0)%Z.
    - destruct sock2 as [|tok2 sock3].
      { counts [tok; tok1] (@nil String.string). cbn [fst snd].
        room_step. }
      cbn [length] in Hlen. cbv zeta.
      pose proof (count_kw_hit "charge" tok [tok1; tok2] sock3 Ec).
      counts [tok; tok1; tok2] sock3.
      apply (IH sock3 _ nm nd nk (nc - 1)%Z); try lia. room_step.
    - counts [tok; tok1] sock2.
      apply (IH sock2 _ nm nd nk nc); try lia. exact Hr. }
  counts [tok] sock1.
  apply (IH sock1 _ nm nd nk nc); try lia. exact Hr.
Qed.

(** X21.  With room in the READ arrays for as many more entries of each
    kind as the socket has tokens [mol], [diel], [kappa] and [charge]
    (in any case), whatever the tokens, [NOsh_parseREAD] returns 0 or 1.
    It returns 1 only with the socket just after a token [end], and 0
    only with the socket used up, or at once when the file was parsed
    already.  It changes nothing but the READ members of the object: the
    four counts do not go down, they stay within the arrays, and the
    entries below them are kept, also when it fails in the middle of a
    statement. *)
Theorem NOsh_parseREAD_outcome (thee : NOsh) sock :
  read_room thee (count_kw "mol" sock) (count_kw "diel" sock)
            (count_kw "kappa" sock) (count_kw "charge" sock) ->
  (parsed thee <> 0%Z -> parseREAD thee sock = (0%Z, thee, sock)) /\
  (parsed thee = 0%Z -> read_outcome thee sock (parseREAD thee sock)) /\
  ((forall tok, tok ∈ sock -> Vstring_strcasecmp tok "end" <> 0%Z) ->
   fst (fst (parseREAD thee sock)) = 0%Z) /\
  read_room (snd (fst (parseREAD thee sock))) 0 0 0 0.
Proof.
  intros Hroom.
  assert (R0 : read_room thee 0 0 0 0).
  { pose proof (count_kw_nonneg "mol" sock).
    pose proof (count_kw_nonneg "diel" sock).
    pose proof (count_kw_nonneg "kappa" sock).
    pose proof (count_kw_nonneg "charge" sock).
    unfold read_room in *. lia. }
  unfold NOsh_parseREAD.
  destruct (Z.eqb_spec (parsed thee) 0) as [Hp|Hp]; cbn [negb].
  - split; [contradiction|].
    pose proof (parseREAD_loop_outcome (length sock) sock thee ltac:(lia))
      as O.
    split; [intros _; exact O|].
    split.
    + intros Hno. destruct O as ([E|E] & _ & _ & H1); [exact E|].
      destruct (H1 E) as (pre & tok & Hs & Ht).
      exfalso. apply (Hno tok); [|exact Ht].
      rewrite Hs. apply elem_of_app. right. left.
    + apply (parseREAD_loop_room (length sock) sock thee
               (count_kw "mol" sock) (count_kw "diel" sock)
               (count_kw "kappa" sock) (count_kw "charge" sock));
        [lia|lia|lia|lia|lia|exact Hroom].
  - split; [reflexivity|]. split; [contradiction|].
    split; [reflexivity|exact R0].
Qed.

(** *** Well-formed sections *)

Ltac keywords :=
  repeat match goal with
         | |- context [(Vstring_strcasecmp ?a ?b =? 0)%Z] =>
             let v := eval vm_compute in (Vstring_strcasecmp a b =? 0)%Z in
             change (Vstring_strcasecmp a b =? 0)%Z with v
         end.

(** One round of the loop on a socket whose first token is known; the
    rest of the socket is kept abstract while the body is unfolded. *)
Ltac read_round :=
  match goal with
  | |- context [NOsh_parseREAD_loop _ _ (_ :: ?s)] =>
      let s1 := fresh "s" in
      let E := fresh "E" in
      remember s as s1 eqn:E;
      cbn [NOsh_parseREAD_loop];
      subst s1;
      keywords;
      cbv beta iota
  end.

Lemma parseREAD_loop_item (thee : NOsh) it rest :
  parseREAD_loop thee (read_tokens it ++ rest)
  = parseREAD_loop (read_store VMAX_ARGLEN thee it) rest.
Proof.
  destruct it; cbn [read_tokens app]; read_round; keywords;
    cbv beta iota; reflexivity.
Qed.

Lemma parseREAD_loop_items fin more items : forall thee : NOsh,
  Vstring_strcasecmp fin "end" = 0%Z ->
  parseREAD_loop thee (flat_map read_tokens items ++ fin :: more)
  = (1%Z, fold_left (read_store VMAX_ARGLEN) items thee, more).
Proof.
  induction items as [|it items IH]; intros thee Hfin.
  - cbn [flat_map app fold_left NOsh_parseREAD_loop].
    rewrite Hfin. reflexivity.
  - cbn [flat_map fold_left]. rewrite <- app_assoc.
    rewrite parseREAD_loop_item. apply IH. exact Hfin.
Qed.

Lemma read_store_counts items : forall thee : NOsh,
  let thee' := fold_left (read_store VMAX_ARGLEN) items thee in
  nmol thee' = (nmol thee + Z.of_nat (length (mol_paths items)))%Z /\
  ndiel thee' = (ndiel thee + Z.of_nat (length (diel_paths items)))%Z /\
  nkappa thee' = (nkappa thee + Z.of_nat (length (kappa_paths items)))%Z /\
  ncharge thee'
  = (ncharge thee + Z.of_nat (length (charge_paths items)))%Z /\
  parsed thee' = parsed thee.
Proof.
  unfold mol_paths, diel_paths, kappa_paths, charge_paths.
  induction items as [|it items IH]; intros thee.
  - simpl. repeat split; lia.
  - cbn [fold_left]. cbv zeta.
    destruct (IH (read_store VMAX_ARGLEN thee it)) as (A & B & C & D & E).
    rewrite A, B, C, D, E.
    destruct it; cbn [read_store with_read nmol ndiel nkappa ncharge parsed
                      flat_map app length];
      repeat split; lia.
Qed.

Lemma read_frame_fold items : forall thee : NOsh,
  read_frame thee (fold_left (read_store VMAX_ARGLEN) items thee).
Proof.
  induction items as [|it items IH]; intros thee; cbn [fold_left].
  - apply read_frame_refl.
  - eapply read_frame_trans; [apply frame_read_store|apply IH].
Qed.

Lemma read_frame_fields (a b : NOsh) :
  read_frame a b ->
  (kept (nmol a) (molfmt a) (molfmt b) /\
   kept (nmol a) (molpath a) (molpath b)) /\
  (kept (ndiel a) (dielfmt a) (dielfmt b) /\
   kept (ndiel a) (dielXpath a) (dielXpath b) /\
   kept (ndiel a) (dielYpath a) (dielYpath b) /\
   kept (ndiel a) (dielZpath a) (dielZpath b)) /\
  (kept (nkappa a) (kappafmt a) (kappafmt b) /\
   kept (nkappa a) (kappapath a) (kappapath b)) /\
  (kept (ncharge a) (chargefmt a) (chargefmt b) /\
   kept (ncharge a) (chargepath a) (chargepath b)).
Proof.
  intros (nm & nc & nd & nk & mf & mp & df & dx & dy & dz & kf & kp & cf
          & cp & -> & _ & M & D & K & C).
  cbn [with_read molfmt molpath dielfmt dielXpath dielYpath dielZpath
       kappafmt kappapath chargefmt chargepath].
  tauto.
Qed.

Lemma stored_nil {A} (l : list A) i : stored l i [].
Proof. unfold stored. reflexivity. Qed.

(** An entry written at the index [n] and kept afterwards comes first
    in what is stored from [n] on. *)
Lemma stored_cons {A} (l1 l' : list A) n x xs :
  (0 <= n < Z.of_nat (length l1))%Z ->
  kept (n + 1) (zset l1 n x) l' ->
  stored l' (n + 1) xs ->
  stored l' n (x :: xs).
Proof.
  intros Hn [_ K] St. unfold stored in *.
  assert (E : l' !! Z.to_nat n = Some x).
  { rewrite (K (Z.to_nat n)) by lia. unfold zset.
    destruct (Z.ltb_spec n 0); [lia|].
    apply list_lookup_insert_eq. lia. }
  rewrite (drop_S _ _ _ E). cbn [length take]. f_equal.
  replace (S (Z.to_nat n)) with (Z.to_nat (n + 1)) by lia. exact St.
Qed.

Lemma read_store_entries items : forall thee : NOsh,
  read_room thee (Z.of_nat (length (mol_paths items)))
            (Z.of_nat (length (diel_paths items)))
            (Z.of_nat (length (kappa_paths items)))
            (Z.of_nat (length (charge_paths items))) ->
  let thee' := fold_left (read_store VMAX_ARGLEN) items thee in
  (stored (molfmt thee') (nmol thee)
          (map (fun _ => 0%Z) (mol_paths items)) /\
   stored (molpath thee') (nmol thee)
          (map (fun p => strncpy p VMAX_ARGLEN) (mol_paths items))) /\
  (stored (dielfmt thee') (ndiel thee)
          (map (fun _ => 0%Z) (diel_paths items)) /\
   stored (dielXpath thee') (ndiel thee)
          (map (fun d => strncpy (fst (fst d)) VMAX_ARGLEN)
               (diel_paths items)) /\
   stored (dielYpath thee') (ndiel thee)
          (map (fun d => strncpy (snd (fst d)) VMAX_ARGLEN)
               (diel_paths items)) /\
   stored (dielZpath thee') (ndiel thee)
          (map (fun d => strncpy (snd d) VMAX_ARGLEN)
               (diel_paths items))) /\
  (stored (kappafmt thee') (nkappa thee)
          (map (fun _ => 0%Z) (kappa_paths items)) /\
   stored (kappapath thee') (nkappa thee)
          (map (fun p => strncpy p VMAX_ARGLEN) (kappa_paths items))) /\
  (stored (chargefmt thee') (ncharge thee)
          (map (fun _ => 0%Z) (charge_paths items)) /\
   stored (chargepath thee') (ncharge thee)
          (map (fun p => strncpy p VMAX_ARGLEN) (charge_paths items))).
Proof.
  unfold mol_paths, diel_paths, kappa_paths, charge_paths.
  induction items as [|it items IH]; intros thee Hroom; cbv zeta.
  - cbn [flat_map map fold_left]. repeat split; apply stored_nil.
  - cbn [fold_left].
    pose proof (read_frame_fields _ _
                  (read_frame_fold items (read_store VMAX_ARGLEN thee it)))
      as ((K1 & K2) & (K3 & K4 & K5 & K6) & (K7 & K8) & (K9 & K10)).
    assert (Hroom1 :
      read_room (read_store VMAX_ARGLEN thee it)
        (Z.of_nat (length (flat_map
           (fun it => match it with read_mol p => [p] | _ => [] end)
           items)))
        (Z.of_nat (length (flat_map
           (fun it => match it with
                      | read_diel x y z => [(x, y, z)]
                      | _ => []
                      end) items)))
        (Z.of_nat (length (flat_map
           (fun it => match it with read_kappa p => [p] | _ => [] end)
           items)))
        (Z.of_nat (length (flat_map
           (fun it => match it with read_charge p => [p] | _ => [] end)
           items)))).
    { unfold read_room in Hroom |- *.
      destruct it;
        cbn [read_store with_read nmol ndiel nkappa ncharge molfmt
             molpath dielfmt dielXpath dielYpath dielZpath kappafmt
             kappapath chargefmt chargepath flat_map app length]
          in Hroom |- *;
        rewrite ?length_zset; lia. }
    destruct (IH _ Hroom1)
      as ((I1 & I2) & (I3 & I4 & I5 & I6) & (I7 & I8) & (I9 & I10)).
    unfold read_room in Hroom.
    destruct it;
      cbn [read_store with_read nmol ndiel nkappa ncharge molfmt molpath
           dielfmt dielXpath dielYpath dielZpath kappafmt kappapath
           chargefmt chargepath flat_map app map length fst snd] in *;
      repeat split;
      first [assumption
            |eapply stored_cons; [|eassumption|eassumption]; lia].
Qed.

(** X22.  With room in the READ arrays for the statements,
    [NOsh_parseREAD] accepts every sequence of the statements
    [mol pqr path], [diel dx xpath ypath zpath], [kappa dx path] and
    [charge dx path] closed by [end]: it returns 1 with the socket just
    after [end], each count has gone up by the number of statements of
    its kind, and the arrays hold, from the old count on and in the
    order of the statements, the format 0 and the path (its first
    [VMAX_ARGLEN] characters) of each statement; the entries below the
    old counts are kept.  The paths are taken by position: any token is
    read as a path, a keyword too. *)
Theorem NOsh_parseREAD_accepts (thee : NOsh) items fin more :
  parsed thee = 0%Z ->
  Vstring_strcasecmp fin "end" = 0%Z ->
  read_room thee (Z.of_nat (length (mol_paths items)))
            (Z.of_nat (length (diel_paths items)))
            (Z.of_nat (length (kappa_paths items)))
            (Z.of_nat (length (charge_paths items))) ->
  let thee' := fold_left (read_store VMAX_ARGLEN) items thee in
  parseREAD thee (flat_map read_tokens items ++ fin :: more)
  = (1%Z, thee', more) /\
  nmol thee' = (nmol thee + Z.of_nat (length (mol_paths items)))%Z /\
  ndiel thee' = (ndiel thee + Z.of_nat (length (diel_paths items)))%Z /\
  nkappa thee' = (nkappa thee + Z.of_nat (length (kappa_paths items)))%Z /\
  ncharge thee'
  = (ncharge thee + Z.of_nat (length (charge_paths items)))%Z /\
  (stored (molfmt thee') (nmol thee)
          (map (fun _ => 0%Z) (mol_paths items)) /\
   stored (molpath thee') (nmol thee)
          (map (fun p => strncpy p VMAX_ARGLEN) (mol_paths items))) /\
  (stored (dielfmt thee') (ndiel thee)
          (map (fun _ => 0%Z) (diel_paths items)) /\
   stored (dielXpath thee') (ndiel thee)
          (map (fun d => strncpy (fst (fst d)) VMAX_ARGLEN)
               (diel_paths items)) /\
   stored (dielYpath thee') (ndiel thee)
          (map (fun d => strncpy (snd (fst d)) VMAX_ARGLEN)
               (diel_paths items)) /\
   stored (dielZpath thee') (ndiel thee)
          (map (fun d => strncpy (snd d) VMAX_ARGLEN)
               (diel_paths items))) /\
  (stored (kappafmt thee') (nkappa thee)
          (map (fun _ => 0%Z) (kappa_paths items)) /\
   stored (kappapath thee') (nkappa thee)
          (map (fun p => strncpy p VMAX_ARGLEN) (kappa_paths items))) /\
  (stored (chargefmt thee') (ncharge thee)
          (map (fun _ => 0%Z) (charge_paths items)) /\
   stored (chargepath thee') (ncharge thee)
          (map (fun p => strncpy p VMAX_ARGLEN) (charge_paths items))) /\
  read_frame thee thee'.
Proof.
  intros Hp Hfin Hroom thee'. split.
  - unfold NOsh_parseREAD. rewrite Hp. cbn [Z.eqb negb].
    apply parseREAD_loop_items. exact Hfin.
  - destruct (read_store_counts items thee) as (A & B & C & D & _).
    destruct (read_store_entries items thee Hroom) as (M & Di & K & Ch).
    repeat (split; [assumption|]).
    apply read_frame_fold.
Qed.

End NOsh_read.

Lemma NOsh_parseREAD_outcome_witness :
  let sock := ["mol"; "pqr"; "end"; "diel"; "dx"; "x.dx"; "y.dx"; "z.dx";
               "END"; "print"]%string in
  read_room NOsh_example (count_kw "mol"%string sock) (count_kw "diel"%string sock)
            (count_kw "kappa"%string sock) (count_kw "charge"%string sock) /\
  (parsed NOsh_example = 0%Z ->
   read_outcome NOsh_example sock (NOsh_parseREAD 8 NOsh_example sock)) /\
  read_room (snd (fst (NOsh_parseREAD 8 NOsh_example sock))) 0 0 0 0.
Proof.
  intros sock.
  assert (Hroom : read_room NOsh_example
                    (count_kw "mol"%string sock) (count_kw "diel"%string sock)
                    (count_kw "kappa"%string sock) (count_kw "charge"%string sock)).
  { unfold read_room. vm_compute. repeat split; discriminate. }
  split; [exact Hroom|].
  destruct (NOsh_parseREAD_outcome unit unit unit 8 NOsh_example sock
              Hroom) as (_ & H2 & _ & H4).
  split; [exact H2|exact H4].
Defined.

Lemma NOsh_parseREAD_accepts_witness :
  let items := [read_mol "end"; read_diel "x.dx" "y.dx" "z.dx"]%string in
  let thee' := fold_left (read_store 8) items NOsh_example in
  read_room NOsh_example 1 1 0 0 /\
  NOsh_parseREAD 8 NOsh_example
    ["mol"; "pqr"; "end"; "diel"; "dx"; "x.dx"; "y.dx"; "z.dx"; "END";
     "print"]%string
  = (1%Z, thee', ["print"]%string) /\
  nmol thee' = 1%Z /\ ndiel thee' = 1%Z /\
  stored (molpath thee') 0 ["end"%string] /\
  stored (dielXpath thee') 0 ["x.dx"%string] /\
  stored (dielYpath thee') 0 ["y.dx"%string] /\
  stored (dielZpath thee') 0 ["z.dx"%string].
Proof.
  intros items thee'.
  assert (Hroom : read_room NOsh_example 1 1 0 0).
  { unfold read_room. vm_compute. repeat split; discriminate. }
  split; [exact Hroom|].
  destruct (NOsh_parseREAD_accepts unit unit unit 8 NOsh_example items
              "END"%string ["print"%string] eq_refl eq_refl Hroom)
    as (P & Nm & Nd & _ & _ & (_ & Mp) & (_ & Dx & Dy & Dz) & _).
  split; [exact P|].
  split; [exact Nm|]. split; [exact Nd|].
  split; [exact Mp|]. split; [exact Dx|]. split; [exact Dy|exact Dz].
Defined.

Section NOsh_parse.

Local Open Scope string_scope.

Variables Vcom MGparm FEMparm : Type.
Variables NOSH_MAXCALC NOSH_MAXPRINT NOSH_MAXPOP VMAX_ARGLEN : Z.
Variable sscanf_d : String.string -> option Z.
Variable FEMparm_ctor : option FEMparm.
Variable Vio_accept : Vio -> Z.
Variable NOsh_parseMG :
  NOsh Vcom MGparm FEMparm -> Vio -> Z -> Z * NOsh Vcom MGparm FEMparm * Vio.

Local Abbreviation NOsh := (NOsh Vcom MGparm FEMparm).
Local Abbreviation parseREAD :=
  (NOsh_parseREAD (Vcom := Vcom) (MGparm := MGparm) (FEMparm := FEMparm)
     VMAX_ARGLEN).
Local Abbreviation parsePRINT :=
  (NOsh_parsePRINT (Vcom := Vcom) (MGparm := MGparm) (FEMparm := FEMparm)
     NOSH_MAXPRINT NOSH_MAXPOP sscanf_d).
Local Abbreviation parseELEC :=
  (NOsh_parseELEC NOSH_MAXCALC FEMparm_ctor NOsh_parseMG).
Local Abbreviation parse_loop :=
  (NOsh_parse_loop NOSH_MAXCALC NOSH_MAXPRINT NOSH_MAXPOP VMAX_ARGLEN
     sscanf_d FEMparm_ctor NOsh_parseMG).
Local Abbreviation parse :=
  (NOsh_parse NOSH_MAXCALC NOSH_MAXPRINT NOSH_MAXPOP VMAX_ARGLEN
     sscanf_d FEMparm_ctor Vio_accept NOsh_parseMG).

Lemma parseREAD_suffix (thee : NOsh) sock :
  snd (parseREAD thee sock) `suffix_of` sock.
Proof.
  unfold NOsh_parseREAD.
  destruct (negb (parsed thee =? 0)%Z); [reflexivity|].
  destruct (parseREAD_loop_outcome Vcom MGparm FEMparm VMAX_ARGLEN
              (length sock) sock thee ltac:(lia))
    as ([E|E] & _ & H0 & H1).
  - rewrite (H0 E). apply suffix_nil.
  - destruct (H1 E) as (pre & tok & Hs & _).
    exists (pre ++ [tok]). rewrite <- app_assoc. exact Hs.
Qed.

Lemma parsePRINT_suffix (thee : NOsh) sock :
  snd (parsePRINT thee sock) `suffix_of` sock.
Proof.
  unfold NOsh_parsePRINT.
  destruct (negb (parsed thee =? 0)%Z); [reflexivity|].
  destruct (nprint thee >=? NOSH_MAXPRINT)%Z; [reflexivity|].
  destruct sock as [|tok sock]; [reflexivity|].
  destruct (Vstring_strcasecmp tok "energy" =? 0)%Z;
    [|apply suffix_cons_r; reflexivity].
  cbv zeta.
  match goal with
  | |- snd (NOsh_parsePRINT_loop _ _ ?t ?i ?e _) `suffix_of` _ =>
      destruct (parsePRINT_loop_frame Vcom MGparm FEMparm NOSH_MAXPOP
                  sscanf_d sock t i e) as (rc & thee' & sock' & E & _ & Hs & _)
  end.
  rewrite E. apply suffix_cons_r. exact Hs.
Qed.

Lemma parseELEC_suffix (thee : NOsh) sock :
  (forall t s k, snd (NOsh_parseMG t s k) `suffix_of` s) ->
  snd (parseELEC thee sock) `suffix_of` sock.
Proof.
  intros HMG. unfold NOsh_parseELEC.
  destruct (negb (parsed thee =? 0)%Z); [reflexivity|].
  destruct (ncalc thee >=? NOSH_MAXCALC)%Z; [reflexivity|].
  cbv zeta. destruct sock as [|tok sock]; [reflexivity|].
  repeat match goal with
         | |- context [if (Vstring_strcasecmp tok ?k =? 0)%Z then _ else _] =>
             destruct (Vstring_strcasecmp tok k =? 0)%Z;
               [try (apply suffix_cons_r; apply HMG)|]
         end;
    try (apply suffix_cons_r; reflexivity).
  destruct (_ >=? NOSH_MAXCALC)%Z; [apply suffix_cons_r; reflexivity|].
  unfold NOsh_parseFEM.
  destruct (femparm _); [|apply suffix_cons_r; reflexivity].
  destruct (negb _); apply suffix_cons_r; reflexivity.
Qed.

Lemma parse_loop_total :
  (forall t s k, snd (NOsh_parseMG t s k) `suffix_of` s) ->
  forall (fuel : nat) sock (thee : NOsh),
    (length sock < fuel)%nat ->
    exists rc thee' sock',
      parse_loop fuel thee sock = Some (rc, thee', sock') /\
      (rc = 0 \/ rc = 1)%Z /\ sock' `suffix_of` sock.
Proof.
  intros HMG. induction fuel as [|fuel IH]; intros sock thee Hlen; [lia|].
  destruct sock as [|tok sock1].
  { eexists _, _, _. split; [reflexivity|].
    split; [right; reflexivity|reflexivity]. }
  cbn [length] in Hlen. cbn [NOsh_parse_loop].
  assert (Hsub : forall (r : Z * NOsh * Vio),
            snd r `suffix_of` sock1 ->
            exists rc thee' sock',
              (let '(rc, thee, sock2) := r in
               if (rc =? 0)%Z then Some (0%Z, thee, sock2)
               else parse_loop fuel thee sock2)
              = Some (rc, thee', sock') /\
              (rc = 0 \/ rc = 1)%Z /\ sock' `suffix_of` tok :: sock1).
  { intros [[rc t] s2] Hs. cbn [snd] in Hs.
    destruct (rc =? 0)%Z.
    - eexists _, _, _. split; [reflexivity|].
      split; [left; reflexivity|]. apply suffix_cons_r. exact Hs.
    - destruct (IH s2 t) as (rc' & t' & s' & E & Hrc & Hs').
      { apply suffix_length in Hs. lia. }
      exists rc', t', s'. split; [exact E|]. split; [exact Hrc|].
      apply suffix_cons_r. etransitivity; eassumption. }
  destruct (Vstring_strcasecmp tok "read" =? 0)%Z;
    [apply Hsub, parseREAD_suffix|].
  destruct (Vstring_strcasecmp tok "print" =? 0)%Z;
    [apply Hsub, parsePRINT_suffix|].
  destruct (Vstring_strcasecmp tok "elec" =? 0)%Z;
    [apply Hsub, parseELEC_suffix, HMG|].
  destruct (Vstring_strcasecmp tok "quit" =? 0)%Z.
  { eexists _, _, _. split; [reflexivity|].
    split; [right; reflexivity|]. apply suffix_cons_r. reflexivity. }
  destruct (IH sock1 thee ltac:(lia)) as (rc' & t' & s' & E & Hrc & Hs').
  exists rc', t', s'. split; [exact E|]. split; [exact Hrc|].
  apply suffix_cons_r. exact Hs'.
Qed.

Lemma parse_loop_mono (fuel : nat) : forall sock (thee : NOsh) r,
  parse_loop fuel thee sock = Some r ->
  forall fuel' : nat, (fuel <= fuel')%nat ->
    parse_loop fuel' thee sock = Some r.
Proof.
  induction fuel as [|fuel IH]; intros sock thee r E fuel' Hf;
    [discriminate|].
  destruct fuel' as [|fuel']; [lia|].
  cbn [NOsh_parse_loop] in *.
  destruct sock as [|tok sock1]; [exact E|].
  assert (Hsub : forall (p : Z * NOsh * Vio),
            (let '(rc, thee, sock2) := p in
             if (rc =? 0)%Z then Some (0%Z, thee, sock2)
             else parse_loop fuel thee sock2) = Some r ->
            (let '(rc, thee, sock2) := p in
             if (rc =? 0)%Z then Some (0%Z, thee, sock2)
             else parse_loop fuel' thee sock2) = Some r).
  { intros [[rc t] s2] H. destruct (rc =? 0)%Z; [exact H|].
    apply (IH _ _ _ H). lia. }
  destruct (Vstring_strcasecmp tok "read" =? 0)%Z; [apply Hsub, E|].
  destruct (Vstring_strcasecmp tok "print" =? 0)%Z; [apply Hsub, E|].
  destruct (Vstring_strcasecmp tok "elec" =? 0)%Z; [apply Hsub, E|].
  destruct (Vstring_strcasecmp tok "quit" =? 0)%Z; [exact E|].
  apply (IH _ _ _ E). lia.
Qed.

Lemma parse_loop_parsed (fuel : nat) : forall sock (thee : NOsh) rc thee' sock',
  parse_loop fuel thee sock = Some (rc, thee', sock') ->
  rc <> 0%Z -> rc = 1%Z /\ parsed thee' = 1%Z.
Proof.
  induction fuel as [|fuel IH]; intros sock thee rc thee' sock' E Hrc;
    [discriminate|].
  cbn [NOsh_parse_loop] in E.
  destruct sock as [|tok sock1].
  { injection E as <- <- <-. split; reflexivity. }
  assert (Hsub : forall (p : Z * NOsh * Vio),
            (let '(rc, thee, sock2) := p in
             if (rc =? 0)%Z then Some (0%Z, thee, sock2)
             else parse_loop fuel thee sock2) = Some (rc, thee', sock') ->
            rc = 1%Z /\ parsed thee' = 1%Z).
  { intros [[rc0 t] s2] H. destruct (rc0 =? 0)%Z.
    - injection H as <- <- <-. contradiction.
    - apply (IH _ _ _ _ _ H Hrc). }
  destruct (Vstring_strcasecmp tok "read" =? 0)%Z; [apply (Hsub _ E)|].
  destruct (Vstring_strcasecmp tok "print" =? 0)%Z; [apply (Hsub _ E)|].
  destruct (Vstring_strcasecmp tok "elec" =? 0)%Z; [apply (Hsub _ E)|].
  destruct (Vstring_strcasecmp tok "quit" =? 0)%Z.
  { injection E as <- <- <-. split; reflexivity. }
  apply (IH _ _ _ _ _ E Hrc).
Qed.

(** X23.  [NOsh_parse] comes to an end: if [NOsh_parseMG] leaves a
    suffix of the socket it is given, then with more rounds than tokens
    the loop returns, 0 or 1, with a suffix of the socket, and more
    rounds give the same result. *)
Theorem NOsh_parse_total (fuel : nat) (thee : NOsh) sock :
  (forall t s k, snd (NOsh_parseMG t s k) `suffix_of` s) ->
  (length sock < fuel)%nat ->
  exists rc thee' sock',
    parse fuel thee sock = Some (rc, thee', sock') /\
    (rc = 0 \/ rc = 1)%Z /\
    sock' `suffix_of` sock /\
    forall fuel' : nat, (fuel <= fuel')%nat ->
      parse fuel' thee sock = Some (rc, thee', sock').
Proof.
  intros HMG Hlen. unfold NOsh_parse.
  destruct (negb (parsed thee =? 0)%Z).
  { exists 0%Z, thee, sock. split; [reflexivity|].
    split; [left; reflexivity|]. split; reflexivity. }
  destruct (Vio_accept sock <? 0)%Z.
  { exists 0%Z, thee, sock. split; [reflexivity|].
    split; [left; reflexivity|]. split; reflexivity. }
  destruct (parse_loop_total HMG fuel sock thee Hlen)
    as (rc & thee' & sock' & E & Hrc & Hs).
  exists rc, thee', sock'. split; [exact E|]. split; [exact Hrc|].
  split; [exact Hs|]. intros fuel' Hf.
  apply (parse_loop_mono fuel _ _ _ E). exact Hf.
Qed.

(** X24.  An input file is parsed once.  [NOsh_parse] returns 0 and
    changes nothing when the object is marked as parsed or
    [Vio_accept] fails.  When it returns a value other than 0, that
    value is 1 and the object is marked as parsed, so that every later
    call returns 0 and changes nothing. *)
Theorem NOsh_parse_once (fuel : nat) (thee : NOsh) sock :
  (parsed thee <> 0%Z \/ (Vio_accept sock < 0)%Z ->
   parse fuel thee sock = Some (0%Z, thee, sock)) /\
  (forall rc thee' sock',
     parse fuel thee sock = Some (rc, thee', sock') ->
     rc <> 0%Z ->
     rc = 1%Z /\ parsed thee' = 1%Z /\
     forall (fuel2 : nat) sock2,
       parse fuel2 thee' sock2 = Some (0%Z, thee', sock2)).
Proof.
  split.
  - unfold NOsh_parse. intros [H|H].
    + destruct (Z.eqb_spec (parsed thee) 0); [contradiction|reflexivity].
    + destruct (negb (parsed thee =? 0)%Z); [reflexivity|].
      destruct (Z.ltb_spec (Vio_accept sock) 0); [reflexivity|lia].
  - intros rc thee' sock' E Hrc. unfold NOsh_parse in E.
    destruct (negb (parsed thee =? 0)%Z).
    { injection E as <- <- <-. contradiction. }
    destruct (Vio_accept sock <? 0)%Z.
    { injection E as <- <- <-. contradiction. }
    destruct (parse_loop_parsed fuel _ _ _ _ _ E Hrc) as [-> Hp].
    split; [reflexivity|]. split; [exact Hp|].
    intros fuel2 sock2. unfold NOsh_parse. rewrite Hp. reflexivity.
Qed.

(** *** An ELEC section for the finite element method *)

Lemma strcasecmp_upper tok kw :
  Vstring_strcasecmp tok kw = 0%Z -> upper tok = upper kw.
Proof.
  unfold Vstring_strcasecmp.
  destruct (String.eqb_spec (upper tok) (upper kw)); [trivial|discriminate].
Qed.


End NOsh_parse.

Lemma NOsh_parse_total_witness :
  exists rc thee' sock',
    NOsh_parse 2 2 4 8 scan_int (None : option unit) (fun _ => 0%Z)
      (fun t s _ => (1%Z, t, s)) 7 NOsh_example
      ["read"; "mol"; "pqr"; "a.pqr"; "end"; "quit"]%string
    = Some (rc, thee', sock') /\
    (rc = 0 \/ rc = 1)%Z.
Proof.
  destruct (NOsh_parse_total unit unit unit 2 2 4 8 scan_int
              (None : option unit) (fun _ => 0%Z)
              (fun t s _ => (1%Z, t, s)) 7 NOsh_example
              ["read"; "mol"; "pqr"; "a.pqr"; "end"; "quit"]%string)
    as (rc & thee' & sock' & E & Hrc & _).
  - intros t s k. reflexivity.
  - simpl. lia.
  - exists rc, thee', sock'. split; [exact E|exact Hrc].
Defined.


Section NOsh_ctor_props.

Variables Vcom MGparm FEMparm : Type.
Variable NOSH_MAXCALC : Z.

Local Abbreviation NOsh := (NOsh Vcom MGparm FEMparm).

Lemma fold_zset_length {A} (c0 : A) l : forall cs,
  length (fold_left (fun cs i => zset cs i c0) l cs) = length cs.
Proof.
  induction l as [|x l IH]; intros cs; [reflexivity|].
  cbn [fold_left]. rewrite IH. apply length_zset.
Qed.

Lemma fold_zset_other {A} (d c0 : A) l : forall cs i,
  i ∉ l -> zget d (fold_left (fun cs i => zset cs i c0) l cs) i = zget d cs i.
Proof.
  induction l as [|x l IH]; intros cs i Hi; [reflexivity|].
  cbn [fold_left]. apply not_elem_of_cons in Hi as [Hx Hl].
  rewrite IH by exact Hl. apply zget_zset_ne. congruence.
Qed.

Lemma fold_zset_in {A} (d c0 : A) l : forall cs i,
  i ∈ l -> (0 <= i < Z.of_nat (length cs))%Z ->
  zget d (fold_left (fun cs i => zset cs i c0) l cs) i = c0.
Proof.
  induction l as [|x l IH]; intros cs i Hi Hr; [inversion Hi|].
  cbn [fold_left]. destruct (decide (i ∈ l)) as [Hl|Hl].
  - apply IH; [exact Hl|rewrite length_zset; exact Hr].
  - apply elem_of_cons in Hi as [->|Hi]; [|contradiction].
    rewrite fold_zset_other by exact Hl. apply zget_zset_eq. exact Hr.
Qed.

Lemma ctor2_calc_loop l : forall thee : NOsh,
  fold_left
    (fun thee i =>
       set_calc thee (zset (calc thee) i (mkNOsh_calc None None (-1))))
    l thee
  = set_calc thee
      (fold_left (fun cs i => zset cs i (mkNOsh_calc None None (-1)))
                 l (calc thee)).
Proof.
  induction l as [|x l IH]; intros thee.
  - destruct thee. reflexivity.
  - cbn [fold_left]. rewrite IH. reflexivity.
Qed.

(** X26.  [NOsh_ctor] never stops on its [VASSERT]: [NOsh_ctor2] always
    returns 1.  The object it returns is not yet parsed, its counts
    [ncalc], [nmol], [ncharge], [ndiel], [nkappa], [nprint] are 0, and
    the first [NOSH_MAXCALC] calculations have no parameter objects and
    the type -1.  The count [nelec], which [NOsh_parseELEC] increments,
    is not initialised: it keeps the value the memory held. *)
Theorem NOsh_ctor_initial (thee0 : NOsh) (com0 : Vcom) :
  exists thee,
    NOsh_ctor NOSH_MAXCALC thee0 com0 = Ok thee /\
    com thee = com0 /\ ispara thee = 0%Z /\ parsed thee = 0%Z /\
    ncalc thee = 0%Z /\ nmol thee = 0%Z /\ ncharge thee = 0%Z /\
    ndiel thee = 0%Z /\ nkappa thee = 0%Z /\ nprint thee = 0%Z /\
    nelec thee = nelec thee0 /\
    length (calc thee) = length (calc thee0) /\
    (forall i, (0 <= i < NOSH_MAXCALC)%Z ->
               (i < Z.of_nat (length (calc thee0)))%Z ->
               zget (NOsh_calc_null MGparm FEMparm) (calc thee) i
               = mkNOsh_calc None None (-1)) /\
    (forall i, ~ (0 <= i < NOSH_MAXCALC)%Z ->
               zget (NOsh_calc_null MGparm FEMparm) (calc thee) i
               = zget (NOsh_calc_null MGparm FEMparm) (calc thee0) i).
Proof.
  unfold NOsh_ctor, NOsh_ctor2. cbv zeta. rewrite ctor2_calc_loop.
  cbn [Z.eqb]. eexists. split; [reflexivity|].
  cbn [set_calc set_com set_ispara set_parsed set_ncalc set_nmol
       set_ncharge set_ndiel set_nkappa set_nprint
       com ispara parsed ncalc nmol ncharge ndiel nkappa nprint nelec calc].
  repeat (split; [reflexivity|]).
  split; [apply fold_zset_length|]. split.
  - intros i Hi Hl. apply fold_zset_in; [|lia].
    apply elem_of_seqZ. lia.
  - intros i Hi. apply fold_zset_other.
    rewrite elem_of_seqZ. lia.
Qed.

End NOsh_ctor_props.
